(** * A shallow embedding of the QR code library (qrcode.js) and its verification

    The JavaScript source is embedded function by function: numbers that the
    code keeps integral are [Z] with every 32-bit wrap-around written out,
    typed arrays are lists of [Z], strings are lists of UTF-16 code units,
    exceptions are an explicit [result] type and mutable objects are passed
    through as state.  The Reed-Solomon part is related to polynomials over
    the field with 256 elements built with MathComp. *)

From Stdlib Require Import ZArith List Lia Bool String Ascii.
From Stdlib Require Import PrimFloat FloatOps FloatAxioms SpecFloat Uint63.
From HB Require Import structures.
From mathcomp Require Import ssreflect ssrfun ssrbool eqtype ssrnat seq.
From mathcomp Require Import choice fintype bigop ssralg poly polydiv.

(* ===================================================================== *)
(** ** JavaScript primitives used by the library *)
(* ===================================================================== *)

Open Scope list_scope.
Open Scope Z_scope.

(** [value | 0]: the ToInt32 conversion, on a number that holds an integer. *)
Definition toInt32 (value : Z) : Z := (value + 2 ^ 31) mod 2 ^ 32 - 2 ^ 31.

(** The ToUint32 conversion that [>>>] and [Math.clz32] apply. *)
Definition toUint32 (value : Z) : Z := value mod 2 ^ 32.

(** The bitwise operators: both operands go through ToInt32, the shift count
    is taken modulo 32 and the result is a 32-bit integer again. *)
Definition js_and (a b : Z) : Z := Z.land (toInt32 a) (toInt32 b).
Definition js_or (a b : Z) : Z := Z.lor (toInt32 a) (toInt32 b).
Definition js_xor (a b : Z) : Z := Z.lxor (toInt32 a) (toInt32 b).
Definition js_not (a : Z) : Z := Z.lnot (toInt32 a).
Definition js_shl (a k : Z) : Z := toInt32 (Z.shiftl (toInt32 a) (k mod 32)).
Definition js_shr (a k : Z) : Z := Z.shiftr (toInt32 a) (k mod 32).
Definition js_ushr (a k : Z) : Z := Z.shiftr (toUint32 a) (k mod 32).

(** [a % b] on integers: the remainder has the sign of the dividend. *)
Definition js_rem (a b : Z) : Z := Z.rem a b.

(** [toInt32(a / b)] for integers [a], [b] with [b <> 0]: the quotient
    truncated towards zero. *)
Definition js_idiv (a b : Z) : Z := toInt32 (Z.quot a b).

(** Exceptions: every [throw new Error(message)] of the source. *)
Inductive exn : Type := Error (message : string).

Inductive result (A : Type) : Type :=
| Ok (value : A)
| Throw (e : exn).
Arguments Ok {A} value.
Arguments Throw {A} e.

Definition bind {A B : Type} (c : result A) (k : A -> result B) : result B :=
  match c with
  | Ok a => k a
  | Throw e => Throw e
  end.

Notation "x <- c ;; k" := (bind c (fun x => k))
  (at level 61, c at next level, right associativity).
Notation "' p <- c ;; k" := (bind c (fun x => match x with p => k end))
  (at level 61, p pattern, c at next level, right associativity).

Definition is_ok {A : Type} (r : result A) : bool :=
  match r with Ok _ => true | Throw _ => false end.

(** JavaScript strings are sequences of UTF-16 code units. *)
Definition jsstring : Type := list Z.

Definition str (s : string) : jsstring :=
  List.map (fun c => Z.of_N (N_of_ascii c)) (list_ascii_of_string s).

(** Typed arrays ([Int32Array], [Uint8Array], [Int8Array]) are lists of
    integers.  A read outside the array is [undefined], which every use in
    the library coerces to 0; a write outside the array is dropped. *)
Module TypedArray.

Definition make (length : Z) : list Z := List.repeat 0 (Z.to_nat length).

Definition get (a : list Z) (i : Z) : Z :=
  if i <? 0 then 0 else List.nth (Z.to_nat i) a 0.

Fixpoint update (a : list Z) (n : nat) (v : Z) : list Z :=
  match a, n with
  | nil, _ => nil
  | _ :: t, O => v :: t
  | h :: t, S k => h :: update t k v
  end.

Definition set (a : list Z) (i : Z) (v : Z) : list Z :=
  if i <? 0 then a else update a (Z.to_nat i) v.

(** [array.set(source, offset)] for a source that fits. *)
Fixpoint blit (a : list Z) (source : list Z) (offset : Z) : list Z :=
  match source with
  | nil => a
  | v :: rest => blit (set a offset v) rest (offset + 1)
  end.

(** [array.subarray(from, to)] and [array.subarray(from)]. *)
Definition subarray (a : list Z) (from to : Z) : list Z :=
  List.firstn (Z.to_nat (to - from)) (List.skipn (Z.to_nat from) a).

Definition len (a : list Z) : Z := Z.of_nat (List.length a).

End TypedArray.

(** The wrap-around of a store into a [Uint8Array] and an [Int8Array]. *)
Definition toUint8 (value : Z) : Z := value mod 256.
Definition toInt8 (value : Z) : Z := (value + 128) mod 256 - 128.

(* ===================================================================== *)
(** ** module utils *)
(* ===================================================================== *)

(** Get hamming weight of int32 (HD, Figure 5-2). *)
Definition hammingWeight (value : Z) : Z :=
  let value := value - js_and (js_shr value 1) 0x55555555 in
  let value := js_and value 0x33333333 + js_and (js_shr value 2) 0x33333333 in
  js_shr (js_and (value + js_shr value 4) 0xf0f0f0f * 0x1010101) 24.

Definition clz32 (value : Z) : Z :=
  let u := toUint32 value in
  if u =? 0 then 32 else 31 - Z.log2 u.

(** The position of the most significant bit set; 0 when there is none. *)
Definition findMSBSet (value : Z) : Z := 32 - clz32 value.

(** The division loop of [calculateBCHCode]: every round clears the highest
    set bit of [value], so 32 rounds are enough. *)
Fixpoint calculateBCHCode_loop (fuel : nat) (value poly msbSetInPoly : Z) : Z :=
  match fuel with
  | O => value
  | S fuel' =>
      if findMSBSet value >=? msbSetInPoly then
        calculateBCHCode_loop fuel'
          (js_xor value (js_shl poly (findMSBSet value - msbSetInPoly)))
          poly msbSetInPoly
      else value
  end.

Definition calculateBCHCode (value poly : Z) : Z :=
  let msbSetInPoly := findMSBSet poly in
  let value := js_shl value (msbSetInPoly - 1) in
  calculateBCHCode_loop 32 value poly msbSetInPoly.

Fixpoint accumulate_loop (n : nat) (array : list Z) (i : Z) (total : Z) : Z :=
  match n with
  | O => total
  | S n' => accumulate_loop n' array (i + 1) (total + TypedArray.get array i)
  end.

Definition accumulate (array : list Z) (start end_ : Z) : Z :=
  accumulate_loop (Z.to_nat (end_ - start)) array start 0.

Close Scope Z_scope.
Close Scope list_scope.

(* ===================================================================== *)
(** ** Counting loops *)
(* ===================================================================== *)

Open Scope list_scope.
Open Scope Z_scope.

(** [for (let i = from; i < to; i++) body]: the state after the loop. *)
Fixpoint for_loop {S : Type} (n : nat) (i : Z) (body : Z -> S -> S) (s : S) : S :=
  match n with
  | O => s
  | Datatypes.S n' => for_loop n' (i + 1) body (body i s)
  end.

Definition for_range {S : Type} (from to : Z) (body : Z -> S -> S) (s : S) : S :=
  for_loop (Z.to_nat (to - from)) from body s.

(** [for (let i = from; i >= to; i--) body]. *)
Fixpoint for_down_loop {S : Type} (n : nat) (i : Z) (body : Z -> S -> S) (s : S) : S :=
  match n with
  | O => s
  | Datatypes.S n' => for_down_loop n' (i - 1) body (body i s)
  end.

Definition for_down {S : Type} (from to : Z) (body : Z -> S -> S) (s : S) : S :=
  for_down_loop (Z.to_nat (from - to + 1)) from body s.

(** [Math.ceil(a / b)] for integers [a] and a positive integer [b]. *)
Definition ceil_div (a b : Z) : Z := - ((- a) / b).

(* ===================================================================== *)
(** ** module BitMatrix *)
(* ===================================================================== *)

Module BitMatrix.

Record t : Type := Build {
  width : Z;
  height : Z;
  rowSize : Z;
  bits : list Z
}.

Definition make (width height : Z) : t :=
  let rowSize := ceil_div width 32 in
  Build width height rowSize (TypedArray.make (rowSize * height)).

Definition offset (m : t) (x y : Z) : Z := y * rowSize m + js_idiv x 32.

Definition with_bits (m : t) (bits : list Z) : t :=
  Build (width m) (height m) (rowSize m) bits.

Definition set (m : t) (x y : Z) : t :=
  let o := offset m x y in
  with_bits m
    (TypedArray.set (bits m) o
       (js_or (TypedArray.get (bits m) o) (js_shl 1 (js_and x 0x1f)))).

Definition get (m : t) (x y : Z) : Z :=
  let o := offset m x y in
  js_and (js_ushr (TypedArray.get (bits m) o) (js_and x 0x1f)) 0x01.

(** [flip(x, y)] with both coordinates given. *)
Definition flip (m : t) (x y : Z) : t :=
  let o := offset m x y in
  with_bits m
    (TypedArray.set (bits m) o
       (js_xor (TypedArray.get (bits m) o) (js_shl 1 (js_and x 0x1f)))).

(** [flip()] without coordinates: every word is complemented. *)
Definition flipAll (m : t) : t := with_bits m (List.map js_not (bits m)).

(** [clone()] copies the words; values are immutable here. *)
Definition clone (m : t) : t := with_bits m (bits m).

Definition setRegion (m : t) (left top width height : Z) : t :=
  let right := left + width in
  let bottom := top + height in
  with_bits m
    (for_range top bottom (fun y bits =>
       let offset := y * rowSize m in
       for_range left right (fun x bits =>
         let o := offset + js_idiv x 32 in
         TypedArray.set bits o
           (js_or (TypedArray.get bits o) (js_shl 1 (js_and x 0x1f))))
         bits)
       (bits m)).

End BitMatrix.

(* ===================================================================== *)
(** ** module histogram *)
(* ===================================================================== *)

Definition LUMINANCE_BITS : Z := 5.
Definition LUMINANCE_SHIFT : Z := 8 - LUMINANCE_BITS.
Definition LUMINANCE_BUCKETS : Z := js_shl 1 LUMINANCE_BITS.

(** The state of the first scan of [calculateBlackPoint]. *)
Record peakScan : Type := PeakScan {
  firstPeak : Z;
  firstPeakSize : Z;
  maxBucketCount : Z
}.

Definition findFirstPeak (buckets : list Z) : peakScan :=
  for_range 0 (TypedArray.len buckets) (fun x s =>
    let b := TypedArray.get buckets x in
    let s1 := if b >? firstPeakSize s
              then PeakScan x b (maxBucketCount s) else s in
    if b >? maxBucketCount s1
    then PeakScan (firstPeak s1) (firstPeakSize s1) b else s1)
    (PeakScan 0 0 0).

(** The second scan: (secondPeak, secondPeakScore). *)
Definition findSecondPeak (buckets : list Z) (firstPeak : Z) : Z * Z :=
  for_range 0 (TypedArray.len buckets) (fun x s =>
    let distanceToBiggest := x - firstPeak in
    let score := TypedArray.get buckets x * distanceToBiggest * distanceToBiggest in
    if score >? snd s then (x, score) else s)
    (0, 0).

(** The valley scan: (bestValley, bestValleyScore). *)
Definition findBestValley (buckets : list Z) (firstPeak secondPeak maxBucketCount : Z)
  : Z * Z :=
  for_down (secondPeak - 1) (firstPeak + 1) (fun x s =>
    let fromFirst := x - firstPeak in
    let score := fromFirst * fromFirst * (secondPeak - x)
                 * (maxBucketCount - TypedArray.get buckets x) in
    if score >? snd s then (x, score) else s)
    (secondPeak - 1, -1).

(** The two peaks after "make sure firstPeak corresponds to the black peak". *)
Definition orderedPeaks (buckets : list Z) : Z * Z :=
  let s := findFirstPeak buckets in
  let firstPeak := firstPeak s in
  let secondPeak := fst (findSecondPeak buckets firstPeak) in
  if firstPeak >? secondPeak then (secondPeak, firstPeak) else (firstPeak, secondPeak).

Definition calculateBlackPoint (buckets : list Z) : Z :=
  let s := findFirstPeak buckets in
  let '(firstPeak, secondPeak) := orderedPeaks buckets in
  if secondPeak - firstPeak <=? LUMINANCE_BUCKETS / 16 then -1
  else
    let bestValley :=
      fst (findBestValley buckets firstPeak secondPeak (maxBucketCount s)) in
    js_shl bestValley LUMINANCE_SHIFT.

(** The 32 buckets filled from four rows of the middle of the image.  The
    quotients [(width * 4) / 5] are truncated by [toInt32]. *)
Definition histogramBuckets (luminances : list Z) (width height : Z) : list Z :=
  for_range 1 5 (fun y buckets =>
    let right := js_idiv (width * 4) 5 in
    let offset := js_idiv (height * y) 5 * width in
    for_range (js_idiv width 5) right (fun x buckets =>
      let pixel := TypedArray.get luminances (offset + x) in
      let b := js_shr pixel LUMINANCE_SHIFT in
      TypedArray.set buckets b (toInt32 (TypedArray.get buckets b + 1)))
      buckets)
    (TypedArray.make LUMINANCE_BUCKETS).

Definition histogram (luminances : list Z) (width height : Z) : BitMatrix.t :=
  let matrix := BitMatrix.make width height in
  let buckets := histogramBuckets luminances width height in
  let blackPoint := calculateBlackPoint buckets in
  if blackPoint >? 0 then
    for_range 0 height (fun y matrix =>
      let offset := y * width in
      for_range 0 width (fun x matrix =>
        let pixel := TypedArray.get luminances (offset + x) in
        if pixel <? blackPoint then BitMatrix.set matrix x y else matrix)
        matrix)
      matrix
  else matrix.

(* ===================================================================== *)
(** ** module index (binarizer) *)
(* ===================================================================== *)

Definition BLOCK_SIZE_POWER : Z := 3.
Definition MIN_DYNAMIC_RANGE : Z := 24.
Definition BLOCK_SIZE : Z := js_shl 1 BLOCK_SIZE_POWER.
Definition BLOCK_SIZE_MASK : Z := BLOCK_SIZE - 1.
Definition MINIMUM_DIMENSION : Z := BLOCK_SIZE * 5.

Definition calculateSubSize (size : Z) : Z :=
  let subSize := js_shr size BLOCK_SIZE_POWER in
  if js_and size BLOCK_SIZE_MASK =? 0 then subSize else subSize + 1.

Definition clamp (value max : Z) : Z :=
  if value <? 2 then 2 else Z.min value max.

Definition calculateOffset (offset max : Z) : Z :=
  let offset := js_shl offset BLOCK_SIZE_POWER in
  if offset >? max then max else offset.

(** The scan of one 8x8 block: the sum of all 64 pixels, and the minimum and
    maximum over the rows read before the dynamic range was met (the rows
    after that one are only summed). *)
Record blockScan : Type := BlockScan {
  scan_sum : Z;
  scan_min : Z;
  scan_max : Z;
  scan_quick : bool
}.

Definition scanBlock (luminances : list Z) (width offsetX offsetY : Z) : blockScan :=
  for_range 0 BLOCK_SIZE (fun y1 s =>
    let offset := (offsetY + y1) * width + offsetX in
    if scan_quick s then
      for_range 0 BLOCK_SIZE (fun x1 s =>
        BlockScan (scan_sum s + TypedArray.get luminances (offset + x1))
                  (scan_min s) (scan_max s) true) s
    else
      let s' :=
        for_range 0 BLOCK_SIZE (fun x1 s =>
          let pixel := TypedArray.get luminances (offset + x1) in
          BlockScan (scan_sum s + pixel)
                    (if pixel <? scan_min s then pixel else scan_min s)
                    (if pixel >? scan_max s then pixel else scan_max s)
                    false) s in
      BlockScan (scan_sum s') (scan_min s') (scan_max s')
                (scan_max s' - scan_min s' >? MIN_DYNAMIC_RANGE))
    (BlockScan 0 0xff 0 false).

(** The rows of black points are [Int32Array]s: the averages [min / 2] and
    [(above + 2 * left + diagonal) / 4] are truncated when stored, and the
    test [min < averageNeighborBlackPoint] is made on the exact quotient. *)
Definition blackPointAt (blackPoints : list (list Z)) (y x : Z) : Z :=
  TypedArray.get (List.nth (Z.to_nat y) blackPoints nil) x.

Definition calculateBlackPoints (luminances : list Z) (width height : Z)
  : list (list Z) :=
  let maxOffsetX := width - BLOCK_SIZE in
  let maxOffsetY := height - BLOCK_SIZE in
  let subWidth := calculateSubSize width in
  let subHeight := calculateSubSize height in
  for_range 0 subHeight (fun y blackPoints =>
    let offsetY := calculateOffset y maxOffsetY in
    let row :=
      for_range 0 subWidth (fun x row =>
        let offsetX := calculateOffset x maxOffsetX in
        let s := scanBlock luminances width offsetX offsetY in
        let min := scan_min s in
        let max := scan_max s in
        let average :=
          if max - min <=? MIN_DYNAMIC_RANGE then
            if (y >? 0) && (x >? 0) then
              let neighbours :=
                blackPointAt blackPoints (y - 1) x
                + 2 * TypedArray.get row (x - 1)
                + blackPointAt blackPoints (y - 1) (x - 1) in
              if 4 * min <? neighbours then Z.quot neighbours 4 else Z.quot min 2
            else Z.quot min 2
          else js_shr (scan_sum s) (BLOCK_SIZE_POWER * 2) in
        TypedArray.set row x (toInt32 average))
        (TypedArray.make subWidth) in
    blackPoints ++ (row :: nil))
    nil.

(** [luminances[offset + x] <= sum / 25] is decided on the integers. *)
Definition adaptiveThreshold (luminances : list Z) (width height : Z) : BitMatrix.t :=
  let maxOffsetX := width - BLOCK_SIZE in
  let maxOffsetY := height - BLOCK_SIZE in
  let subWidth := calculateSubSize width in
  let subHeight := calculateSubSize height in
  let blackPoints := calculateBlackPoints luminances width height in
  for_range 0 subHeight (fun y matrix =>
    let top := clamp y (subHeight - 3) in
    let offsetY := calculateOffset y maxOffsetY in
    for_range 0 subWidth (fun x matrix =>
      let left := clamp x (subWidth - 3) in
      let offsetX := calculateOffset x maxOffsetX in
      let sum :=
        for_range (-2) 3 (fun z sum =>
          sum + blackPointAt blackPoints (top + z) (left - 2)
              + blackPointAt blackPoints (top + z) (left - 1)
              + blackPointAt blackPoints (top + z) left
              + blackPointAt blackPoints (top + z) (left + 1)
              + blackPointAt blackPoints (top + z) (left + 2)) 0 in
      for_range 0 BLOCK_SIZE (fun y1 matrix =>
        let offset := (offsetY + y1) * width + offsetX in
        for_range 0 BLOCK_SIZE (fun x1 matrix =>
          if 25 * TypedArray.get luminances (offset + x1) <=? sum
          then BitMatrix.set matrix (offsetX + x1) (offsetY + y1)
          else matrix) matrix) matrix) matrix)
    (BitMatrix.make width height).

(** The integer part of a binary64 number (0 for NaN and the infinities). *)
Definition float_trunc (f : float) : Z :=
  match Prim2SF f with
  | S754_finite s m e =>
      let v := if 0 <=? e then Z.shiftl (Zpos m) e else Z.shiftr (Zpos m) (- e) in
      if s then - v else v
  | _ => 0
  end.

(** An integer that a binary64 number holds exactly (below 2^53). *)
Definition float_of_Z (z : Z) : float :=
  if z <? 0 then PrimFloat.opp (PrimFloat.of_uint63 (Uint63.of_Z (- z)))
  else PrimFloat.of_uint63 (Uint63.of_Z z).

(** The image handed to [binarize]: the RGBA bytes with the dimensions. *)
Record ImageData : Type := Image {
  data : list Z;
  image_width : Z;
  image_height : Z
}.

(** [r * 0.299 + g * 0.587 + b * 0.114] stored into a [Uint8Array]; a colour
    read past the end of [data] is [undefined] and makes the sum NaN. *)
Definition luminance (data : list Z) (colorIndex : Z) : Z :=
  match List.nth_error data (Z.to_nat colorIndex),
        List.nth_error data (Z.to_nat (colorIndex + 1)),
        List.nth_error data (Z.to_nat (colorIndex + 2)) with
  | Some r, Some g, Some b =>
      toUint8 (float_trunc
        (float_of_Z r * 0.299 + float_of_Z g * 0.587 + float_of_Z b * 0.114)%float)
  | _, _, _ => 0
  end.

(** [new Uint8Array(length)] throws a RangeError for a length that is
    negative or above 2^53 - 1, the largest index of the language.  Between
    the two the allocation is taken to succeed: whether an engine has the
    memory for it is not modelled. *)
Definition newUint8Array (length : Z) : result (list Z) :=
  if (length <? 0) || (2 ^ 53 - 1 <? length) then Throw (Error "RangeError")
  else Ok (TypedArray.make length).

(** The loop of [binarize] that stores the luminance of every pixel into
    the array it was given. *)
Definition toLuminances (image : ImageData) (luminances : list Z) : list Z :=
  let width := image_width image in
  let height := image_height image in
  for_range 0 height (fun y luminances =>
    let offset := y * width in
    for_range 0 width (fun x luminances =>
      let index := offset + x in
      let colorIndex := index * 4 in
      TypedArray.set luminances (offset + x) (luminance (data image) colorIndex))
      luminances)
    luminances.

(** [binarize] raises what [new Uint8Array(width * height)] raises; past
    that allocation [width * height] is a valid length, and so is the
    capacity [Math.ceil(width / 32) * height] that [histogram] and
    [adaptiveThreshold] hand to [new Int32Array]. *)
Definition binarize (image : ImageData) : result BitMatrix.t :=
  let width := image_width image in
  let height := image_height image in
  luminances <- newUint8Array (width * height) ;;
  let luminances := toLuminances image luminances in
  Ok (if (width <? MINIMUM_DIMENSION) || (height <? MINIMUM_DIMENSION)
      then histogram luminances width height
      else adaptiveThreshold luminances width height).

Close Scope Z_scope.
Close Scope list_scope.

(* ===================================================================== *)
(** ** The platform *)
(* ===================================================================== *)

Open Scope list_scope.
Open Scope Z_scope.

(** What the library takes from its host: [new TextDecoder(label).decode],
    [new TextEncoder().encode], and the two character tables that
    [getEncodingMapping] builds with the host's Shift-JIS and GB2312
    decoders ([SHIFT_JIS_MAPPING.get] and [GB2312_MAPPING.get]). *)
Record Platform : Type := {
  TextDecoder_decode : string -> list Z -> jsstring;
  TextEncoder_encode : jsstring -> list Z;
  SHIFT_JIS_MAPPING_get : jsstring -> option Z;
  GB2312_MAPPING_get : jsstring -> option Z
}.

(** [for (const character of content)]: a string is iterated by code point,
    a surrogate pair being one character of two code units. *)
Definition isHighSurrogate (c : Z) : bool := (0xd800 <=? c) && (c <=? 0xdbff).
Definition isLowSurrogate (c : Z) : bool := (0xdc00 <=? c) && (c <=? 0xdfff).

Fixpoint characters (content : jsstring) : list jsstring :=
  match content with
  | nil => nil
  | c :: rest =>
      match rest with
      | d :: rest' =>
          if isHighSurrogate c && isLowSurrogate d
          then (c :: d :: nil) :: characters rest'
          else (c :: nil) :: characters rest
      | nil => (c :: nil) :: nil
      end
  end.

(** [character.charCodeAt(0)] of a character of the iteration. *)
Definition charCodeAt0 (character : jsstring) : Z := List.nth 0 character 0.

(** [string.charAt(index)]: the empty string outside the string. *)
Definition charAt (s : jsstring) (index : Z) : jsstring :=
  if index <? 0 then nil
  else match List.nth_error s (Z.to_nat index) with
       | Some c => c :: nil
       | None => nil
       end.

Definition jsstring_eqb (a b : jsstring) : bool :=
  (Nat.eqb (List.length a) (List.length b))
  && List.forallb (fun p => fst p =? snd p) (List.combine a b).

(* ===================================================================== *)
(** ** module Charset *)
(* ===================================================================== *)

Inductive Charset : Type :=
| CP437 | ISO_8859_1 | ISO_8859_2 | ISO_8859_3 | ISO_8859_4 | ISO_8859_5
| ISO_8859_6 | ISO_8859_7 | ISO_8859_8 | ISO_8859_9 | ISO_8859_10
| ISO_8859_11 | ISO_8859_13 | ISO_8859_14 | ISO_8859_15 | ISO_8859_16
| SJIS | CP1250 | CP1251 | CP1252 | CP1256 | UTF_16BE | UTF_8 | ASCII
| BIG5 | GB18030 | EUC_KR.

Definition Charset_label (c : Charset) : string :=
  match c with
  | CP437 => "cp437" | ISO_8859_1 => "iso-8859-1" | ISO_8859_2 => "iso-8859-2"
  | ISO_8859_3 => "iso-8859-3" | ISO_8859_4 => "iso-8859-4"
  | ISO_8859_5 => "iso-8859-5" | ISO_8859_6 => "iso-8859-6"
  | ISO_8859_7 => "iso-8859-7" | ISO_8859_8 => "iso-8859-8"
  | ISO_8859_9 => "iso-8859-9" | ISO_8859_10 => "iso-8859-10"
  | ISO_8859_11 => "iso-8859-11" | ISO_8859_13 => "iso-8859-13"
  | ISO_8859_14 => "iso-8859-14" | ISO_8859_15 => "iso-8859-15"
  | ISO_8859_16 => "iso-8859-16" | SJIS => "sjis" | CP1250 => "cp1250"
  | CP1251 => "cp1251" | CP1252 => "cp1252" | CP1256 => "cp1256"
  | UTF_16BE => "utf-16be" | UTF_8 => "utf-8" | ASCII => "ascii"
  | BIG5 => "big5" | GB18030 => "gb18030" | EUC_KR => "euc-kr"
  end%string.

Definition Charset_values (c : Charset) : list Z :=
  match c with
  | CP437 => 0 :: 2 :: nil | ISO_8859_1 => 1 :: 3 :: nil
  | ISO_8859_2 => 4 :: nil | ISO_8859_3 => 5 :: nil | ISO_8859_4 => 6 :: nil
  | ISO_8859_5 => 7 :: nil | ISO_8859_6 => 8 :: nil | ISO_8859_7 => 9 :: nil
  | ISO_8859_8 => 10 :: nil | ISO_8859_9 => 11 :: nil
  | ISO_8859_10 => 12 :: nil | ISO_8859_11 => 13 :: nil
  | ISO_8859_13 => 15 :: nil | ISO_8859_14 => 16 :: nil
  | ISO_8859_15 => 17 :: nil | ISO_8859_16 => 18 :: nil | SJIS => 20 :: nil
  | CP1250 => 21 :: nil | CP1251 => 22 :: nil | CP1252 => 23 :: nil
  | CP1256 => 24 :: nil | UTF_16BE => 25 :: nil | UTF_8 => 26 :: nil
  | ASCII => 27 :: 170 :: nil | BIG5 => 28 :: nil | GB18030 => 29 :: nil
  | EUC_KR => 30 :: nil
  end.

(** The static members in the order of their declaration. *)
Definition CHARSETS : list Charset :=
  CP437 :: ISO_8859_1 :: ISO_8859_2 :: ISO_8859_3 :: ISO_8859_4 :: ISO_8859_5
  :: ISO_8859_6 :: ISO_8859_7 :: ISO_8859_8 :: ISO_8859_9 :: ISO_8859_10
  :: ISO_8859_11 :: ISO_8859_13 :: ISO_8859_14 :: ISO_8859_15 :: ISO_8859_16
  :: SJIS :: CP1250 :: CP1251 :: CP1252 :: CP1256 :: UTF_16BE :: UTF_8 :: ASCII
  :: BIG5 :: GB18030 :: EUC_KR :: nil.

(** [VALUES_TO_CHARSET]: every constructor call sets its values; a later
    entry for the same key would replace an earlier one. *)
Definition VALUES_TO_CHARSET : list (Z * Charset) :=
  List.rev (List.flat_map (fun c => List.map (fun v => (v, c)) (Charset_values c)) CHARSETS).

Fixpoint assoc_get {A : Type} (m : list (Z * A)) (key : Z) : option A :=
  match m with
  | nil => None
  | (k, v) :: rest => if k =? key then Some v else assoc_get rest key
  end.

Definition fromCharsetValue (value : Z) : result Charset :=
  match assoc_get VALUES_TO_CHARSET value with
  | Some charset => Ok charset
  | None => Throw (Error "illegal charset value")
  end.

(* ===================================================================== *)
(** ** module BitSource *)
(* ===================================================================== *)

Module BitSource.

Record t : Type := Build {
  bytes : list Z;
  bitOffset : Z;
  byteOffset : Z
}.

Definition make (bytes : list Z) : t := Build bytes 0 0.

(** [read(length)]: the value read and the source with its cursor moved. *)
Definition read (s : t) (length : Z) : Z * t :=
  let bytes := bytes s in
  (* First, read remainder from current byte *)
  let '(result, length, bitOffset, byteOffset) :=
    if bitOffset s >? 0 then
      let bitsLeft := 8 - bitOffset s in
      let toRead := Z.min length bitsLeft in
      let bitsToNotRead := bitsLeft - toRead in
      let mask := js_shl (js_shr 0xff (8 - toRead)) bitsToNotRead in
      let length := length - toRead in
      let bitOffset := bitOffset s + toRead in
      let result :=
        js_shr (js_and (TypedArray.get bytes (byteOffset s)) mask) bitsToNotRead in
      if bitOffset =? 8 then (result, length, 0, byteOffset s + 1)
      else (result, length, bitOffset, byteOffset s)
    else (0, length, bitOffset s, byteOffset s) in
  (* Next read whole bytes *)
  if length >? 0 then
    let '(result, byteOffset) :=
      for_loop (Z.to_nat (length / 8)) 0 (fun _ st =>
        (js_or (js_shl (fst st) 8) (js_and (TypedArray.get bytes (snd st)) 0xff),
         snd st + 1))
        (result, byteOffset) in
    let length := length mod 8 in
    (* Finally read a partial byte *)
    if length >? 0 then
      let bitsToNotRead := 8 - length in
      let mask := js_shl (js_shr 0xff bitsToNotRead) bitsToNotRead in
      (js_or (js_shl result length)
             (js_shr (js_and (TypedArray.get bytes byteOffset) mask) bitsToNotRead),
       Build bytes (bitOffset + length) byteOffset)
    else (result, Build bytes bitOffset byteOffset)
  else (result, Build bytes bitOffset byteOffset).

Definition available (s : t) : Z :=
  8 * (TypedArray.len (bytes s) - byteOffset s) - bitOffset s.

End BitSource.

(* ===================================================================== *)
(** ** module Mode *)
(* ===================================================================== *)

Inductive Mode : Type :=
| TERMINATOR | NUMERIC | ALPHANUMERIC | STRUCTURED_APPEND | BYTE | ECI | KANJI
| FNC1_FIRST_POSITION | FNC1_SECOND_POSITION | HANZI.

Definition Mode_bits (mode : Mode) : Z :=
  match mode with
  | TERMINATOR => 0x00 | NUMERIC => 0x01 | ALPHANUMERIC => 0x02
  | STRUCTURED_APPEND => 0x03 | BYTE => 0x04 | ECI => 0x07 | KANJI => 0x08
  | FNC1_FIRST_POSITION => 0x05 | FNC1_SECOND_POSITION => 0x09 | HANZI => 0x0d
  end.

Definition characterCountBitsSet (mode : Mode) : list Z :=
  match mode with
  | TERMINATOR => 0 :: 0 :: 0 :: nil
  | NUMERIC => 10 :: 12 :: 14 :: nil
  | ALPHANUMERIC => 9 :: 11 :: 13 :: nil
  | STRUCTURED_APPEND => 0 :: 0 :: 0 :: nil
  | BYTE => 8 :: 16 :: 16 :: nil
  | ECI => 0 :: 0 :: 0 :: nil
  | KANJI => 8 :: 10 :: 12 :: nil
  | FNC1_FIRST_POSITION => 0 :: 0 :: 0 :: nil
  | FNC1_SECOND_POSITION => 0 :: 0 :: 0 :: nil
  | HANZI => 8 :: 10 :: 12 :: nil
  end.

Definition MODES : list Mode :=
  TERMINATOR :: NUMERIC :: ALPHANUMERIC :: STRUCTURED_APPEND :: BYTE :: ECI
  :: KANJI :: FNC1_FIRST_POSITION :: FNC1_SECOND_POSITION :: HANZI :: nil.

Definition VALUES_TO_MODE : list (Z * Mode) :=
  List.rev (List.map (fun m => (Mode_bits m, m)) MODES).

Definition fromModeBits (bits : Z) : result Mode :=
  match assoc_get VALUES_TO_MODE bits with
  | Some mode => Ok mode
  | None => Throw (Error "illegal mode bits")
  end.

(** [mode.getCharacterCountBits(version)], on the version number. *)
Definition getCharacterCountBits (mode : Mode) (version : Z) : Z :=
  let offset := if version <=? 9 then 0 else if version <=? 26 then 1 else 2 in
  TypedArray.get (characterCountBitsSet mode) offset.

Definition Mode_eqb (a b : Mode) : bool := Mode_bits a =? Mode_bits b.

(* ===================================================================== *)
(** ** module encoding *)
(* ===================================================================== *)

Definition getCharCodes (content : jsstring) (maxCode : Z) : list Z :=
  List.map (fun character =>
    let code := charCodeAt0 character in
    (* If gt max code, push ? *)
    toUint8 (if code >? maxCode then 63 else code))
    (characters content).

(** The built-in [encode]. *)
Definition encode_1 (P : Platform) (content : jsstring) (charset : Charset)
  : result (list Z) :=
  match charset with
  | ASCII => Ok (getCharCodes content 0x7f)
  | ISO_8859_1 => Ok (getCharCodes content 0xff)
  | UTF_8 => Ok (TextEncoder_encode P content)
  | _ => Throw (Error "built-in encode only support ascii, utf-8 and iso-8859-1 charset")
  end.

(** The built-in [decode]. *)
Definition decode_1 (P : Platform) (bytes : list Z) (charset : Charset) : jsstring :=
  TextDecoder_decode P (Charset_label charset) bytes.

Definition NUMERIC_CHARACTERS : jsstring := str "0123456789".
Definition ALPHANUMERIC_CHARACTERS : jsstring :=
  NUMERIC_CHARACTERS ++ str "ABCDEFGHIJKLMNOPQRSTUVWXYZ $%*+-./:".

(** [getCharactersMapping]: the map from a character to its position, as the
    list of its entries, a later [set] of a key replacing an earlier one. *)
Definition getCharactersMapping (chars : jsstring) : list (jsstring * Z) :=
  snd (List.fold_left (fun st character =>
         (fst st + 1,
          (character, fst st)
            :: List.filter (fun e => negb (jsstring_eqb (fst e) character)) (snd st)))
       (characters chars) (0, nil)).

Fixpoint mapping_get (m : list (jsstring * Z)) (key : jsstring) : option Z :=
  match m with
  | nil => None
  | (k, v) :: rest => if jsstring_eqb k key then Some v else mapping_get rest key
  end.

(* ===================================================================== *)
(** ** module source *)
(* ===================================================================== *)

Definition parseECIValue (source : BitSource.t) : result (Z * BitSource.t) :=
  let '(firstByte, source) := BitSource.read source 8 in
  if js_and firstByte 0x80 =? 0 then
    (* just one byte *)
    Ok (js_and firstByte 0x7f, source)
  else if js_and firstByte 0xc0 =? 0x80 then
    (* two bytes *)
    let '(secondByte, source) := BitSource.read source 8 in
    Ok (js_or (js_shl (js_and firstByte 0x3f) 8) secondByte, source)
  else if js_and firstByte 0xe0 =? 0xc0 then
    (* three bytes *)
    let '(secondThirdBytes, source) := BitSource.read source 16 in
    Ok (js_or (js_shl (js_and firstByte 0x1f) 16) secondThirdBytes, source)
  else Throw (Error EmptyString).

Definition GS : Z := 0x1d.
Definition PERCENT : Z := 37.

(** [content.replace(/%+/g, ...)]: a run of [n] percent signs becomes
    [n / 2] percent signs, followed by GS when [n] is odd. *)
Fixpoint processGSCharacter_run (content : jsstring) (run : nat) : jsstring :=
  let flush (run : nat) : jsstring :=
    List.repeat PERCENT (Nat.div run 2)
    ++ (if Nat.odd run then GS :: nil else nil) in
  match content with
  | nil => flush run
  | c :: rest =>
      if c =? PERCENT then processGSCharacter_run rest (Datatypes.S run)
      else flush run ++ c :: processGSCharacter_run rest O
  end.

Definition processGSCharacter (content : jsstring) : jsstring :=
  processGSCharacter_run content O.

Fixpoint decodeAlphanumericSegment_loop (fuel : nat) (source : BitSource.t)
  (count : Z) (content : jsstring) : result (jsstring * BitSource.t) :=
  if count >? 1 then
    match fuel with
    | O => Throw (Error EmptyString)
    | Datatypes.S fuel' =>
        if BitSource.available source <? 11 then Throw (Error EmptyString)
        else
          let '(nextTwoCharsBits, source) := BitSource.read source 11 in
          let content := content
            ++ charAt ALPHANUMERIC_CHARACTERS (Z.quot nextTwoCharsBits 45)
            ++ charAt ALPHANUMERIC_CHARACTERS (js_rem nextTwoCharsBits 45) in
          decodeAlphanumericSegment_loop fuel' source (count - 2) content
    end
  else if count =? 1 then
    (* special case: one character left *)
    if BitSource.available source <? 6 then Throw (Error EmptyString)
    else
      let '(bits, source) := BitSource.read source 6 in
      Ok (content ++ charAt ALPHANUMERIC_CHARACTERS bits, source)
  else Ok (content, source).

Definition decodeAlphanumericSegment (source : BitSource.t) (count : Z) (fnc1 : bool)
  : result (jsstring * BitSource.t) :=
  ' (content, source) <-
    decodeAlphanumericSegment_loop (Z.to_nat count) source count nil ;;
  Ok (if fnc1 then processGSCharacter content else content, source).

(** [for (let i = 0; i < count; i++) bytes[i] = source.read(8)]. *)
Definition readBytes (source : BitSource.t) (count : Z) : list Z * BitSource.t :=
  for_range 0 count (fun i st =>
    let '(byte, source) := BitSource.read (snd st) 8 in
    (TypedArray.set (fst st) i (toUint8 byte), source))
    (TypedArray.make count, source).

Definition decodeByteSegment (source : BitSource.t) (count : Z)
  (decode : list Z -> Charset -> jsstring) (fnc1 : bool) (eciValue : option Z)
  : result (jsstring * BitSource.t) :=
  (* Don't crash trying to read more bits than we have available. *)
  if BitSource.available source <? 8 * count then Throw (Error EmptyString)
  else
    charset <- match eciValue with
               | Some v => fromCharsetValue v
               | None => Ok ISO_8859_1
               end ;;
    let '(bytes, source) := readBytes source count in
    let content := decode bytes charset in
    Ok (if fnc1 then processGSCharacter content else content, source).

(** The loop shared by the Hanzi and the Kanji segment: 13 bits make two
    bytes; [divisor] is 0x60 or 0xc0, [limit] separates the two ranges and
    [low], [high] are the offsets that are added back. *)
Definition readTwoByteCharacters (source : BitSource.t) (count : Z)
  (divisor limit low high : Z) : list Z * BitSource.t :=
  let '(bytes, _, source) :=
    for_range 0 count (fun _ st =>
      let '(bytes, offset, source) := st in
      let '(twoBytes, source) := BitSource.read source 13 in
      let assembledTwoBytes :=
        js_or (js_shl (Z.quot twoBytes divisor) 8) (js_rem twoBytes divisor) in
      let assembledTwoBytes :=
        if assembledTwoBytes <? limit then assembledTwoBytes + low
        else assembledTwoBytes + high in
      (TypedArray.set
         (TypedArray.set bytes offset (toUint8 (js_and (js_shr assembledTwoBytes 8) 0xff)))
         (offset + 1) (toUint8 (js_and assembledTwoBytes 0xff)),
       offset + 2, source))
      (TypedArray.make (2 * count), 0, source) in
  (bytes, source).

Definition decodeHanziSegment (P : Platform) (source : BitSource.t) (count : Z)
  : result (jsstring * BitSource.t) :=
  if BitSource.available source <? 13 * count then Throw (Error EmptyString)
  else
    let '(bytes, source) :=
      readTwoByteCharacters source count 0x060 0x00a00 0x0a1a1 0x0a6a1 in
    Ok (TextDecoder_decode P "gb2312" bytes, source).

Definition decodeKanjiSegment (P : Platform) (source : BitSource.t) (count : Z)
  : result (jsstring * BitSource.t) :=
  if BitSource.available source <? 13 * count then Throw (Error EmptyString)
  else
    let '(bytes, source) :=
      readTwoByteCharacters source count 0x0c0 0x01f00 0x08140 0x0c140 in
    Ok (TextDecoder_decode P "shift-jis" bytes, source).

Fixpoint decodeNumericSegment_loop (fuel : nat) (source : BitSource.t)
  (count : Z) (content : jsstring) : result (jsstring * BitSource.t) :=
  if count >=? 3 then
    match fuel with
    | O => Throw (Error EmptyString)
    | Datatypes.S fuel' =>
        (* Each 10 bits encodes three digits *)
        if BitSource.available source <? 10 then Throw (Error EmptyString)
        else
          let '(threeDigitsBits, source) := BitSource.read source 10 in
          if threeDigitsBits >=? 1000 then Throw (Error EmptyString)
          else
            let content := content
              ++ charAt NUMERIC_CHARACTERS (Z.quot threeDigitsBits 100)
              ++ charAt NUMERIC_CHARACTERS (js_rem (Z.quot threeDigitsBits 10) 10)
              ++ charAt NUMERIC_CHARACTERS (js_rem threeDigitsBits 10) in
            decodeNumericSegment_loop fuel' source (count - 3) content
    end
  else if count =? 2 then
    (* Two digits left over to read, encoded in 7 bits *)
    if BitSource.available source <? 7 then Throw (Error "illegal numeric")
    else
      let '(twoDigitsBits, source) := BitSource.read source 7 in
      if twoDigitsBits >=? 100 then Throw (Error "illegal numeric codeword")
      else
        Ok (content
              ++ charAt NUMERIC_CHARACTERS (Z.quot twoDigitsBits 10)
              ++ charAt NUMERIC_CHARACTERS (js_rem twoDigitsBits 10), source)
  else if count =? 1 then
    (* One digit left over to read *)
    if BitSource.available source <? 4 then Throw (Error "illegal numeric")
    else
      let '(digitBits, source) := BitSource.read source 4 in
      if digitBits >=? 10 then Throw (Error "illegal numeric codeword")
      else Ok (content ++ charAt NUMERIC_CHARACTERS digitBits, source)
  else Ok (content, source).

Definition decodeNumericSegment (source : BitSource.t) (count : Z)
  : result (jsstring * BitSource.t) :=
  decodeNumericSegment_loop (Z.to_nat count) source count nil.

(** The structured-append header of a decoded symbol. *)
Record Structured : Type := {
  structured_index : Z;
  structured_count : Z;
  structured_parity : Z
}.

(** The FNC1 indication of a decoded symbol: ['GS1'] or ['AIM', indicator]. *)
Inductive FNC1 : Type :=
| GS1
| AIM (indicator : Z).

(** The object that the segment decoder returns. *)
Record DecodeResult : Type := {
  content : jsstring;
  codewords : list Z;
  structured : option Structured;
  symbology : jsstring;
  fnc1 : option FNC1
}.

(** The variables of the segment loop of [decode]. *)
Record decodeState : Type := DecodeState {
  st_content : jsstring;
  st_indicator : Z;
  st_hasFNC1First : bool;
  st_hasFNC1Second : bool;
  st_currentECIValue : option Z;
  st_structured : option Structured;
  st_source : BitSource.t
}.

(** One round of the [do ... while (mode !== Mode.TERMINATOR)] loop: the mode
    read and the state after its segment. *)
Definition decodeSegment (P : Platform) (version : Z)
  (decode : list Z -> Charset -> jsstring) (st : decodeState)
  : result (Mode * decodeState) :=
  let source := st_source st in
  ' (mode, source) <-
    (if BitSource.available source <? 4 then
       (* OK, assume we're done. *)
       Ok (TERMINATOR, source)
     else
       let '(bits, source) := BitSource.read source 4 in
       mode <- fromModeBits bits ;; Ok (mode, source)) ;;
  let st := DecodeState (st_content st) (st_indicator st) (st_hasFNC1First st)
              (st_hasFNC1Second st) (st_currentECIValue st) (st_structured st)
              source in
  let fnc1 := st_hasFNC1First st || st_hasFNC1Second st in
  let data (r : result (jsstring * BitSource.t)) : result (Mode * decodeState) :=
    ' (text, source) <- r ;;
    Ok (mode, DecodeState (st_content st ++ text) (st_indicator st)
                (st_hasFNC1First st) (st_hasFNC1Second st)
                (st_currentECIValue st) (st_structured st) source) in
  let counted (k : Z -> BitSource.t -> result (jsstring * BitSource.t))
      (source : BitSource.t) : result (Mode * decodeState) :=
    let '(count, source) :=
      BitSource.read source (getCharacterCountBits mode version) in
    data (k count source) in
  match mode with
  | TERMINATOR => Ok (mode, st)
  | FNC1_FIRST_POSITION =>
      Ok (mode, DecodeState (st_content st) (st_indicator st) true
                  (st_hasFNC1Second st) (st_currentECIValue st)
                  (st_structured st) source)
  | FNC1_SECOND_POSITION =>
      let '(indicator, source) := BitSource.read source 8 in
      Ok (mode, DecodeState (st_content st) indicator (st_hasFNC1First st)
                  true (st_currentECIValue st) (st_structured st) source)
  | STRUCTURED_APPEND =>
      if BitSource.available source <? 16
      then Throw (Error "illegal structured append")
      else
        let '(index, source) := BitSource.read source 4 in
        let '(count, source) := BitSource.read source 4 in
        let '(parity, source) := BitSource.read source 8 in
        Ok (mode, DecodeState (st_content st) (st_indicator st)
                    (st_hasFNC1First st) (st_hasFNC1Second st)
                    (st_currentECIValue st)
                    (Some (Build_Structured index (count + 1) parity)) source)
  | ECI =>
      ' (value, source) <- parseECIValue source ;;
      Ok (mode, DecodeState (st_content st) (st_indicator st)
                  (st_hasFNC1First st) (st_hasFNC1Second st) (Some value)
                  (st_structured st) source)
  | HANZI =>
      let '(subset, source) := BitSource.read source 4 in
      if negb (subset =? 1) then Throw (Error "illegal hanzi subset")
      else counted (fun count source => decodeHanziSegment P source count) source
  | ALPHANUMERIC =>
      counted (fun count source => decodeAlphanumericSegment source count fnc1) source
  | BYTE =>
      counted (fun count source =>
                 decodeByteSegment source count decode fnc1 (st_currentECIValue st))
              source
  | KANJI =>
      counted (fun count source => decodeKanjiSegment P source count) source
  | NUMERIC =>
      counted (fun count source => decodeNumericSegment source count) source
  end.

(** The loop: every round but the last reads at least four bits, so the
    number of bits of the source bounds the number of rounds. *)
Fixpoint decode_loop (fuel : nat) (P : Platform) (version : Z)
  (decode : list Z -> Charset -> jsstring) (st : decodeState)
  : result decodeState :=
  match fuel with
  | O => Throw (Error EmptyString)
  | Datatypes.S fuel' =>
      ' (mode, st) <- decodeSegment P version decode st ;;
      match mode with
      | TERMINATOR => Ok st
      | _ => decode_loop fuel' P version decode st
      end
  end.

(** [decode(codewords, version, {}, decode)], on the version number. *)
Definition decode (P : Platform) (codewords : list Z) (version : Z)
  (decode : list Z -> Charset -> jsstring) : result DecodeResult :=
  let source := BitSource.make codewords in
  st <- decode_loop (Datatypes.S (Z.to_nat (8 * TypedArray.len codewords))) P version decode
          (DecodeState nil (-1) false false None None source) ;;
  let fnc1 :=
    if st_hasFNC1First st then Some GS1
    else if st_hasFNC1Second st then Some (AIM (st_indicator st))
    else None in
  let modifier :=
    match st_currentECIValue st with
    | Some _ =>
        if st_hasFNC1First st then 4 else if st_hasFNC1Second st then 6 else 2
    | None =>
        if st_hasFNC1First st then 3 else if st_hasFNC1Second st then 5 else 1
    end in
  Ok {| content := st_content st;
        codewords := codewords;
        structured := st_structured st;
        symbology := str "]Q" ++ (48 + modifier :: nil);
        fnc1 := fnc1 |}.

Close Scope Z_scope.
Close Scope list_scope.

(* ===================================================================== *)
(** ** module ByteMatrix *)
(* ===================================================================== *)

Open Scope list_scope.
Open Scope Z_scope.

(** The module matrix of the encoder: an [Int8Array] of size * size cells,
    -1 for a cell that is not set yet.  The library only reads cells inside
    the matrix. *)
Module ByteMatrix.

Record t : Type := Build {
  size : Z;
  bytes : list Z
}.

Definition make (size : Z) : t := Build size (TypedArray.make (size * size)).

Definition set (m : t) (x y value : Z) : t :=
  Build (size m) (TypedArray.set (bytes m) (y * size m + x) (toInt8 value)).

Definition get (m : t) (x y : Z) : Z := TypedArray.get (bytes m) (y * size m + x).

Definition clear (m : t) (value : Z) : t :=
  Build (size m) (List.map (fun _ => toInt8 value) (bytes m)).

End ByteMatrix.

(* ===================================================================== *)
(** ** module mask *)
(* ===================================================================== *)

(** Penalty weights from section 6.8.2.1 *)
Definition N1 : Z := 3.
Definition N2 : Z := 3.
Definition N3 : Z := 40.
Definition N4 : Z := 10.

Definition isDark (matrix : ByteMatrix.t) (x y : Z) : bool :=
  ByteMatrix.get matrix x y =? 1.

(** The state of the run scan of rule 1: (penalty, prevBit, numSameBitCells). *)
Definition applyMaskPenaltyRule1Internal (matrix : ByteMatrix.t) (isVertical : bool) : Z :=
  let size := ByteMatrix.size matrix in
  for_range 0 size (fun y penalty =>
    let '(penalty, _, numSameBitCells) :=
      for_range 0 size (fun x st =>
        let '(penalty, prevBit, numSameBitCells) := st in
        let bit := if isVertical then ByteMatrix.get matrix y x
                   else ByteMatrix.get matrix x y in
        if bit =? prevBit then (penalty, prevBit, numSameBitCells + 1)
        else
          ((if numSameBitCells >=? 5 then penalty + (N1 + (numSameBitCells - 5))
            else penalty),
           (* set prev bit *) bit,
           (* include the cell itself *) 1))
        (penalty, -1, 0) in
    if numSameBitCells >=? 5 then penalty + (N1 + (numSameBitCells - 5)) else penalty)
    0.

Definition applyMaskPenaltyRule1 (matrix : ByteMatrix.t) : Z :=
  applyMaskPenaltyRule1Internal matrix false + applyMaskPenaltyRule1Internal matrix true.

Definition applyMaskPenaltyRule2 (matrix : ByteMatrix.t) : Z :=
  let size := ByteMatrix.size matrix - 1 in
  for_range 0 size (fun y penalty =>
    for_range 0 size (fun x penalty =>
      let bit := ByteMatrix.get matrix x y in
      if (bit =? ByteMatrix.get matrix (x + 1) y)
         && (bit =? ByteMatrix.get matrix x (y + 1))
         && (bit =? ByteMatrix.get matrix (x + 1) (y + 1))
      then penalty + N2 else penalty) penalty)
    0.

(** Is is four white, check on horizontal and vertical. *)
Definition isFourWhite (matrix : ByteMatrix.t) (offset from to : Z) (isVertical : bool)
  : bool :=
  if (from <? 0) || (to >? ByteMatrix.size matrix) then false
  else
    for_range from to (fun i white =>
      white && negb (if isVertical then isDark matrix offset i
                     else isDark matrix i offset))
      true.

Definition applyMaskPenaltyRule3 (matrix : ByteMatrix.t) : Z :=
  let size := ByteMatrix.size matrix in
  let numPenalties :=
    for_range 0 size (fun y numPenalties =>
      for_range 0 size (fun x numPenalties =>
        let numPenalties :=
          if (x + 6 <? size)
             && isDark matrix x y
             && negb (isDark matrix (x + 1) y)
             && isDark matrix (x + 2) y
             && isDark matrix (x + 3) y
             && isDark matrix (x + 4) y
             && negb (isDark matrix (x + 5) y)
             && isDark matrix (x + 6) y
             && (isFourWhite matrix y (x - 4) x false
                 || isFourWhite matrix y (x + 7) (x + 11) false)
          then numPenalties + 1 else numPenalties in
        if (y + 6 <? size)
           && isDark matrix x y
           && negb (isDark matrix x (y + 1))
           && isDark matrix x (y + 2)
           && isDark matrix x (y + 3)
           && isDark matrix x (y + 4)
           && negb (isDark matrix x (y + 5))
           && isDark matrix x (y + 6)
           && (isFourWhite matrix x (y - 4) y true
               || isFourWhite matrix x (y + 7) (y + 11) true)
        then numPenalties + 1 else numPenalties) numPenalties)
      0 in
  numPenalties * N3.

Definition applyMaskPenaltyRule4 (matrix : ByteMatrix.t) : Z :=
  let size := ByteMatrix.size matrix in
  let numDarkCells :=
    for_range 0 size (fun y numDarkCells =>
      for_range 0 size (fun x numDarkCells =>
        if isDark matrix x y then numDarkCells + 1 else numDarkCells) numDarkCells)
      0 in
  let numTotalCells := size * size in
  let fivePercentVariances :=
    js_idiv (Z.abs (numDarkCells * 2 - numTotalCells) * 10) numTotalCells in
  fivePercentVariances * N4.

Definition calculateMaskPenalty (matrix : ByteMatrix.t) : Z :=
  applyMaskPenaltyRule1 matrix
  + applyMaskPenaltyRule2 matrix
  + applyMaskPenaltyRule3 matrix
  + applyMaskPenaltyRule4 matrix.

(** Return is apply mask at "x" and "y". *)
Definition isApplyMask (mask x y : Z) : result bool :=
  intermediate <-
    (match mask with
     | 0 => Ok (js_and (y + x) 0x01)
     | 1 => Ok (js_and y 0x01)
     | 2 => Ok (js_rem x 3)
     | 3 => Ok (js_rem (y + x) 3)
     | 4 => Ok (js_and (js_idiv y 2 + js_idiv x 3) 0x01)
     | 5 => let temporary := y * x in
            Ok (js_and temporary 0x01 + js_rem temporary 3)
     | 6 => let temporary := y * x in
            Ok (js_and (js_and temporary 0x01 + js_rem temporary 3) 0x01)
     | 7 => Ok (js_and (js_rem (y * x) 3 + js_and (y + x) 0x01) 0x01)
     | _ => Throw (Error "illegal mask")
     end) ;;
  Ok (intermediate =? 0).

(* ===================================================================== *)
(** ** module ECLevel *)
(* ===================================================================== *)

Inductive ECLevel : Type := L | M | Q | H.

Definition ECLevel_name (l : ECLevel) : string :=
  match l with L => "L" | M => "M" | Q => "Q" | H => "H" end%string.

Definition ECLevel_level (l : ECLevel) : Z :=
  match l with L => 0 | M => 1 | Q => 2 | H => 3 end.

Definition ECLevel_bits (l : ECLevel) : Z :=
  match l with L => 0x01 | M => 0x00 | Q => 0x03 | H => 0x02 end.

Definition VALUES_TO_ECLEVEL : list (Z * ECLevel) :=
  List.rev (List.map (fun l => (ECLevel_bits l, l)) (L :: M :: Q :: H :: nil)).

Definition fromECLevelBits (bits : Z) : result ECLevel :=
  match assoc_get VALUES_TO_ECLEVEL bits with
  | Some ecLevel => Ok ecLevel
  | None => Throw (Error "illegal error correction bits")
  end.

(* ===================================================================== *)
(** ** module FormatInfo *)
(* ===================================================================== *)

Definition FORMAT_INFO_DECODE_TABLE : list (Z * Z) :=
  (0x5412, 0x00) :: (0x5125, 0x01) :: (0x5e7c, 0x02) :: (0x5b4b, 0x03)
  :: (0x45f9, 0x04) :: (0x40ce, 0x05) :: (0x4f97, 0x06) :: (0x4aa0, 0x07)
  :: (0x77c4, 0x08) :: (0x72f3, 0x09) :: (0x7daa, 0x0a) :: (0x789d, 0x0b)
  :: (0x662f, 0x0c) :: (0x6318, 0x0d) :: (0x6c41, 0x0e) :: (0x6976, 0x0f)
  :: (0x1689, 0x10) :: (0x13be, 0x11) :: (0x1ce7, 0x12) :: (0x19d0, 0x13)
  :: (0x0762, 0x14) :: (0x0255, 0x15) :: (0x0d0c, 0x16) :: (0x083b, 0x17)
  :: (0x355f, 0x18) :: (0x3068, 0x19) :: (0x3f31, 0x1a) :: (0x3a06, 0x1b)
  :: (0x24b4, 0x1c) :: (0x2183, 0x1d) :: (0x2eda, 0x1e) :: (0x2bed, 0x1f)
  :: nil.

Record FormatInfo : Type := {
  FormatInfo_mask : Z;
  FormatInfo_level : ECLevel
}.

(** [new FormatInfo(formatInfo)]. *)
Definition newFormatInfo (formatInfo : Z) : result FormatInfo :=
  level <- fromECLevelBits (js_and (js_shr formatInfo 3) 0x03) ;;
  Ok {| FormatInfo_mask := js_and formatInfo 0x07; FormatInfo_level := level |}.

(** The scan of the table; [bestDiff] and [bestFormatInfo] are the loop's
    variables and an exact match returns at once. *)
Fixpoint decodeFormatInfo_scan (table : list (Z * Z)) (formatInfo1 formatInfo2 : Z)
  (bestDiff bestFormatInfo : Z) : result FormatInfo :=
  match table with
  | nil =>
      (* Hamming distance of the 32 masked codes is 7, by construction, so
         <= 3 bits differing means we found a match *)
      if bestDiff <=? 3 then newFormatInfo bestFormatInfo
      else Throw (Error "unable to decode format information")
  | (maskedFormatInfo, formatInfo) :: rest =>
      if (formatInfo1 =? maskedFormatInfo) || (formatInfo2 =? maskedFormatInfo) then
        (* Found an exact match *)
        newFormatInfo formatInfo
      else
        let bitsDiff := hammingWeight (js_xor formatInfo1 maskedFormatInfo) in
        let '(bestDiff, bestFormatInfo) :=
          if bitsDiff <? bestDiff then (bitsDiff, formatInfo)
          else (bestDiff, bestFormatInfo) in
        let '(bestDiff, bestFormatInfo) :=
          if negb (formatInfo1 =? formatInfo2) then
            (* Also try the other option *)
            let bitsDiff := hammingWeight (js_xor formatInfo2 maskedFormatInfo) in
            if bitsDiff <? bestDiff then (bitsDiff, formatInfo)
            else (bestDiff, bestFormatInfo)
          else (bestDiff, bestFormatInfo) in
        decodeFormatInfo_scan rest formatInfo1 formatInfo2 bestDiff bestFormatInfo
  end.

Definition decodeFormatInfo (formatInfo1 formatInfo2 : Z) : result FormatInfo :=
  decodeFormatInfo_scan FORMAT_INFO_DECODE_TABLE formatInfo1 formatInfo2 32 0.

(* ===================================================================== *)
(** ** modules ECB, ECBlocks and Version *)
(* ===================================================================== *)

Module ECB.
Record t : Type := Build {
  count : Z;
  numDataCodewords : Z
}.
End ECB.

Record ECBlocks : Type := {
  ecBlocks : list ECB.t;
  numTotalCodewords : Z;
  numTotalECCodewords : Z;
  numTotalDataCodewords : Z;
  numECCodewordsPerBlock : Z
}.

(** [new ECBlocks(numECCodewordsPerBlock, ...ecBlocks)]. *)
Definition makeECBlocks (numECCodewordsPerBlock : Z) (ecBlocks : list ECB.t) : ECBlocks :=
  let '(numBlocks, numTotalDataCodewords) :=
    List.fold_left (fun st b =>
      (fst st + ECB.count b, snd st + ECB.numDataCodewords b * ECB.count b))
      ecBlocks (0, 0) in
  let numTotalECCodewords := numECCodewordsPerBlock * numBlocks in
  {| ecBlocks := ecBlocks;
     numTotalCodewords := numTotalDataCodewords + numTotalECCodewords;
     numTotalECCodewords := numTotalECCodewords;
     numTotalDataCodewords := numTotalDataCodewords;
     numECCodewordsPerBlock := numECCodewordsPerBlock |}.

Definition MIN_VERSION_SIZE : Z := 21.
Definition MAX_VERSION_SIZE : Z := 177.

Definition VERSION_DECODE_TABLE : list Z :=
  (* Version 7 - 11 *)
  0x07c94 :: 0x085bc :: 0x09a99 :: 0x0a4d3 :: 0x0bbf6
  (* Version 12 - 16 *)
  :: 0x0c762 :: 0x0d847 :: 0x0e60d :: 0x0f928 :: 0x10b78
  (* Version 17 - 21 *)
  :: 0x1145d :: 0x12a17 :: 0x13532 :: 0x149a6 :: 0x15683
  (* Version 22 - 26 *)
  :: 0x168c9 :: 0x177ec :: 0x18ec4 :: 0x191e1 :: 0x1afab
  (* Version 27 - 31 *)
  :: 0x1b08e :: 0x1cc1a :: 0x1d33f :: 0x1ed75 :: 0x1f250
  (* Version 32 - 36 *)
  :: 0x209d5 :: 0x216f0 :: 0x228ba :: 0x2379f :: 0x24b0b
  (* Version 37 - 40 *)
  :: 0x2542e :: 0x26a64 :: 0x27541 :: 0x28c69 :: nil.

(** Version > 2 has alignment patterns *)
Definition MIN_VERSION_SIZE_WITH_ALIGNMENTS : Z := 25.

Record Version : Type := {
  Version_size : Z;
  Version_version : Z;
  Version_ecBlocks : list ECBlocks;
  alignmentPatterns : list Z
}.

(** [new Version(version, alignmentPatterns, ...ecBlocks)]. *)
Definition makeVersion (version : Z) (alignmentPatterns : list Z)
  (l m q h : ECBlocks) : Version :=
  {| Version_size := 17 + 4 * version;
     Version_version := version;
     Version_ecBlocks := l :: m :: q :: h :: nil;
     alignmentPatterns := alignmentPatterns |}.

(** [version.getECBlocks(ecLevel)]: the entry at the level's index. *)
Definition getECBlocks (version : Version) (ecLevel : ECLevel) : ECBlocks :=
  List.nth (Z.to_nat (ECLevel_level ecLevel)) (Version_ecBlocks version)
    (makeECBlocks 0 nil).

Definition VERSIONS : list Version :=
  makeVersion 1 (nil)
    (makeECBlocks 7 (ECB.Build 1 19 :: nil))
    (makeECBlocks 10 (ECB.Build 1 16 :: nil))
    (makeECBlocks 13 (ECB.Build 1 13 :: nil))
    (makeECBlocks 17 (ECB.Build 1 9 :: nil))
  ::  makeVersion 2 (6 :: 18 :: nil)
    (makeECBlocks 10 (ECB.Build 1 34 :: nil))
    (makeECBlocks 16 (ECB.Build 1 28 :: nil))
    (makeECBlocks 22 (ECB.Build 1 22 :: nil))
    (makeECBlocks 28 (ECB.Build 1 16 :: nil))
  ::  makeVersion 3 (6 :: 22 :: nil)
    (makeECBlocks 15 (ECB.Build 1 55 :: nil))
    (makeECBlocks 26 (ECB.Build 1 44 :: nil))
    (makeECBlocks 18 (ECB.Build 2 17 :: nil))
    (makeECBlocks 22 (ECB.Build 2 13 :: nil))
  ::  makeVersion 4 (6 :: 26 :: nil)
    (makeECBlocks 20 (ECB.Build 1 80 :: nil))
    (makeECBlocks 18 (ECB.Build 2 32 :: nil))
    (makeECBlocks 26 (ECB.Build 2 24 :: nil))
    (makeECBlocks 16 (ECB.Build 4 9 :: nil))
  ::  makeVersion 5 (6 :: 30 :: nil)
    (makeECBlocks 26 (ECB.Build 1 108 :: nil))
    (makeECBlocks 24 (ECB.Build 2 43 :: nil))
    (makeECBlocks 18 (ECB.Build 2 15 :: ECB.Build 2 16 :: nil))
    (makeECBlocks 22 (ECB.Build 2 11 :: ECB.Build 2 12 :: nil))
  ::  makeVersion 6 (6 :: 34 :: nil)
    (makeECBlocks 18 (ECB.Build 2 68 :: nil))
    (makeECBlocks 16 (ECB.Build 4 27 :: nil))
    (makeECBlocks 24 (ECB.Build 4 19 :: nil))
    (makeECBlocks 28 (ECB.Build 4 15 :: nil))
  ::  makeVersion 7 (6 :: 22 :: 38 :: nil)
    (makeECBlocks 20 (ECB.Build 2 78 :: nil))
    (makeECBlocks 18 (ECB.Build 4 31 :: nil))
    (makeECBlocks 18 (ECB.Build 2 14 :: ECB.Build 4 15 :: nil))
    (makeECBlocks 26 (ECB.Build 4 13 :: ECB.Build 1 14 :: nil))
  ::  makeVersion 8 (6 :: 24 :: 42 :: nil)
    (makeECBlocks 24 (ECB.Build 2 97 :: nil))
    (makeECBlocks 22 (ECB.Build 2 38 :: ECB.Build 2 39 :: nil))
    (makeECBlocks 22 (ECB.Build 4 18 :: ECB.Build 2 19 :: nil))
    (makeECBlocks 26 (ECB.Build 4 14 :: ECB.Build 2 15 :: nil))
  ::  makeVersion 9 (6 :: 26 :: 46 :: nil)
    (makeECBlocks 30 (ECB.Build 2 116 :: nil))
    (makeECBlocks 22 (ECB.Build 3 36 :: ECB.Build 2 37 :: nil))
    (makeECBlocks 20 (ECB.Build 4 16 :: ECB.Build 4 17 :: nil))
    (makeECBlocks 24 (ECB.Build 4 12 :: ECB.Build 4 13 :: nil))
  ::  makeVersion 10 (6 :: 28 :: 50 :: nil)
    (makeECBlocks 18 (ECB.Build 2 68 :: ECB.Build 2 69 :: nil))
    (makeECBlocks 26 (ECB.Build 4 43 :: ECB.Build 1 44 :: nil))
    (makeECBlocks 24 (ECB.Build 6 19 :: ECB.Build 2 20 :: nil))
    (makeECBlocks 28 (ECB.Build 6 15 :: ECB.Build 2 16 :: nil))
  ::  makeVersion 11 (6 :: 30 :: 54 :: nil)
    (makeECBlocks 20 (ECB.Build 4 81 :: nil))
    (makeECBlocks 30 (ECB.Build 1 50 :: ECB.Build 4 51 :: nil))
    (makeECBlocks 28 (ECB.Build 4 22 :: ECB.Build 4 23 :: nil))
    (makeECBlocks 24 (ECB.Build 3 12 :: ECB.Build 8 13 :: nil))
  ::  makeVersion 12 (6 :: 32 :: 58 :: nil)
    (makeECBlocks 24 (ECB.Build 2 92 :: ECB.Build 2 93 :: nil))
    (makeECBlocks 22 (ECB.Build 6 36 :: ECB.Build 2 37 :: nil))
    (makeECBlocks 26 (ECB.Build 4 20 :: ECB.Build 6 21 :: nil))
    (makeECBlocks 28 (ECB.Build 7 14 :: ECB.Build 4 15 :: nil))
  ::  makeVersion 13 (6 :: 34 :: 62 :: nil)
    (makeECBlocks 26 (ECB.Build 4 107 :: nil))
    (makeECBlocks 22 (ECB.Build 8 37 :: ECB.Build 1 38 :: nil))
    (makeECBlocks 24 (ECB.Build 8 20 :: ECB.Build 4 21 :: nil))
    (makeECBlocks 22 (ECB.Build 12 11 :: ECB.Build 4 12 :: nil))
  ::  makeVersion 14 (6 :: 26 :: 46 :: 66 :: nil)
    (makeECBlocks 30 (ECB.Build 3 115 :: ECB.Build 1 116 :: nil))
    (makeECBlocks 24 (ECB.Build 4 40 :: ECB.Build 5 41 :: nil))
    (makeECBlocks 20 (ECB.Build 11 16 :: ECB.Build 5 17 :: nil))
    (makeECBlocks 24 (ECB.Build 11 12 :: ECB.Build 5 13 :: nil))
  ::  makeVersion 15 (6 :: 26 :: 48 :: 70 :: nil)
    (makeECBlocks 22 (ECB.Build 5 87 :: ECB.Build 1 88 :: nil))
    (makeECBlocks 24 (ECB.Build 5 41 :: ECB.Build 5 42 :: nil))
    (makeECBlocks 30 (ECB.Build 5 24 :: ECB.Build 7 25 :: nil))
    (makeECBlocks 24 (ECB.Build 11 12 :: ECB.Build 7 13 :: nil))
  ::  makeVersion 16 (6 :: 26 :: 50 :: 74 :: nil)
    (makeECBlocks 24 (ECB.Build 5 98 :: ECB.Build 1 99 :: nil))
    (makeECBlocks 28 (ECB.Build 7 45 :: ECB.Build 3 46 :: nil))
    (makeECBlocks 24 (ECB.Build 15 19 :: ECB.Build 2 20 :: nil))
    (makeECBlocks 30 (ECB.Build 3 15 :: ECB.Build 13 16 :: nil))
  ::  makeVersion 17 (6 :: 30 :: 54 :: 78 :: nil)
    (makeECBlocks 28 (ECB.Build 1 107 :: ECB.Build 5 108 :: nil))
    (makeECBlocks 28 (ECB.Build 10 46 :: ECB.Build 1 47 :: nil))
    (makeECBlocks 28 (ECB.Build 1 22 :: ECB.Build 15 23 :: nil))
    (makeECBlocks 28 (ECB.Build 2 14 :: ECB.Build 17 15 :: nil))
  ::  makeVersion 18 (6 :: 30 :: 56 :: 82 :: nil)
    (makeECBlocks 30 (ECB.Build 5 120 :: ECB.Build 1 121 :: nil))
    (makeECBlocks 26 (ECB.Build 9 43 :: ECB.Build 4 44 :: nil))
    (makeECBlocks 28 (ECB.Build 17 22 :: ECB.Build 1 23 :: nil))
    (makeECBlocks 28 (ECB.Build 2 14 :: ECB.Build 19 15 :: nil))
  ::  makeVersion 19 (6 :: 30 :: 58 :: 86 :: nil)
    (makeECBlocks 28 (ECB.Build 3 113 :: ECB.Build 4 114 :: nil))
    (makeECBlocks 26 (ECB.Build 3 44 :: ECB.Build 11 45 :: nil))
    (makeECBlocks 26 (ECB.Build 17 21 :: ECB.Build 4 22 :: nil))
    (makeECBlocks 26 (ECB.Build 9 13 :: ECB.Build 16 14 :: nil))
  ::  makeVersion 20 (6 :: 34 :: 62 :: 90 :: nil)
    (makeECBlocks 28 (ECB.Build 3 107 :: ECB.Build 5 108 :: nil))
    (makeECBlocks 26 (ECB.Build 3 41 :: ECB.Build 13 42 :: nil))
    (makeECBlocks 30 (ECB.Build 15 24 :: ECB.Build 5 25 :: nil))
    (makeECBlocks 28 (ECB.Build 15 15 :: ECB.Build 10 16 :: nil))
  ::  makeVersion 21 (6 :: 28 :: 50 :: 72 :: 94 :: nil)
    (makeECBlocks 28 (ECB.Build 4 116 :: ECB.Build 4 117 :: nil))
    (makeECBlocks 26 (ECB.Build 17 42 :: nil))
    (makeECBlocks 28 (ECB.Build 17 22 :: ECB.Build 6 23 :: nil))
    (makeECBlocks 30 (ECB.Build 19 16 :: ECB.Build 6 17 :: nil))
  ::  makeVersion 22 (6 :: 26 :: 50 :: 74 :: 98 :: nil)
    (makeECBlocks 28 (ECB.Build 2 111 :: ECB.Build 7 112 :: nil))
    (makeECBlocks 28 (ECB.Build 17 46 :: nil))
    (makeECBlocks 30 (ECB.Build 7 24 :: ECB.Build 16 25 :: nil))
    (makeECBlocks 24 (ECB.Build 34 13 :: nil))
  ::  makeVersion 23 (6 :: 30 :: 54 :: 78 :: 102 :: nil)
    (makeECBlocks 30 (ECB.Build 4 121 :: ECB.Build 5 122 :: nil))
    (makeECBlocks 28 (ECB.Build 4 47 :: ECB.Build 14 48 :: nil))
    (makeECBlocks 30 (ECB.Build 11 24 :: ECB.Build 14 25 :: nil))
    (makeECBlocks 30 (ECB.Build 16 15 :: ECB.Build 14 16 :: nil))
  ::  makeVersion 24 (6 :: 28 :: 54 :: 80 :: 106 :: nil)
    (makeECBlocks 30 (ECB.Build 6 117 :: ECB.Build 4 118 :: nil))
    (makeECBlocks 28 (ECB.Build 6 45 :: ECB.Build 14 46 :: nil))
    (makeECBlocks 30 (ECB.Build 11 24 :: ECB.Build 16 25 :: nil))
    (makeECBlocks 30 (ECB.Build 30 16 :: ECB.Build 2 17 :: nil))
  ::  makeVersion 25 (6 :: 32 :: 58 :: 84 :: 110 :: nil)
    (makeECBlocks 26 (ECB.Build 8 106 :: ECB.Build 4 107 :: nil))
    (makeECBlocks 28 (ECB.Build 8 47 :: ECB.Build 13 48 :: nil))
    (makeECBlocks 30 (ECB.Build 7 24 :: ECB.Build 22 25 :: nil))
    (makeECBlocks 30 (ECB.Build 22 15 :: ECB.Build 13 16 :: nil))
  ::  makeVersion 26 (6 :: 30 :: 58 :: 86 :: 114 :: nil)
    (makeECBlocks 28 (ECB.Build 10 114 :: ECB.Build 2 115 :: nil))
    (makeECBlocks 28 (ECB.Build 19 46 :: ECB.Build 4 47 :: nil))
    (makeECBlocks 28 (ECB.Build 28 22 :: ECB.Build 6 23 :: nil))
    (makeECBlocks 30 (ECB.Build 33 16 :: ECB.Build 4 17 :: nil))
  ::  makeVersion 27 (6 :: 34 :: 62 :: 90 :: 118 :: nil)
    (makeECBlocks 30 (ECB.Build 8 122 :: ECB.Build 4 123 :: nil))
    (makeECBlocks 28 (ECB.Build 22 45 :: ECB.Build 3 46 :: nil))
    (makeECBlocks 30 (ECB.Build 8 23 :: ECB.Build 26 24 :: nil))
    (makeECBlocks 30 (ECB.Build 12 15 :: ECB.Build 28 16 :: nil))
  ::  makeVersion 28 (6 :: 26 :: 50 :: 74 :: 98 :: 122 :: nil)
    (makeECBlocks 30 (ECB.Build 3 117 :: ECB.Build 10 118 :: nil))
    (makeECBlocks 28 (ECB.Build 3 45 :: ECB.Build 23 46 :: nil))
    (makeECBlocks 30 (ECB.Build 4 24 :: ECB.Build 31 25 :: nil))
    (makeECBlocks 30 (ECB.Build 11 15 :: ECB.Build 31 16 :: nil))
  ::  makeVersion 29 (6 :: 30 :: 54 :: 78 :: 102 :: 126 :: nil)
    (makeECBlocks 30 (ECB.Build 7 116 :: ECB.Build 7 117 :: nil))
    (makeECBlocks 28 (ECB.Build 21 45 :: ECB.Build 7 46 :: nil))
    (makeECBlocks 30 (ECB.Build 1 23 :: ECB.Build 37 24 :: nil))
    (makeECBlocks 30 (ECB.Build 19 15 :: ECB.Build 26 16 :: nil))
  ::  makeVersion 30 (6 :: 26 :: 52 :: 78 :: 104 :: 130 :: nil)
    (makeECBlocks 30 (ECB.Build 5 115 :: ECB.Build 10 116 :: nil))
    (makeECBlocks 28 (ECB.Build 19 47 :: ECB.Build 10 48 :: nil))
    (makeECBlocks 30 (ECB.Build 15 24 :: ECB.Build 25 25 :: nil))
    (makeECBlocks 30 (ECB.Build 23 15 :: ECB.Build 25 16 :: nil))
  ::  makeVersion 31 (6 :: 30 :: 56 :: 82 :: 108 :: 134 :: nil)
    (makeECBlocks 30 (ECB.Build 13 115 :: ECB.Build 3 116 :: nil))
    (makeECBlocks 28 (ECB.Build 2 46 :: ECB.Build 29 47 :: nil))
    (makeECBlocks 30 (ECB.Build 42 24 :: ECB.Build 1 25 :: nil))
    (makeECBlocks 30 (ECB.Build 23 15 :: ECB.Build 28 16 :: nil))
  ::  makeVersion 32 (6 :: 34 :: 60 :: 86 :: 112 :: 138 :: nil)
    (makeECBlocks 30 (ECB.Build 17 115 :: nil))
    (makeECBlocks 28 (ECB.Build 10 46 :: ECB.Build 23 47 :: nil))
    (makeECBlocks 30 (ECB.Build 10 24 :: ECB.Build 35 25 :: nil))
    (makeECBlocks 30 (ECB.Build 19 15 :: ECB.Build 35 16 :: nil))
  ::  makeVersion 33 (6 :: 30 :: 58 :: 86 :: 114 :: 142 :: nil)
    (makeECBlocks 30 (ECB.Build 17 115 :: ECB.Build 1 116 :: nil))
    (makeECBlocks 28 (ECB.Build 14 46 :: ECB.Build 21 47 :: nil))
    (makeECBlocks 30 (ECB.Build 29 24 :: ECB.Build 19 25 :: nil))
    (makeECBlocks 30 (ECB.Build 11 15 :: ECB.Build 46 16 :: nil))
  ::  makeVersion 34 (6 :: 34 :: 62 :: 90 :: 118 :: 146 :: nil)
    (makeECBlocks 30 (ECB.Build 13 115 :: ECB.Build 6 116 :: nil))
    (makeECBlocks 28 (ECB.Build 14 46 :: ECB.Build 23 47 :: nil))
    (makeECBlocks 30 (ECB.Build 44 24 :: ECB.Build 7 25 :: nil))
    (makeECBlocks 30 (ECB.Build 59 16 :: ECB.Build 1 17 :: nil))
  ::  makeVersion 35 (6 :: 30 :: 54 :: 78 :: 102 :: 126 :: 150 :: nil)
    (makeECBlocks 30 (ECB.Build 12 121 :: ECB.Build 7 122 :: nil))
    (makeECBlocks 28 (ECB.Build 12 47 :: ECB.Build 26 48 :: nil))
    (makeECBlocks 30 (ECB.Build 39 24 :: ECB.Build 14 25 :: nil))
    (makeECBlocks 30 (ECB.Build 22 15 :: ECB.Build 41 16 :: nil))
  ::  makeVersion 36 (6 :: 24 :: 50 :: 76 :: 102 :: 128 :: 154 :: nil)
    (makeECBlocks 30 (ECB.Build 6 121 :: ECB.Build 14 122 :: nil))
    (makeECBlocks 28 (ECB.Build 6 47 :: ECB.Build 34 48 :: nil))
    (makeECBlocks 30 (ECB.Build 46 24 :: ECB.Build 10 25 :: nil))
    (makeECBlocks 30 (ECB.Build 2 15 :: ECB.Build 64 16 :: nil))
  ::  makeVersion 37 (6 :: 28 :: 54 :: 80 :: 106 :: 132 :: 158 :: nil)
    (makeECBlocks 30 (ECB.Build 17 122 :: ECB.Build 4 123 :: nil))
    (makeECBlocks 28 (ECB.Build 29 46 :: ECB.Build 14 47 :: nil))
    (makeECBlocks 30 (ECB.Build 49 24 :: ECB.Build 10 25 :: nil))
    (makeECBlocks 30 (ECB.Build 24 15 :: ECB.Build 46 16 :: nil))
  ::  makeVersion 38 (6 :: 32 :: 58 :: 84 :: 110 :: 136 :: 162 :: nil)
    (makeECBlocks 30 (ECB.Build 4 122 :: ECB.Build 18 123 :: nil))
    (makeECBlocks 28 (ECB.Build 13 46 :: ECB.Build 32 47 :: nil))
    (makeECBlocks 30 (ECB.Build 48 24 :: ECB.Build 14 25 :: nil))
    (makeECBlocks 30 (ECB.Build 42 15 :: ECB.Build 32 16 :: nil))
  ::  makeVersion 39 (6 :: 26 :: 54 :: 82 :: 110 :: 138 :: 166 :: nil)
    (makeECBlocks 30 (ECB.Build 20 117 :: ECB.Build 4 118 :: nil))
    (makeECBlocks 28 (ECB.Build 40 47 :: ECB.Build 7 48 :: nil))
    (makeECBlocks 30 (ECB.Build 43 24 :: ECB.Build 22 25 :: nil))
    (makeECBlocks 30 (ECB.Build 10 15 :: ECB.Build 67 16 :: nil))
  ::  makeVersion 40 (6 :: 30 :: 58 :: 86 :: 114 :: 142 :: 170 :: nil)
    (makeECBlocks 30 (ECB.Build 19 118 :: ECB.Build 6 119 :: nil))
    (makeECBlocks 28 (ECB.Build 18 47 :: ECB.Build 31 48 :: nil))
    (makeECBlocks 30 (ECB.Build 34 24 :: ECB.Build 34 25 :: nil))
    (makeECBlocks 30 (ECB.Build 20 15 :: ECB.Build 61 16 :: nil))
  :: nil.

(** [VERSIONS[index]]; reading a property of the [undefined] found outside
    the table is a TypeError. *)
Definition VERSIONS_at (index : Z) : result Version :=
  if index <? 0 then Throw (Error "TypeError")
  else match List.nth_error VERSIONS (Z.to_nat index) with
       | Some version => Ok version
       | None => Throw (Error "TypeError")
       end.

(** The scan of [VERSION_DECODE_TABLE]: [i] is the index of the head of
    [table]. *)
Fixpoint decodeVersion_scan (table : list Z) (i : Z) (version1 version2 : Z)
  (bestDiff bestVersion : Z) : result Version :=
  match table with
  | nil =>
      (* We can tolerate up to 3 bits of error since no two version info
         codewords will differ in less than 8 bits *)
      if (bestDiff <=? 3) && (bestVersion >=? 7) then VERSIONS_at (bestVersion - 1)
      else
        (* If we didn't find a close enough match, fail *)
        Throw (Error "unable to decode version")
  | maskedVersion :: rest =>
      (* Do the version info bits match exactly done ? *)
      if (version1 =? maskedVersion) || (version2 =? maskedVersion) then
        VERSIONS_at (i + 6)
      else
        let bitsDiff := hammingWeight (js_xor version1 maskedVersion) in
        let '(bestDiff, bestVersion) :=
          if bitsDiff <? bestDiff then (bitsDiff, i + 7) else (bestDiff, bestVersion) in
        let '(bestDiff, bestVersion) :=
          if negb (version1 =? version2) then
            (* Also try the other option *)
            let bitsDiff := hammingWeight (js_xor version2 maskedVersion) in
            if bitsDiff <? bestDiff then (bitsDiff, i + 7) else (bestDiff, bestVersion)
          else (bestDiff, bestVersion) in
        decodeVersion_scan rest (i + 1) version1 version2 bestDiff bestVersion
  end.

Definition decodeVersion (version1 version2 : Z) : result Version :=
  decodeVersion_scan VERSION_DECODE_TABLE 0 version1 version2 32 0.

(** See ISO 18004:2006 Annex E *)
Definition buildFunctionPattern (version : Version) : BitMatrix.t :=
  let size := Version_size version in
  let alignmentPatterns := alignmentPatterns version in
  (* Alignment patterns *)
  let length := TypedArray.len alignmentPatterns in
  let matrix := BitMatrix.make size size in
  let max := length - 1 in
  (* Top left finder pattern + separator + format *)
  let matrix := BitMatrix.setRegion matrix 0 0 9 9 in
  (* Top right finder pattern + separator + format *)
  let matrix := BitMatrix.setRegion matrix (size - 8) 0 8 9 in
  (* Bottom left finder pattern + separator + format *)
  let matrix := BitMatrix.setRegion matrix 0 (size - 8) 9 8 in
  let matrix :=
    for_range 0 length (fun x matrix =>
      let top := TypedArray.get alignmentPatterns x - 2 in
      for_range 0 length (fun y matrix =>
        if (negb (x =? 0) || (negb (y =? 0) && negb (y =? max)))
           && (negb (x =? max) || negb (y =? 0))
        then BitMatrix.setRegion matrix (TypedArray.get alignmentPatterns y - 2) top 5 5
        else (* no alignment patterns near the three finder patterns *) matrix)
        matrix)
      matrix in
  (* Vertical timing pattern *)
  let matrix := BitMatrix.setRegion matrix 6 9 1 (size - 17) in
  (* Horizontal timing pattern *)
  let matrix := BitMatrix.setRegion matrix 9 6 (size - 17) 1 in
  if Version_version version >? 6 then
    (* Version info, top right *)
    let matrix := BitMatrix.setRegion matrix (size - 11) 0 3 6 in
    (* Version info, bottom left *)
    BitMatrix.setRegion matrix 0 (size - 11) 6 3
  else matrix.

Close Scope Z_scope.
Close Scope list_scope.

(* ===================================================================== *)
(** ** module BitMatrixParser *)
(* ===================================================================== *)

Open Scope list_scope.
Open Scope Z_scope.

Definition copyBit (matrix : BitMatrix.t) (x y bits : Z) : Z :=
  if negb (BitMatrix.get matrix x y =? 0) then js_or (js_shl bits 1) 0x01
  else js_shl bits 1.

(** A loop over [x] whose body runs [fuel] times at most while [x > 0]; the
    body gives the state and the next [x]. *)
Fixpoint while_positive {S : Type} (fuel : nat) (x : Z) (body : Z -> S -> S * Z) (s : S)
  : S :=
  match fuel with
  | O => s
  | Datatypes.S fuel' =>
      if x >? 0 then
        let '(s, x) := body x s in while_positive fuel' x body s
      else s
  end.

Module BitMatrixParser.

Record t : Type := Build {
  size : Z;
  matrix : BitMatrix.t
}.

(** [new BitMatrixParser(matrix)]. *)
Definition make (matrix : BitMatrix.t) : t :=
  Build (Z.min (BitMatrix.width matrix) (BitMatrix.height matrix))
        (BitMatrix.clone matrix).

Definition readVersion (p : t) : result Version :=
  let size := size p in
  let versionNumber := js_idiv (size - 17) 4 in
  if versionNumber <? 1 then Throw (Error EmptyString)
  else if (versionNumber >=? 1) && (versionNumber <=? 6)
  then VERSIONS_at (versionNumber - 1)
  else
    (* Hmm, failed. Try bottom left: 6 wide by 3 tall *)
    let min := size - 11 in
    let matrix := matrix p in
    let version1 :=
      for_down 5 0 (fun y version1 =>
        for_down (size - 9) min (fun x version1 => copyBit matrix x y version1)
          version1) 0 in
    let version2 :=
      for_down 5 0 (fun x version2 =>
        for_down (size - 9) min (fun y version2 => copyBit matrix x y version2)
          version2) 0 in
    version <- decodeVersion version1 version2 ;;
    if Version_size version >? size then Throw (Error EmptyString)
    else Ok version.

Definition readFormatInfo (p : t) : result FormatInfo :=
  let matrix := matrix p in
  let size := size p in
  let max := size - 7 in
  (* Read top-left format info bits *)
  let formatInfo1 :=
    for_range 0 9 (fun x formatInfo1 =>
      if negb (x =? 6) then
        (* Skip timing pattern bit *)
        copyBit matrix x 8 formatInfo1
      else formatInfo1) 0 in
  let formatInfo1 :=
    for_down 7 0 (fun y formatInfo1 =>
      if negb (y =? 6) then
        (* Skip timing pattern bit *)
        copyBit matrix 8 y formatInfo1
      else formatInfo1) formatInfo1 in
  let formatInfo2 :=
    for_down (size - 1) max (fun y formatInfo2 => copyBit matrix 8 y formatInfo2) 0 in
  let formatInfo2 :=
    for_range (size - 8) size (fun x formatInfo2 => copyBit matrix x 8 formatInfo2)
      formatInfo2 in
  decodeFormatInfo formatInfo1 formatInfo2.

(** The variables of the walk of [readCodewords]. *)
Record walk : Type := Walk {
  bitsRead : Z;
  byteOffset : Z;
  currentByte : Z;
  readingUp : bool;
  walk_codewords : list Z
}.

(** Read one cell unless the function pattern covers it. *)
Definition readCell (matrix functionPattern : BitMatrix.t) (offsetX y : Z) (w : walk)
  : walk :=
  (* Ignore bits covered by the function pattern *)
  if BitMatrix.get functionPattern offsetX y =? 0 then
    (* Read a bit *)
    let bitsRead := bitsRead w + 1 in
    let currentByte := js_shl (currentByte w) 1 in
    let currentByte :=
      if negb (BitMatrix.get matrix offsetX y =? 0) then js_or currentByte 1
      else currentByte in
    (* If we've made a whole byte, save it off *)
    if bitsRead =? 8 then
      Walk 0 (byteOffset w + 1) 0 (readingUp w)
           (TypedArray.set (walk_codewords w) (byteOffset w) (toUint8 currentByte))
    else Walk bitsRead (byteOffset w) currentByte (readingUp w) (walk_codewords w)
  else w.

Definition readCodewords (p : t) (version : Version) (ecLevel : ECLevel)
  : result (list Z) :=
  let size := size p in
  let matrix := matrix p in
  let ecBlocks := getECBlocks version ecLevel in
  let functionPattern := buildFunctionPattern version in
  let codewords := TypedArray.make (numTotalCodewords ecBlocks) in
  (* Read columns in pairs, from right to left *)
  let w :=
    while_positive (Z.to_nat size) (size - 1) (fun x w =>
      (* Skip whole column with vertical alignment pattern *)
      let x := if x =? 6 then x - 1 else x in
      (* Read alternatingly from bottom to top then top to bottom *)
      let w :=
        for_range 0 size (fun count w =>
          let y := if readingUp w then size - 1 - count else count in
          for_range 0 2 (fun col w => readCell matrix functionPattern (x - col) y w) w)
          w in
      (* Switch directions *)
      (Walk (bitsRead w) (byteOffset w) (currentByte w) (negb (readingUp w))
            (walk_codewords w),
       x - 2))
      (Walk 0 0 0 true codewords) in
  if negb (byteOffset w =? numTotalCodewords ecBlocks)
  then Throw (Error "byteOffset !== ecBlocks.numTotalCodewords")
  else Ok (walk_codewords w).

(** [unmask(mask)] flips the cells where the mask applies.  The parser is
    mutated in place, so the result is the parser after the call together
    with the exception, if any, that an illegal mask raised on the way. *)
Definition unmask (p : t) (mask : Z) : t * option exn :=
  let size := size p in
  let '(matrix, e) :=
    for_range 0 size (fun y st =>
      for_range 0 size (fun x st =>
        match snd st with
        | Some _ => st
        | None =>
            match isApplyMask mask x y with
            | Ok true => (BitMatrix.flip (fst st) x y, None)
            | Ok false => st
            | Throw e => (fst st, Some e)
            end
        end) st)
      (matrix p, None) in
  (Build size matrix, e).

Definition remask (p : t) (mask : Z) : t * option exn := unmask p mask.

Definition mirror (p : t) : t :=
  let size := size p in
  Build size
    (for_range 0 size (fun x matrix =>
       for_range (x + 1) size (fun y matrix =>
         if negb (BitMatrix.get matrix x y =? BitMatrix.get matrix y x)
         then BitMatrix.flip (BitMatrix.flip matrix x y) y x
         else matrix) matrix)
       (matrix p)).

End BitMatrixParser.

(** module DataBlock *)
Record DataBlock : Type := {
  DataBlock_codewords : list Z;
  DataBlock_numDataCodewords : Z
}.

Close Scope Z_scope.
Close Scope list_scope.

(* ===================================================================== *)
(** ** modules GaloisField and Polynomial *)
(* ===================================================================== *)

Open Scope list_scope.
Open Scope Z_scope.

Module GaloisField.

Record t : Type := Build {
  size : Z;
  generator : Z;
  expTable : list Z;
  logTable : list Z
}.

(** The loop that fills [expTable]: the table and the running power [x]. *)
Definition makeExpTable (primitive size : Z) : list Z :=
  fst (for_range 0 size (fun i st =>
         let expTable := TypedArray.set (fst st) i (toInt32 (snd st)) in
         (* We're assuming the generator alpha is 2 *)
         let x := snd st * 2 in
         let x := if x >=? size then js_and (js_xor x primitive) (size - 1) else x in
         (expTable, x))
       (TypedArray.make size, 1)).

Definition makeLogTable (expTable : list Z) (size : Z) : list Z :=
  for_range 0 (size - 1) (fun i logTable =>
    TypedArray.set logTable (TypedArray.get expTable i) i)
    (TypedArray.make size).

(** [new GaloisField(primitive, size, generator)]. *)
Definition make (primitive size generator : Z) : t :=
  let expTable := makeExpTable primitive size in
  Build size generator expTable (makeLogTable expTable size).

Definition exp (field : t) (a : Z) : Z := TypedArray.get (expTable field) a.

Definition log (field : t) (a : Z) : Z := TypedArray.get (logTable field) a.

Definition invert (field : t) (a : Z) : Z :=
  TypedArray.get (expTable field) (size field - TypedArray.get (logTable field) a - 1).

Definition multiply (field : t) (a b : Z) : Z :=
  if (a =? 0) || (b =? 0) then 0
  else
    TypedArray.get (expTable field)
      (js_rem (TypedArray.get (logTable field) a + TypedArray.get (logTable field) b)
              (size field - 1)).

End GaloisField.

Definition QR_CODE_FIELD_256 : GaloisField.t :=
  Eval vm_compute in GaloisField.make 0x011d 256 0.

(** A polynomial is its array of coefficients, the highest degree first. *)
Module Polynomial.

Definition t : Type := list Z.

(** The body of the constructor, for an array that is not empty: the
    leading term must be non-zero for anything except the constant
    polynomial "0". *)
Fixpoint dropZeros (coefficients : list Z) : list Z :=
  match coefficients with
  | nil => nil
  | c :: rest => if c =? 0 then dropZeros rest else coefficients
  end.

Definition trim (coefficients : list Z) : t :=
  match coefficients with
  | c :: _ :: _ =>
      if c =? 0 then
        match dropZeros coefficients with
        | nil => 0 :: nil
        | rest => rest
        end
      else coefficients
  | _ => coefficients
  end.

(** [new Polynomial(field, coefficients)]. *)
Definition make (coefficients : list Z) : result t :=
  if TypedArray.len coefficients <=? 0
  then Throw (Error "polynomial coefficients cannot empty")
  else Ok (trim coefficients).

(** [field.zero] and [field.one]. *)
Definition zero : t := 0 :: nil.
Definition one : t := 1 :: nil.

Definition isZero (p : t) : bool := TypedArray.get p 0 =? 0.

Definition getDegree (p : t) : Z := TypedArray.len p - 1.

Definition getCoefficient (p : t) (degree : Z) : Z :=
  TypedArray.get p (TypedArray.len p - 1 - degree).

Definition evaluate (field : GaloisField.t) (p : t) (a : Z) : Z :=
  if a =? 0 then
    (* Just return the x^0 coefficient *)
    getCoefficient p 0
  else if a =? 1 then
    (* Just the sum of the coefficients *)
    List.fold_left (fun result coefficient => js_xor result coefficient) p 0
  else
    for_range 1 (TypedArray.len p) (fun i result =>
      js_xor (GaloisField.multiply field a result) (TypedArray.get p i))
      (TypedArray.get p 0).

(** [multiply(other)] for a polynomial [other]; the product array has
    [length + otherLength - 1 >= 1] cells. *)
Definition multiply (field : GaloisField.t) (p other : t) : t :=
  if isZero p || isZero other then zero
  else
    let length := TypedArray.len p in
    let otherLength := TypedArray.len other in
    trim
      (for_range 0 length (fun i product =>
         let coefficient := TypedArray.get p i in
         for_range 0 otherLength (fun j product =>
           TypedArray.set product (i + j)
             (js_xor (TypedArray.get product (i + j))
                     (GaloisField.multiply field coefficient (TypedArray.get other j))))
           product)
         (TypedArray.make (length + otherLength - 1))).

(** [multiply(other)] for a number [other]. *)
Definition multiplyScalar (field : GaloisField.t) (p : t) (other : Z) : t :=
  if other =? 0 then zero
  else if other =? 1 then p
  else
    let length := TypedArray.len p in
    trim
      (for_range 0 length (fun i product =>
         TypedArray.set product i
           (toInt32 (GaloisField.multiply field (TypedArray.get p i) other)))
         (TypedArray.make length)).

Definition multiplyByMonomial (field : GaloisField.t) (p : t) (degree coefficient : Z)
  : t :=
  if coefficient =? 0 then zero
  else
    let length := TypedArray.len p in
    trim
      (for_range 0 length (fun i product =>
         TypedArray.set product i
           (toInt32 (GaloisField.multiply field (TypedArray.get p i) coefficient)))
         (TypedArray.make (length + degree))).

Definition addOrSubtract (p other : t) : t :=
  if isZero p then other
  else if isZero other then p
  else
    let '(largerCoefficients, smallerCoefficients) :=
      if TypedArray.len other <? TypedArray.len p then (p, other) else (other, p) in
    let largerLength := TypedArray.len largerCoefficients in
    let smallerLength := TypedArray.len smallerCoefficients in
    (* Diff index offset *)
    let offset := largerLength - smallerLength in
    let coefficients := TypedArray.make largerLength in
    (* Copy high-order terms only found in higher-degree polynomial's coefficients *)
    let coefficients :=
      TypedArray.blit coefficients (TypedArray.subarray largerCoefficients 0 offset) 0 in
    trim
      (for_range offset largerLength (fun i coefficients =>
         TypedArray.set coefficients i
           (js_xor (TypedArray.get smallerCoefficients (i - offset))
                   (TypedArray.get largerCoefficients i)))
         coefficients).

(** [field.buildPolynomial(degree, coefficient)]. *)
Definition buildPolynomial (degree coefficient : Z) : t :=
  if coefficient =? 0 then zero
  else trim (TypedArray.set (TypedArray.make (degree + 1)) 0 (toInt32 coefficient)).

(** The loop of [divide]: every round lowers the degree of the remainder
    or makes it zero, so [fuel] rounds are enough once [fuel] exceeds the
    degree of the dividend. *)
Fixpoint divide_loop (fuel : nat) (field : GaloisField.t) (other : t)
  (invertDenominatorLeadingTerm : Z) (quotient remainder : t) : t * t :=
  match fuel with
  | O => (quotient, remainder)
  | Datatypes.S fuel' =>
      if (getDegree remainder >=? getDegree other) && negb (isZero remainder) then
        let remainderDegree := getDegree remainder in
        let degreeDiff := remainderDegree - getDegree other in
        let scale :=
          GaloisField.multiply field (getCoefficient remainder remainderDegree)
            invertDenominatorLeadingTerm in
        let term := multiplyByMonomial field other degreeDiff scale in
        let iterationQuotient := buildPolynomial degreeDiff scale in
        divide_loop fuel' field other invertDenominatorLeadingTerm
          (addOrSubtract quotient iterationQuotient)
          (addOrSubtract remainder term)
      else (quotient, remainder)
  end.

Definition divide (field : GaloisField.t) (p other : t) : t * t :=
  let denominatorLeadingTerm := getCoefficient other (getDegree other) in
  let invertDenominatorLeadingTerm := GaloisField.invert field denominatorLeadingTerm in
  divide_loop (Datatypes.S (List.length p)) field other invertDenominatorLeadingTerm zero p.

End Polynomial.

(* ===================================================================== *)
(** ** module Decoder (Reed-Solomon) *)
(* ===================================================================== *)

(** The inner loop of [runEuclideanAlgorithm]: the division of
    [remainderLastLast] by [remainderLast]; the state is
    (quotient, remainder, remainderDegree). *)
Fixpoint euclid_divide (fuel : nat) (field : GaloisField.t)
  (remainderLast : Polynomial.t) (remainderLastDegree dltInverse : Z)
  (quotient remainder : Polynomial.t) (remainderDegree : Z)
  : Polynomial.t * Polynomial.t * Z :=
  match fuel with
  | O => (quotient, remainder, remainderDegree)
  | Datatypes.S fuel' =>
      if (remainderDegree >=? remainderLastDegree)
         && negb (Polynomial.isZero remainder) then
        let degreeDiff := Polynomial.getDegree remainder - remainderLastDegree in
        let scale :=
          GaloisField.multiply field
            (Polynomial.getCoefficient remainder remainderDegree) dltInverse in
        let quotient :=
          Polynomial.addOrSubtract quotient
            (Polynomial.buildPolynomial degreeDiff scale) in
        let remainder :=
          Polynomial.addOrSubtract remainder
            (Polynomial.multiplyByMonomial field remainderLast degreeDiff scale) in
        euclid_divide fuel' field remainderLast remainderLastDegree dltInverse
          quotient remainder (Polynomial.getDegree remainder)
      else (quotient, remainder, remainderDegree)
  end.

(** The outer loop of [runEuclideanAlgorithm]; the state is
    (remainder, term, remainderLast, termLast) and the result is
    (term, remainder) once the degree of the remainder is below
    [ecLength / 2]. *)
Fixpoint euclid_loop (fuel : nat) (field : GaloisField.t) (ecLength : Z)
  (remainder term remainderLast termLast : Polynomial.t)
  : result (Polynomial.t * Polynomial.t) :=
  if 2 * Polynomial.getDegree remainder >=? ecLength then
    match fuel with
    | O => Throw (Error EmptyString)
    | Datatypes.S fuel' =>
        let termLastLast := termLast in
        let remainderLastLast := remainderLast in
        let termLast := term in
        let remainderLast := remainder in
        (* Divide remainder last last by remainder last, with quotient in
           quotient and remainder in remainder *)
        if Polynomial.isZero remainderLast then
          (* Oops, euclidean algorithm already terminated ? *)
          Throw (Error "remainder last was zero")
        else
          let remainder := remainderLastLast in
          let remainderLastDegree := Polynomial.getDegree remainderLast in
          let denominatorLeadingTerm :=
            Polynomial.getCoefficient remainderLast remainderLastDegree in
          let dltInverse := GaloisField.invert field denominatorLeadingTerm in
          let '(quotient, remainder, remainderDegree) :=
            euclid_divide (Datatypes.S (List.length remainder)) field remainderLast
              remainderLastDegree dltInverse Polynomial.zero remainder
              (Polynomial.getDegree remainder) in
          let term :=
            Polynomial.addOrSubtract (Polynomial.multiply field quotient termLast)
              termLastLast in
          if remainderDegree >=? remainderLastDegree then
            Throw (Error "division algorithm failed to reduce polynomial")
          else euclid_loop fuel' field ecLength remainder term remainderLast termLast
    end
  else Ok (term, remainder).

Definition runEuclideanAlgorithm (field : GaloisField.t) (a b : Polynomial.t)
  (ecLength : Z) : result (Polynomial.t * Polynomial.t) :=
  (* Assume a's degree is >= b's *)
  let '(a, b) :=
    if Polynomial.getDegree a <? Polynomial.getDegree b then (b, a) else (a, b) in
  ' (term, remainder) <-
    euclid_loop (Datatypes.S (List.length b)) field ecLength b Polynomial.one a
      Polynomial.zero ;;
  let sigmaTildeAtZero := Polynomial.getCoefficient term 0 in
  if sigmaTildeAtZero =? 0 then Throw (Error "sigma tilde(0) was zero")
  else
    let invert := GaloisField.invert field sigmaTildeAtZero in
    let sigma := Polynomial.multiplyScalar field term invert in
    let omega := Polynomial.multiplyScalar field remainder invert in
    Ok (sigma, omega).

(** This is a direct application of Chien's search. *)
Definition findErrorLocations (field : GaloisField.t) (errorLocator : Polynomial.t)
  : result (list Z) :=
  let numErrors := Polynomial.getDegree errorLocator in
  if numErrors =? 1 then
    (* Shortcut *)
    Ok (toInt32 (Polynomial.getCoefficient errorLocator 1) :: nil)
  else
    let size := GaloisField.size field in
    let '(result, e) :=
      for_range 1 size (fun i st =>
        let '(result, e) := st in
        if (e <? numErrors) && (Polynomial.evaluate field errorLocator i =? 0)
        then (TypedArray.set result e (toInt32 (GaloisField.invert field i)), e + 1)
        else st)
        (TypedArray.make numErrors, 0) in
    if negb (e =? numErrors)
    then Throw (Error "error locator degree does not match number of roots")
    else Ok result.

(** This is directly applying Forney's Formula. *)
Definition findErrorMagnitudes (field : GaloisField.t) (errorEvaluator : Polynomial.t)
  (errorLocations : list Z) : list Z :=
  let length := TypedArray.len errorLocations in
  for_range 0 length (fun i result =>
    let invert := GaloisField.invert field (TypedArray.get errorLocations i) in
    let denominator :=
      for_range 0 length (fun j denominator =>
        if negb (i =? j) then
          let term :=
            GaloisField.multiply field (TypedArray.get errorLocations j) invert in
          let termPlus1 :=
            if js_and term 0x01 =? 0 then js_or term 1 else js_and term (js_not 1) in
          GaloisField.multiply field denominator termPlus1
        else denominator) 1 in
    let magnitude :=
      GaloisField.multiply field (Polynomial.evaluate field errorEvaluator invert)
        (GaloisField.invert field denominator) in
    let magnitude :=
      if negb (GaloisField.generator field =? 0)
      then GaloisField.multiply field magnitude invert else magnitude in
    TypedArray.set result i (toInt32 magnitude))
    (TypedArray.make length).

Module RSDecoder.

(** The syndromes: the coefficient array, and whether all of them are 0. *)
Definition syndromes (field : GaloisField.t) (poly : Polynomial.t) (ecLength : Z)
  : list Z * bool :=
  for_range 0 ecLength (fun i st =>
    let evaluate :=
      Polynomial.evaluate field poly
        (GaloisField.exp field (i + GaloisField.generator field)) in
    (TypedArray.set (fst st) (ecLength - 1 - i) (toInt32 evaluate),
     if negb (evaluate =? 0) then false else snd st))
    (TypedArray.make ecLength, true).

(** The correction loop: [received[position] ^= errorMagnitudes[i]]. *)
Fixpoint correct (n : nat) (field : GaloisField.t) (i : Z)
  (errorLocations errorMagnitudes received : list Z) : result (list Z) :=
  match n with
  | O => Ok received
  | Datatypes.S n' =>
      let position :=
        TypedArray.len received - 1
        - GaloisField.log field (TypedArray.get errorLocations i) in
      if position <? 0 then Throw (Error "bad error location")
      else
        correct n' field (i + 1) errorLocations errorMagnitudes
          (TypedArray.set received position
             (js_xor (TypedArray.get received position)
                     (TypedArray.get errorMagnitudes i)))
  end.

(** [decode(received, ecLength)]: the buffer after the call and the number
    of errors corrected. *)
Definition decode (field : GaloisField.t) (received : list Z) (ecLength : Z)
  : result (list Z * Z) :=
  poly <- Polynomial.make received ;;
  let '(syndromeCoefficients, noError) := syndromes field poly ecLength in
  if negb noError then
    syndrome <- Polynomial.make syndromeCoefficients ;;
    ' (sigma, omega) <-
      runEuclideanAlgorithm field (Polynomial.buildPolynomial ecLength 1) syndrome
        ecLength ;;
    errorLocations <- findErrorLocations field sigma ;;
    let errorMagnitudes := findErrorMagnitudes field omega errorLocations in
    let errorLength := TypedArray.len errorLocations in
    received <-
      correct (Z.to_nat errorLength) field 0 errorLocations errorMagnitudes received ;;
    Ok (received, errorLength)
  else Ok (received, 0).

End RSDecoder.

(* ===================================================================== *)
(** ** module Encoder (Reed-Solomon) *)
(* ===================================================================== *)

(** [buildGenerator(field, generators, degree)]: the cache after the call
    and the generator polynomial of the degree. *)
Definition buildGenerator (field : GaloisField.t) (generators : list Polynomial.t)
  (degree : Z) : list Polynomial.t * Polynomial.t :=
  let length := Z.of_nat (List.length generators) in
  let generators :=
    if degree >=? length then
      fst (for_range length (degree + 1) (fun i st =>
             let '(generators, lastGenerator) := st in
             let coefficients :=
               1 :: toInt32 (GaloisField.exp field (i - 1 + GaloisField.generator field))
                 :: nil in
             let nextGenerator :=
               Polynomial.multiply field lastGenerator (Polynomial.trim coefficients) in
             (generators ++ nextGenerator :: nil, nextGenerator))
           (generators, List.nth (Z.to_nat (length - 1)) generators nil))
    else generators in
  (generators, List.nth (Z.to_nat degree) generators nil).

Module RSEncoder.

(** [received.set(coefficients, offset)] throws a RangeError when the
    source does not fit. *)
Definition setArray (received coefficients : list Z) (offset : Z) : result (list Z) :=
  if (offset <? 0) || (offset + TypedArray.len coefficients >? TypedArray.len received)
  then Throw (Error "RangeError")
  else Ok (TypedArray.blit received (List.map toInt32 coefficients) offset).

(** [encode(received, ecLength)] of a fresh encoder, whose cache of
    generators holds the polynomial 1: the buffer after the call. *)
Definition encode (field : GaloisField.t) (received : list Z) (ecLength : Z)
  : result (list Z) :=
  let dataBytes := TypedArray.len received - ecLength in
  if dataBytes <? 0 then Throw (Error "RangeError")
  else
    let infoCoefficients := TypedArray.make dataBytes in
    let generator := snd (buildGenerator field (Polynomial.one :: nil) ecLength) in
    let infoCoefficients :=
      TypedArray.blit infoCoefficients (TypedArray.subarray received 0 dataBytes) 0 in
    base <- Polynomial.make infoCoefficients ;;
    let info := Polynomial.multiplyByMonomial field base ecLength 1 in
    let '(_, remainder) := Polynomial.divide field info generator in
    let coefficients := remainder in
    let numZeroCoefficients := ecLength - TypedArray.len coefficients in
    let zeroCoefficientsOffset := dataBytes + numZeroCoefficients in
    let received :=
      for_range dataBytes zeroCoefficientsOffset (fun i received =>
        TypedArray.set received i 0) received in
    setArray received coefficients zeroCoefficientsOffset.

End RSEncoder.

Close Scope Z_scope.
Close Scope list_scope.

(* ===================================================================== *)
(** ** module decoder *)
(* ===================================================================== *)

Open Scope list_scope.
Open Scope Z_scope.

Definition correctErrors (codewords : list Z) (numDataCodewords : Z)
  : result (list Z * Z) :=
  let buffer := List.map toInt32 codewords in
  let numECCodewords := TypedArray.len codewords - numDataCodewords in
  (* Reed solomon encode. *)
  RSDecoder.decode QR_CODE_FIELD_256 buffer numECCodewords.

Fixpoint list_update {A : Type} (l : list A) (n : nat) (v : A) : list A :=
  match l, n with
  | nil, _ => nil
  | _ :: t, O => v :: t
  | h :: t, Datatypes.S k => h :: list_update t k v
  end.

(** [blocks[j].codewords[i] = value]. *)
Definition setBlockCodeword (blocks : list DataBlock) (j i value : Z) : list DataBlock :=
  match List.nth_error blocks (Z.to_nat j) with
  | Some block =>
      list_update blocks (Z.to_nat j)
        {| DataBlock_codewords :=
             TypedArray.set (DataBlock_codewords block) i (toUint8 value);
           DataBlock_numDataCodewords := DataBlock_numDataCodewords block |}
  | None => blocks
  end.

Definition blockLength (blocks : list DataBlock) (j : Z) : Z :=
  match List.nth_error blocks (Z.to_nat j) with
  | Some block => TypedArray.len (DataBlock_codewords block)
  | None => 0
  end.

(** [while (longerBlocksStartAt >= 0) { ... break ... longerBlocksStartAt-- }]. *)
Fixpoint findLongerBlocks (fuel : nat) (blocks : list DataBlock)
  (shorterBlocksTotalCodewords longerBlocksStartAt : Z) : Z :=
  match fuel with
  | O => longerBlocksStartAt
  | Datatypes.S fuel' =>
      if longerBlocksStartAt >=? 0 then
        if blockLength blocks longerBlocksStartAt =? shorterBlocksTotalCodewords
        then longerBlocksStartAt
        else findLongerBlocks fuel' blocks shorterBlocksTotalCodewords
               (longerBlocksStartAt - 1)
      else longerBlocksStartAt
  end.

Definition getDataBlocks (codewords : list Z) (version : Version) (ecLevel : ECLevel)
  : result (list DataBlock) :=
  let ecb := getECBlocks version ecLevel in
  let numECCodewordsPerBlock := numECCodewordsPerBlock ecb in
  if negb (TypedArray.len codewords =? numTotalCodewords ecb)
  then Throw (Error "failed to get data blocks")
  else
    (* Now establish DataBlocks of the appropriate size and number of data codewords *)
    let blocks :=
      List.flat_map (fun b =>
        List.repeat
          {| DataBlock_codewords :=
               TypedArray.make (numECCodewordsPerBlock + ECB.numDataCodewords b);
             DataBlock_numDataCodewords := ECB.numDataCodewords b |}
          (Z.to_nat (ECB.count b)))
        (ecBlocks ecb) in
    let length := Z.of_nat (List.length blocks) in
    match blocks with
    | nil => Throw (Error "TypeError")
    | block0 :: _ =>
        (* All blocks have the same amount of data, except that the last n
           (where n may be 0) have 1 more byte. Figure out where these start. *)
        let shorterBlocksTotalCodewords := TypedArray.len (DataBlock_codewords block0) in
        let longerBlocksStartAt :=
          findLongerBlocks (List.length blocks) blocks shorterBlocksTotalCodewords
            (length - 1) + 1 in
        (* The last elements of result may be 1 element longer;
           first fill out as many elements as all of them have *)
        let shorterBlocksNumDataCodewords :=
          shorterBlocksTotalCodewords - numECCodewordsPerBlock in
        let st :=
          for_range 0 shorterBlocksNumDataCodewords (fun i st =>
            for_range 0 length (fun j st =>
              (setBlockCodeword (fst st) j i (TypedArray.get codewords (snd st)),
               snd st + 1)) st)
            (blocks, 0) in
        (* Fill out the last data block in the longer ones *)
        let st :=
          for_range longerBlocksStartAt length (fun j st =>
            (setBlockCodeword (fst st) j shorterBlocksNumDataCodewords
               (TypedArray.get codewords (snd st)),
             snd st + 1)) st in
        (* Now add in error correction blocks *)
        let max := shorterBlocksTotalCodewords in
        let st :=
          for_range shorterBlocksNumDataCodewords max (fun i st =>
            for_range 0 length (fun j st =>
              let offset := if j <? longerBlocksStartAt then i else i + 1 in
              (setBlockCodeword (fst st) j offset (TypedArray.get codewords (snd st)),
               snd st + 1)) st)
            st in
        Ok (fst st)
    end.

(* ===================================================================== *)
(** ** module Decoder *)
(* ===================================================================== *)

(** [buffer.set(bytes, offset)] on a [Uint8Array]. *)
Definition setBytes (buffer bytes : list Z) (offset : Z) : result (list Z) :=
  if (offset <? 0) || (offset + TypedArray.len bytes >? TypedArray.len buffer)
  then Throw (Error "RangeError")
  else Ok (TypedArray.blit buffer (List.map toUint8 bytes) offset).

(** The loop of [parse] over the blocks: (buffer, corrected, offset). *)
Fixpoint parse_blocks (blocks : list DataBlock) (buffer : list Z) (corrected offset : Z)
  : result (list Z * Z) :=
  match blocks with
  | nil => Ok (buffer, corrected)
  | block :: rest =>
      let numDataCodewords := DataBlock_numDataCodewords block in
      ' (bytes, errors) <- correctErrors (DataBlock_codewords block) numDataCodewords ;;
      buffer <- setBytes buffer (TypedArray.subarray bytes 0 numDataCodewords) offset ;;
      parse_blocks rest buffer (corrected + errors) (offset + numDataCodewords)
  end.

(** [parse(parser, version, formatInfo)] unmasks the parser's matrix in
    place before it reads it: the parser after the call comes with the
    outcome, which is the data codewords and the number of corrected errors. *)
Definition parse (parser : BitMatrixParser.t) (version : Version) (formatInfo : FormatInfo)
  : BitMatrixParser.t * result (list Z * Z) :=
  let mask := FormatInfo_mask formatInfo in
  let level := FormatInfo_level formatInfo in
  let '(parser, e) := BitMatrixParser.unmask parser mask in
  match e with
  | Some e => (parser, Throw e)
  | None =>
      (parser,
       let ecBlocks := getECBlocks version level in
       codewords <- BitMatrixParser.readCodewords parser version level ;;
       blocks <- getDataBlocks codewords version level ;;
       let buffer := TypedArray.make (numTotalDataCodewords ecBlocks) in
       parse_blocks blocks buffer 0 0)
  end.

(** The decoded symbol ([QRCode] of the decoder). *)
Record QRCode_1 : Type := {
  QRCode_mask : Z;
  QRCode_level : string;
  QRCode_mirror : bool;
  QRCode_version : Z;
  QRCode_corrected : Z;
  QRCode_metadata : DecodeResult
}.

Definition QRCode_content (qrcode : QRCode_1) : jsstring := content (QRCode_metadata qrcode).

Module Decoder.

(** What the [try] block has assigned when it ends: the outcome of the
    block is the version, the format information, the codewords and the
    number of corrected errors. *)
Record attempt : Type := Attempt {
  attempt_parser : BitMatrixParser.t;
  attempt_formatInfo : option FormatInfo;
  attempt_outcome : result (Version * FormatInfo * list Z * Z)
}.

(** [version = parser.readVersion(); formatInfo = parser.readFormatInfo();
    [codewords, corrected] = parse(parser, version, formatInfo)]. *)
Definition read (parser : BitMatrixParser.t) : attempt :=
  match BitMatrixParser.readVersion parser with
  | Throw e => Attempt parser None (Throw e)
  | Ok version =>
      match BitMatrixParser.readFormatInfo parser with
      | Throw e => Attempt parser None (Throw e)
      | Ok formatInfo =>
          let '(parser, r) := parse parser version formatInfo in
          Attempt parser (Some formatInfo)
            (' (codewords, corrected) <- r ;;
             Ok (version, formatInfo, codewords, corrected))
      end
  end.

(** The statements of the [catch] block before the second reading. *)
Definition recover (a : attempt) : result BitMatrixParser.t :=
  parser <-
    match attempt_formatInfo a with
    | Some formatInfo =>
        let '(parser, e) :=
          BitMatrixParser.remask (attempt_parser a) (FormatInfo_mask formatInfo) in
        match e with
        | Some e => Throw e
        | None => Ok parser
        end
    | None => Ok (attempt_parser a)
    end ;;
  Ok (BitMatrixParser.mirror parser).

(** [new QRCode(decode(codewords, version, formatInfo, this.#decode),
    version, formatInfo, corrected, mirror)]. *)
Definition finish (P : Platform) (decodeFn : list Z -> Charset -> jsstring)
  (mirror : bool) (r : Version * FormatInfo * list Z * Z) : result QRCode_1 :=
  let '(version, formatInfo, codewords, corrected) := r in
  metadata <- decode P codewords (Version_version version) decodeFn ;;
  Ok {| QRCode_mask := FormatInfo_mask formatInfo;
        QRCode_level := ECLevel_name (FormatInfo_level formatInfo);
        QRCode_mirror := mirror;
        QRCode_version := Version_version version;
        QRCode_corrected := corrected;
        QRCode_metadata := metadata |}.

(** [decode(matrix)] of a decoder made with the option [decode]. *)
Definition decode (P : Platform) (decodeFn : list Z -> Charset -> jsstring)
  (matrix : BitMatrix.t) : result QRCode_1 :=
  let parser := BitMatrixParser.make matrix in
  let a := read parser in
  match attempt_outcome a with
  | Ok r => finish P decodeFn false r
  | Throw _ =>
      parser <- recover a ;;
      r <- attempt_outcome (read parser) ;;
      finish P decodeFn true r
  end.

End Decoder.

Close Scope Z_scope.
Close Scope list_scope.

(* ===================================================================== *)
(** ** module BitArray *)
(* ===================================================================== *)

Open Scope list_scope.
Open Scope Z_scope.

Module BitArray.

Record t : Type := Build {
  length : Z;
  bits : list Z
}.

Definition offset (index : Z) : Z := js_idiv index 32.

Definition makeArray (length : Z) : list Z := TypedArray.make (ceil_div length 32).

(** [new BitArray(length)]; [new BitArray()] is [make 0]. *)
Definition make (length : Z) : t := Build length (makeArray length).

(** [Math.ceil(length / LOAD_FACTOR)] with [LOAD_FACTOR = 0.75]. *)
Definition loadCapacity (length : Z) : Z := ceil_div (length * 4) 3.

Definition alloc (b : t) (length : Z) : t :=
  if length >? TypedArray.len (bits b) * 32 then
    let array := makeArray (loadCapacity length) in
    Build length (TypedArray.blit array (bits b) 0)
  else Build length (bits b).

Definition byteLength (b : t) : Z := ceil_div (length b) 8.

Definition set (b : t) (index : Z) : t :=
  let o := offset index in
  Build (length b)
    (TypedArray.set (bits b) o
       (js_or (TypedArray.get (bits b) o) (js_shl 1 (js_and index 0x1f)))).

Definition get (b : t) (index : Z) : Z :=
  js_and (js_ushr (TypedArray.get (bits b) (offset index)) (js_and index 0x1f)) 0x01.

(** [xor(mask)]: the loop runs over the words with an index below the
    smaller bit length. *)
Definition xor (b mask : t) : t :=
  let length := Z.min (length b) (length mask) in
  Build (BitArray.length b)
    (for_range 0 length (fun i bits =>
       TypedArray.set bits i
         (js_xor (TypedArray.get bits i) (TypedArray.get (BitArray.bits mask) i)))
       (bits b)).

(** [append(value, length)] for a number [value]: the bits from the most
    significant of the [length] lowest ones down. *)
Definition append (b : t) (value length : Z) : t :=
  let index := BitArray.length b in
  let b := alloc b (index + length) in
  fst (for_down (length - 1) 0 (fun i st =>
         ((if negb (js_and (js_ushr value i) 0x01 =? 0) then set (fst st) (snd st)
           else fst st),
          snd st + 1))
       (b, index)).

(** [append(value)] for a bit array [value]. *)
Definition appendBitArray (b value : t) : t :=
  let index := BitArray.length b in
  let length := BitArray.length value in
  let b := alloc b (index + length) in
  fst (for_range 0 length (fun i st =>
         ((if negb (get value i =? 0) then set (fst st) (snd st) else fst st),
          snd st + 1))
       (b, index)).

(** [toUint8Array(bitOffset, array, offset, byteLength)]: the array after
    the call. *)
Definition toUint8Array (b : t) (bitOffset : Z) (array : list Z) (offset byteLength : Z)
  : list Z :=
  fst (for_range 0 byteLength (fun i st =>
         let '(byte, bitOffset) :=
           for_range 0 8 (fun j st =>
             ((if negb (get b (snd st) =? 0)
               then js_or (fst st) (js_shl 1 (7 - j)) else fst st),
              snd st + 1))
             (0, snd st) in
         (TypedArray.set (fst st) (offset + i) (toUint8 byte), bitOffset))
       (array, bitOffset)).

Definition clear (b : t) : t := Build (length b) (List.map (fun _ => 0) (bits b)).

End BitArray.

Close Scope Z_scope.
Close Scope list_scope.

(* ===================================================================== *)
(** ** module matrix *)
(* ===================================================================== *)

Open Scope list_scope.
Open Scope Z_scope.

(** Format information poly: 101 0011 0111 *)
Definition FORMAT_INFO_POLY : Z := 0x537.
(** Format information mask *)
Definition FORMAT_INFO_MASK : Z := 0x5412.
(** Version information poly: 1 1111 0010 0101 *)
Definition VERSION_INFO_POLY : Z := 0x1f25.

(** Format information coordinates *)
Definition FORMAT_INFO_COORDINATES : list (Z * Z) :=
  (8, 0) :: (8, 1) :: (8, 2) :: (8, 3) :: (8, 4) :: (8, 5) :: (8, 7) :: (8, 8)
  :: (7, 8) :: (5, 8) :: (4, 8) :: (3, 8) :: (2, 8) :: (1, 8) :: (0, 8) :: nil.

(** Position detection pattern *)
Definition POSITION_DETECTION_PATTERN : list (list Z) :=
  (1 :: 1 :: 1 :: 1 :: 1 :: 1 :: 1 :: nil)
  :: (1 :: 0 :: 0 :: 0 :: 0 :: 0 :: 1 :: nil)
  :: (1 :: 0 :: 1 :: 1 :: 1 :: 0 :: 1 :: nil)
  :: (1 :: 0 :: 1 :: 1 :: 1 :: 0 :: 1 :: nil)
  :: (1 :: 0 :: 1 :: 1 :: 1 :: 0 :: 1 :: nil)
  :: (1 :: 0 :: 0 :: 0 :: 0 :: 0 :: 1 :: nil)
  :: (1 :: 1 :: 1 :: 1 :: 1 :: 1 :: 1 :: nil) :: nil.

(** Position adjustment pattern *)
Definition POSITION_ADJUSTMENT_PATTERN : list (list Z) :=
  (1 :: 1 :: 1 :: 1 :: 1 :: nil)
  :: (1 :: 0 :: 0 :: 0 :: 1 :: nil)
  :: (1 :: 0 :: 1 :: 0 :: 1 :: nil)
  :: (1 :: 0 :: 0 :: 0 :: 1 :: nil)
  :: (1 :: 1 :: 1 :: 1 :: 1 :: nil) :: nil.

(** Is empty point. *)
Definition isEmpty (matrix : ByteMatrix.t) (x y : Z) : bool :=
  ByteMatrix.get matrix x y =? -1.

Definition embedPattern (pattern : list (list Z)) (n : Z) (matrix : ByteMatrix.t) (x y : Z)
  : ByteMatrix.t :=
  for_range 0 n (fun i matrix =>
    let row := List.nth (Z.to_nat i) pattern nil in
    for_range 0 n (fun j matrix =>
      ByteMatrix.set matrix (x + j) (y + i) (TypedArray.get row j)) matrix)
    matrix.

Definition embedPositionDetectionPattern (matrix : ByteMatrix.t) (x y : Z) : ByteMatrix.t :=
  embedPattern POSITION_DETECTION_PATTERN 7 matrix x y.

Definition embedHorizontalSeparationPattern (matrix : ByteMatrix.t) (x y : Z)
  : ByteMatrix.t :=
  for_range 0 8 (fun j matrix => ByteMatrix.set matrix (x + j) y 0) matrix.

Definition embedVerticalSeparationPattern (matrix : ByteMatrix.t) (x y : Z)
  : ByteMatrix.t :=
  for_range 0 7 (fun i matrix => ByteMatrix.set matrix x (y + i) 0) matrix.

Definition embedPositionAdjustmentPattern (matrix : ByteMatrix.t) (x y : Z) : ByteMatrix.t :=
  embedPattern POSITION_ADJUSTMENT_PATTERN 5 matrix x y.

(** Embed the lonely dark dot at left bottom corner. JISX0510:2004 (p.46) *)
Definition embedDarkDotAtLeftBottomCorner (matrix : ByteMatrix.t) : ByteMatrix.t :=
  ByteMatrix.set matrix 8 (ByteMatrix.size matrix - 8) 1.

(** Embed position detection patterns and surrounding vertical/horizontal
    separators. *)
Definition embedPositionDetectionPatternsAndSeparators (matrix : ByteMatrix.t)
  : ByteMatrix.t :=
  (* Embed three big squares at corners. *)
  let pdpWidth := 7 in
  (* Embed horizontal separation patterns around the squares. *)
  let hspWidth := 8 in
  (* Embed vertical separation patterns around the squares. *)
  let vspHeight := 7 in
  (* Matrix width *)
  let size := ByteMatrix.size matrix in
  (* Left top corner. *)
  let matrix := embedPositionDetectionPattern matrix 0 0 in
  (* Right top corner. *)
  let matrix := embedPositionDetectionPattern matrix (size - pdpWidth) 0 in
  (* Left bottom corner. *)
  let matrix := embedPositionDetectionPattern matrix 0 (size - pdpWidth) in
  (* Left top corner. *)
  let matrix := embedHorizontalSeparationPattern matrix 0 (hspWidth - 1) in
  (* Right top corner. *)
  let matrix := embedHorizontalSeparationPattern matrix (size - hspWidth) (hspWidth - 1) in
  (* Left bottom corner. *)
  let matrix := embedHorizontalSeparationPattern matrix 0 (size - hspWidth) in
  (* Left top corner. *)
  let matrix := embedVerticalSeparationPattern matrix vspHeight 0 in
  (* Right top corner. *)
  let matrix := embedVerticalSeparationPattern matrix (size - vspHeight - 1) 0 in
  (* Left bottom corner. *)
  embedVerticalSeparationPattern matrix vspHeight (size - vspHeight).

Definition embedTimingPatterns (matrix : ByteMatrix.t) : ByteMatrix.t :=
  (* -8 is for skipping position detection patterns (7: size)
     separation patterns (1: size). Thus, 8 = 7 + 1. *)
  let size := ByteMatrix.size matrix - 8 in
  let matrix :=
    for_range 8 size (fun x matrix =>
      let bit := js_and (x + 1) 0x01 in
      (* Horizontal line. *)
      if isEmpty matrix x 6 then ByteMatrix.set matrix x 6 bit else matrix) matrix in
  for_range 8 size (fun y matrix =>
    let bit := js_and (y + 1) 0x01 in
    (* Vertical line. *)
    if isEmpty matrix 6 y then ByteMatrix.set matrix 6 y bit else matrix) matrix.

(** Embed position adjustment patterns if need be. *)
Definition embedPositionAdjustmentPatterns (matrix : ByteMatrix.t) (version : Version)
  : result ByteMatrix.t :=
  let version := Version_version version in
  if version >=? 2 then
    v <- VERSIONS_at (version - 1) ;;
    let alignmentPatterns := alignmentPatterns v in
    let length := TypedArray.len alignmentPatterns in
    Ok (for_range 0 length (fun i matrix =>
          let y := TypedArray.get alignmentPatterns i in
          for_range 0 length (fun j matrix =>
            let x := TypedArray.get alignmentPatterns j in
            if isEmpty matrix x y then
              (* If the cell is unset, we embed the position adjustment
                 pattern here.  -2 is necessary since the x/y coordinates
                 point to the center of the pattern, not the left top corner. *)
              embedPositionAdjustmentPattern matrix (x - 2) (y - 2)
            else matrix) matrix)
          matrix)
  else Ok matrix.

(** Embed basic patterns. *)
Definition embedBasicPatterns (matrix : ByteMatrix.t) (version : Version)
  : result ByteMatrix.t :=
  (* Let's get started with embedding big squares at corners. *)
  let matrix := embedPositionDetectionPatternsAndSeparators matrix in
  (* Then, embed the dark dot at the left bottom corner. *)
  let matrix := embedDarkDotAtLeftBottomCorner matrix in
  (* Position adjustment patterns appear if version >= 2. *)
  matrix <- embedPositionAdjustmentPatterns matrix version ;;
  (* Timing patterns should be embedded after position adj. patterns. *)
  Ok (embedTimingPatterns matrix).

(** Make bit vector of format information. *)
Definition makeFormatInfoBits (bits : BitArray.t) (ecLevel : ECLevel) (mask : Z)
  : BitArray.t :=
  let formatInfo := js_or (js_shl (ECLevel_bits ecLevel) 3) mask in
  let bits := BitArray.append bits formatInfo 5 in
  let bchCode := calculateBCHCode formatInfo FORMAT_INFO_POLY in
  let bits := BitArray.append bits bchCode 10 in
  let maskBits := BitArray.make 0 in
  let maskBits := BitArray.append maskBits FORMAT_INFO_MASK 15 in
  BitArray.xor bits maskBits.

(** Embed format information. *)
Definition embedFormatInfo (matrix : ByteMatrix.t) (ecLevel : ECLevel) (mask : Z)
  : ByteMatrix.t :=
  let formatInfoBits := makeFormatInfoBits (BitArray.make 0) ecLevel mask in
  let size := ByteMatrix.size matrix in
  let length := BitArray.length formatInfoBits in
  for_range 0 length (fun i matrix =>
    (* Type info bits at the left top corner. See 8.9 of JISX0510:2004 (p.46). *)
    let '(x, y) := List.nth (Z.to_nat i) FORMAT_INFO_COORDINATES (0, 0) in
    (* Place bits in LSB to MSB order. LSB (least significant bit) is the
       last value in formatInfoBits. *)
    let bit := BitArray.get formatInfoBits (length - 1 - i) in
    let matrix := ByteMatrix.set matrix x y bit in
    if i <? 8 then
      (* Right top corner. *)
      ByteMatrix.set matrix (size - i - 1) 8 bit
    else
      (* Left bottom corner. *)
      ByteMatrix.set matrix 8 (size - 7 + (i - 8)) bit)
    matrix.

(** Make bit vector of version information. *)
Definition makeVersionInfoBits (bits : BitArray.t) (version : Z) : BitArray.t :=
  let bits := BitArray.append bits version 6 in
  let bchCode := calculateBCHCode version VERSION_INFO_POLY in
  BitArray.append bits bchCode 12.

(** Embed version information if need be. *)
Definition embedVersionInfo (matrix : ByteMatrix.t) (version : Version) : ByteMatrix.t :=
  let version := Version_version version in
  if version >=? 7 then
    let versionInfoBits := makeVersionInfoBits (BitArray.make 0) version in
    let size := ByteMatrix.size matrix in
    (* It will decrease from 17 to 0. *)
    fst (for_range 0 6 (fun i st =>
           for_range 0 3 (fun j st =>
             let '(matrix, bitIndex) := st in
             (* Place bits in LSB (least significant bit) to MSB order. *)
             let bit := BitArray.get versionInfoBits bitIndex in
             (* Left bottom corner. *)
             let matrix := ByteMatrix.set matrix i (size - 11 + j) bit in
             (* Right bottom corner. *)
             (ByteMatrix.set matrix (size - 11 + j) i bit, bitIndex - 1)) st)
         (matrix, 6 * 3 - 1))
  else matrix.

(** Embed "dataBits" using the mask: the state of the walk is the matrix, the
    bit index and the exception that an illegal mask raised, if any. *)
Definition embedDataBits (matrix : ByteMatrix.t) (dataBits : BitArray.t) (mask : Z)
  : result ByteMatrix.t :=
  let size := ByteMatrix.size matrix in
  let length := BitArray.length dataBits in
  (* Start from the right bottom cell. *)
  let '(matrix, _, e) :=
    while_positive (Z.to_nat size) (size - 1) (fun x st =>
      (* Skip the vertical timing pattern. *)
      let x := if x =? 6 then 5 else x in
      (for_range 0 size (fun y st =>
         for_range 0 2 (fun i st =>
           let '(matrix, bitIndex, e) := st in
           match e with
           | Some _ => st
           | None =>
               let offsetX := x - i in
               let upward := js_and (x + 1) 2 =? 0 in
               let offsetY := if upward then size - 1 - y else y in
               (* Skip the cell if it's not empty. *)
               if isEmpty matrix offsetX offsetY then
                 (* Padding bit. If there is no bit left, we'll fill the
                    left cells with 0. *)
                 let '(bit, bitIndex) :=
                   if bitIndex <? length
                   then (BitArray.get dataBits bitIndex, bitIndex + 1)
                   else (0, bitIndex) in
                 (* Is apply mask. *)
                 match isApplyMask mask offsetX offsetY with
                 | Ok apply =>
                     let bit := if apply then js_xor bit 1 else bit in
                     (ByteMatrix.set matrix offsetX offsetY bit, bitIndex, None)
                 | Throw e => (matrix, bitIndex, Some e)
                 end
               else st
           end) st) st,
       x - 2))
      (matrix, 0, None) in
  match e with
  | Some e => Throw e
  | None => Ok matrix
  end.

(** Build 2D matrix of QR Code from "dataBits" with "ecLevel", "version" and
    the mask. *)
Definition buildMatrix (matrix : ByteMatrix.t) (dataBits : BitArray.t) (version : Version)
  (ecLevel : ECLevel) (mask : Z) : result ByteMatrix.t :=
  (* Clear matrix *)
  let matrix := ByteMatrix.clear matrix (-1) in
  (* Embed basic patterns *)
  matrix <- embedBasicPatterns matrix version ;;
  (* Type information appear with any version. *)
  let matrix := embedFormatInfo matrix ecLevel mask in
  (* Version info appear if version >= 7. *)
  let matrix := embedVersionInfo matrix version in
  (* Data should be embedded at end. *)
  embedDataBits matrix dataBits mask.

(* ===================================================================== *)
(** ** module encoder *)
(* ===================================================================== *)

(** module BlockPair *)
Record BlockPair : Type := {
  ecCodewords : list Z;
  dataCodewords : list Z
}.

Definition generateECCodewords (codewords : list Z) (numECCodewords : Z)
  : result (list Z) :=
  let numDataCodewords := TypedArray.len codewords in
  let buffer := TypedArray.make (numDataCodewords + numECCodewords) in
  (* Copy data codewords. *)
  let buffer := TypedArray.blit buffer (List.map toInt32 codewords) 0 in
  (* Reed solomon encode. *)
  buffer <- RSEncoder.encode QR_CODE_FIELD_256 buffer numECCodewords ;;
  (* Get ec codewords. *)
  Ok (List.map toUint8 (List.skipn (Z.to_nat numDataCodewords) buffer)).

(** Step 1 of [injectECCodewords]: the blocks with their error correction
    bytes; the state is (blocks, dataCodewordsOffset). *)
Fixpoint makeBlockPairs (bits : BitArray.t) (numECCodewordsPerBlock : Z)
  (sizes : list Z) (dataCodewordsOffset : Z) : result (list BlockPair) :=
  match sizes with
  | nil => Ok nil
  | numDataCodewords :: rest =>
      let dataCodewords :=
        BitArray.toUint8Array bits (dataCodewordsOffset * 8)
          (TypedArray.make numDataCodewords) 0 numDataCodewords in
      ecCodewords <- generateECCodewords dataCodewords numECCodewordsPerBlock ;;
      blocks <- makeBlockPairs bits numECCodewordsPerBlock rest
                  (dataCodewordsOffset + numDataCodewords) ;;
      Ok ({| ecCodewords := ecCodewords; dataCodewords := dataCodewords |} :: blocks)
  end.

Definition injectECCodewords (bits : BitArray.t) (ecb : ECBlocks) : result BitArray.t :=
  (* Step 1.  Divide data bytes into blocks and generate error correction
     bytes for them. *)
  let sizes :=
    List.flat_map (fun b =>
      List.repeat (ECB.numDataCodewords b) (Z.to_nat (ECB.count b))) (ecBlocks ecb) in
  blocks <- makeBlockPairs bits (numECCodewordsPerBlock ecb) sizes 0 ;;
  let maxNumECCodewords :=
    List.fold_left (fun m b => Z.max m (TypedArray.len (ecCodewords b))) blocks 0 in
  let maxNumDataCodewords :=
    List.fold_left (fun m b => Z.max m (TypedArray.len (dataCodewords b))) blocks 0 in
  let codewords := BitArray.make 0 in
  (* First, place data blocks. *)
  let codewords :=
    for_range 0 maxNumDataCodewords (fun i codewords =>
      List.fold_left (fun codewords b =>
        if i <? TypedArray.len (dataCodewords b)
        then BitArray.append codewords (TypedArray.get (dataCodewords b) i) 8
        else codewords) blocks codewords) codewords in
  (* Then, place error correction blocks. *)
  Ok (for_range 0 maxNumECCodewords (fun i codewords =>
        List.fold_left (fun codewords b =>
          if i <? TypedArray.len (ecCodewords b)
          then BitArray.append codewords (TypedArray.get (ecCodewords b) i) 8
          else codewords) blocks codewords) codewords).

(** The first loop of [appendTerminateBits]: at most four zero bits while
    the stream is shorter than the capacity. *)
Definition appendTerminator (bits : BitArray.t) (capacity : Z) : BitArray.t :=
  for_range 0 4 (fun i bits =>
    if BitArray.length bits <? capacity then BitArray.append bits 0 1 else bits) bits.

Definition appendTerminateBits (bits : BitArray.t) (numDataCodewords : Z) : BitArray.t :=
  let capacity := numDataCodewords * 8 in
  (* Append Mode.TERMINATE if there is enough space (value is 0000). *)
  let bits := appendTerminator bits capacity in
  (* Append termination bits. See 8.4.8 of JISX0510:2004 (p.24) for details.
     If the last byte isn't 8-bit aligned, we'll add padding bits. *)
  let numBitsInLastByte := js_and (BitArray.length bits) 0x07 in
  let bits :=
    if numBitsInLastByte >? 0 then
      for_range numBitsInLastByte 8 (fun i bits => BitArray.append bits 0 1) bits
    else bits in
  (* If we have more space, we'll fill the space with padding patterns
     defined in 8.4.9 (p.24). *)
  let numPaddingCodewords := numDataCodewords - BitArray.byteLength bits in
  for_range 0 numPaddingCodewords (fun i bits =>
    BitArray.append bits (if negb (js_and i 0x01 =? 0) then 0x11 else 0xec) 8) bits.

(** The segments of the payload. *)
Inductive Segment : Type :=
| Byte (content : jsstring) (charset : Charset)
| Numeric (content : jsstring)
| Alphanumeric (content : jsstring)
| Kanji (content : jsstring)
| Hanzi (content : jsstring).

Definition Segment_mode (segment : Segment) : Mode :=
  match segment with
  | Byte _ _ => BYTE
  | Numeric _ => NUMERIC
  | Alphanumeric _ => ALPHANUMERIC
  | Kanji _ => KANJI
  | Hanzi _ => HANZI
  end.

Definition Segment_content (segment : Segment) : jsstring :=
  match segment with
  | Byte content _ | Numeric content | Alphanumeric content | Kanji content
  | Hanzi content => content
  end.

Definition isByteMode (segment : Segment) : bool := Mode_eqb (Segment_mode segment) BYTE.
Definition isHanziMode (segment : Segment) : bool := Mode_eqb (Segment_mode segment) HANZI.

Definition appendModeInfo (bits : BitArray.t) (mode : Mode) : BitArray.t :=
  BitArray.append bits (Mode_bits mode) 4.

(** [appendECI(bits, segment, currentECIValue)]: the bits and the ECI value
    that is current afterwards. *)
Definition appendECI (bits : BitArray.t) (segment : Segment) (currentECIValue : Z)
  : BitArray.t * Z :=
  match segment with
  | Byte _ charset =>
      let value := List.nth 0 (Charset_values charset) 0 in
      if negb (value =? currentECIValue) then
        let bits := BitArray.append bits (Mode_bits ECI) 4 in
        let bits :=
          if value <? js_shl 1 7 then BitArray.append bits value 8
          else if value <? js_shl 1 14 then
            BitArray.append (BitArray.append bits 2 2) value 14
          else BitArray.append (BitArray.append bits 6 3) value 21 in
        (bits, value)
      else (bits, currentECIValue)
  | _ => (bits, currentECIValue)
  end.

Definition appendFNC1Info (bits : BitArray.t) (fnc1 : FNC1) : BitArray.t :=
  match fnc1 with
  | GS1 =>
      (* GS1 formatted codes are prefixed with a FNC1 in first position mode header. *)
      appendModeInfo bits FNC1_FIRST_POSITION
  | AIM indicator =>
      (* AIM formatted codes are prefixed with a FNC1 in first position mode header. *)
      let bits := appendModeInfo bits FNC1_SECOND_POSITION in
      (* Append AIM application indicator. *)
      BitArray.append bits indicator 8
  end.

Definition appendLengthInfo (bits : BitArray.t) (mode : Mode) (version : Version)
  (numLetters : Z) : BitArray.t :=
  BitArray.append bits numLetters (getCharacterCountBits mode (Version_version version)).

Definition willFit (numInputBits : Z) (version : Version) (ecLevel : ECLevel) : bool :=
  let ecBlocks := getECBlocks version ecLevel in
  let numInputCodewords := ceil_div numInputBits 8 in
  numTotalDataCodewords ecBlocks >=? numInputCodewords.

Definition chooseVersion (numInputBits : Z) (ecLevel : ECLevel) : result Version :=
  match List.find (fun version => willFit numInputBits version ecLevel) VERSIONS with
  | Some version => Ok version
  | None => Throw (Error "data too big for all versions")
  end.

(** The entries of [segmentBlocks]. *)
Record SegmentBlock : Type := {
  block_mode : Mode;
  block_head : BitArray.t;
  block_data : BitArray.t;
  block_length : Z
}.

Definition calculateBitsNeeded (segmentBlocks : list SegmentBlock) (version : Version) : Z :=
  List.fold_left (fun bitsNeeded b =>
    bitsNeeded
    + (BitArray.length (block_head b)
       + getCharacterCountBits (block_mode b) (Version_version version)
       + BitArray.length (block_data b)))
    segmentBlocks 0.

Definition recommendVersion (segmentBlocks : list SegmentBlock) (ecLevel : ECLevel)
  : result Version :=
  v1 <- VERSIONS_at 0 ;;
  let provisionalBitsNeeded := calculateBitsNeeded segmentBlocks v1 in
  provisionalVersion <- chooseVersion provisionalBitsNeeded ecLevel ;;
  let bitsNeeded := calculateBitsNeeded segmentBlocks provisionalVersion in
  chooseVersion bitsNeeded ecLevel.

(** [chooseMask]: the loop keeps the first mask with the least penalty;
    [minPenalty] starts at [Number.MAX_VALUE].  The matrix is built in place
    for every mask: the result is the matrix as the loop leaves it and the
    mask chosen. *)
Definition chooseMask (matrix : ByteMatrix.t) (bits : BitArray.t) (version : Version)
  (ecLevel : ECLevel) : result (ByteMatrix.t * Z) :=
  st <-
    for_range 0 8 (fun mask st =>
      ' (matrix, bestMask, minPenalty) <- st ;;
      matrix <- buildMatrix matrix bits version ecLevel mask ;;
      let penalty := calculateMaskPenalty matrix in
      Ok (match minPenalty with
          | Some least =>
              if penalty <? least then (matrix, mask, Some penalty)
              else (matrix, bestMask, minPenalty)
          | None => (matrix, mask, Some penalty)
          end))
      (Ok (matrix, -1, None)) ;;
  Ok (fst (fst st), snd (fst st)).

(* ===================================================================== *)
(** ** The segment classes *)
(* ===================================================================== *)

(** [assertContent]: the constructors refuse an empty content. *)
Definition assertContent (content : jsstring) : result unit :=
  match content with
  | nil => Throw (Error "segment content should be at least 1 character")
  | _ => Ok tt
  end.

Definition newByte (content : jsstring) (charset : Charset) : result Segment :=
  _ <- assertContent content ;; Ok (Byte content charset).
Definition newNumeric (content : jsstring) : result Segment :=
  _ <- assertContent content ;; Ok (Numeric content).
Definition newAlphanumeric (content : jsstring) : result Segment :=
  _ <- assertContent content ;; Ok (Alphanumeric content).
Definition newKanji (content : jsstring) : result Segment :=
  _ <- assertContent content ;; Ok (Kanji content).
Definition newHanzi (content : jsstring) : result Segment :=
  _ <- assertContent content ;; Ok (Hanzi content).

(** [Byte.encode(encode)]. *)
Definition Byte_encode (encode : jsstring -> Charset -> result (list Z))
  (content : jsstring) (charset : Charset) : result BitArray.t :=
  bytes <- encode content charset ;;
  Ok (List.fold_left (fun bits byte => BitArray.append bits byte 8) bytes
        (BitArray.make 0)).

Definition NUMERIC_MAPPING : list (jsstring * Z) := getCharactersMapping NUMERIC_CHARACTERS.

Definition getNumericCode (character : jsstring) : result Z :=
  match mapping_get NUMERIC_MAPPING character with
  | Some code => Ok code
  | None => Throw (Error "illegal numeric character")
  end.

(** [Numeric.encode()]: the loop over [i], which advances by 3, 2 or 1. *)
Fixpoint Numeric_encode_loop (fuel : nat) (content : jsstring) (i : Z) (bits : BitArray.t)
  : result BitArray.t :=
  let length := TypedArray.len content in
  if i <? length then
    match fuel with
    | O => Throw (Error EmptyString)
    | Datatypes.S fuel' =>
        code1 <- getNumericCode (charAt content i) ;;
        if i + 2 <? length then
          (* Encode three numeric letters in ten bits. *)
          code2 <- getNumericCode (charAt content (i + 1)) ;;
          code3 <- getNumericCode (charAt content (i + 2)) ;;
          Numeric_encode_loop fuel' content (i + 3)
            (BitArray.append bits (code1 * 100 + code2 * 10 + code3) 10)
        else if i + 1 <? length then
          (* Encode two numeric letters in seven bits. *)
          code2 <- getNumericCode (charAt content (i + 1)) ;;
          Numeric_encode_loop fuel' content (i + 2)
            (BitArray.append bits (code1 * 10 + code2) 7)
        else
          (* Encode one numeric letter in four bits. *)
          Numeric_encode_loop fuel' content (i + 1) (BitArray.append bits code1 4)
    end
  else Ok bits.

Definition Numeric_encode (content : jsstring) : result BitArray.t :=
  Numeric_encode_loop (List.length content) content 0 (BitArray.make 0).

Definition ALPHANUMERIC_MAPPING : list (jsstring * Z) :=
  getCharactersMapping ALPHANUMERIC_CHARACTERS.

Definition getAlphanumericCode (character : jsstring) : result Z :=
  match mapping_get ALPHANUMERIC_MAPPING character with
  | Some code => Ok code
  | None => Throw (Error "illegal alphanumeric character")
  end.

Fixpoint Alphanumeric_encode_loop (fuel : nat) (content : jsstring) (i : Z)
  (bits : BitArray.t) : result BitArray.t :=
  let length := TypedArray.len content in
  if i <? length then
    match fuel with
    | O => Throw (Error EmptyString)
    | Datatypes.S fuel' =>
        code1 <- getAlphanumericCode (charAt content i) ;;
        if i + 1 <? length then
          code2 <- getAlphanumericCode (charAt content (i + 1)) ;;
          (* Encode two alphanumeric letters in 11 bits. *)
          Alphanumeric_encode_loop fuel' content (i + 2)
            (BitArray.append bits (code1 * 45 + code2) 11)
        else
          (* Encode one alphanumeric letter in six bits. *)
          Alphanumeric_encode_loop fuel' content (i + 1) (BitArray.append bits code1 6)
    end
  else Ok bits.

Definition Alphanumeric_encode (content : jsstring) : result BitArray.t :=
  Alphanumeric_encode_loop (List.length content) content 0 (BitArray.make 0).

Definition getKanjiCode (P : Platform) (character : jsstring) : Z :=
  match SHIFT_JIS_MAPPING_get P character with
  | Some code => code
  | None => -1
  end.

(** The loop shared by [Kanji.encode] and [Hanzi.encode]: the two ranges
    with the value subtracted in each, and the factor of the high byte. *)
Fixpoint encodeTwoByteCharacters (getCode : jsstring -> Z)
  (low1 high1 offset1 low2 high2 offset2 factor : Z) (message : string)
  (chars : list jsstring) (bits : BitArray.t) : result BitArray.t :=
  match chars with
  | nil => Ok bits
  | character :: rest =>
      let code := getCode character in
      code <-
        (if (code >=? low1) && (code <=? high1) then Ok (code - offset1)
         else if (code >=? low2) && (code <=? high2) then Ok (code - offset2)
         else Throw (Error message)) ;;
      (* Multiply most significant byte of result by the factor and add
         least significant byte to product. *)
      let code := js_shr code 8 * factor + js_and code 0xff in
      (* Convert result to a 13-bit binary string. *)
      encodeTwoByteCharacters getCode low1 high1 offset1 low2 high2 offset2 factor
        message rest (BitArray.append bits code 13)
  end.

Definition Kanji_encode (P : Platform) (content : jsstring) : result BitArray.t :=
  encodeTwoByteCharacters (getKanjiCode P)
    0x8140 0x9ffc 0x8140 0xe040 0xebbf 0xc140 0xc0 "illegal kanji character"
    (characters content) (BitArray.make 0).

Definition getHanziCode (P : Platform) (character : jsstring) : Z :=
  match GB2312_MAPPING_get P character with
  | Some code => code
  | None => -1
  end.

Definition Hanzi_encode (P : Platform) (content : jsstring) : result BitArray.t :=
  encodeTwoByteCharacters (getHanziCode P)
    0xa1a1 0xaafe 0xa1a1 0xb0a1 0xfafe 0xa6a1 0x60 "illegal hanzi character"
    (characters content) (BitArray.make 0).

(* ===================================================================== *)
(** ** module Encoder *)
(* ===================================================================== *)

(** The symbol that the encoder returns. *)
Record QRCode : Type := {
  QRCode_matrix : ByteMatrix.t;
  QRCode_encoded_version : Version;
  QRCode_encoded_level : ECLevel;
  QRCode_encoded_mask : Z
}.

Module Encoder.

(** The options: the FNC1 hint, the error correction level, the version
    ([None] for "auto") and the content encode function. *)
Record t : Type := Build {
  hints : option FNC1;
  level : ECLevel;
  version : option Z;
  encodeFn : jsstring -> Charset -> result (list Z)
}.

Definition assertHints (hints : option FNC1) : result unit :=
  match hints with
  | Some (AIM indicator) =>
      if (indicator <? 0) || (indicator >? 0xff)
      then Throw (Error "illegal fn1 application indicator")
      else Ok tt
  | _ => Ok tt
  end.

Definition assertVersion (version : option Z) : result unit :=
  match version with
  | Some version =>
      if (version <? 1) || (version >? 40)
      then Throw (Error "version must be 'auto' or an integer in [1 - 40]")
      else Ok tt
  | None => Ok tt
  end.

(** [new Encoder(options)]. *)
Definition make (hints : option FNC1) (level : ECLevel) (version : option Z)
  (encodeFn : jsstring -> Charset -> result (list Z)) : result t :=
  _ <- assertHints hints ;;
  _ <- assertVersion version ;;
  Ok (Build hints level version encodeFn).

(** The loop "Init segments": (segmentBlocks, isFNC1Appended, currentECIValue). *)
Fixpoint initSegments (P : Platform) (e : t) (segments : list Segment)
  (isFNC1Appended : bool) (currentECIValue : Z) : result (list SegmentBlock) :=
  match segments with
  | nil => Ok nil
  | segment :: rest =>
      let mode := Segment_mode segment in
      let head := BitArray.make 0 in
      let isByte := isByteMode segment in
      data <-
        match segment with
        | Byte content charset => Byte_encode (encodeFn e) content charset
        | Numeric content => Numeric_encode content
        | Alphanumeric content => Alphanumeric_encode content
        | Kanji content => Kanji_encode P content
        | Hanzi content => Hanzi_encode P content
        end ;;
      let length :=
        if isByte then BitArray.byteLength data
        else TypedArray.len (Segment_content segment) in
      (* Append ECI segment if applicable. *)
      let '(head, currentECIValue) := appendECI head segment currentECIValue in
      (* Append FNC1 if applicable. *)
      let '(head, isFNC1Appended) :=
        match hints e with
        | Some fnc1 =>
            if negb isFNC1Appended then (appendFNC1Info head fnc1, true)
            else (head, isFNC1Appended)
        | None => (head, isFNC1Appended)
        end in
      (* With ECI in place, Write the mode marker. *)
      let head := appendModeInfo head mode in
      (* If is Hanzi mode append GB2312 subset. *)
      let head := if isHanziMode segment then BitArray.append head 1 4 else head in
      (* Push segment block. *)
      blocks <- initSegments P e rest isFNC1Appended currentECIValue ;;
      Ok ({| block_mode := mode; block_head := head; block_data := data;
             block_length := length |} :: blocks)
  end.

(** [encode(...segments)]. *)
Definition encode (P : Platform) (e : t) (segments : list Segment) : result QRCode :=
  let ecLevel := level e in
  (* Current ECI value. *)
  let currentECIValue := List.nth 0 (Charset_values ISO_8859_1) 0 in
  segmentBlocks <- initSegments P e segments false currentECIValue ;;
  version <-
    match version e with
    | None => recommendVersion segmentBlocks ecLevel
    | Some versionNumber =>
        version <- VERSIONS_at (versionNumber - 1) ;;
        let bitsNeeded := calculateBitsNeeded segmentBlocks version in
        if negb (willFit bitsNeeded version ecLevel)
        then Throw (Error "data too big for requested version")
        else Ok version
    end ;;
  let headAndDataBits :=
    List.fold_left (fun bits b =>
      let bits := BitArray.appendBitArray bits (block_head b) in
      let bits := appendLengthInfo bits (block_mode b) version (block_length b) in
      BitArray.appendBitArray bits (block_data b))
      segmentBlocks (BitArray.make 0) in
  let ecBlocks := getECBlocks version ecLevel in
  (* Append terminate the bits properly. *)
  let headAndDataBits :=
    appendTerminateBits headAndDataBits (numTotalDataCodewords ecBlocks) in
  let matrix := ByteMatrix.make (Version_size version) in
  finalBits <- injectECCodewords headAndDataBits ecBlocks ;;
  ' (matrix, mask) <- chooseMask matrix finalBits version ecLevel ;;
  matrix <- buildMatrix matrix finalBits version ecLevel mask ;;
  Ok {| QRCode_matrix := matrix;
        QRCode_encoded_version := version;
        QRCode_encoded_level := ecLevel;
        QRCode_encoded_mask := mask |}.

End Encoder.

Close Scope Z_scope.
Close Scope list_scope.

(* ===================================================================== *)
(** ** modules Point and FinderPatternGroup *)
(* ===================================================================== *)

Open Scope list_scope.
Open Scope Z_scope.

(** The coordinates of a point or of the centre of a pattern are numbers. *)
Record Point : Type := {
  Point_x : float;
  Point_y : float
}.

(** [toInt32(value)] of a number: the integer part modulo 2^32. *)
Definition float_toInt32 (value : float) : Z := toInt32 (float_trunc value).

Definition round (value : float) : Z :=
  float_toInt32 (value + (if PrimFloat.ltb value 0 then (-0.5) else 0.5))%float.

Definition squaredDistance (a b : Point) : float :=
  let xDiff := (Point_x a - Point_x b)%float in
  let yDiff := (Point_y a - Point_y b)%float in
  (xDiff * xDiff + yDiff * yDiff)%float.

Definition distance (a b : Point) : float := PrimFloat.sqrt (squaredDistance a b).

(** The size estimated from the three finder patterns before it is
    normalised. *)
Definition estimatedSymbolSize (topLeft topRight bottomLeft : Point) (moduleSize : float)
  : Z :=
  let width := distance topLeft topRight in
  let height := distance topLeft bottomLeft in
  round ((width + height) / moduleSize / 2)%float + 7.

Definition calculateSymbolSize (topLeft topRight bottomLeft : Point) (moduleSize : float)
  : Z :=
  let size := estimatedSymbolSize topLeft topRight bottomLeft moduleSize in
  match js_and size 0x03 with
  | 0 => size + 1
  | 2 => size - 1
  | 3 => Z.min (size + 2) MAX_VERSION_SIZE
  | _ => size
  end.

Close Scope Z_scope.
Close Scope list_scope.

(* ===================================================================== *)
(** ** A host for closed examples *)
(* ===================================================================== *)

Open Scope list_scope.
Open Scope Z_scope.

(** The decoder that the Encoding Standard gives to the labels "ascii",
    "iso-8859-1" and "latin1": windows-1252, which is the identity except on
    27 of the bytes 0x80 to 0x9f. *)
Definition windows1252_code (byte : Z) : Z :=
  match byte with
  | 0x80 => 0x20ac | 0x82 => 0x201a | 0x83 => 0x0192 | 0x84 => 0x201e
  | 0x85 => 0x2026 | 0x86 => 0x2020 | 0x87 => 0x2021 | 0x88 => 0x02c6
  | 0x89 => 0x2030 | 0x8a => 0x0160 | 0x8b => 0x2039 | 0x8c => 0x0152
  | 0x8e => 0x017d | 0x91 => 0x2018 | 0x92 => 0x2019 | 0x93 => 0x201c
  | 0x94 => 0x201d | 0x95 => 0x2022 | 0x96 => 0x2013 | 0x97 => 0x2014
  | 0x98 => 0x02dc | 0x99 => 0x2122 | 0x9a => 0x0161 | 0x9b => 0x203a
  | 0x9c => 0x0153 | 0x9e => 0x017e | 0x9f => 0x0178
  | _ => byte
  end.

Definition windows1252_decode (bytes : list Z) : jsstring :=
  List.map windows1252_code bytes.

(** UTF-8 of a string: a surrogate pair is one code point and a lone
    surrogate is replaced by U+FFFD. *)
Definition utf8_of_code_point (c : Z) : list Z :=
  if c <? 0x80 then c :: nil
  else if c <? 0x800 then (0xc0 + c / 64) :: (0x80 + c mod 64) :: nil
  else if c <? 0x10000 then
    (0xe0 + c / 4096) :: (0x80 + (c / 64) mod 64) :: (0x80 + c mod 64) :: nil
  else
    (0xf0 + c / 262144) :: (0x80 + (c / 4096) mod 64)
      :: (0x80 + (c / 64) mod 64) :: (0x80 + c mod 64) :: nil.

Definition code_point (character : jsstring) : Z :=
  match character with
  | h :: l :: nil => 0x10000 + (h - 0xd800) * 0x400 + (l - 0xdc00)
  | c :: nil => if isHighSurrogate c || isLowSurrogate c then 0xfffd else c
  | _ => 0xfffd
  end.

Definition utf8_encode (content : jsstring) : list Z :=
  List.flat_map (fun character => utf8_of_code_point (code_point character))
    (characters content).

(** A host whose [TextDecoder] is the one of the single-byte labels above
    and that knows no Shift-JIS or GB2312 character. *)
Definition host : Platform :=
  {| TextDecoder_decode := fun _ bytes => windows1252_decode bytes;
     TextEncoder_encode := utf8_encode;
     SHIFT_JIS_MAPPING_get := fun _ => None;
     GB2312_MAPPING_get := fun _ => None |}.

(** The module matrix of the encoder read as a sampled bit matrix: a dark
    module is a set bit. *)
Definition toBitMatrix (matrix : ByteMatrix.t) : BitMatrix.t :=
  let size := ByteMatrix.size matrix in
  for_range 0 size (fun y bits =>
    for_range 0 size (fun x bits =>
      if ByteMatrix.get matrix x y =? 1 then BitMatrix.set bits x y else bits) bits)
    (BitMatrix.make size size).

(** The encoder and the decoder with their default options but the level
    and the version. *)
Definition encodeWith (level : ECLevel) (version : option Z) (segments : list Segment)
  : result QRCode :=
  e <- Encoder.make None level version (encode_1 host) ;;
  Encoder.encode host e segments.

Definition decodeSymbol (matrix : ByteMatrix.t) : result QRCode_1 :=
  Decoder.decode host (decode_1 host) (toBitMatrix matrix).

Close Scope Z_scope.
Close Scope list_scope.

(* ===================================================================== *)
(** * Verification *)
(* ===================================================================== *)

(** ** The 32-bit operators on small numbers *)

Open Scope list_scope.
Open Scope Z_scope.

Lemma toInt32_small (z : Z) : - 2 ^ 31 <= z < 2 ^ 31 -> toInt32 z = z.
Proof.
  intros H. unfold toInt32.
  rewrite Z.mod_small; lia.
Qed.

Lemma toInt32_range (z : Z) : - 2 ^ 31 <= toInt32 z < 2 ^ 31.
Proof.
  unfold toInt32.
  pose proof (Z.mod_pos_bound (z + 2 ^ 31) (2 ^ 32) ltac:(lia)). lia.
Qed.

Lemma toInt32_eqm (z : Z) : toInt32 z mod 2 ^ 32 = z mod 2 ^ 32.
Proof.
  unfold toInt32.
  rewrite Zminus_mod Zmod_mod -Zminus_mod.
  f_equal. lia.
Qed.

Lemma toInt32_idem (z : Z) : toInt32 (toInt32 z) = toInt32 z.
Proof. apply toInt32_small, toInt32_range. Qed.

(** The low 32 bits of [toInt32 z] are those of [z]. *)
Lemma toInt32_testbit (z k : Z) :
  0 <= k < 32 -> Z.testbit (toInt32 z) k = Z.testbit z k.
Proof.
  intros Hk.
  rewrite <- (Z.mod_pow2_bits_low (toInt32 z) 32 k) by lia.
  rewrite <- (Z.mod_pow2_bits_low z 32 k) by lia.
  by rewrite toInt32_eqm.
Qed.

Lemma toUint32_testbit (z k : Z) :
  0 <= k < 32 -> Z.testbit (toUint32 z) k = Z.testbit z k.
Proof. intros Hk. unfold toUint32. apply Z.mod_pow2_bits_low. lia. Qed.

Lemma js_and_small (a b : Z) :
  - 2 ^ 31 <= a < 2 ^ 31 -> - 2 ^ 31 <= b < 2 ^ 31 -> js_and a b = Z.land a b.
Proof. intros Ha Hb. unfold js_and. by rewrite !toInt32_small. Qed.

Lemma js_or_small (a b : Z) :
  - 2 ^ 31 <= a < 2 ^ 31 -> - 2 ^ 31 <= b < 2 ^ 31 -> js_or a b = Z.lor a b.
Proof. intros Ha Hb. unfold js_or. by rewrite !toInt32_small. Qed.

Lemma js_xor_small (a b : Z) :
  - 2 ^ 31 <= a < 2 ^ 31 -> - 2 ^ 31 <= b < 2 ^ 31 -> js_xor a b = Z.lxor a b.
Proof. intros Ha Hb. unfold js_xor. by rewrite !toInt32_small. Qed.

Lemma toInt32_mod_pow2 (z k : Z) :
  0 <= k <= 32 -> toInt32 z mod 2 ^ k = z mod 2 ^ k.
Proof.
  intros Hk. unfold toInt32.
  rewrite -> (Z.mod_eq (z + 2 ^ 31) (2 ^ 32)) by lia.
  set (q := (z + 2 ^ 31) / 2 ^ 32).
  replace (z + 2 ^ 31 - 2 ^ 32 * q - 2 ^ 31) with (z + (- q * 2 ^ (32 - k)) * 2 ^ k).
  - apply Z_mod_plus_full.
  - replace (2 ^ 32) with (2 ^ (32 - k) * 2 ^ k).
    + ring.
    + rewrite <- Z.pow_add_r by lia. f_equal. lia.
Qed.

(** [x & (2^k - 1)] is [x mod 2^k], whatever the size of [x]. *)
Lemma js_and_ones (x k : Z) :
  0 <= k < 32 -> js_and x (2 ^ k - 1) = x mod 2 ^ k.
Proof.
  intros Hk. unfold js_and.
  assert (Hm : - 2 ^ 31 <= 2 ^ k - 1 < 2 ^ 31).
  { assert (0 < 2 ^ k) by (apply Z.pow_pos_nonneg; lia).
    assert (2 ^ k <= 2 ^ 31) by (apply Z.pow_le_mono_r; lia). lia. }
  rewrite (toInt32_small _ Hm).
  replace (2 ^ k - 1) with (Z.ones k) by (rewrite Z.ones_equiv; lia).
  rewrite -> Z.land_ones by lia.
  apply toInt32_mod_pow2. lia.
Qed.

Lemma js_and_31 (x : Z) : js_and x 0x1f = x mod 32.
Proof. exact (js_and_ones x 5 ltac:(lia)). Qed.

Lemma js_and_7 (x : Z) : js_and x 0x07 = x mod 8.
Proof. exact (js_and_ones x 3 ltac:(lia)). Qed.

Lemma js_and_1 (x : Z) : js_and x 0x01 = x mod 2.
Proof. exact (js_and_ones x 1 ltac:(lia)). Qed.

Lemma js_and_3 (x : Z) : js_and x 0x03 = x mod 4.
Proof. exact (js_and_ones x 2 ltac:(lia)). Qed.

Lemma js_idiv_small (a b : Z) :
  0 <= a < 2 ^ 31 -> 0 < b -> js_idiv a b = a / b.
Proof.
  intros Ha Hb. unfold js_idiv.
  rewrite -> Z.quot_div_nonneg by lia.
  apply toInt32_small.
  assert (0 <= a / b) by (apply Z.div_pos; lia).
  assert (a / b <= a) by (apply Z.div_le_upper_bound; nia).
  lia.
Qed.

(** The bit that [get] reads from a word. *)
Lemma word_bit (w k : Z) :
  0 <= k < 32 ->
  js_and (js_ushr w k) 0x01 = Z.b2z (Z.testbit w k).
Proof.
  intros Hk. rewrite js_and_1. unfold js_ushr.
  rewrite -> (Z.mod_small k 32) by lia.
  rewrite <- Z.bit0_mod. rewrite -> Z.shiftr_spec by lia.
  rewrite Z.add_0_l. by rewrite -> toUint32_testbit by lia.
Qed.

(** The word that [set] writes. *)
Lemma word_set_bit (w k j : Z) :
  0 <= k < 32 -> 0 <= j < 32 ->
  Z.testbit (js_or w (js_shl 1 k)) j = Z.testbit w j || (j =? k).
Proof.
  intros Hk Hj. unfold js_or, js_shl.
  rewrite Z.lor_spec. rewrite -> !toInt32_testbit by lia.
  rewrite -> (Z.mod_small k 32) by lia.
  f_equal. rewrite -> (toInt32_small 1) by lia.
  rewrite -> Z.shiftl_spec by lia.
  destruct (Z.eqb_spec j k) as [->|Hne].
  - by rewrite Z.sub_diag.
  - destruct (Z.ltb_spec j k).
    + rewrite -> Z.testbit_neg_r by lia. done.
    + replace (j - k) with (Z.succ (j - k - 1)) by lia.
      rewrite -> (Z.bits_above_log2 1 (Z.succ (j - k -1))) by (simpl; lia). done.
Qed.

Lemma word_flip_bit (w k j : Z) :
  0 <= k < 32 -> 0 <= j < 32 ->
  Z.testbit (js_xor w (js_shl 1 k)) j = xorb (Z.testbit w j) (j =? k).
Proof.
  intros Hk Hj. unfold js_xor, js_shl.
  rewrite Z.lxor_spec. rewrite -> !toInt32_testbit by lia.
  rewrite -> (Z.mod_small k 32) by lia.
  f_equal. rewrite -> (toInt32_small 1) by lia.
  rewrite -> Z.shiftl_spec by lia.
  destruct (Z.eqb_spec j k) as [->|Hne].
  - by rewrite Z.sub_diag.
  - destruct (Z.ltb_spec j k).
    + rewrite -> Z.testbit_neg_r by lia. done.
    + replace (j - k) with (Z.succ (j - k - 1)) by lia.
      rewrite -> (Z.bits_above_log2 1 (Z.succ (j - k -1))) by (simpl; lia). done.
Qed.

(** ** Exhaustive checks over an initial segment of the integers *)

Definition below (n : nat) : list Z := List.map Z.of_nat (List.seq 0 n).

Lemma In_below (n : nat) (z : Z) : 0 <= z < Z.of_nat n -> List.In z (below n).
Proof.
  intros H. unfold below. apply List.in_map_iff.
  exists (Z.to_nat z). split; [lia|]. apply List.in_seq. lia.
Qed.

Lemma forall_below (n : nat) (f : Z -> bool) :
  List.forallb f (below n) = true ->
  forall z, 0 <= z < Z.of_nat n -> f z = true.
Proof.
  intros H z Hz.
  rewrite -> List.forallb_forall in H. apply H. by apply In_below.
Qed.

(** ** Typed arrays *)

Module TypedArrayFacts.

Import TypedArray.

Lemma update_length (a : list Z) (n : nat) (v : Z) :
  List.length (update a n v) = List.length a.
Proof.
  revert n. induction a as [|h t IH]; intros [|n]; simpl; auto.
Qed.

Lemma set_length (a : list Z) (i v : Z) : len (set a i v) = len a.
Proof.
  unfold len, set. destruct (i <? 0); [done|]. by rewrite update_length.
Qed.

Lemma nth_update (a : list Z) (n m : nat) (v : Z) :
  List.nth m (update a n v) 0 =
  if Nat.eqb m n && Nat.ltb n (List.length a) then v else List.nth m a 0.
Proof.
  revert n m. induction a as [|h t IH]; intros n m.
  - destruct n, m; simpl; rewrite ?andb_false_r; reflexivity.
  - destruct n, m; simpl; auto.
Qed.

Lemma get_set (a : list Z) (i j v : Z) :
  get (set a i v) j =
  if (j =? i) && (0 <=? i) && (i <? len a) then v else get a j.
Proof.
  unfold get, set, len.
  destruct (Z.ltb_spec i 0) as [Hi|Hi].
  - destruct (Z.leb_spec 0 i); [lia|]. by rewrite andb_false_r.
  - destruct (Z.ltb_spec j 0) as [Hj|Hj].
    + destruct (Z.eqb_spec j i); [lia|]. done.
    + rewrite nth_update.
      destruct (Z.eqb_spec j i) as [->|Hne].
      * rewrite Nat.eqb_refl.
        destruct (Z.leb_spec 0 i); [|lia]. simpl.
        destruct (Nat.ltb_spec (Z.to_nat i) (List.length a));
          destruct (Z.ltb_spec i (Z.of_nat (List.length a))); auto; lia.
      * destruct (Nat.eqb_spec (Z.to_nat j) (Z.to_nat i)); [lia|]. done.
Qed.

Lemma get_set_same (a : list Z) (i v : Z) :
  0 <= i < len a -> get (set a i v) i = v.
Proof.
  intros H. rewrite get_set Z.eqb_refl.
  destruct (Z.leb_spec 0 i); [|lia]. destruct (Z.ltb_spec i (len a)); [done|lia].
Qed.

Lemma get_set_other (a : list Z) (i j v : Z) :
  j <> i -> get (set a i v) j = get a j.
Proof.
  intros H. rewrite get_set. destruct (Z.eqb_spec j i); [lia|done].
Qed.

Lemma len_make (n : Z) : len (make n) = Z.max 0 n.
Proof. unfold len, make. rewrite List.repeat_length. lia. Qed.

Lemma get_make (n i : Z) : get (make n) i = 0.
Proof.
  unfold get, make. destruct (i <? 0); [done|].
  generalize (Z.to_nat i) as k. generalize (Z.to_nat n) as m.
  induction m as [|m IH]; intros [|k]; simpl; auto.
Qed.

Lemma get_outside (a : list Z) (i : Z) : len a <= i -> get a i = 0.
Proof.
  unfold get, len. intros H. destruct (i <? 0); [done|].
  apply List.nth_overflow. lia.
Qed.

Lemma get_negative (a : list Z) (i : Z) : i < 0 -> get a i = 0.
Proof. unfold get. intros H. destruct (Z.ltb_spec i 0); [done|lia]. Qed.

Lemma len_nonneg (a : list Z) : 0 <= len a.
Proof. unfold len. lia. Qed.

(** Two arrays of one length with the same cells are equal. *)
Lemma ext (a b : list Z) :
  len a = len b -> (forall i, 0 <= i < len a -> get a i = get b i) -> a = b.
Proof.
  unfold len, get. intros Hl H.
  apply (List.nth_ext a b 0 0); [lia|].
  intros n Hn. specialize (H (Z.of_nat n) ltac:(lia)).
  destruct (Z.ltb_spec (Z.of_nat n) 0); [lia|].
  by rewrite Nat2Z.id in H.
Qed.

Lemma blit_length (source a : list Z) (offset : Z) :
  len (blit a source offset) = len a.
Proof.
  revert a offset. induction source as [|v rest IH]; intros a offset; simpl; auto.
  by rewrite IH set_length.
Qed.

Lemma get_blit (source a : list Z) (offset i : Z) :
  0 <= offset -> offset + len source <= len a ->
  get (blit a source offset) i =
  if (offset <=? i) && (i <? offset + len source) then get source (i - offset)
  else get a i.
Proof.
  revert a offset. induction source as [|v rest IH]; intros a offset Ho Hl.
  - simpl. unfold len in *. simpl in *.
    destruct (Z.leb_spec offset i); destruct (Z.ltb_spec i (offset + 0)); simpl; auto; lia.
  - simpl. change (len (v :: rest)) with (Z.of_nat (Datatypes.S (List.length rest))) in *.
    rewrite -> Nat2Z.inj_succ in Hl |- *.
    assert (Hs : offset + 1 + len rest <= len (set a offset v)).
    { rewrite set_length. unfold len in *. lia. }
    rewrite -> IH by (lia || exact Hs).
    unfold len. rewrite get_set.
    assert (Hg : forall k, 0 < k -> get (v :: rest) k = get rest (k - 1)).
    { intros k Hk. unfold get.
      destruct (Z.ltb_spec k 0); [lia|]. destruct (Z.ltb_spec (k - 1) 0); [lia|].
      replace (Z.to_nat k) with (Datatypes.S (Z.to_nat (k - 1))) by lia. done. }
    destruct (Z.eqb_spec i offset) as [->|Hne].
    + destruct (Z.leb_spec (offset + 1) offset); [lia|].
      destruct (Z.leb_spec 0 offset); [|lia].
      destruct (Z.ltb_spec offset (len a)); [|unfold len in *; lia].
      destruct (Z.leb_spec offset offset); [|lia].
      destruct (Z.ltb_spec offset (offset + Z.succ (Z.of_nat (List.length rest)))); [|lia].
      simpl. by rewrite Z.sub_diag.
    + simpl.
      destruct (Z.leb_spec (offset + 1) i);
        destruct (Z.ltb_spec i (offset + 1 + Z.of_nat (List.length rest)));
        destruct (Z.leb_spec offset i);
        destruct (Z.ltb_spec i (offset + Z.succ (Z.of_nat (List.length rest))));
        simpl; try lia; try reflexivity.
      rewrite -> Hg by lia. f_equal. lia.
Qed.

End TypedArrayFacts.

(** ** Loops *)

Lemma for_loop_S {S : Type} (n : nat) (i : Z) (body : Z -> S -> S) (s : S) :
  for_loop (Datatypes.S n) i body s = body (i + Z.of_nat n) (for_loop n i body s).
Proof.
  revert i s. induction n as [|n IH]; intros i s.
  - simpl. by rewrite Z.add_0_r.
  - change (for_loop (Datatypes.S (Datatypes.S n)) i body s)
      with (for_loop (Datatypes.S n) (i + 1) body (body i s)).
    rewrite IH. simpl for_loop. f_equal. lia.
Qed.

(** An invariant that every round keeps holds after the loop. *)
Lemma for_range_ind {S : Type} (I : Z -> S -> Prop) (from to : Z)
  (body : Z -> S -> S) (s : S) :
  from <= to ->
  I from s ->
  (forall i s, from <= i < to -> I i s -> I (i + 1) (body i s)) ->
  I to (for_range from to body s).
Proof.
  intros Hle H0 Hstep. unfold for_range.
  assert (G : forall n, Z.of_nat n <= to - from ->
                I (from + Z.of_nat n) (for_loop n from body s)).
  { induction n as [|n IH]; intros Hn.
    - simpl. by rewrite Z.add_0_r.
    - rewrite for_loop_S.
      replace (from + Z.of_nat (Datatypes.S n)) with (from + Z.of_nat n + 1) by lia.
      apply Hstep; [lia|]. apply IH. lia. }
  specialize (G (Z.to_nat (to - from)) ltac:(lia)).
  replace (from + Z.of_nat (Z.to_nat (to - from))) with to in G by lia.
  exact G.
Qed.

Lemma for_range_empty {S : Type} (from to : Z) (body : Z -> S -> S) (s : S) :
  to <= from -> for_range from to body s = s.
Proof.
  intros H. unfold for_range.
  replace (Z.to_nat (to - from)) with O by lia. done.
Qed.

Lemma for_range_last {S : Type} (from to : Z) (body : Z -> S -> S) (s : S) :
  from <= to ->
  for_range from (to + 1) body s = body to (for_range from to body s).
Proof.
  intros H. unfold for_range.
  replace (Z.to_nat (to + 1 - from)) with (Datatypes.S (Z.to_nat (to - from))) by lia.
  rewrite for_loop_S. f_equal. lia.
Qed.

Lemma for_range_first {S : Type} (from to : Z) (body : Z -> S -> S) (s : S) :
  from < to ->
  for_range from to body s = for_range (from + 1) to body (body from s).
Proof.
  intros H. unfold for_range.
  replace (Z.to_nat (to - from)) with (Datatypes.S (Z.to_nat (to - (from + 1)))) by lia.
  done.
Qed.

Lemma for_down_loop_S {S : Type} (n : nat) (i : Z) (body : Z -> S -> S) (s : S) :
  for_down_loop (Datatypes.S n) i body s
  = body (i - Z.of_nat n) (for_down_loop n i body s).
Proof.
  revert i s. induction n as [|n IH]; intros i s.
  - simpl. by rewrite Z.sub_0_r.
  - change (for_down_loop (Datatypes.S (Datatypes.S n)) i body s)
      with (for_down_loop (Datatypes.S n) (i - 1) body (body i s)).
    rewrite IH. simpl for_down_loop. f_equal. lia.
Qed.

(** The same for a loop that counts down: the invariant is indexed by the
    next value of the counter. *)
Lemma for_down_ind {S : Type} (I : Z -> S -> Prop) (from to : Z)
  (body : Z -> S -> S) (s : S) :
  to <= from + 1 ->
  I from s ->
  (forall i s, to <= i <= from -> I i s -> I (i - 1) (body i s)) ->
  I (to - 1) (for_down from to body s).
Proof.
  intros Hle H0 Hstep. unfold for_down.
  assert (G : forall n, Z.of_nat n <= from - to + 1 ->
                I (from - Z.of_nat n) (for_down_loop n from body s)).
  { induction n as [|n IH]; intros Hn.
    - simpl. by rewrite Z.sub_0_r.
    - rewrite for_down_loop_S.
      replace (from - Z.of_nat (Datatypes.S n)) with (from - Z.of_nat n - 1) by lia.
      apply Hstep; [lia|]. apply IH. lia. }
  specialize (G (Z.to_nat (from - to + 1)) ltac:(lia)).
  replace (from - Z.of_nat (Z.to_nat (from - to + 1))) with (to - 1) in G by lia.
  exact G.
Qed.

Close Scope Z_scope.
Close Scope list_scope.

(* ===================================================================== *)
(** ** Binary64 arithmetic: the sum [x + 0.5] and its integer part *)
(* ===================================================================== *)

Open Scope list_scope.
Open Scope Z_scope.

(** The facts below are read off the specification of the binary64
    operations in [SpecFloat]: a finite number is [m * 2^e] with a mantissa
    below 2^53, and a result is rounded to the nearest such number, ties to
    the even mantissa. *)
Module FloatRound.
















End FloatRound.

Close Scope Z_scope.
Close Scope list_scope.

(* ===================================================================== *)
(** ** Bit streams read as lists and as numbers *)
(* ===================================================================== *)

Open Scope list_scope.
Open Scope Z_scope.

(** The bits of a bit array in the order of their indices. *)
Definition bitList (b : BitArray.t) : list Z :=
  List.map (BitArray.get b) (below (Z.to_nat (BitArray.length b))).

(** A list of bits read as a number, the first bit being the most
    significant one. *)
Definition bitsValue (bits : list Z) : Z :=
  List.fold_left (fun acc bit => 2 * acc + bit) bits 0.

Fixpoint list_eqb (a b : list Z) : bool :=
  match a, b with
  | nil, nil => true
  | x :: a', y :: b' => (x =? y) && list_eqb a' b'
  | _, _ => false
  end.

Lemma list_eqb_eq (a b : list Z) : list_eqb a b = true <-> a = b.
Proof.
  revert b. induction a as [|x a IH]; intros [|y b]; simpl; split; try congruence; auto.
  - intros H. apply andb_prop in H as [H1 H2].
    apply Z.eqb_eq in H1. apply IH in H2. congruence.
  - intros H. injection H as -> ->. rewrite Z.eqb_refl. simpl. by apply IH.
Qed.

(* ===================================================================== *)
(** ** C6: the numeric segment of "01234567" *)
(* ===================================================================== *)

(** The bit string that the specification prints for the segment body. *)
Definition C6_printed_bits : list Z :=
  (0 :: 0 :: 0 :: 0 :: 1 :: 1 :: 0 :: 0 :: 0 :: 1 :: nil)
  ++ (0 :: 1 :: 0 :: 1 :: 0 :: 1 :: 1 :: 0 :: 0 :: 1 :: nil)
  ++ (1 :: 0 :: 0 :: 0 :: 0 :: 1 :: 1 :: nil).

(** The bit string that the encoder produces. *)
Definition C6_encoded_bits : list Z :=
  (0 :: 0 :: 0 :: 0 :: 0 :: 0 :: 1 :: 1 :: 0 :: 0 :: nil)
  ++ (0 :: 1 :: 0 :: 1 :: 0 :: 1 :: 1 :: 0 :: 0 :: 1 :: nil)
  ++ (1 :: 0 :: 0 :: 0 :: 0 :: 1 :: 1 :: nil).

(** C6, as stated, fails: the segment body of the numeric content
    "01234567" is not the bit string 0000110001 0101011001 1000011; the
    two differ in the first group of ten bits. *)
Lemma numeric_01234567_differs_from_printed :
  exists bits,
    Numeric_encode (str "01234567") = Ok bits
    /\ list_eqb (bitList bits) C6_printed_bits = false
    /\ List.firstn 10 (bitList bits) = 0 :: 0 :: 0 :: 0 :: 0 :: 0 :: 1 :: 1 :: 0 :: 0 :: nil
    /\ List.skipn 10 (bitList bits) = List.skipn 10 C6_printed_bits.
Proof.
  eexists. split; [vm_compute; reflexivity|].
  repeat split; vm_compute; reflexivity.
Qed.

(** C6, amended: encoding the numeric content "01234567" produces the
    segment body 0000001100 0101011001 1000011: the ten bits of 012, the ten
    bits of 345 and the seven bits of 67. *)
Theorem numeric_01234567_bits :
  exists bits,
    Numeric_encode (str "01234567") = Ok bits
    /\ BitArray.length bits = 27
    /\ bitList bits = C6_encoded_bits
    /\ bitsValue (List.firstn 10 (bitList bits)) = 12
    /\ bitsValue (List.firstn 10 (List.skipn 10 (bitList bits))) = 345
    /\ bitsValue (List.skipn 20 (bitList bits)) = 67.
Proof.
  eexists. split; [vm_compute; reflexivity|].
  repeat split; vm_compute; reflexivity.
Qed.

(* ===================================================================== *)
(** ** C9: the built-in text encoder replaces what it cannot encode *)
(* ===================================================================== *)

(** The strings of JavaScript: every code unit has 16 bits. *)
Definition wellFormedString (content : jsstring) : Prop :=
  List.Forall (fun c => 0 <= c < 65536) content.

Lemma characters_codes (content : jsstring) :
  wellFormedString content ->
  List.Forall (fun character => 0 <= charCodeAt0 character < 65536) (characters content).
Proof.
  unfold wellFormedString.
  remember (List.length content) as n eqn:Hn.
  revert content Hn.
  induction n as [n IH] using lt_wf_ind. intros content Hn Hwf.
  destruct content as [|c rest]; [constructor|].
  inversion Hwf as [|? ? Hc Hrest]; subst.
  destruct rest as [|d rest'].
  - simpl. constructor; [exact Hc|constructor].
  - inversion Hrest as [|? ? Hd Hrest']; subst.
    change (characters (c :: d :: rest')) with
      (if isHighSurrogate c && isLowSurrogate d
       then (c :: d :: nil) :: characters rest'
       else (c :: nil) :: characters (d :: rest')).
    destruct (isHighSurrogate c && isLowSurrogate d).
    + constructor; [exact Hc|].
      apply (IH (List.length rest')); [simpl; lia | reflexivity | exact Hrest'].
    + constructor; [exact Hc|].
      apply (IH (List.length (d :: rest'))); [simpl; lia | reflexivity | exact Hrest].
Qed.

(** The byte that stands for a character under a bound on the codes. *)
Definition replaced (maxCode : Z) (character : jsstring) : Z :=
  if charCodeAt0 character >? maxCode then 0x3f else charCodeAt0 character.

Lemma getCharCodes_replaced (content : jsstring) (maxCode : Z) :
  wellFormedString content -> 0 <= maxCode <= 255 ->
  getCharCodes content maxCode = List.map (replaced maxCode) (characters content).
Proof.
  intros Hwf Hmax. unfold getCharCodes.
  apply List.map_ext_in. intros character Hin.
  pose proof (characters_codes _ Hwf) as Hall.
  rewrite -> List.Forall_forall in Hall. specialize (Hall _ Hin).
  unfold replaced, toUint8.
  destruct (Z.gtb_spec (charCodeAt0 character) maxCode).
  - reflexivity.
  - apply Z.mod_small. lia.
Qed.

(** C9.  With the charset ASCII and with the charset ISO-8859-1 the
    built-in encoder never fails on a string: it returns one byte for
    every character, the byte 0x3F for a character whose code exceeds
    0x7F (ASCII) or 0xFF (ISO-8859-1) and the code itself otherwise. *)
Theorem encode_replaces_out_of_range (P : Platform) (content : jsstring) :
  wellFormedString content ->
  encode_1 P content ASCII = Ok (List.map (replaced 0x7f) (characters content))
  /\ encode_1 P content ISO_8859_1 = Ok (List.map (replaced 0xff) (characters content))
  /\ (forall character, List.In character (characters content) ->
        (charCodeAt0 character > 0x7f -> replaced 0x7f character = 0x3f)
        /\ (charCodeAt0 character <= 0x7f -> replaced 0x7f character = charCodeAt0 character)
        /\ (charCodeAt0 character > 0xff -> replaced 0xff character = 0x3f)
        /\ (charCodeAt0 character <= 0xff -> replaced 0xff character = charCodeAt0 character)).
Proof.
  intros Hwf. simpl encode_1.
  rewrite -> !getCharCodes_replaced by (assumption || lia).
  split; [reflexivity|]. split; [reflexivity|].
  intros character _. unfold replaced.
  split; [|split; [|split]]; intros Hcode.
  - destruct (Z.gtb_spec (charCodeAt0 character) 0x7f); [reflexivity|lia].
  - destruct (Z.gtb_spec (charCodeAt0 character) 0x7f); [lia|reflexivity].
  - destruct (Z.gtb_spec (charCodeAt0 character) 0xff); [reflexivity|lia].
  - destruct (Z.gtb_spec (charCodeAt0 character) 0xff); [lia|reflexivity].
Qed.

(** The theorem at the string of "a", U+00E9, U+20AC and U+1F600 (a surrogate
    pair): "a" and U+00E9 are kept by ISO-8859-1, U+00E9 is replaced by ASCII,
    U+20AC and the pair are replaced by both. *)
Lemma encode_replaces_out_of_range_witness :
  wellFormedString (97 :: 0xe9 :: 0x20ac :: 0xd83d :: 0xde00 :: nil)
  /\ encode_1 host (97 :: 0xe9 :: 0x20ac :: 0xd83d :: 0xde00 :: nil) ASCII
     = Ok (97 :: 0x3f :: 0x3f :: 0x3f :: nil)
  /\ encode_1 host (97 :: 0xe9 :: 0x20ac :: 0xd83d :: 0xde00 :: nil) ISO_8859_1
     = Ok (97 :: 0xe9 :: 0x3f :: 0x3f :: nil).
Proof.
  assert (H : wellFormedString (97 :: 0xe9 :: 0x20ac :: 0xd83d :: 0xde00 :: nil)).
  { repeat constructor; lia. }
  split; [exact H|].
  destruct (encode_replaces_out_of_range host _ H) as [H1 [H2 _]].
  split; [exact H1 | exact H2].
Defined.

(* ===================================================================== *)
(** ** C8: the symbol size is the rounded estimate, normalised *)
(* ===================================================================== *)

(** The adjustment the claim words: by the remainder modulo 4, plus 1 for
    0, unchanged for 1, minus 1 for 2, plus 2 capped at 177 for 3. *)
Definition adjustedSize (size : Z) : Z :=
  if size mod 4 =? 0 then size + 1
  else if size mod 4 =? 1 then size
  else if size mod 4 =? 2 then size - 1
  else Z.min (size + 2) 177.


(** The integer part of the number a binary64 value stands for: the same
    fraction divided towards zero; 0 for NaN and the infinities. *)
Definition integerPart (f : float) : Z :=
  match Prim2SF f with
  | S754_finite s m e =>
      Z.quot ((if s then -1 else 1) * Z.pos m * 2 ^ Z.max 0 e) (2 ^ Z.max 0 (- e))
  | _ => 0
  end.

(** The estimate of [calculateSymbolSize]: the signs of the results of the
    binary64 operations, from their specification in [SpecFloat], and what
    [round] makes of the estimate. *)
Module EstimateFacts.

(** Zero of either sign, NaN, or a positive number or infinity. *)
Definition notNegative (x : spec_float) : bool :=
  match x with
  | S754_infinity s | S754_finite s _ _ => negb s
  | _ => true
  end.

Definition isPositive (x : spec_float) : bool :=
  match x with
  | S754_infinity s | S754_finite s _ _ => negb s
  | _ => false
  end.

Lemma round_aux_sign (m e : Z) (l : location) :
  notNegative (binary_round_aux prec emax false m e l) = true.
Proof.
  unfold binary_round_aux.
  destruct (shr_fexp prec emax m e l) as [mrs' e'].
  destruct (shr_fexp prec emax _ e' loc_Exact) as [mrs'' e''].
  destruct (shr_m mrs''); [reflexivity| |reflexivity].
  by destruct (Z.leb e'' _).
Qed.

Lemma round_sign (m : positive) (e : Z) :
  notNegative (binary_round prec emax false m e) = true.
Proof.
  unfold binary_round. destruct (shl_align m e _) as [mz ez].
  apply round_aux_sign.
Qed.

Lemma sqrt_sign (x : spec_float) : notNegative (SF64sqrt x) = true.
Proof.
  destruct x as [s|s| |s m e]; try destruct s; try reflexivity.
  unfold SF64sqrt, SFsqrt.
  destruct (SFsqrt_core_binary prec emax (Z.pos m) e) as [[mz ez] lz].
  apply round_aux_sign.
Qed.

Lemma add_sign (x y : spec_float) :
  notNegative x = true -> notNegative y = true ->
  notNegative (SF64add x y) = true.
Proof.
  destruct x as [sx|sx| |sx mx ex], y as [sy|sy| |sy my ey];
    try destruct sx; try destruct sy; try discriminate; try reflexivity.
  intros _ _. unfold SF64add, SFadd, cond_Zopp.
  set (a := fst (shl_align mx ex (Z.min ex ey))).
  set (b := fst (shl_align my ey (Z.min ex ey))).
  change (Z.pos a + Z.pos b) with (Z.pos (a + b)).
  apply round_sign.
Qed.

Lemma div_sign (x y : spec_float) :
  notNegative x = true -> isPositive y = true ->
  notNegative (SF64div x y) = true.
Proof.
  destruct x as [sx|sx| |sx mx ex], y as [sy|sy| |sy my ey];
    try destruct sx; try destruct sy; try discriminate; try reflexivity.
  intros _ _. unfold SF64div, SFdiv.
  destruct (SFdiv_core_binary prec emax (Z.pos mx) ex (Z.pos my) ey) as [[mz ez] lz].
  apply round_aux_sign.
Qed.

Lemma positive_spec (x : float) :
  (0 <? x)%float = true -> isPositive (Prim2SF x) = true.
Proof.
  rewrite FloatAxioms.ltb_spec. change (Prim2SF 0) with (S754_zero false).
  by destruct (Prim2SF x) as [s|s| |s m e]; try destruct s.
Qed.

Lemma notNegative_spec (x : float) :
  notNegative (Prim2SF x) = true -> (x <? 0)%float = false.
Proof.
  rewrite FloatAxioms.ltb_spec. change (Prim2SF 0) with (S754_zero false).
  by destruct (Prim2SF x) as [s|s| |s m e]; try destruct s.
Qed.

(** The estimate of [calculateSymbolSize] is not below zero when the size
    of a module is positive. *)
Lemma estimate_notNegative (width height moduleSize : float) :
  (0 <? moduleSize)%float = true ->
  notNegative
    (Prim2SF ((PrimFloat.sqrt width + PrimFloat.sqrt height) / moduleSize / 2)%float)
  = true.
Proof.
  intros Hpositive.
  rewrite !FloatAxioms.div_spec. apply div_sign; [|reflexivity].
  apply div_sign; [|by apply positive_spec].
  rewrite FloatAxioms.add_spec. apply add_sign; rewrite FloatAxioms.sqrt_spec; apply sqrt_sign.
Qed.

Lemma integerPart_trunc (f : float) : integerPart f = float_trunc f.
Proof.
  unfold integerPart, float_trunc.
  destruct (Prim2SF f) as [s|s| |s m e]; try reflexivity.
  destruct (Z.leb_spec 0 e) as [He|He].
  - rewrite -> Z.max_r, Z.max_l by lia. change (2 ^ 0) with 1.
    rewrite -> Z.quot_1_r, Z.shiftl_mul_pow2 by exact He.
    destruct s; lia.
  - rewrite -> Z.max_l, Z.max_r by lia. change (2 ^ 0) with 1.
    rewrite -> Z.shiftr_div_pow2 by lia.
    assert (Hpow : 0 < 2 ^ (- e)) by (apply Z.pow_pos_nonneg; lia).
    destruct s.
    + replace (-1 * Z.pos m * 1) with (- Z.pos m) by lia.
      rewrite -> Z.quot_opp_l by lia.
      rewrite -> Z.quot_div_nonneg by lia. reflexivity.
    + replace (1 * Z.pos m * 1) with (Z.pos m) by lia.
      rewrite -> Z.quot_div_nonneg by lia. reflexivity.
Qed.

Lemma toInt32_wrapped (value : Z) :
  - 2 ^ 31 <= toInt32 value < 2 ^ 31
  /\ (exists k, toInt32 value = value + k * 2 ^ 32)
  /\ (- 2 ^ 31 <= value < 2 ^ 31 -> toInt32 value = value).
Proof.
  unfold toInt32.
  pose proof (Z.mod_pos_bound (value + 2 ^ 31) (2 ^ 32) ltac:(lia)) as Hbound.
  pose proof (Z.div_mod (value + 2 ^ 31) (2 ^ 32) ltac:(lia)) as Hdiv.
  split; [lia|]. split.
  - exists (- ((value + 2 ^ 31) / 2 ^ 32)). lia.
  - intros Hrange. rewrite -> Z.mod_small by lia. lia.
Qed.


(** The switch of [calculateSymbolSize] is the adjustment of the claim. *)
Lemma switch_adjusted (topLeft topRight bottomLeft : Point) (moduleSize : float) :
  calculateSymbolSize topLeft topRight bottomLeft moduleSize
  = adjustedSize (estimatedSymbolSize topLeft topRight bottomLeft moduleSize).
Proof.
  unfold calculateSymbolSize, adjustedSize.
  set (size := estimatedSymbolSize topLeft topRight bottomLeft moduleSize).
  rewrite js_and_3. unfold MAX_VERSION_SIZE.
  pose proof (Z.mod_pos_bound size 4 ltac:(lia)) as Hr.
  assert (Hc : size mod 4 = 0 \/ size mod 4 = 1 \/ size mod 4 = 2 \/ size mod 4 = 3) by lia.
  by destruct Hc as [E|[E|[E|E]]]; rewrite E.
Qed.


End EstimateFacts.



(** Whatever the estimate, [round] returns the integer part [nearest] of
    the binary64 sum [estimate + 0.5] reduced modulo 2^32 into the signed
    32-bit range. *)
Lemma calculateSymbolSize_rounds_into_int32
  (topLeft topRight bottomLeft : Point) (moduleSize : float) :
  let side (a b : Point) :=
    PrimFloat.sqrt ((Point_x a - Point_x b) * (Point_x a - Point_x b)
                    + (Point_y a - Point_y b) * (Point_y a - Point_y b))%float in
  let estimate :=
    ((side topLeft topRight + side topLeft bottomLeft) / moduleSize / 2)%float in
  let nearest := integerPart (estimate + 0.5)%float in
  (0 <? moduleSize)%float = true ->
  exists rounded : Z,
    - 2 ^ 31 <= rounded < 2 ^ 31
    /\ (exists k, rounded = nearest + k * 2 ^ 32)
    /\ (- 2 ^ 31 <= nearest < 2 ^ 31 -> rounded = nearest)
    /\ calculateSymbolSize topLeft topRight bottomLeft moduleSize
       = adjustedSize (rounded + 7).
Proof.
  intros side estimate nearest Hpositive.
  exists (toInt32 nearest).
  destruct (EstimateFacts.toInt32_wrapped nearest) as [Hrange [Hwrap Hsame]].
  split; [exact Hrange|]. split; [exact Hwrap|]. split; [exact Hsame|].
  rewrite EstimateFacts.switch_adjusted.
  f_equal. unfold estimatedSymbolSize, round, float_toInt32, distance, squaredDistance.
  change (PrimFloat.sqrt _ + PrimFloat.sqrt _)%float
    with (side topLeft topRight + side topLeft bottomLeft)%float.
  fold estimate.
  assert (Hsign : (estimate <? 0)%float = false).
  { apply EstimateFacts.notNegative_spec. apply EstimateFacts.estimate_notNegative.
    exact Hpositive. }
  rewrite Hsign. unfold nearest. by rewrite EstimateFacts.integerPart_trunc.
Qed.



Close Scope Z_scope.
Close Scope list_scope.

(* ===================================================================== *)
(** ** Bit arrays *)
(* ===================================================================== *)

Open Scope list_scope.
Open Scope Z_scope.

Lemma ceil_div_bounds (a b : Z) : 0 < b -> a <= b * ceil_div a b < a + b.
Proof.
  intros Hb. unfold ceil_div.
  pose proof (Z.div_mod (- a) b ltac:(lia)) as Hd.
  pose proof (Z.mod_pos_bound (- a) b Hb) as Hr.
  lia.
Qed.

Lemma ceil_div_exact (a b : Z) : 0 < b -> ceil_div (b * a) b = a.
Proof.
  intros Hb. unfold ceil_div.
  replace (- (b * a)) with ((- a) * b) by ring.
  rewrite -> Z.div_mul by lia. lia.
Qed.

Module BitArrayFacts.

Import BitArray.

(** The array is in the state that the library keeps it in: the length
    fits the words and no bit is set at or after the length. *)
Definition wf (b : t) : Prop :=
  0 <= length b
  /\ length b <= 32 * TypedArray.len (bits b)
  /\ forall i, length b <= i < 2 ^ 31 -> get b i = 0.

Lemma array_get_testbit (b : t) (i : Z) :
  0 <= i < 2 ^ 31 ->
  get b i = Z.b2z (Z.testbit (TypedArray.get (bits b) (i / 32)) (i mod 32)).
Proof.
  intros Hi. unfold get, offset.
  rewrite -> js_idiv_small by lia.
  rewrite js_and_31. apply word_bit.
  apply Z.mod_pos_bound. lia.
Qed.

Lemma array_get_bit (b : t) (i : Z) : 0 <= i < 2 ^ 31 -> get b i = 0 \/ get b i = 1.
Proof.
  intros Hi. rewrite -> array_get_testbit by lia.
  destruct (Z.testbit _ _); simpl; auto.
Qed.

Lemma array_set_length (b : t) (i : Z) : length (set b i) = length b.
Proof. reflexivity. Qed.

Lemma set_capacity (b : t) (i : Z) :
  TypedArray.len (bits (set b i)) = TypedArray.len (bits b).
Proof. unfold set. simpl. apply TypedArrayFacts.set_length. Qed.

Lemma array_get_set (b : t) (i j : Z) :
  0 <= i < 2 ^ 31 -> 0 <= j < 2 ^ 31 -> i < 32 * TypedArray.len (bits b) ->
  get (set b i) j = if j =? i then 1 else get b j.
Proof.
  intros Hi Hj Hcap.
  rewrite -> !array_get_testbit by lia.
  unfold set, offset. simpl bits.
  rewrite -> js_idiv_small by lia. rewrite js_and_31.
  rewrite TypedArrayFacts.get_set.
  pose proof (Z.mod_pos_bound i 32 ltac:(lia)) as Hmi.
  pose proof (Z.mod_pos_bound j 32 ltac:(lia)) as Hmj.
  pose proof (Z.div_mod i 32 ltac:(lia)) as Hdi.
  pose proof (Z.div_mod j 32 ltac:(lia)) as Hdj.
  assert (0 <= i / 32) by (apply Z.div_pos; lia).
  destruct (Z.eqb_spec (j / 32) (i / 32)) as [Hw|Hw].
  - destruct (Z.leb_spec 0 (i / 32)); [|lia].
    destruct (Z.ltb_spec (i / 32) (TypedArray.len (bits b))); [|lia].
    simpl. rewrite -> word_set_bit by lia.
    destruct (Z.eqb_spec j i) as [->|Hne].
    + rewrite Z.eqb_refl. by rewrite orb_true_r.
    + destruct (Z.eqb_spec (j mod 32) (i mod 32)); [lia|].
      rewrite orb_false_r. by rewrite Hw.
  - simpl. destruct (Z.eqb_spec j i) as [->|Hne]; [lia|]. reflexivity.
Qed.

Lemma alloc_length (b : t) (n : Z) : length (alloc b n) = n.
Proof. unfold alloc. by destruct (_ >? _). Qed.

Lemma alloc_capacity (b : t) (n : Z) :
  0 <= n -> n <= 32 * TypedArray.len (bits (alloc b n)).
Proof.
  intros Hn. unfold alloc.
  destruct (Z.gtb_spec n (TypedArray.len (bits b) * 32)) as [Hgt|Hle]; simpl bits; [|lia].
  rewrite TypedArrayFacts.blit_length. unfold makeArray, loadCapacity.
  rewrite TypedArrayFacts.len_make.
  pose proof (ceil_div_bounds (n * 4) 3 ltac:(lia)).
  pose proof (ceil_div_bounds (ceil_div (n * 4) 3) 32 ltac:(lia)).
  lia.
Qed.

(** The words that [alloc] copies hold what they held. *)
Lemma alloc_word (b : t) (n w : Z) :
  0 <= n ->
  TypedArray.get (bits (alloc b n)) w = TypedArray.get (bits b) w.
Proof.
  intros Hn. unfold alloc.
  destruct (Z.gtb_spec n (TypedArray.len (bits b) * 32)) as [Hgt|Hle]; simpl bits; [|reflexivity].
  assert (Hlen : TypedArray.len (bits b)
                 <= TypedArray.len (makeArray (loadCapacity n))).
  { unfold makeArray, loadCapacity. rewrite TypedArrayFacts.len_make.
    pose proof (ceil_div_bounds (n * 4) 3 ltac:(lia)).
    pose proof (ceil_div_bounds (ceil_div (n * 4) 3) 32 ltac:(lia)).
    lia. }
  rewrite -> TypedArrayFacts.get_blit by lia.
  destruct (Z.leb_spec 0 w); destruct (Z.ltb_spec w (0 + TypedArray.len (bits b))); simpl.
  - f_equal. lia.
  - unfold makeArray. rewrite TypedArrayFacts.get_make.
    symmetry. apply TypedArrayFacts.get_outside. lia.
  - rewrite -> !TypedArrayFacts.get_negative by lia. reflexivity.
  - rewrite -> !TypedArrayFacts.get_negative by lia. reflexivity.
Qed.

Lemma alloc_get (b : t) (n i : Z) :
  0 <= n -> 0 <= i < 2 ^ 31 -> get (alloc b n) i = get b i.
Proof.
  intros Hn Hi. rewrite -> !array_get_testbit by lia. by rewrite alloc_word.
Qed.

Lemma array_make_wf : wf (make 0).
Proof.
  unfold wf. split; [simpl; lia|]. split.
  - unfold make. simpl length. pose proof (TypedArrayFacts.len_nonneg (makeArray 0)).
    simpl bits. lia.
  - intros i Hi. rewrite -> array_get_testbit by (simpl in Hi; lia).
    unfold make, makeArray. simpl bits.
    by rewrite TypedArrayFacts.get_make Z.testbit_0_l.
Qed.

(** The bits [n - 1] down to [0] of a number, the highest first. *)
Definition numberBits (value n : Z) : list Z :=
  List.map (fun k => Z.b2z (Z.testbit value (n - 1 - k))) (below (Z.to_nat n)).

(** What [append] leaves: the old bits, then the bits of the number. *)
Record appended (b b' : t) (value n : Z) : Prop := {
  appended_wf : wf b';
  appended_length : length b' = length b + n;
  appended_old : forall j, 0 <= j < length b -> get b' j = get b j;
  appended_new : forall k, 0 <= k < n ->
                   get b' (length b + k) = Z.b2z (Z.testbit value (n - 1 - k))
}.

Lemma append_spec (b : t) (value n : Z) :
  wf b -> 0 <= n <= 32 -> length b + n < 2 ^ 31 ->
  appended b (append b value n) value n.
Proof.
  intros [Hl0 [Hcap Hzero]] Hn Hlen.
  unfold append.
  set (b0 := alloc b (length b + n)).
  assert (Hb0len : length b0 = length b + n) by apply alloc_length.
  assert (Hb0cap : length b + n <= 32 * TypedArray.len (bits b0))
    by (apply alloc_capacity; lia).
  assert (Hb0get : forall i, 0 <= i < 2 ^ 31 -> get b0 i = get b i)
    by (intros i Hi; apply alloc_get; lia).
  (* The invariant of the loop that counts [i] down from [n - 1]. *)
  pose (I := fun (i : Z) (st : t * Z) =>
    snd st = length b + (n - 1 - i)
    /\ length (fst st) = length b + n
    /\ TypedArray.len (bits (fst st)) = TypedArray.len (bits b0)
    /\ (forall j, 0 <= j < length b -> get (fst st) j = get b j)
    /\ (forall k, 0 <= k < n - 1 - i ->
          get (fst st) (length b + k) = Z.b2z (Z.testbit value (n - 1 - k)))
    /\ (forall j, snd st <= j < 2 ^ 31 -> get (fst st) j = 0)).
  assert (HI : I (0 - 1) (for_down (n - 1) 0 (fun i st =>
                 ((if negb (js_and (js_ushr value i) 0x01 =? 0)
                   then set (fst st) (snd st) else fst st), snd st + 1)) (b0, length b))).
  { apply for_down_ind.
    - lia.
    - unfold I. cbn [fst snd]. repeat split; try lia.
      + intros j Hj. apply Hb0get. lia.
      + intros j Hj. rewrite -> Hb0get by lia. apply Hzero. lia.
    - intros i [bc idx] Hi [Hidx [Hblen [Hbcap [Hold [Hnew Hrest]]]]].
      cbn [fst snd] in *. subst idx.
      rewrite -> word_bit by lia.
      unfold I. cbn [fst snd].
      assert (Hset : forall j, 0 <= j < 2 ^ 31 ->
                get (set bc (length b + (n - 1 - i))) j
                = if j =? length b + (n - 1 - i) then 1 else get bc j).
      { intros j Hj. apply array_get_set; lia. }
      destruct (Z.testbit value i) eqn:Hbit; cbn [Z.b2z Z.eqb negb fst snd].
      + repeat split; try lia.
        * by rewrite array_set_length.
        * by rewrite set_capacity.
        * intros j Hj. rewrite -> Hset by lia.
          destruct (Z.eqb_spec j (length b + (n - 1 - i))); [lia|]. by apply Hold.
        * intros k Hk. rewrite -> Hset by lia.
          destruct (Z.eqb_spec (length b + k) (length b + (n - 1 - i))) as [E|E].
          -- replace (n - 1 - k) with i by lia. by rewrite Hbit.
          -- apply Hnew. lia.
        * intros j Hj. rewrite -> Hset by lia.
          destruct (Z.eqb_spec j (length b + (n - 1 - i))); [lia|]. apply Hrest. lia.
      + repeat split; try lia.
        * exact Hold.
        * intros k Hk.
          destruct (Z.eq_dec k (n - 1 - i)) as [->|E].
          -- replace (n - 1 - (n - 1 - i)) with i by lia. rewrite Hbit.
             apply Hrest. lia.
          -- apply Hnew. lia.
        * intros j Hj. apply Hrest. lia. }
  destruct HI as [Hidx [Hblen [Hbcap [Hold [Hnew Hrest]]]]].
  set (r := for_down _ _ _ _) in *.
  constructor.
  - unfold wf. repeat split; try lia.
    intros i Hi. apply Hrest. lia.
  - exact Hblen.
  - exact Hold.
  - intros k Hk. apply Hnew. lia.
Qed.

(** Two well-formed arrays hold the same list of bits when they agree on
    the length and on every bit before it. *)
Lemma bitList_ext (b b' : t) :
  length b = length b' ->
  (forall j, 0 <= j < length b -> get b j = get b' j) ->
  bitList b = bitList b'.
Proof.
  intros Hl Hg. unfold bitList. rewrite <- Hl.
  apply List.map_ext_in. intros j Hj.
  apply Hg. unfold below in Hj. apply List.in_map_iff in Hj as [k [<- Hk]].
  apply List.in_seq in Hk. lia.
Qed.

Lemma below_S (n : nat) : below (Datatypes.S n) = below n ++ Z.of_nat n :: nil.
Proof.
  unfold below. rewrite List.seq_S. by rewrite List.map_app.
Qed.

Lemma map_seq_shift (n m : nat) :
  List.map Z.of_nat (List.seq n m)
  = List.map (fun k => Z.of_nat n + k) (List.map Z.of_nat (List.seq 0 m)).
Proof.
  induction m as [|m IH].
  - reflexivity.
  - rewrite !List.seq_S !List.map_app IH. simpl. do 2 f_equal. lia.
Qed.

Lemma below_add (n m : nat) :
  below (Nat.add n m) = below n ++ List.map (fun k => Z.of_nat n + k) (below m).
Proof.
  unfold below. rewrite List.seq_app List.map_app. simpl.
  by rewrite (map_seq_shift n m).
Qed.

Lemma bitList_appended (b b' : t) (value n : Z) :
  0 <= length b -> 0 <= n -> appended b b' value n ->
  bitList b' = bitList b ++ numberBits value n.
Proof.
  intros Hl Hn [_ Hlen Hold Hnew]. unfold bitList, numberBits.
  rewrite Hlen.
  replace (Z.to_nat (length b + n)) with (Nat.add (Z.to_nat (length b)) (Z.to_nat n)) by lia.
  rewrite below_add List.map_app. congr (_ ++ _)%list.
  - apply List.map_ext_in. intros j Hj. apply Hold.
    unfold below in Hj. apply List.in_map_iff in Hj as [k [<- Hk]].
    apply List.in_seq in Hk. lia.
  - rewrite List.map_map. apply List.map_ext_in. intros k Hk.
    unfold below in Hk. apply List.in_map_iff in Hk as [m [<- Hm]].
    apply List.in_seq in Hm.
    rewrite -> Z2Nat.id by lia. apply Hnew. lia.
Qed.

Lemma bitList_append (b : t) (value n : Z) :
  wf b -> 0 <= n <= 32 -> length b + n < 2 ^ 31 ->
  bitList (append b value n) = bitList b ++ numberBits value n.
Proof.
  intros Hwf Hn Hlen.
  apply bitList_appended; [apply Hwf | lia | by apply append_spec].
Qed.

Lemma append_wf (b : t) (value n : Z) :
  wf b -> 0 <= n <= 32 -> length b + n < 2 ^ 31 -> wf (append b value n).
Proof. intros. by apply append_spec. Qed.

Lemma append_length (b : t) (value n : Z) :
  wf b -> 0 <= n <= 32 -> length b + n < 2 ^ 31 ->
  length (append b value n) = length b + n.
Proof. intros. by apply append_spec. Qed.

Lemma bitList_length (b : t) :
  0 <= length b -> Z.of_nat (List.length (bitList b)) = length b.
Proof.
  intros H. unfold bitList, below. rewrite !List.length_map List.length_seq. lia.
Qed.

End BitArrayFacts.

Close Scope Z_scope.
Close Scope list_scope.

(* ===================================================================== *)
(** ** C10: the terminator and the padding of the data bits *)
(* ===================================================================== *)

Open Scope list_scope.
Open Scope Z_scope.

Module TerminateBits.

Import BitArray BitArrayFacts.

(** The pad codewords alternate, 0xEC first. *)
Definition padByte (i : Z) : Z := if Z.even i then 0xec else 0x11.

(** The bits of the first [k] pad codewords. *)
Definition padBits (k : Z) : list Z :=
  List.flat_map (fun i => numberBits (padByte i) 8) (below (Z.to_nat k)).

Definition zeros (n : Z) : list Z := List.repeat 0 (Z.to_nat n).

Lemma zeros_succ (n : Z) : 0 <= n -> zeros (n + 1) = zeros n ++ 0 :: nil.
Proof.
  intros Hn. unfold zeros.
  replace (Z.to_nat (n + 1)) with (Nat.add (Z.to_nat n) 1) by lia.
  by rewrite List.repeat_app.
Qed.

Lemma zeros_add (n m : Z) : 0 <= n -> 0 <= m -> zeros (n + m) = zeros n ++ zeros m.
Proof.
  intros Hn Hm. unfold zeros.
  replace (Z.to_nat (n + m)) with (Nat.add (Z.to_nat n) (Z.to_nat m)) by lia.
  by rewrite List.repeat_app.
Qed.

Lemma padBits_succ (k : Z) :
  0 <= k -> padBits (k + 1) = padBits k ++ numberBits (padByte k) 8.
Proof.
  intros Hk. unfold padBits.
  replace (Z.to_nat (k + 1)) with (Datatypes.S (Z.to_nat k)) by lia.
  rewrite below_S List.flat_map_app. cbn [List.flat_map].
  rewrite List.app_nil_r. by rewrite -> Z2Nat.id by lia.
Qed.

(** One zero bit more. *)
Lemma append_zero (b : t) (front : list Z) (n : Z) :
  wf b -> length b + 1 < 2 ^ 31 -> 0 <= n ->
  bitList b = front ++ zeros n ->
  wf (append b 0 1)
  /\ length (append b 0 1) = length b + 1
  /\ bitList (append b 0 1) = front ++ zeros (n + 1).
Proof.
  intros Hwf Hlen Hn Hbits.
  split; [apply append_wf; [assumption|lia|lia]|].
  split; [apply append_length; [assumption|lia|lia]|].
  rewrite -> bitList_append by (assumption || lia).
  rewrite Hbits. rewrite -> zeros_succ by lia.
  by rewrite <- List.app_assoc.
Qed.

(** The first loop: the terminator. *)
Lemma appendTerminator_spec (b : t) (capacity : Z) :
  wf b -> length b <= capacity -> capacity < 2 ^ 31 ->
  let terminator := Z.min 4 (capacity - length b) in
  wf (appendTerminator b capacity)
  /\ length (appendTerminator b capacity) = length b + terminator
  /\ bitList (appendTerminator b capacity) = bitList b ++ zeros terminator.
Proof.
  intros Hwf Hle Hcap terminator. unfold appendTerminator.
  pose (I := fun (i : Z) (bc : t) =>
    wf bc
    /\ length bc = length b + Z.min i (capacity - length b)
    /\ bitList bc = bitList b ++ zeros (Z.min i (capacity - length b))).
  assert (HI : I 4 (for_range 0 4 (fun _ bits =>
                 if length bits <? capacity then append bits 0 1 else bits) b)).
  { apply for_range_ind.
    - lia.
    - unfold I. split; [assumption|].
      replace (Z.min 0 (capacity - length b)) with 0 by lia.
      split; [lia|]. unfold zeros. simpl. by rewrite List.app_nil_r.
    - intros i bc Hi [Hbwf [Hblen Hbbits]]. unfold I.
      destruct (Z.ltb_spec (length bc) capacity) as [Hlt|Hge].
      + assert (Hmin : Z.min i (capacity - length b) = i) by lia.
        rewrite Hmin in Hblen Hbbits.
        destruct (append_zero bc (bitList b) i Hbwf ltac:(lia) ltac:(lia) Hbbits)
          as [H1 [H2 H3]].
        replace (Z.min (i + 1) (capacity - length b)) with (i + 1) by lia.
        split; [assumption|]. split; [lia|assumption].
      + replace (Z.min (i + 1) (capacity - length b))
          with (Z.min i (capacity - length b)) by lia.
        split; [assumption|]. split; assumption. }
  exact HI.
Qed.

(** The second loop: the zero bits that fill the last byte. *)
Lemma fillLastByte_spec (b : t) (front : list Z) (n r : Z) :
  wf b -> 0 <= n -> 0 <= r <= 8 -> length b + (8 - r) < 2 ^ 31 ->
  bitList b = front ++ zeros n ->
  let b' := for_range r 8 (fun _ bits => append bits 0 1) b in
  wf b' /\ length b' = length b + (8 - r) /\ bitList b' = front ++ zeros (n + (8 - r)).
Proof.
  intros Hwf Hn Hr Hlen Hbits b'.
  pose (I := fun (i : Z) (bc : t) =>
    wf bc /\ length bc = length b + (i - r) /\ bitList bc = front ++ zeros (n + (i - r))).
  assert (HI : I 8 b').
  { apply for_range_ind.
    - lia.
    - unfold I. split; [assumption|]. split; [lia|].
      by replace (n + (r - r)) with n by lia.
    - intros i bc Hi [Hbwf [Hblen Hbbits]]. unfold I.
      destruct (append_zero bc front (n + (i - r)) Hbwf ltac:(lia) ltac:(lia) Hbbits)
        as [H1 [H2 H3]].
      split; [assumption|]. split; [lia|].
      by replace (n + (i + 1 - r)) with (n + (i - r) + 1) by lia. }
  exact HI.
Qed.

(** The third loop: the pad codewords. *)
Lemma appendPadding_spec (b : t) (k : Z) :
  wf b -> 0 <= k -> length b + 8 * k < 2 ^ 31 ->
  let b' :=
    for_range 0 k (fun i bits =>
      append bits (if negb (js_and i 0x01 =? 0) then 0x11 else 0xec) 8) b in
  wf b' /\ length b' = length b + 8 * k /\ bitList b' = bitList b ++ padBits k.
Proof.
  intros Hwf Hk Hlen b'.
  pose (I := fun (i : Z) (bc : t) =>
    wf bc /\ length bc = length b + 8 * i /\ bitList bc = bitList b ++ padBits i).
  assert (HI : I k b').
  { apply for_range_ind.
    - lia.
    - unfold I. split; [assumption|]. split; [lia|].
      unfold padBits. simpl. by rewrite List.app_nil_r.
    - intros i bc Hi [Hbwf [Hblen Hbbits]]. unfold I.
      assert (Hbyte : (if negb (js_and i 0x01 =? 0) then 0x11 else 0xec) = padByte i).
      { rewrite js_and_1. unfold padByte. rewrite Zeven_mod.
        destruct (Z.eqb_spec (i mod 2) 0); reflexivity. }
      rewrite Hbyte.
      split; [apply append_wf; [assumption|lia|lia]|].
      split; [rewrite -> append_length by (assumption || lia); lia|].
      rewrite -> bitList_append by (assumption || lia).
      rewrite Hbbits. rewrite -> padBits_succ by lia.
      by rewrite <- List.app_assoc. }
  exact HI.
Qed.

Lemma byteLength_aligned (b : t) (n : Z) : length b = 8 * n -> byteLength b = n.
Proof. intros H. unfold byteLength. rewrite H. apply ceil_div_exact. lia. Qed.

End TerminateBits.

(** C10.  For a bit stream that fits the data capacity, the stream after
    [appendTerminateBits(bits, numDataCodewords)] is byte aligned and has
    exactly [numDataCodewords] bytes: the old bits are followed by at most
    four terminator zero bits, by the zero bits that fill the last byte, and
    by the pad codewords 0xEC and 0x11 in alternation, 0xEC first. *)
Theorem appendTerminateBits_fills_capacity (bits : BitArray.t) (numDataCodewords : Z) :
  BitArrayFacts.wf bits ->
  BitArray.length bits <= 8 * numDataCodewords ->
  8 * numDataCodewords < 2 ^ 31 ->
  let terminator := Z.min 4 (8 * numDataCodewords - BitArray.length bits) in
  let padding := (- (BitArray.length bits + terminator)) mod 8 in
  let padCodewords :=
    numDataCodewords - (BitArray.length bits + terminator + padding) / 8 in
  let bits' := appendTerminateBits bits numDataCodewords in
  BitArrayFacts.wf bits'
  /\ BitArray.length bits' = 8 * numDataCodewords
  /\ BitArray.byteLength bits' = numDataCodewords
  /\ 0 <= terminator <= 4 /\ 0 <= padding < 8 /\ 0 <= padCodewords
  /\ bitList bits' =
     bitList bits ++ TerminateBits.zeros terminator ++ TerminateBits.zeros padding
       ++ TerminateBits.padBits padCodewords.
Proof.
  intros Hwf Hfit Hsmall terminator padding padCodewords bits'.
  assert (Hl0 : 0 <= BitArray.length bits) by apply Hwf.
  unfold bits', appendTerminateBits.
  replace (numDataCodewords * 8) with (8 * numDataCodewords) by ring.
  destruct (TerminateBits.appendTerminator_spec bits (8 * numDataCodewords) Hwf Hfit Hsmall)
    as [Hwf1 [Hlen1 Hbits1]].
  fold terminator in Hlen1, Hbits1.
  set (b1 := appendTerminator bits (8 * numDataCodewords)) in *.
  assert (Hterm : 0 <= terminator <= 4) by (unfold terminator; lia).
  rewrite js_and_7.
  pose proof (Z.mod_pos_bound (BitArray.length b1) 8 ltac:(lia)) as Hr.
  pose proof (Z.div_mod (BitArray.length b1) 8 ltac:(lia)) as Hd.
  pose proof (Z.mod_pos_bound (- (BitArray.length bits + terminator)) 8 ltac:(lia)) as Hp.
  fold padding in Hp.
  (* The padding brings the length to the next multiple of 8. *)
  assert (Hpad : padding = if BitArray.length b1 mod 8 >? 0
                           then 8 - BitArray.length b1 mod 8 else 0).
  { unfold padding. rewrite <- Hlen1.
    destruct (Z.gtb_spec (BitArray.length b1 mod 8) 0) as [Hgt|Hle].
    - rewrite -> Hd at 1.
      replace (- (8 * (BitArray.length b1 / 8) + BitArray.length b1 mod 8))
        with (8 - BitArray.length b1 mod 8 + (- (BitArray.length b1 / 8) - 1) * 8) by ring.
      rewrite Z_mod_plus_full. apply Z.mod_small. lia.
    - rewrite -> Hd at 1.
      replace (BitArray.length b1 mod 8) with 0 by lia.
      replace (- (8 * (BitArray.length b1 / 8) + 0))
        with (0 + (- (BitArray.length b1 / 8)) * 8) by ring.
      by rewrite Z_mod_plus_full. }
  (* The second loop. *)
  set (b2 := if BitArray.length b1 mod 8 >? 0
             then for_range (BitArray.length b1 mod 8) 8
                    (fun _ bits => BitArray.append bits 0 1) b1
             else b1).
  assert (H2 : BitArrayFacts.wf b2
               /\ BitArray.length b2 = BitArray.length b1 + padding
               /\ bitList b2 = bitList bits ++ TerminateBits.zeros (terminator + padding)).
  { unfold b2. rewrite Hpad.
    destruct (Z.gtb_spec (BitArray.length b1 mod 8) 0) as [Hgt|Hle].
    - apply TerminateBits.fillLastByte_spec; try assumption; lia.
    - split; [assumption|]. split; [lia|].
      by replace (terminator + 0) with terminator by lia. }
  destruct H2 as [Hwf2 [Hlen2 Hbits2]].
  assert (Hal : BitArray.length b2 = 8 * ((BitArray.length bits + terminator + padding) / 8)).
  { rewrite Hlen2 Hlen1.
    assert (Hm : (BitArray.length bits + terminator + padding) mod 8 = 0).
    { rewrite Hpad. rewrite <- Hlen1.
      destruct (Z.gtb_spec (BitArray.length b1 mod 8) 0) as [Hgt|Hle].
      - rewrite -> Hd at 1.
        replace (8 * (BitArray.length b1 / 8) + BitArray.length b1 mod 8
                 + (8 - BitArray.length b1 mod 8))
          with (0 + (BitArray.length b1 / 8 + 1) * 8) by ring.
        by rewrite Z_mod_plus_full.
      - replace (BitArray.length b1 + 0) with (BitArray.length b1) by lia. lia. }
    pose proof (Z.div_mod (BitArray.length bits + terminator + padding) 8 ltac:(lia)).
    lia. }
  assert (Hbl : BitArray.byteLength b2 = (BitArray.length bits + terminator + padding) / 8)
    by (apply TerminateBits.byteLength_aligned; exact Hal).
  rewrite Hbl. fold padCodewords.
  assert (Hk : 0 <= padCodewords).
  { unfold padCodewords.
    assert (BitArray.length bits + terminator + padding <= 8 * numDataCodewords).
    { rewrite <- Hlen1. rewrite Hpad.
      destruct (Z.gtb_spec (BitArray.length b1 mod 8) 0) as [Hgt|Hle]; [|lia].
      assert (BitArray.length b1 <= 8 * numDataCodewords) by lia.
      assert (BitArray.length b1 / 8 < numDataCodewords).
      { apply Z.div_lt_upper_bound; lia. }
      lia. }
    assert ((BitArray.length bits + terminator + padding) / 8 <= numDataCodewords).
    { apply Z.div_le_upper_bound; lia. }
    lia. }
  destruct (TerminateBits.appendPadding_spec b2 padCodewords Hwf2 Hk
              ltac:(unfold padCodewords in *; lia)) as [Hwf3 [Hlen3 Hbits3]].
  set (b3 := for_range 0 padCodewords _ b2) in *.
  assert (Hlen : BitArray.length b3 = 8 * numDataCodewords).
  { rewrite Hlen3 Hal. unfold padCodewords. lia. }
  split; [assumption|]. split; [assumption|].
  split; [by apply TerminateBits.byteLength_aligned|].
  split; [assumption|]. split; [assumption|]. split; [assumption|].
  rewrite Hbits3 Hbits2.
  rewrite -> TerminateBits.zeros_add by lia.
  by rewrite <- !List.app_assoc.
Qed.

(** The theorem at the 13 bits 1011001110001 and five data codewords: four
    terminator bits, seven bits that fill the third byte, and the two pad
    codewords 0xEC and 0x11. *)
Lemma appendTerminateBits_fills_capacity_witness :
  let bits := BitArray.append (BitArray.make 0) 0x1671 13 in
  BitArrayFacts.wf bits
  /\ BitArray.length bits <= 8 * 5
  /\ bitList (appendTerminateBits bits 5) =
     (1 :: 0 :: 1 :: 1 :: 0 :: 0 :: 1 :: 1 :: nil)
     ++ (1 :: 0 :: 0 :: 0 :: 1 :: 0 :: 0 :: 0 :: nil)
     ++ (0 :: 0 :: 0 :: 0 :: 0 :: 0 :: 0 :: 0 :: nil)
     ++ (1 :: 1 :: 1 :: 0 :: 1 :: 1 :: 0 :: 0 :: nil)
     ++ (0 :: 0 :: 0 :: 1 :: 0 :: 0 :: 0 :: 1 :: nil).
Proof.
  intros bits.
  assert (Hwf : BitArrayFacts.wf bits).
  { apply BitArrayFacts.append_wf; [apply BitArrayFacts.array_make_wf | lia | simpl; lia]. }
  assert (Hfit : BitArray.length bits <= 8 * 5) by (vm_compute; discriminate).
  split; [exact Hwf|]. split; [exact Hfit|].
  destruct (appendTerminateBits_fills_capacity bits 5 Hwf Hfit ltac:(lia))
    as [_ [_ [_ [_ [_ [_ H]]]]]].
  rewrite H. vm_compute. reflexivity.
Defined.

Close Scope Z_scope.
Close Scope list_scope.

(* ===================================================================== *)
(** ** C3: the format information word *)
(* ===================================================================== *)

Open Scope list_scope.
Open Scope Z_scope.

Module BCH.

(** The product of two polynomials over GF(2), each given by the number
    whose bits are its coefficients. *)
Fixpoint multiply_loop (n : nat) (a b : Z) : Z :=
  match n with
  | O => 0
  | Datatypes.S n' =>
      Z.lxor (if Z.odd a then b else 0)
             (multiply_loop n' (Z.shiftr a 1) (Z.shiftl b 1))
  end.

Definition multiply (a b : Z) : Z :=
  multiply_loop (Z.to_nat (Z.log2 a + 1)) a b.

(** [r] is the remainder of [value * x^width] in the division by the
    polynomial [poly] of degree [width]: it has fewer than [width] bits
    and differs from [value * x^width] by a multiple of [poly]. *)
Definition isRemainder (value poly width r : Z) : Prop :=
  0 <= r < 2 ^ width
  /\ exists q, Z.lxor (multiply q poly) r = value * 2 ^ width.

Definition checkRemainder (value poly width r bound : Z) : bool :=
  (0 <=? r) && (r <? 2 ^ width)
  && List.existsb (fun q => Z.lxor (multiply q poly) r =? value * 2 ^ width)
       (below (Z.to_nat bound)).

Lemma checkRemainder_sound (value poly width r bound : Z) :
  checkRemainder value poly width r bound = true -> isRemainder value poly width r.
Proof.
  unfold checkRemainder. intros H.
  apply andb_prop in H as [H Hq]. apply andb_prop in H as [H0 H1].
  split; [lia|].
  apply List.existsb_exists in Hq as [q [_ Hq]].
  exists q. by apply Z.eqb_eq.
Qed.

End BCH.

(** One level and one mask: every part is settled by evaluation. *)
Ltac format_info_case :=
  split; [vm_compute; reflexivity|];
  split;
  [ match goal with
    | |- exists bch, BCH.isRemainder ?formatInfo _ _ bch /\ _ =>
        exists (calculateBCHCode formatInfo 0x537)
    end;
    split; [apply (BCH.checkRemainder_sound _ _ _ _ 32)|]; vm_compute; reflexivity
  | ];
  split; [vm_compute; repeat ((left; reflexivity) || right) | vm_compute; reflexivity].

(** C3.  For each of the levels L, M, Q and H and each mask from 0 to 7, the
    15 bits of [makeFormatInfoBits] are the 5-bit value [level_bits << 3 | mask]
    followed by its 10-bit BCH remainder under the polynomial 0x537, the
    whole XORed with 0x5412; this word is the entry of
    [FORMAT_INFO_DECODE_TABLE] paired with [level_bits << 3 | mask], and
    [decodeFormatInfo] maps it back to the mask and the level. *)
Theorem makeFormatInfoBits_decodes (level : ECLevel) (mask : Z) :
  0 <= mask < 8 ->
  let formatInfo := Z.lor (Z.shiftl (ECLevel_bits level) 3) mask in
  let bits := makeFormatInfoBits (BitArray.make 0) level mask in
  let word := bitsValue (bitList bits) in
  BitArray.length bits = 15
  /\ (exists bch, BCH.isRemainder formatInfo 0x537 10 bch
        /\ word = Z.lxor (formatInfo * 1024 + bch) 0x5412)
  /\ List.In (word, formatInfo) FORMAT_INFO_DECODE_TABLE
  /\ decodeFormatInfo word word
     = Ok {| FormatInfo_mask := mask; FormatInfo_level := level |}.
Proof.
  intros Hmask. cbv zeta.
  assert (Hcases : mask = 0 \/ mask = 1 \/ mask = 2 \/ mask = 3
                   \/ mask = 4 \/ mask = 5 \/ mask = 6 \/ mask = 7) by lia.
  destruct Hcases as [->|[->|[->|[->|[->|[->|[->| ->]]]]]]];
    destruct level; format_info_case.
Qed.

(** The theorem at the level M and the mask 5: the word is 0x40CE. *)
Lemma makeFormatInfoBits_decodes_witness :
  0 <= 5 < 8
  /\ bitsValue (bitList (makeFormatInfoBits (BitArray.make 0) M 5)) = 0x40ce
  /\ decodeFormatInfo 0x40ce 0x40ce
     = Ok {| FormatInfo_mask := 5; FormatInfo_level := M |}.
Proof.
  assert (Hmask : 0 <= 5 < 8) by lia.
  split; [exact Hmask|].
  destruct (makeFormatInfoBits_decodes M 5 Hmask) as [_ [_ [_ Hdecode]]].
  assert (Hword : bitsValue (bitList (makeFormatInfoBits (BitArray.make 0) M 5)) = 0x40ce)
    by (vm_compute; reflexivity).
  split; [exact Hword|].
  rewrite <- Hword. exact Hdecode.
Defined.

Close Scope Z_scope.
Close Scope list_scope.

(* ===================================================================== *)
(** ** C7: the ECI designator *)
(* ===================================================================== *)

Open Scope list_scope.
Open Scope Z_scope.

Module BitSourceFacts.

Import BitSource.

(** The sources that the decoder builds: the bytes are those of a
    [Uint8Array] and the bit offset stays within a byte. *)
Definition wf (s : t) : Prop :=
  0 <= bitOffset s < 8 /\ List.Forall (fun b => 0 <= b < 256) (bytes s).

(** The number of bits that precede the cursor. *)
Definition position (s : t) : Z := 8 * byteOffset s + bitOffset s.

Lemma source_make_wf (bytes : list Z) :
  List.Forall (fun b => 0 <= b < 256) bytes -> wf (make bytes).
Proof. intros H. split; [simpl; lia | exact H]. Qed.

Lemma get_byte (bytes : list Z) (i : Z) :
  List.Forall (fun b => 0 <= b < 256) bytes -> 0 <= TypedArray.get bytes i < 256.
Proof.
  intros H. unfold TypedArray.get. destruct (i <? 0); [lia|].
  destruct (Nat.lt_ge_cases (Z.to_nat i) (List.length bytes)) as [Hlt|Hge].
  - rewrite -> List.Forall_forall in H. apply H. by apply List.nth_In.
  - rewrite -> List.nth_overflow by exact Hge. lia.
Qed.

Lemma land_le (a b : Z) : 0 <= b -> Z.land a b <= b.
Proof.
  intros Hb.
  pose proof (Z.add_lor_land (Z.ldiff b a) (Z.land b a)) as H.
  rewrite Z.lor_ldiff_and in H.
  assert (H0 : Z.land (Z.ldiff b a) (Z.land b a) = 0).
  { apply Z.bits_inj'. intros n Hn.
    rewrite !Z.land_spec Z.bits_0. rewrite -> Z.ldiff_spec.
    by destruct (Z.testbit b n), (Z.testbit a n). }
  rewrite H0 in H.
  assert (0 <= Z.ldiff b a) by (apply Z.ldiff_nonneg; lia).
  rewrite (Z.land_comm a b). lia.
Qed.

(** A field of a byte: the bits selected by a mask, moved down. *)
Lemma field_bound (x m b : Z) :
  0 <= x < 256 -> 0 <= m < 256 -> 0 <= b <= 8 ->
  0 <= js_shr (js_and x m) b /\ js_shr (js_and x m) b * 2 ^ b <= m.
Proof.
  intros Hx Hm Hb.
  rewrite -> js_and_small by lia.
  assert (H0 : 0 <= Z.land x m) by (apply Z.land_nonneg; lia).
  pose proof (land_le x m ltac:(lia)) as H1.
  unfold js_shr. rewrite -> toInt32_small by lia.
  rewrite -> (Z.mod_small b 32) by lia.
  rewrite -> Z.shiftr_div_pow2 by lia.
  assert (Hp : 0 < 2 ^ b) by (apply Z.pow_pos_nonneg; lia).
  pose proof (Z.div_mod (Z.land x m) (2 ^ b) ltac:(lia)) as Hd.
  pose proof (Z.mod_pos_bound (Z.land x m) (2 ^ b) Hp) as Hr.
  split; [apply Z.div_pos; lia | nia].
Qed.

Lemma js_and_byte (x : Z) : 0 <= x < 256 -> js_and x 0xff = x.
Proof.
  intros Hx. rewrite (js_and_ones x 8 ltac:(lia)). apply Z.mod_small. lia.
Qed.

Lemma js_or_0_l (x : Z) : 0 <= x < 2 ^ 31 -> js_or 0 x = x.
Proof. intros Hx. rewrite -> js_or_small by lia. apply Z.lor_0_l. Qed.

(** A value shifted left by [k] and joined with [k] further bits. *)
Lemma js_or_shl (a k b : Z) :
  0 <= a -> 0 <= k < 32 -> a * 2 ^ k < 2 ^ 31 -> 0 <= b < 2 ^ k ->
  js_or (js_shl a k) b = a * 2 ^ k + b.
Proof.
  intros Ha Hk Hak Hb.
  assert (Hp : 0 < 2 ^ k) by (apply Z.pow_pos_nonneg; lia).
  assert (Ha' : a < 2 ^ 31) by nia.
  assert (Hb' : b < 2 ^ 31).
  { apply Z.lt_le_trans with (2 ^ k); [lia | apply Z.pow_le_mono_r; lia]. }
  unfold js_shl.
  rewrite -> (toInt32_small a) by lia.
  rewrite -> (Z.mod_small k 32) by lia.
  rewrite -> Z.shiftl_mul_pow2 by lia.
  rewrite -> (toInt32_small (a * 2 ^ k)) by nia.
  rewrite -> js_or_small by nia.
  rewrite <- Z.lxor_lor; [rewrite <- Z.add_nocarry_lxor; [reflexivity|]|].
  all: apply Z.bits_inj'; intros n Hn; rewrite Z.land_spec Z.bits_0;
    destruct (Z.lt_ge_cases n k) as [Hlt|Hge];
    [ rewrite -> Z.mul_pow2_bits_low by lia; reflexivity
    | destruct (Z.eq_dec b 0) as [->|Hb0]; [by rewrite Z.bits_0 andb_false_r|];
      rewrite -> (Z.bits_above_log2 b n); [by rewrite andb_false_r | lia |];
      apply Z.log2_lt_pow2; [lia|];
      apply Z.lt_le_trans with (2 ^ k); [lia | apply Z.pow_le_mono_r; lia] ].
Qed.

(** The outcome of a read: the range of the value and the move of the
    cursor.  *)
Definition reads (s : t) (length : Z) : Prop :=
  0 <= fst (read s length) < 2 ^ length
  /\ wf (snd (read s length))
  /\ bytes (snd (read s length)) = bytes s
  /\ position (snd (read s length)) = position s + length.

Ltac offset_cases H :=
  match type of H with
  | 0 <= ?bo < 8 =>
      let C := fresh in
      assert (C : bo = 0 \/ bo = 1 \/ bo = 2 \/ bo = 3
                  \/ bo = 4 \/ bo = 5 \/ bo = 6 \/ bo = 7) by lia;
      clear H;
      destruct C as [->|[->|[->|[->|[->|[->|[->| ->]]]]]]]
  end.

(** The fields and the bytes of the goal, each with its range. *)
Ltac byte_facts bytes Hbytes :=
  repeat match goal with
  | |- context [js_shr (js_and (TypedArray.get bytes ?i) ?m) ?b] =>
      let x := fresh "x" in
      let Hx := fresh "Hx" in
      pose proof (field_bound (TypedArray.get bytes i) m b
                    (get_byte bytes i Hbytes) ltac:(lia) ltac:(lia)) as Hx;
      set (x := js_shr (js_and (TypedArray.get bytes i) m) b) in *; clearbody x
  | |- context [js_and (TypedArray.get bytes ?i) 255] =>
      let x := fresh "x" in
      let Hx := fresh "Hx" in
      pose proof (get_byte bytes i Hbytes) as Hx;
      rewrite -> (js_and_byte (TypedArray.get bytes i) Hx);
      set (x := TypedArray.get bytes i) in *; clearbody x
  end.

(** Evaluation of the operations whose arguments are numerals. *)
Ltac is_positive p :=
  lazymatch p with
  | xH => idtac
  | xO ?q => is_positive q
  | xI ?q => is_positive q
  end.

Ltac is_numeral z :=
  lazymatch z with
  | Z0 => idtac
  | Zpos ?p => is_positive p
  | Zneg ?p => is_positive p
  end.

Ltac calc f :=
  repeat match goal with
  | |- context [f ?a ?b] =>
      is_numeral a; is_numeral b;
      let v := eval vm_compute in (f a b) in
      change (f a b) with v
  end.

Ltac run_read :=
  unfold read; cbn [bitOffset byteOffset bytes];
  repeat (progress (calc Z.div; calc Z.modulo; calc Z.sub; calc Z.add; calc Z.min;
                    calc Z.gtb; calc Z.eqb; calc js_shr; calc js_shl;
                    change (Z.to_nat 0) with O; change (Z.to_nat 1) with 1%nat;
                    change (Z.to_nat 2) with 2%nat;
                    cbv iota beta; cbn [for_loop fst snd bitOffset byteOffset bytes])).

Ltac solve_read bytes Hbytes :=
  run_read; byte_facts bytes Hbytes;
  rewrite -> ?js_or_0_l by lia;
  rewrite -> ?(js_or_shl _ 8) by lia;
  rewrite -> ?js_or_shl by lia;
  (split; [lia|]); (split; [split; [cbn; lia | exact Hbytes]|]);
  (split; [reflexivity | lia]).

Lemma read_8 (s : t) : wf s -> reads s 8.
Proof.
  destruct s as [bytes bo byo]. intros [Hbo Hbytes]. cbn [bitOffset BitSource.bytes] in *.
  unfold reads, position.
  offset_cases Hbo; solve_read bytes Hbytes.
Qed.

Lemma read_16 (s : t) : wf s -> reads s 16.
Proof.
  destruct s as [bytes bo byo]. intros [Hbo Hbytes]. cbn [bitOffset BitSource.bytes] in *.
  unfold reads, position.
  offset_cases Hbo; solve_read bytes Hbytes.
Qed.

(** The tests of [parseECIValue] on a byte are tests of its leading bits,
    and its masks keep the bits that follow them. *)
Definition checkPrefix (x : Z) : bool :=
  Bool.eqb (js_and x 0x80 =? 0) (x / 128 =? 0)
  && Bool.eqb (js_and x 0xc0 =? 0x80) (x / 64 =? 2)
  && Bool.eqb (js_and x 0xe0 =? 0xc0) (x / 32 =? 6)
  && (js_and x 0x7f =? x mod 128)
  && (js_and x 0x3f =? x mod 64)
  && (js_and x 0x1f =? x mod 32).

Lemma checkPrefix_all : List.forallb checkPrefix (below 256) = true.
Proof. vm_compute. reflexivity. Qed.

Lemma prefix (x : Z) :
  0 <= x < 256 ->
  (js_and x 0x80 =? 0) = (x / 128 =? 0)
  /\ (js_and x 0xc0 =? 0x80) = (x / 64 =? 2)
  /\ (js_and x 0xe0 =? 0xc0) = (x / 32 =? 6)
  /\ js_and x 0x7f = x mod 128
  /\ js_and x 0x3f = x mod 64
  /\ js_and x 0x1f = x mod 32.
Proof.
  intros Hx.
  pose proof (forall_below _ _ checkPrefix_all x ltac:(lia)) as H.
  unfold checkPrefix in H.
  repeat (apply andb_prop in H as [H ?]).
  repeat split; try (by apply Bool.eqb_prop); by apply Z.eqb_eq.
Qed.

End BitSourceFacts.

(** C7.  [parseECIValue] reads eight bits, the first byte, and goes by its
    leading bits: with the leading bit 0 the value is the low 7 bits of the
    first byte; with the leading bits 10 it is the 14 bits made of the low 6
    bits of the first byte and of one further byte; with the leading bits
    110 it is the 21 bits made of the low 5 bits of the first byte and of two
    further bytes; with the leading bits 111 the function throws and
    returns no value.  The source is left after the last byte read. *)
Theorem parseECIValue_by_prefix (source : BitSource.t) :
  BitSourceFacts.wf source ->
  let firstByte := fst (BitSource.read source 8) in
  let source1 := snd (BitSource.read source 8) in
  0 <= firstByte < 256
  /\ (firstByte / 128 = 0 ->
        parseECIValue source = Ok (firstByte mod 128, source1)
        /\ BitSourceFacts.position source1 = BitSourceFacts.position source + 8)
  /\ (firstByte / 64 = 2 ->
        let secondByte := fst (BitSource.read source1 8) in
        let source2 := snd (BitSource.read source1 8) in
        0 <= secondByte < 256
        /\ parseECIValue source = Ok (firstByte mod 64 * 256 + secondByte, source2)
        /\ 0 <= firstByte mod 64 * 256 + secondByte < 2 ^ 14
        /\ BitSourceFacts.position source2 = BitSourceFacts.position source + 16)
  /\ (firstByte / 32 = 6 ->
        let secondThirdBytes := fst (BitSource.read source1 16) in
        let source2 := snd (BitSource.read source1 16) in
        0 <= secondThirdBytes < 65536
        /\ parseECIValue source = Ok (firstByte mod 32 * 65536 + secondThirdBytes, source2)
        /\ 0 <= firstByte mod 32 * 65536 + secondThirdBytes < 2 ^ 21
        /\ BitSourceFacts.position source2 = BitSourceFacts.position source + 24)
  /\ (firstByte / 32 = 7 -> parseECIValue source = Throw (Error EmptyString)).
Proof.
  intros Hwf firstByte source1.
  destruct (BitSourceFacts.read_8 source Hwf) as [Hfirst [Hwf1 [_ Hpos1]]].
  fold firstByte in Hfirst. fold source1 in Hwf1, Hpos1.
  change (2 ^ 8) with 256 in Hfirst.
  destruct (BitSourceFacts.prefix firstByte Hfirst) as [P1 [P2 [P3 [M1 [M2 M3]]]]].
  assert (Hparse : parseECIValue source =
    if js_and firstByte 0x80 =? 0 then Ok (js_and firstByte 0x7f, source1)
    else if js_and firstByte 0xc0 =? 0x80 then
      Ok (js_or (js_shl (js_and firstByte 0x3f) 8) (fst (BitSource.read source1 8)),
          snd (BitSource.read source1 8))
    else if js_and firstByte 0xe0 =? 0xc0 then
      Ok (js_or (js_shl (js_and firstByte 0x1f) 16) (fst (BitSource.read source1 16)),
          snd (BitSource.read source1 16))
    else Throw (Error EmptyString)).
  { unfold parseECIValue, firstByte, source1.
    destruct (BitSource.read source 8) as [f s1]. cbn [fst snd].
    destruct (js_and f 128 =? 0); [reflexivity|].
    destruct (js_and f 192 =? 128).
    - by destruct (BitSource.read s1 8).
    - destruct (js_and f 224 =? 192); [|reflexivity].
      by destruct (BitSource.read s1 16). }
  rewrite Hparse P1 P2 P3 M1 M2 M3.
  pose proof (Z.div_mod firstByte 128 ltac:(lia)) as D1.
  pose proof (Z.mod_pos_bound firstByte 128 ltac:(lia)) as R1.
  pose proof (Z.div_mod firstByte 64 ltac:(lia)) as D2.
  pose proof (Z.mod_pos_bound firstByte 64 ltac:(lia)) as R2.
  pose proof (Z.div_mod firstByte 32 ltac:(lia)) as D3.
  pose proof (Z.mod_pos_bound firstByte 32 ltac:(lia)) as R3.
  split; [exact Hfirst|].
  split; [|split; [|split]].
  - intros H. rewrite H. by rewrite Z.eqb_refl.
  - intros H secondByte source2.
    destruct (BitSourceFacts.read_8 source1 Hwf1) as [Hsecond [_ [_ Hpos2]]].
    fold secondByte in Hsecond. fold source2 in Hpos2.
    change (2 ^ 8) with 256 in Hsecond.
    destruct (Z.eqb_spec (firstByte / 128) 0) as [E|_]; [lia|].
    rewrite H Z.eqb_refl.
    rewrite -> BitSourceFacts.js_or_shl by lia.
    fold secondByte source2.
    split; [exact Hsecond|]. split; [reflexivity|]. split; lia.
  - intros H secondThirdBytes source2.
    destruct (BitSourceFacts.read_16 source1 Hwf1) as [Hrest [_ [_ Hpos2]]].
    fold secondThirdBytes in Hrest. fold source2 in Hpos2.
    change (2 ^ 16) with 65536 in Hrest.
    destruct (Z.eqb_spec (firstByte / 128) 0) as [E|_]; [lia|].
    destruct (Z.eqb_spec (firstByte / 64) 2) as [E|_]; [lia|].
    rewrite H Z.eqb_refl.
    rewrite -> BitSourceFacts.js_or_shl by lia.
    fold secondThirdBytes source2.
    split; [exact Hrest|]. split; [reflexivity|]. split; lia.
  - intros H.
    destruct (Z.eqb_spec (firstByte / 128) 0) as [E|_]; [lia|].
    destruct (Z.eqb_spec (firstByte / 64) 2) as [E|_]; [lia|].
    destruct (Z.eqb_spec (firstByte / 32) 6) as [E|_]; [lia|].
    reflexivity.
Qed.

(** The theorem at the bytes 0xBF 0x12 0xC1 0x23 0x45 0xE0: the designator
    0x3F12 is read from the first two bytes; the designator 0x012345 and
    the refusal of the byte 0xE0 follow. *)
Lemma parseECIValue_by_prefix_witness :
  let bytes := 0xbf :: 0x12 :: 0xc1 :: 0x23 :: 0x45 :: 0xe0 :: nil in
  BitSourceFacts.wf (BitSource.make bytes)
  /\ parseECIValue (BitSource.make bytes) = Ok (0x3f12, BitSource.Build bytes 0 2)
  /\ parseECIValue (BitSource.Build bytes 0 2) = Ok (0x012345, BitSource.Build bytes 0 5)
  /\ parseECIValue (BitSource.Build bytes 0 5) = Throw (Error EmptyString).
Proof.
  intros bytes.
  assert (Hwf : BitSourceFacts.wf (BitSource.make bytes)).
  { apply BitSourceFacts.source_make_wf. repeat constructor; lia. }
  split; [exact Hwf|].
  split.
  { destruct (parseECIValue_by_prefix (BitSource.make bytes) Hwf) as [_ [_ [H2 _]]].
    destruct (H2 ltac:(vm_compute; reflexivity)) as [_ [Hparse _]].
    etransitivity; [exact Hparse|]. vm_compute. reflexivity. }
  split; vm_compute; reflexivity.
Defined.

Close Scope Z_scope.
Close Scope list_scope.

(* ===================================================================== *)
(** ** C5: an image of low contrast on the histogram path *)
(* ===================================================================== *)

Open Scope list_scope.
Open Scope Z_scope.

(** [histogram] and [calculateBlackPoint] hold no [throw]: the comment
    above the test of [calculateBlackPoint] announces one ("throw rather
    than waste time trying to decode the image"), and the statement under
    it is [return -1].  With two peaks that are too close [histogram]
    therefore goes on with a black point of -1 and returns the matrix as
    [new BitMatrix(width, height)] made it.  The one error [binarize] can
    raise is the RangeError of [new Uint8Array(width * height)]. *)

Lemma calculateBlackPoint_low_contrast (buckets : list Z) :
  snd (orderedPeaks buckets) - fst (orderedPeaks buckets) <= 2 ->
  calculateBlackPoint buckets = -1.
Proof.
  unfold calculateBlackPoint.
  destruct (orderedPeaks buckets) as [first second]. cbn [fst snd]. intros H.
  change (LUMINANCE_BUCKETS / 16) with 2.
  destruct (Z.leb_spec (second - first) 2); [reflexivity|lia].
Qed.

Lemma calculateBlackPoint_contrast (buckets : list Z) :
  2 < snd (orderedPeaks buckets) - fst (orderedPeaks buckets) ->
  calculateBlackPoint buckets =
  js_shl (fst (findBestValley buckets (fst (orderedPeaks buckets))
                 (snd (orderedPeaks buckets))
                 (maxBucketCount (findFirstPeak buckets))))
         LUMINANCE_SHIFT.
Proof.
  unfold calculateBlackPoint.
  destruct (orderedPeaks buckets) as [first second]. cbn [fst snd]. intros H.
  change (LUMINANCE_BUCKETS / 16) with 2.
  destruct (Z.leb_spec (second - first) 2); [lia|reflexivity].
Qed.

Lemma BitMatrix_get_make (width height x y : Z) :
  BitMatrix.get (BitMatrix.make width height) x y = 0.
Proof.
  unfold BitMatrix.get, BitMatrix.make. cbn [BitMatrix.bits].
  rewrite TypedArrayFacts.get_make.
  unfold js_ushr. change (toUint32 0) with 0. by rewrite Z.shiftr_0_l.
Qed.

(** A 10 x 10 image whose pixels alternate between the greys 100 and 110. *)
Definition twoGreys : ImageData :=
  Image (List.flat_map (fun i => if Z.even i then 100 :: 100 :: 100 :: 255 :: nil
                                 else 110 :: 110 :: 110 :: 255 :: nil) (below 100))
        10 10.

(** The luminances [binarize] works on once the array is allocated. *)
Definition luminancesOf (image : ImageData) : list Z :=
  toLuminances image
    (TypedArray.make (image_width image * image_height image)).

(** C5.  The code does not do what the claim and its own comment say: for
    the 10 x 10 image [twoGreys], which takes the histogram path and whose
    two peaks are the neighbouring buckets 12 and 13, [binarize] raises
    nothing; it returns a matrix, the one of the image's size without a
    dark bit. *)
Theorem binarize_twoGreys_returns_a_matrix :
  (image_width twoGreys <? MINIMUM_DIMENSION) = true
  /\ orderedPeaks (histogramBuckets (luminancesOf twoGreys) 10 10) = (12, 13)
  /\ calculateBlackPoint (histogramBuckets (luminancesOf twoGreys) 10 10) = -1
  /\ binarize twoGreys = Ok (BitMatrix.make 10 10).
Proof. repeat split; vm_compute; reflexivity. Qed.

(** A negative number of pixels is refused by [new Uint8Array]. *)
Lemma binarize_negative_length (image : ImageData) :
  image_width image * image_height image < 0 ->
  binarize image = Throw (Error "RangeError").
Proof.
  intros H. unfold binarize, newUint8Array.
  destruct (Z.ltb_spec (image_width image * image_height image) 0); [reflexivity|lia].
Qed.

Lemma newUint8Array_valid (length : Z) :
  0 <= length < 2 ^ 53 -> newUint8Array length = Ok (TypedArray.make length).
Proof.
  intros H. unfold newUint8Array.
  destruct (Z.ltb_spec length 0); [lia|].
  destruct (Z.ltb_spec (2 ^ 53 - 1) length); [lia|reflexivity].
Qed.

(** The same holds of every image of a valid size, one that
    [new Uint8Array] accepts, on the histogram path (a width or a height
    below 40): whenever the two peaks of its histogram
    satisfy [secondPeak - firstPeak <= 2], [binarize] returns the matrix of
    the image's width and height in which no bit is set. *)
Lemma binarize_low_contrast (image : ImageData) :
  let width := image_width image in
  let height := image_height image in
  let buckets := histogramBuckets (luminancesOf image) width height in
  0 <= width -> 0 <= height -> width * height < 2 ^ 53 ->
  width < 40 \/ height < 40 ->
  snd (orderedPeaks buckets) - fst (orderedPeaks buckets) <= 2 ->
  binarize image = Ok (BitMatrix.make width height)
  /\ forall x y, BitMatrix.get (BitMatrix.make width height) x y = 0.
Proof.
  intros width height buckets Hwidth Hheight Hlength Hsmall Hpeaks.
  split; [|intros x y; apply BitMatrix_get_make].
  unfold binarize. fold width height.
  rewrite -> newUint8Array_valid by nia.
  cbn [bind]. f_equal.
  change MINIMUM_DIMENSION with 40.
  assert (Hpath : (width <? 40) || (height <? 40) = true).
  { apply Bool.orb_true_iff. destruct Hsmall; [left|right]; by apply Z.ltb_lt. }
  rewrite Hpath. unfold histogram.
  change (toLuminances image (TypedArray.make (width * height)))
    with (luminancesOf image).
  fold buckets.
  by rewrite (calculateBlackPoint_low_contrast buckets Hpeaks).
Qed.

(** The lemma at a 6 x 4 image whose pixels alternate between the greys
    40 and 50. *)
Lemma binarize_low_contrast_witness :
  let image :=
    Image (List.flat_map (fun i => if Z.even i then 40 :: 40 :: 40 :: 255 :: nil
                                   else 50 :: 50 :: 50 :: 255 :: nil) (below 24))
          6 4 in
  (image_width image < 40 \/ image_height image < 40)
  /\ binarize image = Ok (BitMatrix.make 6 4).
Proof.
  intros image.
  assert (Hsmall : image_width image < 40 \/ image_height image < 40)
    by (left; vm_compute; reflexivity).
  split; [exact Hsmall|].
  assert (Hpeaks :
    snd (orderedPeaks (histogramBuckets (luminancesOf image)
                         (image_width image) (image_height image)))
    - fst (orderedPeaks (histogramBuckets (luminancesOf image)
                           (image_width image) (image_height image))) <= 2)
    by (vm_compute; discriminate).
  assert (Hwidth : 0 <= image_width image) by (vm_compute; discriminate).
  assert (Hheight : 0 <= image_height image) by (vm_compute; discriminate).
  assert (Hlength : image_width image * image_height image < 2 ^ 53)
    by (vm_compute; reflexivity).
  exact (proj1 (binarize_low_contrast image Hwidth Hheight Hlength Hsmall Hpeaks)).
Defined.

Close Scope Z_scope.
Close Scope list_scope.

(* ===================================================================== *)
(** ** Bit matrices: reading a cell after a flip *)
(* ===================================================================== *)

Open Scope list_scope.
Open Scope Z_scope.

Module BitMatrixFacts.

Import BitMatrix.

(** The matrices that the constructor makes: the rows are whole words and
    the array of bits holds all of them. *)
Definition wf (m : t) : Prop :=
  0 <= width m < 2 ^ 31 /\ 0 <= height m
  /\ rowSize m = ceil_div (width m) 32
  /\ TypedArray.len (bits m) = rowSize m * height m.

Definition inside (m : t) (x y : Z) : Prop :=
  0 <= x < width m /\ 0 <= y < height m.

Lemma matrix_make_wf (width height : Z) :
  0 <= width < 2 ^ 31 -> 0 <= height -> wf (make width height).
Proof.
  intros Hw Hh. unfold wf, make. cbn [BitMatrix.width BitMatrix.height rowSize bits].
  split; [lia|]. split; [lia|]. split; [reflexivity|].
  rewrite TypedArrayFacts.len_make.
  pose proof (ceil_div_bounds width 32 ltac:(lia)). nia.
Qed.

Lemma clone_wf (m : t) : wf m -> wf (clone m).
Proof. by destruct m. Qed.

Lemma matrix_get_testbit (m : t) (x y : Z) :
  0 <= x < 2 ^ 31 ->
  get m x y
  = Z.b2z (Z.testbit (TypedArray.get (bits m) (y * rowSize m + x / 32)) (x mod 32)).
Proof.
  intros Hx. unfold get, offset.
  rewrite -> js_idiv_small by lia.
  rewrite js_and_31. apply word_bit.
  apply Z.mod_pos_bound. lia.
Qed.

Lemma matrix_get_bit (m : t) (x y : Z) : 0 <= x < 2 ^ 31 -> get m x y = 0 \/ get m x y = 1.
Proof.
  intros Hx. rewrite -> matrix_get_testbit by lia.
  destruct (Z.testbit _ _); simpl; auto.
Qed.

Lemma flip_wf (m : t) (x y : Z) : wf m -> wf (flip m x y).
Proof.
  intros [Hw [Hh [Hr Hl]]]. unfold wf, flip, with_bits.
  cbn [width height rowSize bits].
  rewrite TypedArrayFacts.set_length. auto.
Qed.

Lemma flip_width (m : t) (x y : Z) : width (flip m x y) = width m.
Proof. reflexivity. Qed.

Lemma flip_height (m : t) (x y : Z) : height (flip m x y) = height m.
Proof. reflexivity. Qed.

(** The word of a cell inside the matrix. *)
Lemma offset_inside (m : t) (x y : Z) :
  wf m -> inside m x y ->
  0 <= x / 32 < rowSize m
  /\ 0 <= y * rowSize m + x / 32 < TypedArray.len (bits m).
Proof.
  intros [Hw [Hh [Hr Hl]]] [Hx Hy].
  pose proof (ceil_div_bounds (width m) 32 ltac:(lia)) as Hc.
  rewrite <- Hr in Hc.
  pose proof (Z.div_mod x 32 ltac:(lia)) as Hd.
  pose proof (Z.mod_pos_bound x 32 ltac:(lia)) as Hm.
  assert (H1 : 0 <= x / 32 < rowSize m) by lia.
  split; [exact H1|]. rewrite Hl. nia.
Qed.

(** A flip changes the cell and no other. *)
Lemma get_flip (m : t) (x y x' y' : Z) :
  wf m -> inside m x y -> inside m x' y' ->
  get (flip m x y) x' y'
  = if (x' =? x) && (y' =? y) then 1 - get m x' y' else get m x' y'.
Proof.
  intros Hwf Hin Hin'.
  destruct (offset_inside m x y Hwf Hin) as [Hq Ho].
  destruct (offset_inside m x' y' Hwf Hin') as [Hq' Ho'].
  destruct Hwf as [Hw _]. destruct Hin as [Hx Hy]. destruct Hin' as [Hx' Hy'].
  rewrite -> !matrix_get_testbit by lia.
  unfold flip, with_bits, offset. cbn [bits rowSize].
  rewrite -> js_idiv_small by lia. rewrite js_and_31.
  rewrite TypedArrayFacts.get_set.
  pose proof (Z.div_mod x 32 ltac:(lia)) as Hd.
  pose proof (Z.mod_pos_bound x 32 ltac:(lia)) as Hm.
  pose proof (Z.div_mod x' 32 ltac:(lia)) as Hd'.
  pose proof (Z.mod_pos_bound x' 32 ltac:(lia)) as Hm'.
  destruct (Z.eqb_spec (y' * rowSize m + x' / 32) (y * rowSize m + x / 32)) as [Eo|No].
  - assert (Ey : y' = y) by nia.
    assert (Eq : x' / 32 = x / 32) by nia.
    destruct (Z.leb_spec 0 (y * rowSize m + x / 32)); [|lia].
    destruct (Z.ltb_spec (y * rowSize m + x / 32) (TypedArray.len (bits m))); [|lia].
    cbn [andb].
    rewrite -> word_flip_bit by lia.
    rewrite Eo.
    destruct (Z.eqb_spec (x' mod 32) (x mod 32)) as [Em|Nm].
    + assert (Ex : x' = x) by lia.
      rewrite Ex Ey !Z.eqb_refl. cbn [andb].
      by destruct (Z.testbit _ _).
    + destruct (Z.eqb_spec x' x) as [Ex|_]; [subst; lia|].
      cbn [andb]. by rewrite Bool.xorb_false_r.
  - cbn [andb].
    destruct (Z.eqb_spec x' x) as [Ex|_]; [|reflexivity].
    destruct (Z.eqb_spec y' y) as [Ey|_]; [|reflexivity].
    subst. lia.
Qed.

End BitMatrixFacts.

Close Scope Z_scope.
Close Scope list_scope.

(* ===================================================================== *)
(** ** The parser: mirroring and unmasking *)
(* ===================================================================== *)

Open Scope list_scope.
Open Scope Z_scope.

Module ParserFacts.

Import BitMatrixParser.

(** The parsers that [new BitMatrixParser(matrix)] makes: the side is
    within the width and the height of a well-formed matrix. *)
Definition wf (p : t) : Prop :=
  BitMatrixFacts.wf (matrix p)
  /\ 0 <= size p <= BitMatrix.width (matrix p)
  /\ size p <= BitMatrix.height (matrix p).

Lemma parser_make_wf (m : BitMatrix.t) : BitMatrixFacts.wf m -> wf (make m).
Proof.
  intros Hwf. unfold wf, make. cbn [matrix size].
  split; [by apply BitMatrixFacts.clone_wf|].
  destruct Hwf as [Hw [Hh _]]. destruct m. cbn in *. lia.
Qed.

(** The cells that the walk of [mirror] has exchanged before it comes to
    the row [x] and the column [y]. *)
Definition exchanged (x y a b : Z) : bool :=
  (Z.min a b <? x) || ((Z.min a b =? x) && (Z.max a b <? y)).

(** The matrix [m'] is [m] with the exchanged cells transposed. *)
Definition transposedUpTo (size : Z) (m : BitMatrix.t) (x y : Z) (m' : BitMatrix.t)
  : Prop :=
  BitMatrixFacts.wf m'
  /\ BitMatrix.width m' = BitMatrix.width m
  /\ BitMatrix.height m' = BitMatrix.height m
  /\ forall a b, 0 <= a < size -> 0 <= b < size ->
       BitMatrix.get m' a b
       = if exchanged x y a b then BitMatrix.get m b a else BitMatrix.get m a b.

Ltac compare_all :=
  repeat match goal with
  | |- context [Z.ltb ?a ?b] => destruct (Z.ltb_spec a b)
  | |- context [Z.eqb ?a ?b] => destruct (Z.eqb_spec a b)
  end;
  cbn [andb orb negb].

Lemma mirror_cell (size : Z) (m m' : BitMatrix.t) (x y : Z) :
  size <= BitMatrix.width m -> size <= BitMatrix.height m ->
  0 <= x -> x < y < size ->
  transposedUpTo size m x y m' ->
  transposedUpTo size m x (y + 1)
    (if negb (BitMatrix.get m' x y =? BitMatrix.get m' y x)
     then BitMatrix.flip (BitMatrix.flip m' x y) y x
     else m').
Proof.
  intros Hsw Hsh Hx Hy [Hwf' [Hw' [Hh' Hget]]].
  assert (Hin : forall a b, 0 <= a < size -> 0 <= b < size ->
                  BitMatrixFacts.inside m' a b).
  { intros a b Ha Hb. unfold BitMatrixFacts.inside. lia. }
  assert (Hxy : BitMatrix.get m' x y = BitMatrix.get m x y).
  { rewrite -> Hget by lia. unfold exchanged. compare_all; try lia; reflexivity. }
  assert (Hyx : BitMatrix.get m' y x = BitMatrix.get m y x).
  { rewrite -> Hget by lia. unfold exchanged. compare_all; try lia; reflexivity. }
  assert (Hwidth : 0 <= BitMatrix.width m' < 2 ^ 31) by apply Hwf'.
  pose proof (BitMatrixFacts.matrix_get_bit m' x y ltac:(lia)) as Bxy.
  pose proof (BitMatrixFacts.matrix_get_bit m' y x ltac:(lia)) as Byx.
  destruct (Z.eqb_spec (BitMatrix.get m' x y) (BitMatrix.get m' y x)) as [Esame|Ediff];
    cbn [negb].
  - split; [exact Hwf'|]. split; [exact Hw'|]. split; [exact Hh'|].
    intros a b Ha Hb. rewrite -> Hget by lia.
    unfold exchanged. compare_all; try lia; try reflexivity;
      assert (a = x /\ b = y \/ a = y /\ b = x) as [[-> ->]|[-> ->]] by lia; congruence.
  - split; [by do 2 apply BitMatrixFacts.flip_wf|].
    split; [exact Hw'|]. split; [exact Hh'|].
    intros a b Ha Hb.
    rewrite -> BitMatrixFacts.get_flip;
      [| by apply BitMatrixFacts.flip_wf
       | unfold BitMatrixFacts.inside; rewrite BitMatrixFacts.flip_width
           BitMatrixFacts.flip_height; lia
       | unfold BitMatrixFacts.inside; rewrite BitMatrixFacts.flip_width
           BitMatrixFacts.flip_height; lia ].
    rewrite -> BitMatrixFacts.get_flip by (try assumption; apply Hin; lia).
    rewrite -> Hget by lia.
    unfold exchanged. compare_all; try lia; try reflexivity; subst; lia.
Qed.

Lemma transposedUpTo_ext (size : Z) (m m' : BitMatrix.t) (x y x' y' : Z) :
  (forall a b, 0 <= a < size -> 0 <= b < size ->
     a = b \/ exchanged x y a b = exchanged x' y' a b) ->
  transposedUpTo size m x y m' -> transposedUpTo size m x' y' m'.
Proof.
  intros Hext [Hwf' [Hw' [Hh' Hget]]].
  split; [exact Hwf'|]. split; [exact Hw'|]. split; [exact Hh'|].
  intros a b Ha Hb. rewrite -> Hget by lia.
  destruct (Hext a b Ha Hb) as [->| ->]; [|reflexivity].
  by destruct (exchanged x y b b), (exchanged x' y' b b).
Qed.

(** [mirror] transposes the square of side [size]. *)
Lemma mirror_transposes (p : t) :
  wf p ->
  wf (mirror p)
  /\ size (mirror p) = size p
  /\ forall x y, 0 <= x < size p -> 0 <= y < size p ->
       BitMatrix.get (matrix (mirror p)) x y = BitMatrix.get (matrix p) y x.
Proof.
  intros [Hwf [Hsw Hsh]]. unfold mirror.
  set (inner := fun x m0 =>
    for_range (x + 1) (size p) (fun y m1 =>
      if negb (BitMatrix.get m1 x y =? BitMatrix.get m1 y x)
      then BitMatrix.flip (BitMatrix.flip m1 x y) y x
      else m1) m0).
  assert (HI : transposedUpTo (size p) (matrix p) (size p) 0
                 (for_range 0 (size p) inner (matrix p))).
  { apply (for_range_ind (fun i m' => transposedUpTo (size p) (matrix p) i 0 m')).
    - lia.
    - split; [exact Hwf|]. split; [reflexivity|]. split; [reflexivity|].
      intros a b Ha Hb. unfold exchanged. compare_all; try lia; reflexivity.
    - intros x m' Hx Hrow. unfold inner.
      apply (transposedUpTo_ext (size p) (matrix p) _ x (size p)).
      { intros a b Ha Hb. right. unfold exchanged. compare_all; try lia; reflexivity. }
      apply (for_range_ind (fun j m1 => transposedUpTo (size p) (matrix p) x j m1)).
      + lia.
      + apply (transposedUpTo_ext (size p) (matrix p) _ x 0); [|exact Hrow].
        intros a b Ha Hb. unfold exchanged.
        destruct (Z.eq_dec a b) as [E|N]; [by left|right].
        compare_all; try lia; reflexivity.
      + intros y m1 Hy Hm1. apply mirror_cell; try lia. exact Hm1. }
  destruct HI as [Hwf' [Hw' [Hh' Hget]]].
  split; [unfold wf; cbn [matrix size]; split; [exact Hwf'|lia]|].
  cbn [matrix size]. split; [reflexivity|].
  intros x y Hx Hy. rewrite -> Hget by lia.
  unfold exchanged. compare_all; try lia; reflexivity.
Qed.

(** Whether a mask applies to a cell. *)
Definition applies (mask x y : Z) : bool :=
  match isApplyMask mask x y with
  | Ok b => b
  | Throw _ => false
  end.

Lemma isApplyMask_ok (mask x y : Z) :
  0 <= mask < 8 -> isApplyMask mask x y = Ok (applies mask x y).
Proof.
  intros Hmask.
  assert (Hcases : mask = 0 \/ mask = 1 \/ mask = 2 \/ mask = 3
                   \/ mask = 4 \/ mask = 5 \/ mask = 6 \/ mask = 7) by lia.
  by destruct Hcases as [->|[->|[->|[->|[->|[->|[->| ->]]]]]]].
Qed.

(** The cells that the walk of [unmask] has passed before it comes to the
    row [y] and the column [x]. *)
Definition passed (y x a b : Z) : bool :=
  (b <? y) || ((b =? y) && (a <? x)).

Definition unmaskedUpTo (size mask : Z) (m : BitMatrix.t) (y x : Z)
  (st : BitMatrix.t * option exn) : Prop :=
  snd st = None
  /\ BitMatrixFacts.wf (fst st)
  /\ BitMatrix.width (fst st) = BitMatrix.width m
  /\ BitMatrix.height (fst st) = BitMatrix.height m
  /\ forall a b, 0 <= a < size -> 0 <= b < size ->
       BitMatrix.get (fst st) a b
       = if passed y x a b && applies mask a b
         then 1 - BitMatrix.get m a b else BitMatrix.get m a b.

Lemma unmaskedUpTo_ext (size mask : Z) (m : BitMatrix.t) (y x y' x' : Z)
  (st : BitMatrix.t * option exn) :
  (forall a b, 0 <= a < size -> 0 <= b < size -> passed y x a b = passed y' x' a b) ->
  unmaskedUpTo size mask m y x st -> unmaskedUpTo size mask m y' x' st.
Proof.
  intros Hext [He [Hwf' [Hw' [Hh' Hget]]]].
  split; [exact He|]. split; [exact Hwf'|]. split; [exact Hw'|]. split; [exact Hh'|].
  intros a b Ha Hb. rewrite -> Hget by lia. by rewrite (Hext a b Ha Hb).
Qed.

(** [unmask] with a mask from 0 to 7 raises nothing and flips the cells
    of the square to which the mask applies. *)
Lemma unmask_flips (p : t) (mask : Z) :
  wf p -> 0 <= mask < 8 ->
  snd (unmask p mask) = None
  /\ wf (fst (unmask p mask))
  /\ size (fst (unmask p mask)) = size p
  /\ forall x y, 0 <= x < size p -> 0 <= y < size p ->
       BitMatrix.get (matrix (fst (unmask p mask))) x y
       = if applies mask x y
         then 1 - BitMatrix.get (matrix p) x y else BitMatrix.get (matrix p) x y.
Proof.
  intros [Hwf [Hsw Hsh]] Hmask. unfold unmask.
  set (cell := fun (y x : Z) (st : BitMatrix.t * option exn) =>
    match snd st with
    | Some _ => st
    | None =>
        match isApplyMask mask x y with
        | Ok true => (BitMatrix.flip (fst st) x y, None)
        | Ok false => st
        | Throw e => (fst st, Some e)
        end
    end).
  set (row := fun y st => for_range 0 (size p) (cell y) st).
  assert (HI : unmaskedUpTo (size p) mask (matrix p) (size p) 0
                 (for_range 0 (size p) row (matrix p, None))).
  { apply (for_range_ind (fun i st => unmaskedUpTo (size p) mask (matrix p) i 0 st)).
    - lia.
    - split; [reflexivity|]. split; [exact Hwf|]. split; [reflexivity|].
      split; [reflexivity|].
      intros a b Ha Hb. unfold passed. compare_all; try lia; reflexivity.
    - intros y st Hy Hrow. unfold row.
      apply (unmaskedUpTo_ext (size p) mask (matrix p) y (size p)).
      { intros a b Ha Hb. unfold passed. compare_all; try lia; reflexivity. }
      apply (for_range_ind (fun j st => unmaskedUpTo (size p) mask (matrix p) y j st)).
      + lia.
      + exact Hrow.
      + intros x [m' e] Hx [He [Hwf' [Hw' [Hh' Hget]]]].
        cbn [fst snd] in *. subst e. unfold cell. cbn [fst snd].
        rewrite -> isApplyMask_ok by exact Hmask.
        destruct (applies mask x y) eqn:Happly.
        * split; [reflexivity|]. cbn [fst snd].
          split; [by apply BitMatrixFacts.flip_wf|].
          split; [exact Hw'|]. split; [exact Hh'|].
          intros a b Ha Hb.
          rewrite -> BitMatrixFacts.get_flip
            by (try assumption; unfold BitMatrixFacts.inside; lia).
          rewrite -> Hget by lia.
          unfold passed. compare_all; try lia; try reflexivity;
            assert (a = x) by lia; subst; rewrite ?Happly; reflexivity || lia.
        * split; [reflexivity|]. cbn [fst snd].
          split; [exact Hwf'|]. split; [exact Hw'|]. split; [exact Hh'|].
          intros a b Ha Hb. rewrite -> Hget by lia.
          unfold passed. compare_all; try lia; try reflexivity;
            assert (a = x) by lia; subst; rewrite ?Happly; reflexivity || lia. }
  repeat match goal with
  | |- context [for_range 0 (size p) ?f (matrix p, None)] =>
      lazymatch f with
      | row => fail
      | _ => change (for_range 0 (size p) f (matrix p, None))
               with (for_range 0 (size p) row (matrix p, None))
      end
  end.
  destruct (for_range 0 (size p) row (matrix p, None)) as [m' e].
  destruct HI as [He [Hwf' [Hw' [Hh' Hget]]]]. cbn [fst snd] in *.
  split; [exact He|].
  split; [unfold wf; cbn [matrix size]; split; [exact Hwf'|lia]|].
  cbn [matrix size]. split; [reflexivity|].
  intros x y Hx Hy. rewrite -> Hget by lia.
  unfold passed. compare_all; try lia; reflexivity.
Qed.

(** Applying a mask twice restores the square. *)
Lemma remask_restores (p : t) (mask : Z) :
  wf p -> 0 <= mask < 8 ->
  forall x y, 0 <= x < size p -> 0 <= y < size p ->
    BitMatrix.get (matrix (fst (remask (fst (unmask p mask)) mask))) x y
    = BitMatrix.get (matrix p) x y.
Proof.
  intros Hwf Hmask x y Hx Hy. unfold remask.
  destruct (unmask_flips p mask Hwf Hmask) as [_ [Hwf1 [Hsize1 Hget1]]].
  destruct (unmask_flips _ mask Hwf1 Hmask) as [_ [_ [_ Hget2]]].
  rewrite -> Hget2 by lia. rewrite -> Hget1 by lia.
  destruct (applies mask x y); cbv iota; lia.
Qed.

End ParserFacts.

Close Scope Z_scope.
Close Scope list_scope.

(* ===================================================================== *)
(** ** C4: one retry on the mirrored matrix *)
(* ===================================================================== *)

Open Scope list_scope.
Open Scope Z_scope.

Module DecoderFacts.

Lemma newFormatInfo_mask (formatInfo : Z) (info : FormatInfo) :
  newFormatInfo formatInfo = Ok info -> 0 <= FormatInfo_mask info < 8.
Proof.
  unfold newFormatInfo.
  destruct (fromECLevelBits _) as [level|e]; [|discriminate].
  cbn [bind]. intros H. injection H as <-. cbn [FormatInfo_mask].
  rewrite js_and_7. apply Z.mod_pos_bound. lia.
Qed.

Lemma decodeFormatInfo_scan_mask (table : list (Z * Z))
  (formatInfo1 formatInfo2 bestDiff bestFormatInfo : Z) (info : FormatInfo) :
  decodeFormatInfo_scan table formatInfo1 formatInfo2 bestDiff bestFormatInfo = Ok info ->
  0 <= FormatInfo_mask info < 8.
Proof.
  revert bestDiff bestFormatInfo.
  induction table as [|[masked formatInfo] rest IH]; intros bestDiff bestFormatInfo.
  - cbn [decodeFormatInfo_scan].
    destruct (bestDiff <=? 3); [apply newFormatInfo_mask | discriminate].
  - cbn [decodeFormatInfo_scan].
    destruct ((formatInfo1 =? masked) || (formatInfo2 =? masked));
      [apply newFormatInfo_mask|].
    destruct (hammingWeight (js_xor formatInfo1 masked) <? bestDiff);
      destruct (negb (formatInfo1 =? formatInfo2));
      try destruct (hammingWeight (js_xor formatInfo2 masked) <? _);
      apply IH.
Qed.

Lemma readFormatInfo_mask (p : BitMatrixParser.t) (info : FormatInfo) :
  BitMatrixParser.readFormatInfo p = Ok info -> 0 <= FormatInfo_mask info < 8.
Proof. apply decodeFormatInfo_scan_mask. Qed.

(** The parser and the format information that the first reading leaves. *)
Lemma read_leaves (p : BitMatrixParser.t) :
  match Decoder.attempt_formatInfo (Decoder.read p) with
  | Some formatInfo =>
      0 <= FormatInfo_mask formatInfo < 8
      /\ Decoder.attempt_parser (Decoder.read p)
         = fst (BitMatrixParser.unmask p (FormatInfo_mask formatInfo))
  | None => Decoder.attempt_parser (Decoder.read p) = p
  end.
Proof.
  unfold Decoder.read.
  destruct (BitMatrixParser.readVersion p) as [version|e]; [|reflexivity].
  destruct (BitMatrixParser.readFormatInfo p) as [info|e] eqn:Hinfo; [|reflexivity].
  unfold parse.
  destruct (BitMatrixParser.unmask p (FormatInfo_mask info)) as [p' [e|]] eqn:Hunmask;
    cbn [Decoder.attempt_formatInfo Decoder.attempt_parser]; rewrite Hunmask;
    (split; [exact (readFormatInfo_mask p info Hinfo) | reflexivity]).
Qed.

Lemma finish_mirror (P : Platform) (decodeFn : list Z -> Charset -> jsstring)
  (mirror : bool) (r : Version * FormatInfo * list Z * Z) (qrcode : QRCode_1) :
  Decoder.finish P decodeFn mirror r = Ok qrcode -> QRCode_mirror qrcode = mirror.
Proof.
  destruct r as [[[version formatInfo] codewords] corrected]. unfold Decoder.finish.
  destruct (decode P codewords (Version_version version) decodeFn) as [metadata|e];
    [|discriminate].
  cbn [bind]. intros H. by injection H as <-.
Qed.

(** The parser that the [catch] block hands to the second reading: the
    one that the first reading left, remasked when a format information
    had been read. *)
Definition remasked (a : Decoder.attempt) : BitMatrixParser.t :=
  match Decoder.attempt_formatInfo a with
  | Some formatInfo =>
      fst (BitMatrixParser.remask (Decoder.attempt_parser a) (FormatInfo_mask formatInfo))
  | None => Decoder.attempt_parser a
  end.

(** Remasking gives back the square as it was before the first reading,
    and the [catch] block raises nothing of its own. *)
Lemma recover_restores (p : BitMatrixParser.t) :
  ParserFacts.wf p ->
  ParserFacts.wf (remasked (Decoder.read p))
  /\ BitMatrixParser.size (remasked (Decoder.read p)) = BitMatrixParser.size p
  /\ (forall x y, 0 <= x < BitMatrixParser.size p -> 0 <= y < BitMatrixParser.size p ->
        BitMatrix.get (BitMatrixParser.matrix (remasked (Decoder.read p))) x y
        = BitMatrix.get (BitMatrixParser.matrix p) x y)
  /\ Decoder.recover (Decoder.read p)
     = Ok (BitMatrixParser.mirror (remasked (Decoder.read p))).
Proof.
  intros Hwf. pose proof (read_leaves p) as Hleaves.
  unfold remasked, Decoder.recover.
  destruct (Decoder.attempt_formatInfo (Decoder.read p)) as [formatInfo|].
  - destruct Hleaves as [Hmask ->].
    destruct (ParserFacts.unmask_flips p _ Hwf Hmask) as [_ [Hwf1 [Hsize1 _]]].
    unfold BitMatrixParser.remask.
    destruct (ParserFacts.unmask_flips _ _ Hwf1 Hmask) as [Hnone [Hwf2 [Hsize2 _]]].
    split; [exact Hwf2|]. split; [lia|].
    split; [exact (ParserFacts.remask_restores p _ Hwf Hmask)|].
    destruct (BitMatrixParser.unmask (BitMatrixParser.unmask p _).1 _) as [p2 e].
    cbn [fst snd] in *. by subst e.
  - rewrite Hleaves. split; [exact Hwf|]. split; [reflexivity|].
    split; [reflexivity|reflexivity].
Qed.

Lemma get_clone (m : BitMatrix.t) (x y : Z) :
  BitMatrix.get (BitMatrix.clone m) x y = BitMatrix.get m x y.
Proof. reflexivity. Qed.

End DecoderFacts.

(** C4.  [Decoder.decode] first reads the matrix as it is.  If a step from
    the reading of the version to the Reed-Solomon correction throws, it
    applies the mask of the format information again, when one had been
    read, which gives back the matrix as it was, mirrors the matrix across
    the main diagonal, and reads once more from the version on: the result
    of the second reading is reported with [mirror = true], and what the
    second reading throws goes to the caller.  A first reading that succeeds
    is reported with [mirror = false]. *)
Theorem decode_retries_once_mirrored
  (P : Platform) (decodeFn : list Z -> Charset -> jsstring) (matrix : BitMatrix.t) :
  BitMatrixFacts.wf matrix ->
  let parser := BitMatrixParser.make matrix in
  let first := Decoder.read parser in
  let mirrored := BitMatrixParser.mirror (DecoderFacts.remasked first) in
  let second := Decoder.read mirrored in
  Decoder.attempt_formatInfo first
  = match BitMatrixParser.readVersion parser, BitMatrixParser.readFormatInfo parser with
    | Ok _, Ok formatInfo => Some formatInfo
    | _, _ => None
    end
  /\ (forall r, Decoder.attempt_outcome first = Ok r ->
        Decoder.decode P decodeFn matrix = Decoder.finish P decodeFn false r)
  /\ (forall e, Decoder.attempt_outcome first = Throw e ->
        (forall x y,
           0 <= x < BitMatrixParser.size parser -> 0 <= y < BitMatrixParser.size parser ->
           BitMatrix.get (BitMatrixParser.matrix mirrored) x y = BitMatrix.get matrix y x)
        /\ (forall r, Decoder.attempt_outcome second = Ok r ->
              Decoder.decode P decodeFn matrix = Decoder.finish P decodeFn true r)
        /\ (forall e', Decoder.attempt_outcome second = Throw e' ->
              Decoder.decode P decodeFn matrix = Throw e'))
  /\ (forall qrcode, Decoder.decode P decodeFn matrix = Ok qrcode ->
        QRCode_mirror qrcode = negb (is_ok (Decoder.attempt_outcome first))).
Proof.
  intros Hwf parser first mirrored second.
  pose proof (ParserFacts.parser_make_wf matrix Hwf) as Hparser. fold parser in Hparser.
  destruct (DecoderFacts.recover_restores parser Hparser)
    as [Hwf1 [Hsize1 [Hget1 Hrecover]]].
  fold first in Hwf1, Hsize1, Hget1, Hrecover. fold mirrored in Hrecover.
  destruct (ParserFacts.mirror_transposes _ Hwf1) as [_ [_ Hmirror]].
  fold mirrored in Hmirror.
  assert (Hdecode : Decoder.decode P decodeFn matrix =
    match Decoder.attempt_outcome first with
    | Ok r => Decoder.finish P decodeFn false r
    | Throw _ =>
        match Decoder.attempt_outcome second with
        | Ok r => Decoder.finish P decodeFn true r
        | Throw e' => Throw e'
        end
    end).
  { unfold Decoder.decode. fold parser. fold first.
    destruct (Decoder.attempt_outcome first) as [r|e]; [reflexivity|].
    rewrite Hrecover. cbn [bind]. fold second.
    by destruct (Decoder.attempt_outcome second). }
  split.
  { unfold first, Decoder.read.
    destruct (BitMatrixParser.readVersion parser) as [version|e]; [|reflexivity].
    destruct (BitMatrixParser.readFormatInfo parser) as [info|e]; [|reflexivity].
    by destruct (parse parser version info). }
  split.
  { intros r Hr. by rewrite Hdecode Hr. }
  split.
  { intros e He. split.
    - intros x y Hx Hy.
      rewrite -> Hmirror by lia. rewrite -> Hget1 by lia.
      apply DecoderFacts.get_clone.
    - rewrite Hdecode He. split.
      + intros r Hr. by rewrite Hr.
      + intros e' He'. by rewrite He'. }
  intros qrcode. rewrite Hdecode.
  destruct (Decoder.attempt_outcome first) as [r|e]; cbn [is_ok negb].
  - apply DecoderFacts.finish_mirror.
  - destruct (Decoder.attempt_outcome second) as [r|e']; [|discriminate].
    apply DecoderFacts.finish_mirror.
Qed.

(** The symbol of the numeric content "01234567" at the level M, with the
    mask 0, transposed: its 21 rows, the bit [x] of a row being the module
    of the column [x]. *)
Definition transposedSymbol : BitMatrix.t :=
  BitMatrix.Build 21 21 1
    (2083711 :: 1067585 :: 1528157 :: 1525341 :: 1527133 :: 1071169 :: 2086271
     :: 7168 :: 1386066 :: 464926 :: 112455 :: 1973817 :: 608601 :: 1973760
     :: 1422463 :: 1973825 :: 608605 :: 754781 :: 1508445 :: 175937 :: 1429631
     :: nil).

(** The theorem at the transposed symbol: the first reading fails, and the
    second one gives the content with [mirror = true]. *)
Lemma decode_retries_once_mirrored_witness :
  BitMatrixFacts.wf transposedSymbol
  /\ is_ok (Decoder.attempt_outcome (Decoder.read (BitMatrixParser.make transposedSymbol)))
     = false
  /\ exists qrcode,
       Decoder.decode host (decode_1 host) transposedSymbol = Ok qrcode
       /\ QRCode_mirror qrcode = true
       /\ QRCode_content qrcode = str "01234567".
Proof.
  assert (Hwf : BitMatrixFacts.wf transposedSymbol).
  { unfold BitMatrixFacts.wf. vm_compute. repeat split; discriminate. }
  assert (Hfirst :
    is_ok (Decoder.attempt_outcome (Decoder.read (BitMatrixParser.make transposedSymbol)))
    = false) by (vm_compute; reflexivity).
  split; [exact Hwf|]. split; [exact Hfirst|].
  destruct (Decoder.decode host (decode_1 host) transposedSymbol) as [qrcode|e] eqn:Hdecode.
  - exists qrcode. split; [reflexivity|].
    destruct (decode_retries_once_mirrored host (decode_1 host) transposedSymbol Hwf)
      as [_ [_ [_ Hmirror]]].
    split; [by rewrite (Hmirror qrcode Hdecode) Hfirst|].
    assert (Hcontent :
      match Decoder.decode host (decode_1 host) transposedSymbol with
      | Ok q => QRCode_content q
      | Throw _ => nil
      end = str "01234567") by (vm_compute; reflexivity).
    by rewrite Hdecode in Hcontent.
  - exfalso.
    assert (Hok : is_ok (Decoder.decode host (decode_1 host) transposedSymbol) = true)
      by (vm_compute; reflexivity).
    by rewrite Hdecode in Hok.
Defined.


Close Scope Z_scope.
Close Scope list_scope.

(* ===================================================================== *)
(** ** The field of the Reed-Solomon code *)
(* ===================================================================== *)

Open Scope list_scope.
Open Scope Z_scope.

(** The elements of [QR_CODE_FIELD_256] are the numbers of a byte; the sum
    is the exclusive or and the product goes through the tables. *)
Definition byte (z : Z) : Prop := 0 <= z < 256.

Definition gf_mul (a b : Z) : Z := GaloisField.multiply QR_CODE_FIELD_256 a b.
Definition gf_inv (a : Z) : Z := GaloisField.invert QR_CODE_FIELD_256 a.
Definition gf_exp (i : Z) : Z := GaloisField.exp QR_CODE_FIELD_256 i.
Definition gf_log (a : Z) : Z := GaloisField.log QR_CODE_FIELD_256 a.

(** The product by the generator 2: a shift, reduced by the primitive
    polynomial 0x11D. *)
Definition gf_double (x : Z) : Z :=
  if 2 * x >=? 256 then Z.lxor (2 * x) 0x11d else 2 * x.

Fixpoint gf_doubles (n : nat) (x : Z) : Z :=
  match n with
  | O => x
  | Datatypes.S n' => gf_double (gf_doubles n' x)
  end.

Module FieldTables.

Definition checkLog (a : Z) : bool :=
  (a =? 0) || ((gf_exp (gf_log a) =? a) && (0 <=? gf_log a) && (gf_log a <? 255)).

Definition checkExp (i : Z) : bool :=
  (gf_log (gf_exp i) =? i) && (1 <=? gf_exp i) && (gf_exp i <? 256)
  && (gf_exp ((i + 1) mod 255) =? gf_double (gf_exp i)).

Definition checkDouble (x : Z) : bool :=
  (0 <=? gf_double x) && (gf_double x <? 256)
  && List.forallb (fun y => gf_double (Z.lxor x y) =? Z.lxor (gf_double x) (gf_double y))
       (below 256).

Definition checkInvert (a : Z) : bool :=
  (a =? 0)
  || ((gf_mul a (gf_inv a) =? 1) && (1 <=? gf_inv a) && (gf_inv a <? 256)).

Lemma checkLog_all : List.forallb checkLog (below 256) = true.
Proof. vm_compute. reflexivity. Qed.

Lemma checkExp_all : List.forallb checkExp (below 255) = true.
Proof. vm_compute. reflexivity. Qed.

Lemma checkDouble_all : List.forallb checkDouble (below 256) = true.
Proof. vm_compute. reflexivity. Qed.

Lemma checkInvert_all : List.forallb checkInvert (below 256) = true.
Proof. vm_compute. reflexivity. Qed.

Lemma log_exp (a : Z) :
  byte a -> a <> 0 -> gf_exp (gf_log a) = a /\ 0 <= gf_log a < 255.
Proof.
  intros Ha Hn.
  pose proof (forall_below _ _ checkLog_all a Ha) as H. unfold checkLog in H.
  destruct (Z.eqb_spec a 0); [contradiction|]. cbn [orb] in H.
  apply andb_prop in H as [H H2]. apply andb_prop in H as [H0 H1]. lia.
Qed.

Lemma exp_log (i : Z) :
  0 <= i < 255 ->
  gf_log (gf_exp i) = i /\ 1 <= gf_exp i < 256
  /\ gf_exp ((i + 1) mod 255) = gf_double (gf_exp i).
Proof.
  intros Hi.
  pose proof (forall_below _ _ checkExp_all i Hi) as H. unfold checkExp in H.
  apply andb_prop in H as [H H3]. apply andb_prop in H as [H H2].
  apply andb_prop in H as [H0 H1]. lia.
Qed.

Lemma double_byte (x : Z) : byte x -> byte (gf_double x).
Proof.
  intros Hx.
  pose proof (forall_below _ _ checkDouble_all x Hx) as H. unfold checkDouble in H.
  apply andb_prop in H as [H _]. apply andb_prop in H as [H0 H1]. unfold byte. lia.
Qed.

Lemma double_lxor (x y : Z) :
  byte x -> byte y -> gf_double (Z.lxor x y) = Z.lxor (gf_double x) (gf_double y).
Proof.
  intros Hx Hy.
  pose proof (forall_below _ _ checkDouble_all x Hx) as H. unfold checkDouble in H.
  apply andb_prop in H as [_ H].
  pose proof (forall_below _ _ H y Hy) as H'. by apply Z.eqb_eq.
Qed.

Lemma invert_spec (a : Z) :
  byte a -> a <> 0 -> gf_mul a (gf_inv a) = 1 /\ 1 <= gf_inv a < 256.
Proof.
  intros Ha Hn.
  pose proof (forall_below _ _ checkInvert_all a Ha) as H. unfold checkInvert in H.
  destruct (Z.eqb_spec a 0); [contradiction|]. cbn [orb] in H.
  apply andb_prop in H as [H H2]. apply andb_prop in H as [H0 H1]. lia.
Qed.

Definition checkXor (x : Z) : bool :=
  List.forallb (fun y => (0 <=? Z.lxor x y) && (Z.lxor x y <? 256)) (below 256).

Lemma checkXor_all : List.forallb checkXor (below 256) = true.
Proof. vm_compute. reflexivity. Qed.

Lemma lxor_byte (x y : Z) : byte x -> byte y -> byte (Z.lxor x y).
Proof.
  intros Hx Hy.
  pose proof (forall_below _ _ checkXor_all x Hx) as H. unfold checkXor in H.
  pose proof (forall_below _ _ H y Hy) as H'.
  apply andb_prop in H' as [H0 H1]. unfold byte. lia.
Qed.

Lemma js_xor_byte (x y : Z) : byte x -> byte y -> js_xor x y = Z.lxor x y.
Proof. unfold byte. intros Hx Hy. apply js_xor_small; lia. Qed.

(** The product of two elements that are not zero, through the tables. *)
Lemma mul_exp (a b : Z) :
  a <> 0 -> b <> 0 -> 0 <= gf_log a -> 0 <= gf_log b ->
  gf_mul a b = gf_exp ((gf_log a + gf_log b) mod 255).
Proof.
  intros Ha Hb Hla Hlb. unfold gf_mul, GaloisField.multiply.
  destruct (Z.eqb_spec a 0); [contradiction|].
  destruct (Z.eqb_spec b 0); [contradiction|]. cbn [orb].
  change (GaloisField.size QR_CODE_FIELD_256 - 1) with 255.
  unfold js_rem. rewrite -> Z.rem_mod_nonneg by (unfold gf_log, GaloisField.log in *; lia).
  reflexivity.
Qed.

Lemma mul_0_l (b : Z) : gf_mul 0 b = 0.
Proof. reflexivity. Qed.

Lemma mul_0_r (a : Z) : gf_mul a 0 = 0.
Proof. unfold gf_mul, GaloisField.multiply. by rewrite Bool.orb_true_r. Qed.

Lemma mul_byte (a b : Z) : byte a -> byte b -> byte (gf_mul a b).
Proof.
  intros Ha Hb.
  destruct (Z.eq_dec a 0) as [->|Na]; [rewrite mul_0_l; unfold byte; lia|].
  destruct (Z.eq_dec b 0) as [->|Nb]; [rewrite mul_0_r; unfold byte; lia|].
  destruct (log_exp a Ha Na) as [_ Hla]. destruct (log_exp b Hb Nb) as [_ Hlb].
  rewrite -> mul_exp by lia.
  pose proof (Z.mod_pos_bound (gf_log a + gf_log b) 255 ltac:(lia)) as Hm.
  destruct (exp_log _ Hm) as [_ [He _]]. unfold byte. lia.
Qed.

Lemma mul_nonzero (a b : Z) :
  byte a -> byte b -> a <> 0 -> b <> 0 -> gf_mul a b <> 0.
Proof.
  intros Ha Hb Na Nb.
  destruct (log_exp a Ha Na) as [_ Hla]. destruct (log_exp b Hb Nb) as [_ Hlb].
  rewrite -> mul_exp by lia.
  pose proof (Z.mod_pos_bound (gf_log a + gf_log b) 255 ltac:(lia)) as Hm.
  destruct (exp_log _ Hm) as [_ [He _]]. lia.
Qed.

Lemma mul_comm (a b : Z) : gf_mul a b = gf_mul b a.
Proof.
  unfold gf_mul, GaloisField.multiply.
  by rewrite Bool.orb_comm Z.add_comm.
Qed.

Lemma iter_double_byte (n : nat) (x : Z) : byte x -> byte (gf_doubles n x).
Proof. intros Hx. induction n as [|n IH]; [exact Hx | by apply double_byte]. Qed.

Lemma iter_double_lxor (n : nat) (x y : Z) :
  byte x -> byte y ->
  gf_doubles n (Z.lxor x y)
  = Z.lxor (gf_doubles n x) (gf_doubles n y).
Proof.
  intros Hx Hy. induction n as [|n IH]; [reflexivity|].
  cbn [gf_doubles]. rewrite IH. apply double_lxor; by apply iter_double_byte.
Qed.

(** The product by the power [i] of the generator doubles [i] times. *)
Lemma mul_iter (i : nat) (x : Z) :
  (i < 255)%coq_nat -> byte x ->
  gf_mul (gf_exp (Z.of_nat i)) x = gf_doubles i x.
Proof.
  intros Hi Hx.
  destruct (Z.eq_dec x 0) as [->|Nx].
  { rewrite mul_0_r. clear. induction i as [|i IH]; [reflexivity|].
    cbn [gf_doubles]. by rewrite <- IH. }
  destruct (log_exp x Hx Nx) as [Hxe Hlx].
  induction i as [|i IH].
  - destruct (exp_log 0 ltac:(lia)) as [Hl [He _]].
    rewrite -> mul_exp by (cbn [Z.of_nat]; lia).
    cbn [Z.of_nat]. rewrite Hl Z.add_0_l. rewrite -> Z.mod_small by lia. exact Hxe.
  - destruct (exp_log (Z.of_nat i) ltac:(lia)) as [Hl [He _]].
    destruct (exp_log (Z.of_nat (Datatypes.S i)) ltac:(lia)) as [Hl' [He' _]].
    cbn [gf_doubles]. rewrite <- IH by lia.
    rewrite -> !mul_exp by lia. rewrite Hl Hl'.
    pose proof (Z.mod_pos_bound (Z.of_nat i + gf_log x) 255 ltac:(lia)) as Hm.
    destruct (exp_log _ Hm) as [_ [_ Hd]]. rewrite <- Hd.
    f_equal. rewrite Zplus_mod_idemp_l. f_equal. lia.
Qed.

Lemma mul_lxor_r (a x y : Z) :
  byte a -> byte x -> byte y ->
  gf_mul a (Z.lxor x y) = Z.lxor (gf_mul a x) (gf_mul a y).
Proof.
  intros Ha Hx Hy.
  destruct (Z.eq_dec a 0) as [->|Na]; [by rewrite !mul_0_l|].
  destruct (log_exp a Ha Na) as [Hae Hla].
  rewrite <- Hae. rewrite <- (Z2Nat.id (gf_log a)) by lia.
  rewrite -> !mul_iter by (try apply lxor_byte; try assumption; lia).
  by apply iter_double_lxor.
Qed.

Lemma mul_assoc (a b c : Z) :
  byte a -> byte b -> byte c -> gf_mul a (gf_mul b c) = gf_mul (gf_mul a b) c.
Proof.
  intros Ha Hb Hc.
  destruct (Z.eq_dec a 0) as [->|Na]; [by rewrite !mul_0_l|].
  destruct (Z.eq_dec b 0) as [->|Nb]; [by rewrite mul_0_l mul_0_r mul_0_l|].
  destruct (Z.eq_dec c 0) as [->|Nc]; [by rewrite !mul_0_r|].
  destruct (log_exp a Ha Na) as [_ Hla]. destruct (log_exp b Hb Nb) as [_ Hlb].
  destruct (log_exp c Hc Nc) as [_ Hlc].
  pose proof (mul_nonzero a b Ha Hb Na Nb) as Nab.
  pose proof (mul_nonzero b c Hb Hc Nb Nc) as Nbc.
  pose proof (Z.mod_pos_bound (gf_log a + gf_log b) 255 ltac:(lia)) as Hab.
  pose proof (Z.mod_pos_bound (gf_log b + gf_log c) 255 ltac:(lia)) as Hbc.
  assert (Lab : gf_log (gf_mul a b) = (gf_log a + gf_log b) mod 255).
  { rewrite -> mul_exp by lia. by destruct (exp_log _ Hab) as [-> _]. }
  assert (Lbc : gf_log (gf_mul b c) = (gf_log b + gf_log c) mod 255).
  { rewrite -> mul_exp by lia. by destruct (exp_log _ Hbc) as [-> _]. }
  rewrite -> (mul_exp a (gf_mul b c)) by lia.
  rewrite -> (mul_exp (gf_mul a b) c) by lia.
  rewrite Lab Lbc. f_equal.
  rewrite Zplus_mod_idemp_l Zplus_mod_idemp_r. f_equal. lia.
Qed.

Lemma mul_1_l (a : Z) : byte a -> gf_mul 1 a = a.
Proof.
  intros Ha.
  change 1 with (gf_exp (Z.of_nat 0)). by rewrite -> mul_iter by (assumption || lia).
Qed.

End FieldTables.

Close Scope Z_scope.
Close Scope list_scope.

(* ===================================================================== *)
(** ** The field as a MathComp structure *)
(* ===================================================================== *)

Open Scope list_scope.
Open Scope Z_scope.

(** The carrier: the 256 numbers of a byte. *)
Definition GF256 : Type := 'I_256.

HB.instance Definition GF256_finite := Finite.on GF256.

Definition toZ (x : GF256) : Z := Z.of_nat (nat_of_ord x).
Definition ofZ (z : Z) : GF256 := inord (Z.to_nat z).

Lemma toZ_byte (x : GF256) : byte (toZ x).
Proof.
  unfold byte, toZ. have /ltP H := ltn_ord x. lia.
Qed.

Lemma toZ_ofZ (z : Z) : byte z -> toZ (ofZ z) = z.
Proof.
  unfold byte, toZ, ofZ. intros Hz.
  rewrite -> inordK by (apply/ltP; lia). lia.
Qed.

Lemma ofZ_toZ (x : GF256) : ofZ (toZ x) = x.
Proof. unfold ofZ, toZ. by rewrite Nat2Z.id inord_val. Qed.

Lemma toZ_inj (x y : GF256) : toZ x = toZ y -> x = y.
Proof. intros H. by rewrite -(ofZ_toZ x) -(ofZ_toZ y) H. Qed.

Lemma ofZ_inj (a b : Z) : byte a -> byte b -> ofZ a = ofZ b -> a = b.
Proof. intros Ha Hb H. by rewrite -(toZ_ofZ a Ha) -(toZ_ofZ b Hb) H. Qed.

Definition gf_add (x y : GF256) : GF256 := ofZ (Z.lxor (toZ x) (toZ y)).
Definition gf_zero : GF256 := ofZ 0.
Definition gf_one : GF256 := ofZ 1.
Definition gf_times (x y : GF256) : GF256 := ofZ (gf_mul (toZ x) (toZ y)).
Definition gf_recip (x : GF256) : GF256 :=
  if toZ x =? 0 then gf_zero else ofZ (gf_inv (toZ x)).

Lemma toZ_add (x y : GF256) : toZ (gf_add x y) = Z.lxor (toZ x) (toZ y).
Proof. apply toZ_ofZ. apply FieldTables.lxor_byte; apply toZ_byte. Qed.

Lemma toZ_times (x y : GF256) : toZ (gf_times x y) = gf_mul (toZ x) (toZ y).
Proof. apply toZ_ofZ. apply FieldTables.mul_byte; apply toZ_byte. Qed.

Lemma toZ_zero : toZ gf_zero = 0.
Proof. by apply toZ_ofZ. Qed.

Lemma toZ_one : toZ gf_one = 1.
Proof. by apply toZ_ofZ. Qed.

Lemma gf_addA : associative gf_add.
Proof.
  move=> x y z. apply toZ_inj. by rewrite !toZ_add Z.lxor_assoc.
Qed.

Lemma gf_addC : commutative gf_add.
Proof. move=> x y. apply toZ_inj. by rewrite !toZ_add Z.lxor_comm. Qed.

Lemma gf_add0 : left_id gf_zero gf_add.
Proof. move=> x. apply toZ_inj. by rewrite toZ_add toZ_zero Z.lxor_0_l. Qed.

Lemma gf_addN : left_inverse gf_zero id gf_add.
Proof. move=> x. apply toZ_inj. by rewrite toZ_add toZ_zero Z.lxor_nilpotent. Qed.

HB.instance Definition GF256_zmodule :=
  GRing.isZmodule.Build GF256 gf_addA gf_addC gf_add0 gf_addN.

Lemma gf_mulA : associative gf_times.
Proof.
  move=> x y z. apply toZ_inj. rewrite !toZ_times.
  apply FieldTables.mul_assoc; apply toZ_byte.
Qed.

Lemma gf_mulC : commutative gf_times.
Proof. move=> x y. apply toZ_inj. by rewrite !toZ_times FieldTables.mul_comm. Qed.

Lemma gf_mul1 : left_id gf_one gf_times.
Proof.
  move=> x. apply toZ_inj. rewrite toZ_times toZ_one.
  apply FieldTables.mul_1_l. apply toZ_byte.
Qed.

Lemma gf_mulD : left_distributive gf_times gf_add.
Proof.
  move=> x y z. apply toZ_inj.
  rewrite toZ_times !toZ_add !toZ_times.
  rewrite (FieldTables.mul_comm _ (toZ z)) (FieldTables.mul_comm (toZ x))
          (FieldTables.mul_comm (toZ y)).
  apply FieldTables.mul_lxor_r; apply toZ_byte.
Qed.

Lemma gf_one_neq0 : gf_one != gf_zero.
Proof.
  apply/eqP => H.
  have: toZ gf_one = toZ gf_zero by rewrite H.
  by rewrite toZ_one toZ_zero.
Qed.

HB.instance Definition GF256_ring :=
  GRing.Zmodule_isComNzRing.Build GF256 gf_mulA gf_mulC gf_mul1 gf_mulD gf_one_neq0.

Lemma gf_mulV (x : GF256) : x != 0%R -> (gf_recip x * x)%R = 1%R.
Proof.
  move=> Hx. apply toZ_inj.
  have Nx : toZ x <> 0.
  { move=> H. move/eqP: Hx; apply. apply toZ_inj. by rewrite H toZ_zero. }
  rewrite /gf_recip. move/Z.eqb_neq: (Nx) => ->.
  destruct (FieldTables.invert_spec (toZ x) (toZ_byte x) Nx) as [Hm Hi].
  rewrite [LHS]toZ_times. rewrite -> toZ_ofZ by (unfold byte; lia).
  by rewrite FieldTables.mul_comm Hm toZ_one.
Qed.

Lemma gf_inv0 : gf_recip 0%R = 0%R.
Proof. rewrite /gf_recip. by rewrite [toZ 0%R]toZ_zero. Qed.

HB.instance Definition GF256_field :=
  GRing.ComNzRing_isField.Build GF256 gf_mulV gf_inv0.

Close Scope Z_scope.
Close Scope list_scope.

(* ===================================================================== *)
(** ** The polynomials of the code as polynomials over the field *)
(* ===================================================================== *)

Open Scope list_scope.
Open Scope Z_scope.

(** Arithmetic on [nat] in the notations of SSReflect, handed to [lia]. *)
Ltac nat_lia :=
  repeat match goal with
  | H : is_true (leq _ _) |- _ => move/leP: H
  | H : leq _ _ = false |- _ => move/negbT: H; rewrite -ltnNge; move/leP
  | H : leq _ _ = true |- _ => move/leP: H
  | H : @eq nat _ _ |- _ => move: H
  end;
  rewrite -?plusE -?minusE -?multE /predn; intros;
  try (apply/leP); lia.

Lemma get_nth (cs : list Z) (i : nat) : TypedArray.get cs (Z.of_nat i) = nth 0 cs i.
Proof.
  unfold TypedArray.get. destruct (Z.ltb_spec (Z.of_nat i) 0) as [H|_]; [lia|].
  rewrite Nat2Z.id. elim: cs i => [|c cs IH] [|i] //=.
Qed.

Lemma len_size (cs : list Z) : TypedArray.len cs = Z.of_nat (size cs).
Proof. reflexivity. Qed.

Definition bytes (cs : list Z) : Prop := List.Forall byte cs.

Lemma bytes_get (cs : list Z) (i : Z) : bytes cs -> byte (TypedArray.get cs i).
Proof. exact (BitSourceFacts.get_byte cs i). Qed.

Lemma bytes_nth (cs : list Z) (i : nat) : bytes cs -> byte (nth 0 cs i).
Proof. intros H. rewrite -get_nth. by apply bytes_get. Qed.

Import GRing.Theory.

(** The polynomial of an array of coefficients, the highest degree first. *)
Definition polyOf (cs : list Z) : {poly GF256} := Poly (map ofZ (rev cs)).

Lemma ofZ_0 : ofZ 0 = 0%R.
Proof. reflexivity. Qed.

Lemma ofZ_1 : ofZ 1 = 1%R.
Proof. reflexivity. Qed.

Lemma toZ_0 : toZ 0%R = 0.
Proof. exact toZ_zero. Qed.

Lemma toZ_1 : toZ 1%R = 1.
Proof. exact toZ_one. Qed.

Lemma toZ_D (x y : GF256) : toZ (x + y)%R = Z.lxor (toZ x) (toZ y).
Proof. exact (toZ_add x y). Qed.

Lemma toZ_M (x y : GF256) : toZ (x * y)%R = gf_mul (toZ x) (toZ y).
Proof. exact (toZ_times x y). Qed.

Lemma ofZ_lxor (a b : Z) : byte a -> byte b -> ofZ (Z.lxor a b) = (ofZ a + ofZ b)%R.
Proof.
  intros Ha Hb. apply toZ_inj. rewrite toZ_D. rewrite -> !toZ_ofZ; try assumption.
  - reflexivity.
  - by apply FieldTables.lxor_byte.
Qed.

Lemma ofZ_mul (a b : Z) : byte a -> byte b -> ofZ (gf_mul a b) = (ofZ a * ofZ b)%R.
Proof.
  intros Ha Hb. apply toZ_inj. rewrite toZ_M. rewrite -> !toZ_ofZ; try assumption.
  - reflexivity.
  - by apply FieldTables.mul_byte.
Qed.

Lemma ofZ_eq0 (a : Z) : byte a -> (ofZ a == 0%R) = (a =? 0).
Proof.
  intros Ha. apply/eqP/idP.
  - move=> H. apply/Z.eqb_eq. apply (ofZ_inj a 0 Ha); [by unfold byte|exact H].
  - by move/Z.eqb_eq => ->.
Qed.

(** In characteristic 2 a sum is a difference. *)
Lemma gf_addxx (x : GF256) : (x + x = 0)%R.
Proof. apply toZ_inj. by rewrite toZ_D toZ_0 Z.lxor_nilpotent. Qed.


Lemma polyOf_nil : polyOf nil = 0%R.
Proof. reflexivity. Qed.

Lemma polyOf_rcons (cs : list Z) (c : Z) :
  polyOf (cs ++ c :: nil) = (polyOf cs * 'X + (ofZ c)%:P)%R.
Proof.
  rewrite /polyOf. change (cs ++ c :: nil) with (cat cs [:: c]).
  by rewrite rev_cat /= cons_poly_def.
Qed.

Lemma coef_polyOf (cs : list Z) (d : nat) :
  ((polyOf cs)`_d)%R
  = if (d < size cs)%N then ofZ (nth 0 cs (size cs - d.+1)) else 0%R.
Proof.
  rewrite /polyOf coef_Poly.
  case: ltnP => Hd.
  - rewrite (nth_map 0) ?size_rev //. by rewrite nth_rev.
  - by rewrite nth_default // size_map size_rev.
Qed.

Lemma polyOf_cons (c : Z) (cs : list Z) :
  polyOf (c :: cs) = (ofZ c *: 'X^(size cs) + polyOf cs)%R.
Proof.
  apply/polyP => d. rewrite coefD coefZ coefXn !coef_polyOf /=.
  case: (ltngtP d (size cs)) => Hd.
  - rewrite ltnS (ltnW Hd) mulr0 add0r.
    have ->: ((size cs).+1 - d.+1 = (size cs - d.+1).+1)%N by nat_lia.
    done.
  - by rewrite ltnS leqNgt Hd /= mulr0 add0r.
  - by rewrite Hd ltnS leqnn mulr1 subnn /= addr0.
Qed.

Lemma size_polyOf (cs : list Z) : (size (polyOf cs) <= size cs)%N.
Proof. rewrite /polyOf. apply: leq_trans (size_Poly _) _. by rewrite size_map size_rev. Qed.

Lemma size_polyOf_lead (c : Z) (cs : list Z) :
  byte c -> c <> 0 -> size (polyOf (c :: cs)) = (size cs).+1.
Proof.
  intros Hc Nc.
  have N0 : ofZ c != 0%R by rewrite ofZ_eq0 //; move/Z.eqb_neq: Nc => ->.
  rewrite polyOf_cons size_polyDl.
  - by rewrite size_scale ?size_polyXn ?ltnS ?size_polyOf.
  - by rewrite size_scale ?size_polyXn.
Qed.

Lemma polyOf_0_cons (cs : list Z) : polyOf (0 :: cs) = polyOf cs.
Proof. by rewrite polyOf_cons ofZ_0 scale0r add0r. Qed.

Lemma polyOf_cat (cs ds : list Z) :
  polyOf (cs ++ ds) = (polyOf cs * 'X^(size ds) + polyOf ds)%R.
Proof.
  elim: cs => [|c cs IH] /=.
  - by rewrite polyOf_nil mul0r add0r.
  - rewrite !polyOf_cons IH mulrDl addrA. congr (_ + _ + _)%R.
    change (cs ++ ds) with (cat cs ds).
    by rewrite size_cat exprD -scalerAl.
Qed.

(** A polynomial is the polynomial of an array when it has its
    coefficients. *)
Lemma polyOf_ext (cs : list Z) (q : {poly GF256}) :
  (forall d : nat,
     (q`_d)%R = if (d < size cs)%N
                then ofZ (TypedArray.get cs (TypedArray.len cs - 1 - Z.of_nat d))
                else 0%R) ->
  polyOf cs = q.
Proof.
  move=> H. apply/polyP => d. rewrite H coef_polyOf.
  case: ltnP => // Hd. congr ofZ.
  rewrite -get_nth. congr (TypedArray.get cs _).
  rewrite len_size. move/ltP: Hd => Hd. rewrite -minusE. lia.
Qed.

Lemma coef_polyOf_get (cs : list Z) (d : nat) :
  ((polyOf cs)`_d)%R
  = if (d < size cs)%N
    then ofZ (TypedArray.get cs (TypedArray.len cs - 1 - Z.of_nat d))
    else 0%R.
Proof.
  rewrite coef_polyOf. case: ltnP => // Hd. congr ofZ.
  rewrite -get_nth. congr (TypedArray.get cs _).
  rewrite len_size. move/ltP: Hd => Hd. rewrite -minusE. lia.
Qed.

(** The arrays that stand for polynomials: bytes, not empty, and with a
    leading coefficient that is not zero unless the array is the single
    coefficient of a constant. *)
Definition valid (p : list Z) : Prop :=
  bytes p /\ match p with
             | nil => False
             | c :: cs => c <> 0 \/ cs = nil
             end.

Lemma valid_bytes (p : list Z) : valid p -> bytes p.
Proof. by case. Qed.

Lemma valid_zero : valid Polynomial.zero.
Proof. split; [repeat constructor; lia | by right]. Qed.

Lemma valid_one : valid Polynomial.one.
Proof. split; [repeat constructor; lia | by right]. Qed.

Lemma polyOf_zero : polyOf Polynomial.zero = 0%R.
Proof. by rewrite /Polynomial.zero polyOf_0_cons. Qed.

Lemma polyOf_one : polyOf Polynomial.one = 1%R.
Proof.
  rewrite /Polynomial.one polyOf_cons polyOf_nil addr0 expr0 ofZ_1.
  by rewrite scale1r.
Qed.

Lemma dropZeros_spec (cs : list Z) :
  bytes cs ->
  bytes (Polynomial.dropZeros cs)
  /\ polyOf (Polynomial.dropZeros cs) = polyOf cs
  /\ match Polynomial.dropZeros cs with
     | nil => True
     | c :: _ => c <> 0
     end.
Proof.
  elim: cs => [|c cs IH] Hb /=; first by [].
  have Hc : byte c by inversion Hb.
  have Hcs : bytes cs by inversion Hb.
  case: (Z.eqb_spec c 0) => [->|Nc].
  - rewrite polyOf_0_cons. exact: IH.
  - by [].
Qed.

(** The constructor of [Polynomial]. *)
Lemma trim_spec (cs : list Z) :
  bytes cs -> cs <> nil ->
  valid (Polynomial.trim cs) /\ polyOf (Polynomial.trim cs) = polyOf cs.
Proof.
  move=> Hb Hn. rewrite /Polynomial.trim.
  case: cs Hb Hn => [|c [|c' cs]] Hb Hn //.
  - split; [split; [exact Hb | by right] | by []].
  - case: (Z.eqb_spec c 0) => [E|Nc]; last first.
    { split; [split; [exact Hb | by left] | by []]. }
    have [Hb' [Hp Hh]] := dropZeros_spec _ Hb.
    case: (Polynomial.dropZeros (c :: c' :: cs)) Hb' Hp Hh => [|d ds] Hb' Hp Hh.
    + split; [exact valid_zero|]. by rewrite polyOf_zero -Hp polyOf_nil.
    + split; [split; [exact Hb' | by left] | exact Hp].
Qed.

Lemma make_spec (cs : list Z) :
  bytes cs -> cs <> nil ->
  exists p, Polynomial.make cs = Ok p /\ valid p /\ polyOf p = polyOf cs.
Proof.
  move=> Hb Hn. exists (Polynomial.trim cs). rewrite /Polynomial.make.
  have Hl : (TypedArray.len cs <=? 0) = false.
  { apply/Z.leb_gt. rewrite len_size. by case: cs Hn {Hb}. }
  rewrite Hl. split; [by []|]. exact: trim_spec.
Qed.

(** The size of the polynomial of a valid array. *)
Lemma valid_size (p : list Z) :
  valid p -> size (polyOf p) = if polyOf p == 0%R then 0%N else size p.
Proof.
  case=> Hb. case: p Hb => [|c cs] Hb // [Nc|->].
  - have Hc : byte c by inversion Hb.
    have Hs := size_polyOf_lead c cs Hc Nc.
    have -> : (polyOf (c :: cs) == 0%R) = false.
    { apply/negbTE. by rewrite -size_poly_eq0 Hs. }
    exact Hs.
  - case: eqP => [->|]; first by rewrite size_poly0.
    move=> N. have Hc : byte c by inversion Hb.
    apply: size_polyOf_lead => // E. apply: N. by rewrite E polyOf_0_cons.
Qed.

Lemma getDegree_spec (p : list Z) :
  valid p -> Polynomial.getDegree p = Z.of_nat (size (polyOf p)).-1.
Proof.
  move=> Hv. rewrite /Polynomial.getDegree len_size (valid_size p Hv).
  case: Hv => Hb. case: p Hb => [|c cs] Hb // H.
  change (size (c :: cs)) with (size cs).+1.
  case: eqP => [E|_]; last by rewrite -pred_Sn Nat2Z.inj_succ; lia.
  case: H => [Nc|->] //.
  have Hc : byte c by inversion Hb.
  have := size_polyOf_lead c cs Hc Nc. by rewrite E size_poly0.
Qed.

Lemma isZero_spec (p : list Z) :
  valid p -> Polynomial.isZero p = (polyOf p == 0%R).
Proof.
  case=> Hb. case: p Hb => [|c cs] Hb // H.
  have Hc : byte c by inversion Hb.
  rewrite /Polynomial.isZero. change (TypedArray.get (c :: cs) 0) with c.
  case: (Z.eqb_spec c 0) => [E|Nc].
  - case: H => [//|->]. by rewrite E polyOf_0_cons polyOf_nil eqxx.
  - apply/esym/negbTE. by rewrite -size_poly_eq0 (size_polyOf_lead c cs Hc Nc).
Qed.

Lemma getCoefficient_spec (p : list Z) (d : Z) :
  bytes p -> 0 <= d ->
  Polynomial.getCoefficient p d = toZ ((polyOf p)`_(Z.to_nat d))%R.
Proof.
  move=> Hb Hd. rewrite /Polynomial.getCoefficient coef_polyOf_get.
  case: ltnP => H.
  - rewrite Z2Nat.id //. rewrite toZ_ofZ //. exact: bytes_get.
  - rewrite toZ_0. apply TypedArrayFacts.get_negative.
    rewrite len_size. move/leP: H. lia.
Qed.

Close Scope Z_scope.
Close Scope list_scope.

(* ===================================================================== *)
(** ** The operations of [Polynomial] as operations on polynomials *)
(* ===================================================================== *)

Open Scope list_scope.
Open Scope Z_scope.

Import GRing.Theory.

Module PolyOps.

Lemma byte_0 : byte 0.
Proof. unfold byte. lia. Qed.

Lemma byte_1 : byte 1.
Proof. unfold byte. lia. Qed.

Lemma toInt32_byte (z : Z) : byte z -> toInt32 z = z.
Proof. unfold byte. intros H. apply toInt32_small. lia. Qed.

Lemma bytes_nil : bytes nil.
Proof. constructor. Qed.

Lemma bytes_cons (c : Z) (cs : list Z) : byte c -> bytes cs -> bytes (c :: cs).
Proof. by constructor. Qed.

Lemma bytes_cat (cs ds : list Z) : bytes cs -> bytes ds -> bytes (cs ++ ds)%list.
Proof. intros Hc Hd. apply List.Forall_app. by split. Qed.

Lemma bytes_cat_inv (cs ds : list Z) : bytes (cs ++ ds)%list -> bytes cs /\ bytes ds.
Proof. intros H. by apply List.Forall_app in H. Qed.

Lemma bytes_make (n : Z) : bytes (TypedArray.make n).
Proof.
  unfold TypedArray.make. apply List.Forall_forall. intros x Hx.
  apply List.repeat_spec in Hx. subst. exact byte_0.
Qed.

Lemma bytes_take (cs : list Z) (n : nat) : bytes cs -> bytes (take n cs).
Proof.
  intros H. rewrite -(cat_take_drop n cs) in H.
  by apply bytes_cat_inv in H as [H _].
Qed.

Lemma bytes_drop (cs : list Z) (n : nat) : bytes cs -> bytes (drop n cs).
Proof.
  intros H. rewrite -(cat_take_drop n cs) in H.
  by apply bytes_cat_inv in H as [_ H].
Qed.

(** The array with one cell replaced. *)
Lemma update_cat (cs ds : list Z) (c v : Z) (k : nat) :
  k = size cs ->
  TypedArray.update (cs ++ c :: ds)%list k v = (cs ++ v :: ds)%list.
Proof. move=> ->. elim: cs => [|x cs IH] //=. by rewrite IH. Qed.

Lemma set_split (cs : list Z) (k : nat) (v : Z) :
  (k < size cs)%N ->
  TypedArray.set cs (Z.of_nat k) v = (take k cs ++ v :: drop k.+1 cs)%list.
Proof.
  move=> Hk. rewrite /TypedArray.set.
  case: (Z.ltb_spec (Z.of_nat k) 0) => [H|_]; first by lia.
  rewrite Nat2Z.id.
  rewrite -{1}(cat_take_drop k cs) (drop_nth 0 Hk).
  apply: update_cat. by rewrite size_takel // ltnW.
Qed.

Lemma bytes_set (cs : list Z) (i v : Z) :
  bytes cs -> byte v -> bytes (TypedArray.set cs i v).
Proof.
  move=> Hb Hv.
  case: (Z.ltb_spec i 0) => Hi.
  - rewrite /TypedArray.set. by move/Z.ltb_lt: Hi => ->.
  - case: (ltnP (Z.to_nat i) (size cs)) => Hk.
    + rewrite -(Z2Nat.id i Hi) set_split //.
      apply bytes_cat; [exact: bytes_take|].
      apply bytes_cons => //. exact: bytes_drop.
    + have -> : TypedArray.set cs i v = cs; last by [].
      apply TypedArrayFacts.ext; first by rewrite TypedArrayFacts.set_length.
      move=> j Hj. rewrite TypedArrayFacts.set_length in Hj.
      rewrite TypedArrayFacts.get_set.
      case: (Z.ltb_spec i (TypedArray.len cs)) => [H|_]; last by rewrite andbF.
      move/leP: Hk. rewrite len_size in H. lia.
Qed.

(** A cell replaced changes one coefficient. *)
Lemma polyOf_replace (cs ds : list Z) (c v : Z) :
  polyOf (cs ++ v :: ds)%list
  = (polyOf (cs ++ c :: ds)%list + (ofZ v - ofZ c) *: 'X^(size ds))%R.
Proof.
  rewrite !polyOf_cat !polyOf_cons scalerBl.
  rewrite -!addrA. congr (_ + _)%R.
  by rewrite [RHS]addrCA [(ofZ c *: _ + _)%R]addrC subrK addrC.
Qed.

Lemma polyOf_set (cs : list Z) (k : nat) (v : Z) :
  (k < size cs)%N ->
  polyOf (TypedArray.set cs (Z.of_nat k) v)
  = (polyOf cs + (ofZ v - ofZ (nth 0%Z cs k)) *: 'X^(size cs - k.+1))%R.
Proof.
  move=> Hk. rewrite set_split //.
  have E : cs = (take k cs ++ nth 0 cs k :: drop k.+1 cs)%list.
  { change (cs = cat (take k cs) (nth 0 cs k :: drop k.+1 cs)).
    by rewrite -drop_nth // cat_take_drop. }
  rewrite (polyOf_replace _ _ (nth 0 cs k)) -E.
  by rewrite size_drop.
Qed.

(** The power of the generator in the table of powers. *)
Definition alpha : GF256 := ofZ 2.

Lemma double_mul (x : Z) : byte x -> gf_double x = gf_mul 2 x.
Proof.
  intros Hx. change (gf_mul 2 x) with (gf_mul (gf_exp (Z.of_nat 1)) x).
  rewrite -> FieldTables.mul_iter by (assumption || lia). reflexivity.
Qed.

Lemma exp_alpha (i : nat) : (i <= 255)%N -> ofZ (gf_exp (Z.of_nat i)) = (alpha ^+ i)%R.
Proof.
  elim: i => [|i IH] Hi; first by rewrite expr0.
  rewrite exprS -(IH (ltnW Hi)).
  have Hi' : 0 <= Z.of_nat i < 255 by move/ltP: Hi; lia.
  have [_ [Hb Hd]] := FieldTables.exp_log _ Hi'.
  have Hbyte : byte (gf_exp (Z.of_nat i)) by unfold byte; lia.
  have H2 : byte 2 by unfold byte; lia.
  rewrite /alpha -ofZ_mul //.
  rewrite -double_mul // -Hd.
  case: (Z.eq_dec (Z.of_nat i) 254) => [E|N].
  - have -> : Z.of_nat i.+1 = 255 by lia. by rewrite E.
  - rewrite -> Z.mod_small by lia. congr (ofZ (gf_exp _)). lia.
Qed.

Lemma exp_byte (i : Z) : 0 <= i <= 255 -> byte (gf_exp i).
Proof.
  intros Hi. case: (Z.eq_dec i 255) => [->|N]; first by unfold byte; vm_compute; split; congruence || reflexivity.
  have [_ [Hb _]] := FieldTables.exp_log i ltac:(lia). unfold byte. lia.
Qed.

Lemma alpha_neq0 : alpha != 0%R.
Proof. by rewrite /alpha ofZ_eq0. Qed.

(** The inverse of the table is the inverse of the field. *)
Lemma inv_spec (a : Z) : byte a -> a <> 0 -> ofZ (gf_inv a) = ((ofZ a)^-1)%R.
Proof.
  move=> Ha Na.
  have [Hm Hb] := FieldTables.invert_spec a Ha Na.
  have Hbi : byte (gf_inv a) by unfold byte; lia.
  have N0 : ofZ a != 0%R by rewrite ofZ_eq0 //; move/Z.eqb_neq: Na => ->.
  apply: (mulfI N0). rewrite -ofZ_mul // Hm divff //.
Qed.

Lemma inv_byte (a : Z) : byte a -> a <> 0 -> byte (gf_inv a).
Proof.
  move=> Ha Na. have [_ Hb] := FieldTables.invert_spec a Ha Na. unfold byte. lia.
Qed.

Lemma xor_spec (a b : Z) :
  byte a -> byte b -> js_xor a b = toZ (ofZ a + ofZ b)%R /\ byte (js_xor a b).
Proof.
  move=> Ha Hb. rewrite FieldTables.js_xor_byte // toZ_D !toZ_ofZ //.
  split; [reflexivity | exact: FieldTables.lxor_byte].
Qed.

Lemma mul_spec (a b : Z) :
  byte a -> byte b -> gf_mul a b = toZ (ofZ a * ofZ b)%R.
Proof. move=> Ha Hb. by rewrite toZ_M !toZ_ofZ. Qed.

Notation F256 := QR_CODE_FIELD_256.

Lemma multiply_fold (a b : Z) : GaloisField.multiply F256 a b = gf_mul a b.
Proof. reflexivity. Qed.

Lemma invert_fold (a : Z) : GaloisField.invert F256 a = gf_inv a.
Proof. reflexivity. Qed.

(** The sum of the coefficients. *)
Lemma fold_xor (cs : list Z) (acc : Z) :
  bytes cs -> byte acc ->
  let r := List.fold_left (fun result coefficient => js_xor result coefficient) cs acc in
  byte r /\ ofZ r = (ofZ acc *+ 1 + \sum_(c <- cs) ofZ c)%R.
Proof.
  elim: cs acc => [|c cs IH] acc Hb Ha /=.
  - by rewrite big_nil addr0 mulr1n.
  - have Hc : byte c by inversion Hb.
    have Hcs : bytes cs by inversion Hb.
    have [Ex Bx] := xor_spec acc c Ha Hc.
    have [B E] := IH (js_xor acc c) Hcs Bx.
    split; first exact: B.
    rewrite E big_cons !mulr1n addrA. congr (_ + _)%R.
    by rewrite Ex ofZ_toZ.
Qed.

Lemma horner1_polyOf (cs : list Z) : ((polyOf cs).[1] = \sum_(c <- cs) ofZ c)%R.
Proof.
  elim/last_ind: cs => [|cs c IH]; first by rewrite polyOf_nil horner0 big_nil.
  rewrite -cats1. change (cat cs [:: c]) with (cs ++ c :: nil)%list.
  rewrite polyOf_rcons hornerD hornerMX hornerC mulr1 IH.
  change (cs ++ c :: nil)%list with (cat cs [:: c]).
  by rewrite big_cat big_seq1.
Qed.

(** [evaluate] is the value of the polynomial. *)
Lemma evaluate_spec (p : list Z) (a : Z) :
  bytes p -> p <> nil -> byte a ->
  Polynomial.evaluate F256 p a = toZ ((polyOf p).[ofZ a])%R.
Proof.
  move=> Hb Hn Ha. rewrite /Polynomial.evaluate.
  case: (Z.eqb_spec a 0) => [->|N0].
  { rewrite getCoefficient_spec //. by rewrite ofZ_0 horner_coef0. }
  case: (Z.eqb_spec a 1) => [->|N1].
  { have [B E] := fold_xor p 0 Hb byte_0.
    rewrite ofZ_1 horner1_polyOf -(toZ_ofZ _ B) E.
    by rewrite ofZ_0 mulr1n add0r. }
  have Hlen : 1 <= TypedArray.len p.
  { rewrite len_size. case: p Hn {Hb} => [|c cs] // _.
    change (size (c :: cs)) with (size cs).+1. lia. }
  pose I := fun (i : Z) (r : Z) =>
    byte r /\ ofZ r = ((polyOf (take (Z.to_nat i) p)).[ofZ a])%R.
  have HI : I (TypedArray.len p)
              (for_range 1 (TypedArray.len p) (fun i result =>
                 js_xor (GaloisField.multiply F256 a result) (TypedArray.get p i))
                 (TypedArray.get p 0)).
  { apply: for_range_ind => //.
    - rewrite /I {I}. change (Z.to_nat 1) with 1%N.
      case: p Hb Hn {Hlen} => [|c cs] // Hb _.
      have Hc : byte c by inversion Hb.
      split; first exact: Hc.
      change (take 1 (c :: cs)) with (c :: take 0 cs). rewrite take0.
      by rewrite polyOf_cons polyOf_nil addr0 expr0 hornerZ hornerC mulr1.
    - move=> i r Hi [Br Er]. rewrite /I multiply_fold.
      have Bm : byte (gf_mul a r) by apply: FieldTables.mul_byte.
      have Bg : byte (TypedArray.get p i) by apply: bytes_get.
      have [Ex Bx] := xor_spec _ _ Bm Bg.
      split; first exact: Bx.
      rewrite Ex ofZ_toZ ofZ_mul // Er.
      have Hi' : (Z.to_nat i < size p)%N by apply/ltP; rewrite len_size in Hi; lia.
      have -> : Z.to_nat (i + 1) = (Z.to_nat i).+1 by lia.
      rewrite (take_nth 0 Hi') -cats1.
      change (cat (take (Z.to_nat i) p) [:: nth 0 p (Z.to_nat i)])
        with (take (Z.to_nat i) p ++ nth 0 p (Z.to_nat i) :: nil)%list.
      rewrite polyOf_rcons hornerD hornerMX hornerC mulrC.
      congr (_ + ofZ _)%R. rewrite -get_nth Z2Nat.id //. lia. }
  case: HI => B E. rewrite -(toZ_ofZ _ B) E.
  by rewrite len_size Nat2Z.id take_size.
Qed.

Lemma evaluate_byte (p : list Z) (a : Z) :
  bytes p -> p <> nil -> byte a -> byte (Polynomial.evaluate F256 p a).
Proof. move=> Hb Hn Ha. rewrite evaluate_spec //. exact: toZ_byte. Qed.


(** Arrays of zeros. *)
Lemma size_make (n : Z) : size (TypedArray.make n) = Z.to_nat n.
Proof. rewrite /TypedArray.make. exact: List.repeat_length. Qed.

Lemma make_succ (n : Z) : 0 <= n -> TypedArray.make (n + 1) = 0 :: TypedArray.make n.
Proof.
  move=> Hn. rewrite /TypedArray.make.
  have -> : Z.to_nat (n + 1) = (Z.to_nat n).+1 by lia.
  by [].
Qed.

Lemma polyOf_make (n : Z) : polyOf (TypedArray.make n) = 0%R.
Proof.
  rewrite /TypedArray.make. elim: (Z.to_nat n) => [|k IH] //=.
  by rewrite polyOf_0_cons.
Qed.

Lemma make_nonempty (n : Z) : 0 < n -> TypedArray.make n <> nil.
Proof.
  move=> Hn. rewrite /TypedArray.make.
  have -> : Z.to_nat n = (Z.to_nat (n - 1)).+1 by lia.
  by [].
Qed.

(** The products of the coefficients by a scalar. *)
Definition scaled (c : Z) (p : list Z) : list Z := map (fun x => gf_mul x c) p.

Lemma scaled_bytes (c : Z) (p : list Z) : bytes p -> byte c -> bytes (scaled c p).
Proof.
  move=> Hb Hc. elim: p Hb => [|x p IH] Hb //=.
  have Hx : byte x by inversion Hb.
  have Hp : bytes p by inversion Hb.
  apply: bytes_cons; [exact: FieldTables.mul_byte | exact: IH].
Qed.

Lemma polyOf_scaled (c : Z) (p : list Z) :
  bytes p -> byte c -> polyOf (scaled c p) = (ofZ c *: polyOf p)%R.
Proof.
  move=> Hb Hc. elim: p Hb => [|x p IH] Hb /=.
  - by rewrite polyOf_nil scaler0.
  - have Hx : byte x by inversion Hb.
    have Hp : bytes p by inversion Hb.
    rewrite !polyOf_cons (IH Hp) scalerDr scalerA size_map.
    rewrite -> ofZ_mul by assumption. rewrite mulrC. reflexivity.
Qed.

(** The loop of [multiplyByMonomial] and of the product by a scalar. *)
Lemma scale_loop (p : list Z) (c L : Z) :
  bytes p -> byte c -> TypedArray.len p <= L ->
  for_range 0 (TypedArray.len p) (fun i product =>
    TypedArray.set product i
      (toInt32 (GaloisField.multiply F256 (TypedArray.get p i) c)))
    (TypedArray.make L)
  = (scaled c p ++ TypedArray.make (L - TypedArray.len p))%list.
Proof.
  move=> Hb Hc HL.
  pose I := fun (i : Z) (product : list Z) =>
    product = (scaled c (take (Z.to_nat i) p) ++ TypedArray.make (L - i))%list.
  have HI : I (TypedArray.len p)
              (for_range 0 (TypedArray.len p) (fun i product =>
                 TypedArray.set product i
                   (toInt32 (GaloisField.multiply F256 (TypedArray.get p i) c)))
                 (TypedArray.make L)).
  { apply: for_range_ind.
    - exact: TypedArrayFacts.len_nonneg.
    - rewrite /I. change (Z.to_nat 0) with 0%N. by rewrite take0 Z.sub_0_r.
    - move=> i product Hi ->. rewrite /I multiply_fold.
      have Bg : byte (TypedArray.get p i) by apply: bytes_get.
      rewrite -> toInt32_byte by (apply FieldTables.mul_byte; assumption).
      have Hi' : (Z.to_nat i < size p)%N by apply/ltP; rewrite len_size in Hi; lia.
      have -> : Z.to_nat (i + 1) = (Z.to_nat i).+1 by lia.
      rewrite (take_nth 0 Hi') /scaled map_rcons -cats1.
      have -> : L - i = (L - (i + 1)) + 1 by lia.
      rewrite -> make_succ by (rewrite len_size in HL Hi; lia).
      rewrite /TypedArray.set.
      case: (Z.ltb_spec i 0) => [H|_]; first by lia.
      rewrite -> (update_cat _ _ 0 _ (Z.to_nat i))
        by (by rewrite size_map size_takel // ltnW).
      rewrite -get_nth. rewrite -> Z2Nat.id by lia.
      change (cat ?a ?b) with (a ++ b)%list.
      by rewrite -List.app_assoc. }
  rewrite HI /I. by rewrite len_size Nat2Z.id take_size.
Qed.

Lemma multiplyByMonomial_spec (p : list Z) (degree coefficient : Z) :
  bytes p -> p <> nil -> 0 <= degree -> byte coefficient ->
  valid (Polynomial.multiplyByMonomial F256 p degree coefficient)
  /\ polyOf (Polynomial.multiplyByMonomial F256 p degree coefficient)
     = (ofZ coefficient *: polyOf p * 'X^(Z.to_nat degree))%R.
Proof.
  move=> Hb Hn Hd Hc. rewrite /Polynomial.multiplyByMonomial.
  case: (Z.eqb_spec coefficient 0) => [->|N].
  { split; first exact: valid_zero. by rewrite polyOf_zero ofZ_0 scale0r mul0r. }
  rewrite -> scale_loop by (assumption || lia).
  have -> : TypedArray.len p + degree - TypedArray.len p = degree by lia.
  have Hb' : bytes (scaled coefficient p ++ TypedArray.make degree)%list.
  { apply: bytes_cat; [exact: scaled_bytes | exact: bytes_make]. }
  have Hn' : (scaled coefficient p ++ TypedArray.make degree)%list <> nil.
  { case: p Hn {Hb Hb'} => [|x p] //. }
  have [Hv ->] := trim_spec _ Hb' Hn'.
  split; first exact: Hv.
  by rewrite polyOf_cat polyOf_make addr0 size_make polyOf_scaled.
Qed.

Lemma multiplyScalar_spec (p : list Z) (other : Z) :
  valid p -> byte other ->
  valid (Polynomial.multiplyScalar F256 p other)
  /\ polyOf (Polynomial.multiplyScalar F256 p other) = (ofZ other *: polyOf p)%R.
Proof.
  move=> Hv Hc. rewrite /Polynomial.multiplyScalar.
  case: (Z.eqb_spec other 0) => [->|N0].
  { split; first exact: valid_zero. by rewrite polyOf_zero ofZ_0 scale0r. }
  case: (Z.eqb_spec other 1) => [->|N1].
  { split; first exact: Hv. by rewrite ofZ_1 scale1r. }
  have Hb := valid_bytes _ Hv.
  have Hn : p <> nil by case: Hv => _; case: p {Hb}.
  rewrite -> scale_loop by (assumption || lia).
  rewrite Z.sub_diag.
  change (TypedArray.make 0) with (@nil Z). rewrite List.app_nil_r.
  have Hb' := scaled_bytes other p Hb Hc.
  have Hn' : scaled other p <> nil by case: p Hn {Hv Hb Hb'}.
  have [Hv' ->] := trim_spec _ Hb' Hn'.
  split; first exact: Hv'. exact: polyOf_scaled.
Qed.

Lemma buildPolynomial_spec (degree coefficient : Z) :
  0 <= degree -> byte coefficient ->
  valid (Polynomial.buildPolynomial degree coefficient)
  /\ polyOf (Polynomial.buildPolynomial degree coefficient)
     = (ofZ coefficient *: 'X^(Z.to_nat degree))%R.
Proof.
  move=> Hd Hc. rewrite /Polynomial.buildPolynomial.
  case: (Z.eqb_spec coefficient 0) => [->|N].
  { split; first exact: valid_zero. by rewrite polyOf_zero ofZ_0 scale0r. }
  rewrite -> make_succ by assumption. rewrite -> toInt32_byte by assumption.
  change (TypedArray.set (0 :: TypedArray.make degree) 0 coefficient)
    with (coefficient :: TypedArray.make degree).
  have Hb : bytes (coefficient :: TypedArray.make degree).
  { apply: bytes_cons => //. exact: bytes_make. }
  have [Hv ->] := trim_spec _ Hb ltac:(done).
  split; first exact: Hv.
  by rewrite polyOf_cons polyOf_make addr0 size_make.
Qed.


Lemma bytes_blit (a source : list Z) (offset : Z) :
  bytes a -> bytes source -> bytes (TypedArray.blit a source offset).
Proof.
  elim: source a offset => [|v rest IH] a offset Ha Hs //=.
  have Hv : byte v by inversion Hs.
  have Hr : bytes rest by inversion Hs.
  apply: IH => //. exact: bytes_set.
Qed.

Lemma bytes_firstn (cs : list Z) (n : nat) : bytes cs -> bytes (List.firstn n cs).
Proof.
  move=> H. rewrite -(List.firstn_skipn n cs) in H.
  by apply bytes_cat_inv in H as [H _].
Qed.

Lemma get_firstn (cs : list Z) (n : nat) (k : Z) :
  0 <= k < Z.of_nat n -> TypedArray.get (List.firstn n cs) k = TypedArray.get cs k.
Proof.
  move=> Hk. rewrite /TypedArray.get.
  case: (Z.ltb_spec k 0) => [H|_]; first by lia.
  have : (Z.to_nat k < n)%coq_nat by lia.
  elim: cs n (Z.to_nat k) {Hk} => [|c cs IH] [|n] [|j] //= H; try lia.
  apply: IH. lia.
Qed.

Lemma len_firstn (cs : list Z) (n : Z) :
  0 <= n <= TypedArray.len cs -> TypedArray.len (List.firstn (Z.to_nat n) cs) = n.
Proof.
  move=> Hn. rewrite /TypedArray.len List.length_firstn.
  rewrite /TypedArray.len in Hn. lia.
Qed.

(** The array that [addOrSubtract] fills. *)
Lemma add_loop (larger smaller : list Z) :
  bytes larger -> bytes smaller -> TypedArray.len smaller <= TypedArray.len larger ->
  let L := TypedArray.len larger in
  let offset := L - TypedArray.len smaller in
  let R :=
    for_range offset L (fun i coefficients =>
      TypedArray.set coefficients i
        (js_xor (TypedArray.get smaller (i - offset)) (TypedArray.get larger i)))
      (TypedArray.blit (TypedArray.make L) (TypedArray.subarray larger 0 offset) 0) in
  TypedArray.len R = L /\ bytes R
  /\ forall k, 0 <= k < L ->
       TypedArray.get R k
       = if k <? offset then TypedArray.get larger k
         else js_xor (TypedArray.get smaller (k - offset)) (TypedArray.get larger k).
Proof.
  move=> Hl Hs Hlen L offset R.
  have HL : 0 <= L by exact: TypedArrayFacts.len_nonneg.
  have HS : 0 <= TypedArray.len smaller by exact: TypedArrayFacts.len_nonneg.
  pose I := fun (i : Z) (cs : list Z) =>
    TypedArray.len cs = L /\ bytes cs
    /\ forall k, 0 <= k < L ->
         TypedArray.get cs k
         = if k <? offset then TypedArray.get larger k
           else if k <? i
                then js_xor (TypedArray.get smaller (k - offset)) (TypedArray.get larger k)
                else 0.
  have HI : I L R.
  { apply: for_range_ind.
    - rewrite /offset. lia.
    - rewrite /I /TypedArray.subarray Z.sub_0_r.
      change (List.skipn (Z.to_nat 0) larger) with larger.
      have Hf : TypedArray.len (List.firstn (Z.to_nat offset) larger) = offset.
      { apply: len_firstn. rewrite /offset -/L. lia. }
      split.
      { rewrite TypedArrayFacts.blit_length TypedArrayFacts.len_make. lia. }
      split.
      { apply: bytes_blit; [exact: bytes_make | exact: bytes_firstn]. }
      move=> k Hk.
      rewrite -> TypedArrayFacts.get_blit
        by (rewrite ?Hf ?TypedArrayFacts.len_make; rewrite /offset; lia).
      rewrite Hf Z.add_0_l Z.sub_0_r.
      case: (Z.leb_spec 0 k) => [_|H]; last by lia.
      case: (Z.ltb_spec k offset) => Hko /=.
      + apply: get_firstn. lia.
      + rewrite TypedArrayFacts.get_make.
        by case: (Z.ltb_spec k offset) => [H|_]; first by lia.
    - move=> i cs Hi [Hlen' [Hb Hget]]. rewrite /I.
      have Bx : byte (js_xor (TypedArray.get smaller (i - offset)) (TypedArray.get larger i)).
      { apply: (proj2 (xor_spec _ _ _ _)); exact: bytes_get. }
      split; first by rewrite TypedArrayFacts.set_length.
      split; first exact: bytes_set.
      move=> k Hk. rewrite TypedArrayFacts.get_set Hlen' (Hget k Hk).
      case: (Z.eqb_spec k i) => [->|Nk] /=.
      + case: (Z.leb_spec 0 i) => [_|H]; last by lia.
        case: (Z.ltb_spec i L) => [_|H] /=; last by lia.
        case: (Z.ltb_spec i offset) => [H|_]; first by lia.
        by case: (Z.ltb_spec i (i + 1)) => [_|H]; last by lia.
      + case: (Z.ltb_spec k offset) => // Hko.
        case: (Z.ltb_spec k i) => H1; case: (Z.ltb_spec k (i + 1)) => H2 //; lia. }
  case: HI => Hlen' [Hb Hget].
  split; first exact: Hlen'. split; first exact: Hb.
  move=> k Hk. rewrite (Hget k Hk).
  case: (Z.ltb_spec k offset) => // Hko.
  by case: (Z.ltb_spec k L) => [_|H]; last by lia.
Qed.

Lemma valid_nonempty (p : list Z) : valid p -> p <> nil.
Proof. case=> _. by case: p. Qed.

Lemma valid_len (p : list Z) : valid p -> 1 <= TypedArray.len p.
Proof.
  move=> /valid_nonempty. rewrite len_size. case: p => [|c cs] // _.
  change (size (c :: cs)) with (size cs).+1. lia.
Qed.

(** The sum of two arrays, the shorter one aligned at the end of the
    longer one. *)
Lemma add_arrays (larger smaller R : list Z) :
  bytes larger -> bytes smaller -> TypedArray.len smaller <= TypedArray.len larger ->
  TypedArray.len R = TypedArray.len larger ->
  (forall k, 0 <= k < TypedArray.len larger ->
     TypedArray.get R k
     = if k <? TypedArray.len larger - TypedArray.len smaller then TypedArray.get larger k
       else js_xor (TypedArray.get smaller (k - (TypedArray.len larger - TypedArray.len smaller)))
                   (TypedArray.get larger k)) ->
  polyOf R = (polyOf larger + polyOf smaller)%R.
Proof.
  move=> Hl Hs Hlen HR Hget. apply: polyOf_ext => d.
  rewrite coefD !coef_polyOf_get.
  have HsizeR : size R = size larger.
  { rewrite !len_size in HR. lia. }
  rewrite HsizeR HR.
  have Hle : (size smaller <= size larger)%N.
  { apply/leP. rewrite !len_size in Hlen. lia. }
  case: (ltnP d (size larger)) => Hd; last first.
  { rewrite ltnNge (leq_trans Hle Hd) /=. by rewrite addr0. }
  have Hd' : 0 <= TypedArray.len larger - 1 - Z.of_nat d < TypedArray.len larger.
  { move/ltP: Hd. rewrite len_size. lia. }
  rewrite (Hget _ Hd').
  case: (ltnP d (size smaller)) => Hds.
  - case: (Z.ltb_spec (TypedArray.len larger - 1 - Z.of_nat d)
             (TypedArray.len larger - TypedArray.len smaller)) => [H|_].
    { move/ltP: Hds. rewrite !len_size in H *. lia. }
    have [-> _] := xor_spec _ _ (bytes_get smaller
                      (TypedArray.len larger - 1 - Z.of_nat d
                       - (TypedArray.len larger - TypedArray.len smaller)) Hs)
                     (bytes_get larger (TypedArray.len larger - 1 - Z.of_nat d) Hl).
    rewrite ofZ_toZ [RHS]addrC.
    congr (ofZ (TypedArray.get _ _) + ofZ (TypedArray.get _ _))%R; lia.
  - case: (Z.ltb_spec (TypedArray.len larger - 1 - Z.of_nat d)
             (TypedArray.len larger - TypedArray.len smaller)) => [_|H].
    { by rewrite addr0. }
    move/leP: Hds. rewrite !len_size in H *. lia.
Qed.

Lemma addOrSubtract_spec (p other : list Z) :
  valid p -> valid other ->
  valid (Polynomial.addOrSubtract p other)
  /\ polyOf (Polynomial.addOrSubtract p other) = (polyOf p + polyOf other)%R.
Proof.
  move=> Hp Ho. rewrite /Polynomial.addOrSubtract.
  rewrite !isZero_spec //.
  case: eqP => [->|_]; first by rewrite add0r.
  case: eqP => [->|_]; first by rewrite addr0.
  have Bp := valid_bytes _ Hp. have Bo := valid_bytes _ Ho.
  have Lp := valid_len _ Hp. have Lo := valid_len _ Ho.
  case: (Z.ltb_spec (TypedArray.len other) (TypedArray.len p)) => Hlt.
  - have Hle : TypedArray.len other <= TypedArray.len p by lia.
    have [HlenR [HbR HgetR]] := add_loop p other Bp Bo Hle.
    cbv zeta in HlenR, HbR, HgetR.
    have HnR : forall R, TypedArray.len R = TypedArray.len p -> R <> nil.
    { move=> R HR E. rewrite E in HR. change (TypedArray.len nil) with 0 in HR. lia. }
    have [Hv ->] := trim_spec _ HbR (HnR _ HlenR).
    split; first exact: Hv.
    exact: (add_arrays p other _ Bp Bo Hle HlenR HgetR).
  - have [HlenR [HbR HgetR]] := add_loop other p Bo Bp Hlt.
    cbv zeta in HlenR, HbR, HgetR.
    have HnR : forall R, TypedArray.len R = TypedArray.len other -> R <> nil.
    { move=> R HR E. rewrite E in HR. change (TypedArray.len nil) with 0 in HR. lia. }
    have [Hv ->] := trim_spec _ HbR (HnR _ HlenR).
    split; first exact: Hv.
    rewrite addrC.
    exact: (add_arrays other p _ Bo Bp Hlt HlenR HgetR).
Qed.


(** A cell to which a number is added. *)
Lemma polyOf_set_xor (P : list Z) (k : nat) (b : Z) :
  bytes P -> byte b -> (k < size P)%N ->
  let P' := TypedArray.set P (Z.of_nat k) (js_xor (TypedArray.get P (Z.of_nat k)) b) in
  size P' = size P /\ bytes P'
  /\ polyOf P' = (polyOf P + ofZ b *: 'X^(size P - k.+1))%R.
Proof.
  move=> HP Hb Hk P'.
  have Bg : byte (TypedArray.get P (Z.of_nat k)) by apply: bytes_get.
  have [Ex Bx] := xor_spec _ _ Bg Hb.
  split.
  { have := TypedArrayFacts.set_length P (Z.of_nat k)
              (js_xor (TypedArray.get P (Z.of_nat k)) b).
    rewrite !len_size -/P'. lia. }
  split; first exact: bytes_set.
  rewrite /P' polyOf_set // Ex ofZ_toZ get_nth.
  by rewrite [(ofZ _ + ofZ b)%R]addrC addrK.
Qed.

(** One row of the product. *)
Lemma multiply_row (other P : list Z) (c : Z) (i : nat) (base : {poly GF256}) :
  bytes other -> bytes P -> byte c ->
  (i + size other <= size P)%N ->
  polyOf P = base ->
  let P' :=
    for_range 0 (TypedArray.len other) (fun j product =>
      TypedArray.set product (Z.of_nat i + j)
        (js_xor (TypedArray.get product (Z.of_nat i + j))
                (GaloisField.multiply F256 c (TypedArray.get other j))))
      P in
  size P' = size P /\ bytes P'
  /\ polyOf P' = (base + ofZ c *: polyOf other * 'X^(size P - (i + size other)))%R.
Proof.
  move=> Ho HP Hc Hsize Hbase P'.
  pose I := fun (j : Z) (product : list Z) =>
    size product = size P /\ bytes product
    /\ polyOf product
       = (base + ofZ c *: polyOf (take (Z.to_nat j) other)
                 * 'X^(size P - (i + Z.to_nat j)))%R.
  have HI : I (TypedArray.len other) P'.
  { apply: for_range_ind.
    - exact: TypedArrayFacts.len_nonneg.
    - rewrite /I. change (Z.to_nat 0) with 0%N.
      by rewrite take0 polyOf_nil scaler0 mul0r addr0.
    - move=> j product Hj [Hs [Hb Hpoly]]. rewrite /I multiply_fold.
      have Hj' : (Z.to_nat j < size other)%N by apply/ltP; rewrite len_size in Hj; lia.
      have Hk : (i + Z.to_nat j < size product)%N.
      { rewrite Hs. apply: leq_trans Hsize. by rewrite ltn_add2l. }
      have Bm : byte (gf_mul c (TypedArray.get other j)).
      { apply: FieldTables.mul_byte => //. exact: bytes_get. }
      have -> : Z.of_nat i + j = Z.of_nat (i + Z.to_nat j)%N.
      { rewrite -plusE. lia. }
      have [Hs' [Hb' Hpoly']] := polyOf_set_xor product _ _ Hb Bm Hk.
      split; first by rewrite Hs'.
      split; first exact: Hb'.
      rewrite Hpoly' Hpoly Hs -addrA. congr (_ + _)%R.
      have -> : Z.to_nat (j + 1) = (Z.to_nat j).+1 by lia.
      rewrite (take_nth 0 Hj') -cats1.
      change (cat (take (Z.to_nat j) other) [:: nth 0 other (Z.to_nat j)])
        with (take (Z.to_nat j) other ++ nth 0 other (Z.to_nat j) :: nil)%list.
      rewrite polyOf_rcons scalerDr mulrDl scalerAl -mulrA -exprS.
      have -> : ((size P - (i + (Z.to_nat j).+1)).+1 = size P - (i + Z.to_nat j))%N.
      { rewrite addnS subnS prednK // subn_gt0. by rewrite -Hs. }
      congr (_ + _)%R.
      rewrite addnS -scalerAl mul_polyC scalerA.
      rewrite -> ofZ_mul by (assumption || exact: bytes_get).
      rewrite -get_nth. rewrite -> Z2Nat.id by lia. reflexivity. }
  case: HI => Hs [Hb Hpoly].
  split; first exact: Hs. split; first exact: Hb.
  by rewrite Hpoly len_size Nat2Z.id take_size.
Qed.

Lemma multiply_spec (p other : list Z) :
  valid p -> valid other ->
  valid (Polynomial.multiply F256 p other)
  /\ polyOf (Polynomial.multiply F256 p other) = (polyOf p * polyOf other)%R.
Proof.
  move=> Hp Ho. rewrite /Polynomial.multiply.
  rewrite !isZero_spec //.
  case: eqP => [->|_] /=.
  { split; first exact: valid_zero. by rewrite polyOf_zero mul0r. }
  case: eqP => [->|_] /=.
  { split; first exact: valid_zero. by rewrite polyOf_zero mulr0. }
  have Bp := valid_bytes _ Hp. have Bo := valid_bytes _ Ho.
  have Lp := valid_len _ Hp. have Lo := valid_len _ Ho.
  set L := TypedArray.len p + TypedArray.len other - 1.
  have HL : Z.to_nat L = (size p + size other).-1.
  { rewrite /L !len_size -plusE /predn.
    case E: (size p + size other)%coq_nat => [|k]; lia. }
  pose I := fun (i : Z) (product : list Z) =>
    size product = Z.to_nat L /\ bytes product
    /\ polyOf product
       = (polyOf (take (Z.to_nat i) p) * 'X^(size p - Z.to_nat i) * polyOf other)%R.
  set R := for_range 0 (TypedArray.len p) _ _.
  have HI : I (TypedArray.len p) R.
  { apply: for_range_ind.
    - exact: TypedArrayFacts.len_nonneg.
    - rewrite /I. change (Z.to_nat 0) with 0%N.
      split; first exact: size_make. split; first exact: bytes_make.
      by rewrite polyOf_make take0 polyOf_nil !mul0r.
    - move=> i product Hi [Hs [Hb Hpoly]]. rewrite /I.
      have Hi' : (Z.to_nat i < size p)%N by apply/ltP; rewrite len_size in Hi; lia.
      have Bc : byte (TypedArray.get p i) by apply: bytes_get.
      have Hfit : (Z.to_nat i + size other <= size product)%N.
      { rewrite Hs HL. move/ltP: Hi'. rewrite !len_size in Lp Lo.
        move=> Hi'. apply/leP. rewrite -plusE /predn.
        case E: (size p + size other)%coq_nat => [|k]; lia. }
      have := multiply_row other product (TypedArray.get p i) (Z.to_nat i) _
                Bo Hb Bc Hfit Hpoly.
      rewrite -> Z2Nat.id by lia. cbv zeta.
      move=> [Hs' [Hb' Hpoly']].
      split; first by rewrite Hs'. split; first exact: Hb'.
      rewrite Hpoly'.
      have -> : Z.to_nat (i + 1) = (Z.to_nat i).+1 by lia.
      rewrite (take_nth 0 Hi') -cats1.
      change (cat (take (Z.to_nat i) p) [:: nth 0 p (Z.to_nat i)])
        with (take (Z.to_nat i) p ++ nth 0 p (Z.to_nat i) :: nil)%list.
      rewrite polyOf_rcons mulrDl [in RHS]mulrDl.
      have -> : (size product - (Z.to_nat i + size other)
                 = size p - (Z.to_nat i).+1)%N.
      { rewrite Hs HL. move/ltP: Hi'. rewrite !len_size in Lp Lo.
        move=> Hi'. rewrite -!minusE -!plusE /predn.
        case E: (size p + size other)%coq_nat => [|k]; lia. }
      congr (_ + _)%R.
      + rewrite -[(_ * 'X * _)%R]mulrA -exprS.
        by rewrite subnSK.
      + rewrite -mul_polyC -!mulrA. congr (_ * _)%R; last by rewrite mulrC.
        rewrite -get_nth. rewrite -> Z2Nat.id by lia. reflexivity. }
  case: HI => Hs [Hb Hpoly].
  have Hn : R <> nil.
  { move=> E. rewrite E /= HL in Hs. rewrite !len_size in Lp Lo.
    move: Hs. rewrite -plusE /predn.
    case E': (size p + size other)%coq_nat => [|k]; lia. }
  have [Hv ->] := trim_spec _ Hb Hn.
  split; first exact: Hv.
  by rewrite Hpoly len_size Nat2Z.id take_size subnn expr0 mulr1.
Qed.


(** In characteristic 2 a polynomial is its own opposite. *)
Lemma poly_addxx (p : {poly GF256}) : (p + p = 0)%R.
Proof. apply/polyP => i. by rewrite coefD gf_addxx coef0. Qed.

Lemma poly_opp (p : {poly GF256}) : (- p = p)%R.
Proof. apply: (addIr p). by rewrite addNr poly_addxx. Qed.

(** Two polynomials of one size and of one leading coefficient: the sum
    is smaller. *)
Lemma size_add_cancel (p q : {poly GF256}) :
  p != 0%R -> size q = size p -> lead_coef q = lead_coef p ->
  (size (p + q)%R < size p)%N.
Proof.
  move=> Np Hs Hl.
  have Hp : (0 < size p)%N by rewrite size_poly_gt0.
  rewrite -(prednK Hp) ltnS. apply/leq_sizeP => j Hj.
  rewrite coefD.
  move: Hj. rewrite leq_eqVlt => /orP [/eqP <-|Hj].
  - by rewrite -lead_coefE -Hs -lead_coefE Hl gf_addxx.
  - have Hjp : (size p <= j)%N by rewrite -(prednK Hp).
    have Hjq : (size q <= j)%N by rewrite Hs.
    by rewrite !nth_default // addr0.
Qed.

Lemma lead_spec (p : list Z) :
  valid p ->
  Polynomial.getCoefficient p (Polynomial.getDegree p) = toZ (lead_coef (polyOf p)).
Proof.
  move=> Hv. have Hb := valid_bytes _ Hv.
  have Hd : 0 <= Polynomial.getDegree p by rewrite getDegree_spec //; lia.
  rewrite (getCoefficient_spec p _ Hb Hd) getDegree_spec // Nat2Z.id lead_coefE.
  reflexivity.
Qed.

Lemma ofZ_neq0 (a : Z) : byte a -> a <> 0 -> ofZ a != 0%R.
Proof. move=> Ha Na. rewrite ofZ_eq0 //. by move/Z.eqb_neq: Na => ->. Qed.

Lemma toZ_neq0 (x : GF256) : x != 0%R -> toZ x <> 0.
Proof.
  move=> Nx E. move/eqP: Nx; apply. apply: toZ_inj. by rewrite E toZ_0.
Qed.

(** The loop of [divide]. *)
Lemma divide_loop_spec (fuel : nat) (other quotient remainder : list Z) (P : {poly GF256}) :
  valid other -> polyOf other != 0%R ->
  valid quotient -> valid remainder ->
  P = (polyOf quotient * polyOf other + polyOf remainder)%R ->
  (size (polyOf remainder) <= fuel)%N ->
  let inverse :=
    GaloisField.invert F256
      (Polynomial.getCoefficient other (Polynomial.getDegree other)) in
  let result := Polynomial.divide_loop fuel F256 other inverse quotient remainder in
  valid (fst result) /\ valid (snd result)
  /\ P = (polyOf (fst result) * polyOf other + polyOf (snd result))%R
  /\ (size (polyOf (snd result)) < size (polyOf other))%N.
Proof.
  move=> Ho No Hq Hr HP Hfuel inverse.
  have Hso : (0 < size (polyOf other))%N by rewrite size_poly_gt0.
  elim: fuel quotient remainder Hq Hr HP Hfuel => [|fuel IH] quotient remainder Hq Hr HP Hfuel.
  - rewrite /=. split; first exact: Hq. split; first exact: Hr.
    split; first exact: HP.
    move: Hfuel. rewrite leqn0 => /eqP ->. exact: Hso.
  - rewrite /=. rewrite !getDegree_spec // isZero_spec //.
    case: (Z.geb_spec _ _) => Hdeg /=; last first.
    { split; first exact: Hq. split; first exact: Hr. split; first exact: HP.
      move: Hdeg Hso.
      case: (size (polyOf remainder)) => [|a]; case: (size (polyOf other)) => [|b] //=.
      move=> Hdeg _. apply/ltP. lia. }
    case: eqP => [E|/eqP Nr] /=.
    { split; first exact: Hq. split; first exact: Hr. split; first exact: HP.
      by rewrite E size_poly0. }
    have Hsr : (0 < size (polyOf remainder))%N by rewrite size_poly_gt0.
    have Hle : (size (polyOf other) <= size (polyOf remainder))%N.
    { move: Hdeg Hso Hsr.
      case: (size (polyOf remainder)) => [|a]; case: (size (polyOf other)) => [|b] //=.
      move=> Hdeg _ _. apply/leP. lia. }
    set diff := (Z.of_nat _ - Z.of_nat _).
    have Hdiff : 0 <= diff by apply/Z.le_0_sub; exact: Hdeg.
    have Ediff : Z.to_nat diff = (size (polyOf remainder) - size (polyOf other))%N.
    { rewrite /diff -minusE. move: Hle Hso Hsr.
      case: (size (polyOf other)) => [|a]; case: (size (polyOf remainder)) => [|b] //=.
      move=> /leP Hle _ _. lia. }
    have Bo := valid_bytes _ Ho. have Br := valid_bytes _ Hr.
    have Nlo : lead_coef (polyOf other) != 0%R by rewrite lead_coef_eq0.
    have Nlr : lead_coef (polyOf remainder) != 0%R by rewrite lead_coef_eq0.
    have Einv : ofZ inverse = ((lead_coef (polyOf other))^-1)%R.
    { rewrite /inverse invert_fold lead_spec //.
      rewrite inv_spec ?ofZ_toZ //; [exact: toZ_byte | exact: toZ_neq0]. }
    have Binv : byte inverse.
    { rewrite /inverse invert_fold lead_spec //.
      apply: inv_byte; [exact: toZ_byte | exact: toZ_neq0]. }
    have -> : Z.of_nat (size (polyOf remainder)).-1 = Polynomial.getDegree remainder
      by rewrite getDegree_spec.
    rewrite lead_spec // multiply_fold.
    set scale := gf_mul _ _.
    have Bs : byte scale by apply: FieldTables.mul_byte => //; exact: toZ_byte.
    have Es : ofZ scale
              = (lead_coef (polyOf remainder) / lead_coef (polyOf other))%R.
    { rewrite /scale. rewrite -> ofZ_mul by (assumption || exact: toZ_byte).
      by rewrite ofZ_toZ Einv. }
    have Ns : ofZ scale != 0%R by rewrite Es mulf_neq0 // invr_eq0.
    have [Hvt Et] := multiplyByMonomial_spec other diff scale Bo (valid_nonempty _ Ho)
                       Hdiff Bs.
    have [Hvi Ei] := buildPolynomial_spec diff scale Hdiff Bs.
    have [Hvq Eq] := addOrSubtract_spec _ _ Hq Hvi.
    have [Hvr Er] := addOrSubtract_spec _ _ Hr Hvt.
    apply: IH => //.
    + rewrite Eq Er Ei Et HP mulrDl -!addrA. congr (_ + _)%R.
      have -> : (ofZ scale *: polyOf other * 'X^(Z.to_nat diff)
                 = ofZ scale *: 'X^(Z.to_nat diff) * polyOf other)%R.
      { by rewrite -!scalerAl mulrC. }
      by rewrite addrCA poly_addxx addr0.
    + rewrite Er -ltnS. apply: leq_trans Hfuel.
      apply: size_add_cancel => //.
      * have Nso : (ofZ scale *: polyOf other != 0)%R by rewrite scaler_eq0 negb_or Ns.
        by rewrite Et (size_mulXn _ Nso) (size_scale _ Ns) Ediff (subnK Hle).
      * rewrite Et lead_coefM lead_coefXn mulr1 lead_coefZ Es.
        by rewrite divfK.
Qed.

Lemma divide_spec (p other : list Z) :
  valid p -> valid other -> polyOf other != 0%R ->
  let result := Polynomial.divide F256 p other in
  valid (fst result) /\ valid (snd result)
  /\ polyOf p = (polyOf (fst result) * polyOf other + polyOf (snd result))%R
  /\ (size (polyOf (snd result)) < size (polyOf other))%N.
Proof.
  move=> Hp Ho No. rewrite /Polynomial.divide.
  apply: divide_loop_spec => //.
  - exact: valid_zero.
  - by rewrite polyOf_zero mul0r add0r.
  - apply: leq_trans (size_polyOf p) _. exact: leqnSn.
Qed.


End PolyOps.

Close Scope Z_scope.
Close Scope list_scope.

(* ===================================================================== *)
(** ** The Reed-Solomon encoder *)
(* ===================================================================== *)

Open Scope list_scope.
Open Scope Z_scope.

Import GRing.Theory.

(** The generator polynomial of [degree] check symbols: the product of
    the [x + alpha^i] for [i] below [degree]. *)
Definition genPoly (degree : nat) : {poly GF256} :=
  (\prod_(0 <= i < degree) ('X + (PolyOps.alpha ^+ i)%:P))%R.

Module RSEncoderFacts.

Import PolyOps.

Lemma genPoly_0 : genPoly 0 = 1%R.
Proof. by rewrite /genPoly big_nil. Qed.

Lemma genPoly_S (n : nat) : genPoly n.+1 = (genPoly n * ('X + (alpha ^+ n)%:P))%R.
Proof. by rewrite /genPoly big_nat_recr. Qed.

Lemma linear_size (a : GF256) : size ('X + a%:P)%R = 2%N.
Proof. exact: size_XaddC. Qed.

Lemma linear_neq0 (a : GF256) : ('X + a%:P)%R != 0%R :> {poly GF256}.
Proof. by rewrite -size_poly_eq0 linear_size. Qed.

Lemma genPoly_neq0 (n : nat) : genPoly n != 0%R.
Proof.
  elim: n => [|n IH]; first by rewrite genPoly_0 oner_eq0.
  by rewrite genPoly_S mulf_neq0 // linear_neq0.
Qed.

Lemma size_genPoly (n : nat) : size (genPoly n) = n.+1.
Proof.
  elim: n => [|n IH]; first by rewrite genPoly_0 size_poly1.
  rewrite genPoly_S size_mul ?genPoly_neq0 ?linear_neq0 //.
  by rewrite IH linear_size addn2.
Qed.



(** The factor [x + e] as the encoder builds it. *)
Lemma linear_spec (e : Z) :
  byte e ->
  valid (Polynomial.trim (1 :: e :: nil))
  /\ polyOf (Polynomial.trim (1 :: e :: nil)) = ('X + (ofZ e)%:P)%R.
Proof.
  move=> He.
  have Hb : bytes (1 :: e :: nil).
  { apply: bytes_cons; first exact: byte_1. apply: bytes_cons => //. }
  have [Hv ->] := trim_spec _ Hb ltac:(done).
  split; first exact: Hv.
  rewrite !polyOf_cons polyOf_nil addr0 /= expr0 expr1 ofZ_1 scale1r.
  by rewrite -mul_polyC mulr1.
Qed.

Lemma exp_fold (i : Z) : GaloisField.exp F256 i = gf_exp i.
Proof. reflexivity. Qed.

(** [buildGenerator] from the cache that holds the polynomial 1. *)
Lemma buildGenerator_spec (degree : Z) :
  0 <= degree <= 255 ->
  let generator := snd (buildGenerator F256 (Polynomial.one :: nil) degree) in
  valid generator /\ polyOf generator = genPoly (Z.to_nat degree).
Proof.
  move=> Hd. rewrite /buildGenerator.
  change (Z.of_nat (List.length (Polynomial.one :: nil))) with 1.
  change (GaloisField.generator F256) with 0.
  case: (Z.geb_spec degree 1) => Hge; last first.
  { have -> : degree = 0 by lia.
    rewrite /=. split; first exact: valid_one. by rewrite polyOf_one genPoly_0. }
  change (List.nth (Z.to_nat (1 - 1)) (Polynomial.one :: nil) nil) with Polynomial.one.
  pose I := fun (i : Z) (st : list Polynomial.t * Polynomial.t) =>
    List.length (fst st) = Z.to_nat i
    /\ List.nth (Z.to_nat (i - 1)) (fst st) nil = snd st
    /\ valid (snd st) /\ polyOf (snd st) = genPoly (Z.to_nat (i - 1)).
  set loop := for_range 1 (degree + 1) _ _.
  have HI : I (degree + 1) loop.
  { apply: for_range_ind.
    - lia.
    - rewrite /I /=. split; first by []. split; first by [].
      split; first exact: valid_one. by rewrite polyOf_one genPoly_0.
    - move=> i [generators last] Hi [Hlen [Hnth [Hv Hpoly]]]. rewrite /I /=.
      rewrite /= in Hlen Hnth Hv Hpoly.
      rewrite Z.add_0_r exp_fold.
      have Be : byte (gf_exp (i - 1)) by apply: exp_byte; lia.
      rewrite -> toInt32_byte by exact: Be.
      have [Hvl El] := linear_spec _ Be.
      have [Hvm Em] := multiply_spec _ _ Hv Hvl.
      split.
      { rewrite List.length_app Hlen /=. lia. }
      split.
      { have -> : Z.to_nat (i + 1 - 1) = List.length generators by lia.
        exact: List.nth_middle. }
      split; first exact: Hvm.
      rewrite Em Hpoly El.
      have -> : Z.to_nat (i + 1 - 1) = (Z.to_nat (i - 1)).+1 by lia.
      rewrite genPoly_S.
      have <- : ofZ (gf_exp (Z.of_nat (Z.to_nat (i - 1)))) = (alpha ^+ Z.to_nat (i - 1))%R.
      { apply: exp_alpha. apply/leP. lia. }
      rewrite -> Z2Nat.id by lia. reflexivity. }
  case: HI => _ [Hnth [Hv Hpoly]].
  rewrite /=. move: Hnth Hv Hpoly.
  have -> : degree + 1 - 1 = degree by lia.
  by move=> -> Hv Hpoly.
Qed.

Lemma get_app (a b : list Z) (i : Z) :
  0 <= i ->
  TypedArray.get (a ++ b)%list i
  = if i <? TypedArray.len a then TypedArray.get a i
    else TypedArray.get b (i - TypedArray.len a).
Proof.
  move=> Hi. rewrite /TypedArray.get /TypedArray.len.
  case: (Z.ltb_spec i 0) => [H|_]; first by lia.
  case: (Z.ltb_spec i (Z.of_nat (List.length a))) => H.
  - rewrite -> List.app_nth1 by lia. reflexivity.
  - case: (Z.ltb_spec (i - Z.of_nat (List.length a)) 0) => [H'|_]; first by lia.
    rewrite -> List.app_nth2 by lia.
    congr (List.nth _ b 0). lia.
Qed.

Lemma size_len (cs : list Z) : size cs = Z.to_nat (TypedArray.len cs).
Proof. by rewrite /TypedArray.len Nat2Z.id. Qed.

Lemma len_app (a b : list Z) :
  TypedArray.len (a ++ b)%list = TypedArray.len a + TypedArray.len b.
Proof. rewrite /TypedArray.len List.length_app. lia. Qed.

Lemma map_toInt32 (cs : list Z) : bytes cs -> List.map toInt32 cs = cs.
Proof.
  elim: cs => [|c cs IH] Hb //=.
  have Hc : byte c by inversion Hb.
  have Hcs : bytes cs by inversion Hb.
  by rewrite IH // toInt32_byte.
Qed.

(** A valid array of the zero polynomial is the array of one zero. *)
Lemma valid_zero_inv (p : list Z) : valid p -> polyOf p = 0%R -> p = 0 :: nil.
Proof.
  case=> Hb. case: p Hb => [|c cs] Hb // H E.
  have Hc : byte c by inversion Hb.
  case: H => [Nc|Ecs].
  - have := size_polyOf_lead c cs Hc Nc. by rewrite E size_poly0.
  - move: E. rewrite Ecs polyOf_cons polyOf_nil addr0 expr0 alg_polyC => /eqP.
    rewrite polyC_eq0 ofZ_eq0 // => /Z.eqb_eq ->. reflexivity.
Qed.

Lemma valid_len_size (p : list Z) :
  valid p -> polyOf p != 0%R -> TypedArray.len p = Z.of_nat (size (polyOf p)).
Proof.
  move=> Hv Np. rewrite (valid_size p Hv). by rewrite (negbTE Np) len_size.
Qed.

(** The array that [encode] leaves: the data, zeros, and the remainder. *)
Lemma encode_array (received remainder : list Z) (k t : Z) :
  bytes received -> bytes remainder ->
  0 <= k -> TypedArray.len received = k + t ->
  1 <= TypedArray.len remainder <= t ->
  let offset := k + (t - TypedArray.len remainder) in
  let cleared :=
    for_range k offset (fun i received => TypedArray.set received i 0) received in
  RSEncoder.setArray cleared remainder offset
  = Ok (List.firstn (Z.to_nat k) received
        ++ TypedArray.make (t - TypedArray.len remainder) ++ remainder)%list.
Proof.
  move=> Hb Hr Hk Hlen Hlr offset cleared.
  pose I := fun (i : Z) (cs : list Z) =>
    TypedArray.len cs = k + t
    /\ forall j, TypedArray.get cs j
                 = if (k <=? j) && (j <? i) then 0 else TypedArray.get received j.
  have HI : I offset cleared.
  { apply: for_range_ind.
    - rewrite /offset. lia.
    - split; first exact: Hlen. move=> j.
      by case: (Z.leb_spec k j); case: (Z.ltb_spec j k) => //; lia.
    - move=> i cs Hi [Hl Hg]. split; first by rewrite TypedArrayFacts.set_length.
      move=> j. rewrite TypedArrayFacts.get_set Hl Hg.
      case: (Z.eqb_spec j i) => [->|N] /=.
      + have -> : (0 <=? i) = true by apply/Z.leb_le; lia.
        have -> : (i <? k + t) = true by apply/Z.ltb_lt; rewrite /offset in Hi; lia.
        have -> : (k <=? i) = true by apply/Z.leb_le; lia.
        have -> : (i <? i + 1) = true by apply/Z.ltb_lt; lia.
        by [].
      + case: (Z.leb_spec k j) => // Hkj /=.
        case: (Z.ltb_spec j i) => H1; case: (Z.ltb_spec j (i + 1)) => H2 //; lia. }
  case: HI => Hlc Hgc.
  rewrite /RSEncoder.setArray Hlc.
  have -> : (offset <? 0) = false by apply/Z.ltb_ge; rewrite /offset; lia.
  have -> : (offset + TypedArray.len remainder >? k + t) = false.
  { rewrite /offset. case: (Z.gtb_spec (k + (t - TypedArray.len remainder)
                                           + TypedArray.len remainder) (k + t)) => //. lia. }
  rewrite /= map_toInt32 //. congr Ok.
  have Hlf : TypedArray.len (List.firstn (Z.to_nat k) received) = k.
  { apply: len_firstn. lia. }
  apply: TypedArrayFacts.ext.
  - rewrite TypedArrayFacts.blit_length Hlc !len_app Hlf TypedArrayFacts.len_make. lia.
  - move=> i. rewrite TypedArrayFacts.blit_length Hlc => Hi.
    rewrite -> TypedArrayFacts.get_blit by (rewrite ?Hlc /offset; lia).
    rewrite Hgc.
    rewrite -> get_app by lia. rewrite Hlf.
    case: (Z.ltb_spec i k) => Hik.
    + have -> : (offset <=? i) = false by apply/Z.leb_gt; rewrite /offset; lia.
      have -> : (k <=? i) = false by apply/Z.leb_gt.
      rewrite /=. symmetry. apply: get_firstn. lia.
    + rewrite -> get_app by lia. rewrite TypedArrayFacts.len_make.
      have -> : Z.max 0 (t - TypedArray.len remainder) = t - TypedArray.len remainder by lia.
      have -> : (k <=? i) = true by apply/Z.leb_le.
      case: (Z.leb_spec offset i) => Hoi.
      * have -> : (i <? offset + TypedArray.len remainder) = true.
        { apply/Z.ltb_lt. rewrite /offset. lia. }
        have -> : (i - k <? t - TypedArray.len remainder) = false.
        { apply/Z.ltb_ge. rewrite /offset in Hoi. lia. }
        rewrite /=. congr (TypedArray.get remainder _). rewrite /offset. lia.
      * have -> : (i <? offset) = true by apply/Z.ltb_lt.
        have -> : (i - k <? t - TypedArray.len remainder) = true.
        { apply/Z.ltb_lt. rewrite /offset in Hoi. lia. }
        by rewrite /= TypedArrayFacts.get_make.
Qed.

(** The copy of the data that [encode] makes. *)
Lemma info_array (received : list Z) (k : Z) :
  0 <= k <= TypedArray.len received ->
  TypedArray.blit (TypedArray.make k) (TypedArray.subarray received 0 k) 0
  = List.firstn (Z.to_nat k) received.
Proof.
  move=> Hk. rewrite /TypedArray.subarray Z.sub_0_r.
  change (List.skipn (Z.to_nat 0) received) with received.
  have Hlf : TypedArray.len (List.firstn (Z.to_nat k) received) = k by apply: len_firstn.
  apply: TypedArrayFacts.ext.
  - rewrite TypedArrayFacts.blit_length TypedArrayFacts.len_make Hlf. lia.
  - move=> i. rewrite TypedArrayFacts.blit_length TypedArrayFacts.len_make => Hi.
    rewrite -> TypedArrayFacts.get_blit by (rewrite ?Hlf ?TypedArrayFacts.len_make; lia).
    rewrite Hlf.
    have -> : (0 <=? i) = true by apply/Z.leb_le; lia.
    have -> : (i <? 0 + k) = true by apply/Z.ltb_lt; lia.
    by rewrite /= Z.sub_0_r.
Qed.

(** [encode] keeps the data and fills the check symbols so that the whole
    is a multiple of the generator polynomial. *)
Lemma encode_spec (received : list Z) (ecLength : Z) :
  bytes received -> 1 <= ecLength <= 255 -> ecLength < TypedArray.len received ->
  exists out remainder,
    RSEncoder.encode F256 received ecLength = Ok out
    /\ out = (List.firstn (Z.to_nat (TypedArray.len received - ecLength)) received
              ++ TypedArray.make (ecLength - TypedArray.len remainder) ++ remainder)%list
    /\ valid remainder /\ TypedArray.len remainder <= ecLength
    /\ polyOf remainder
       = ((polyOf (List.firstn (Z.to_nat (TypedArray.len received - ecLength)) received)
           * 'X^(Z.to_nat ecLength)) %% genPoly (Z.to_nat ecLength))%R
    /\ (genPoly (Z.to_nat ecLength) %| polyOf out)%R.
Proof.
  move=> Hb Ht Hlen. rewrite /RSEncoder.encode.
  set k := TypedArray.len received - ecLength.
  have Hk : 1 <= k by rewrite /k; lia.
  have -> : (k <? 0) = false by apply/Z.ltb_ge; lia.
  rewrite -> info_array by (rewrite /k; lia).
  set data := List.firstn (Z.to_nat k) received.
  have Bd : bytes data by apply: bytes_firstn.
  have Ld : TypedArray.len data = k by apply: len_firstn; rewrite /k; lia.
  have Nd : data <> nil.
  { move=> E. rewrite E in Ld. change (TypedArray.len nil) with 0 in Ld. lia. }
  have [base [-> [Hvb Eb]]] := make_spec data Bd Nd.
  rewrite /=.
  have Ht0 : 0 <= ecLength <= 255 by lia.
  have Ht1 : 0 <= ecLength by lia.
  have Hk0 : 0 <= k by lia.
  have [Hvg Eg] := buildGenerator_spec ecLength Ht0.
  move: Hvg Eg. set generator := snd (buildGenerator _ _ _) => Hvg Eg.
  have [Hvi Ei] := multiplyByMonomial_spec base ecLength 1 (valid_bytes _ Hvb)
                     (valid_nonempty _ Hvb) Ht1 byte_1.
  have Ng : polyOf generator != 0%R by rewrite Eg genPoly_neq0.
  have := divide_spec _ _ Hvi Hvg Ng.
  case: (Polynomial.divide F256 _ generator) => quotient remainder /=.
  move=> [Hvq [Hvr [Ediv Hsize]]].
  rewrite Eg size_genPoly in Hsize.
  have Hlr : 1 <= TypedArray.len remainder <= ecLength.
  { split; first exact: valid_len.
    case: (altP (polyOf remainder =P 0%R)) => [E|N].
    - rewrite (valid_zero_inv _ Hvr E). change (TypedArray.len (0 :: nil)) with 1. lia.
    - rewrite valid_len_size //. move: Hsize.
      set n := size (polyOf remainder). move=> /ltP Hn. lia. }
  have Hlen' : TypedArray.len received = k + ecLength by rewrite /k; lia.
  have := encode_array received remainder k ecLength Hb (valid_bytes _ Hvr)
            Hk0 Hlen' Hlr.
  rewrite /= => ->.
  exists (data ++ TypedArray.make (ecLength - TypedArray.len remainder) ++ remainder)%list,
         remainder.
  have Einfo : polyOf (Polynomial.multiplyByMonomial F256 base ecLength 1)
               = (polyOf data * 'X^(Z.to_nat ecLength))%R.
  { by rewrite Ei ofZ_1 scale1r Eb. }
  split; first by []. split; first by []. split; first exact: Hvr.
  split; first by lia.
  split.
  { rewrite -Einfo -Eg Ediv. rewrite Eg in Ediv *.
    rewrite modp_addl_mul_small //. by rewrite size_genPoly. }
  rewrite polyOf_cat polyOf_cat polyOf_make mul0r add0r.
  have -> : size (TypedArray.make (ecLength - TypedArray.len remainder) ++ remainder)%list
            = Z.to_nat ecLength.
  { rewrite size_len len_app TypedArrayFacts.len_make. congr Z.to_nat. lia. }
  rewrite -Einfo Ediv -addrA poly_addxx addr0 Eg.
  exact: dvdp_mull.
Qed.


End RSEncoderFacts.

Close Scope Z_scope.
Close Scope list_scope.

(* ===================================================================== *)
(** ** The Reed-Solomon decoder *)
(* ===================================================================== *)

Open Scope list_scope.
Open Scope Z_scope.

Import GRing.Theory.

Module RSDecoderFacts.

Import PolyOps RSEncoderFacts.



End RSDecoderFacts.

Close Scope Z_scope.
Close Scope list_scope.

(* ===================================================================== *)
(** ** The field, the polynomials and the Reed-Solomon code: summary *)
(* ===================================================================== *)

Open Scope list_scope.
Open Scope Z_scope.

Import GRing.Theory.

Ltac bytes_tac :=
  repeat (apply List.Forall_cons; [unfold byte; lia|]); apply List.Forall_nil.

(** X12.  The multiplication of [QR_CODE_FIELD_256] through its tables of
    logarithms keeps bytes, is commutative and associative, has the unit 1,
    distributes over [^], the addition of the field, and [invert] gives the
    inverse of every byte but 0. *)
Theorem GaloisField_multiply_laws (a b c : Z) :
  byte a -> byte b -> byte c ->
  let multiply := GaloisField.multiply QR_CODE_FIELD_256 in
  byte (multiply a b)
  /\ multiply a b = multiply b a
  /\ multiply a (multiply b c) = multiply (multiply a b) c
  /\ multiply 1 a = a
  /\ multiply a (Z.lxor b c) = Z.lxor (multiply a b) (multiply a c)
  /\ (a <> 0 ->
      multiply a (GaloisField.invert QR_CODE_FIELD_256 a) = 1
      /\ byte (GaloisField.invert QR_CODE_FIELD_256 a)).
Proof.
  intros Ha Hb Hc multiply.
  split; [exact (FieldTables.mul_byte a b Ha Hb)|].
  split; [exact (FieldTables.mul_comm a b)|].
  split; [exact (FieldTables.mul_assoc a b c Ha Hb Hc)|].
  split; [exact (FieldTables.mul_1_l a Ha)|].
  split; [exact (FieldTables.mul_lxor_r a b c Ha Hb Hc)|].
  intros Hn. destruct (FieldTables.invert_spec a Ha Hn) as [Hinv Hrange].
  split; [exact Hinv|]. unfold byte. fold (gf_inv a). lia.
Qed.

(** The theorem at the bytes 0x53, 0xCA and 2: 0xCA is not the inverse of
    0x53 in this field, 0x8F is. *)
Lemma GaloisField_multiply_laws_witness :
  GaloisField.multiply QR_CODE_FIELD_256 0x53 0xca = 143
  /\ GaloisField.multiply QR_CODE_FIELD_256 0x53
       (GaloisField.invert QR_CODE_FIELD_256 0x53) = 1.
Proof.
  assert (H53 : byte 0x53) by (unfold byte; lia).
  assert (Hca : byte 0xca) by (unfold byte; lia).
  assert (H2 : byte 2) by (unfold byte; lia).
  destruct (GaloisField_multiply_laws 0x53 0xca 2 H53 Hca H2)
    as [_ [_ [_ [_ [_ Hinv]]]]].
  split; [vm_compute; reflexivity|].
  apply Hinv. discriminate.
Defined.

(** X13.  [evaluate(a)] of a polynomial whose coefficients are bytes is
    the value at [a] of the polynomial over the field with 256 elements
    that the array stands for, highest degree first. *)
Theorem Polynomial_evaluate_value (p : list Z) (a : Z) :
  bytes p -> p <> nil -> byte a ->
  Polynomial.evaluate QR_CODE_FIELD_256 p a = toZ ((polyOf p).[ofZ a])%R.
Proof. exact (PolyOps.evaluate_spec p a). Qed.

(** The theorem at [3 x^2 + 5 x + 7] and 2. *)
Lemma Polynomial_evaluate_value_witness :
  bytes (3 :: 5 :: 7 :: nil)
  /\ toZ ((polyOf (3 :: 5 :: 7 :: nil)%Z).[ofZ 2%Z])%R = 1.
Proof.
  assert (Hb : bytes (3 :: 5 :: 7 :: nil)) by bytes_tac.
  split; [exact Hb|].
  rewrite <- (Polynomial_evaluate_value (3 :: 5 :: 7 :: nil) 2 Hb);
    [vm_compute; reflexivity | discriminate | unfold byte; lia].
Defined.

(** X14.  [addOrSubtract] of two polynomials is their sum, and its array
    is again one a [Polynomial] holds: bytes, with a leading coefficient
    that is zero for the constant 0 only. *)
Theorem Polynomial_addOrSubtract_sum (p other : list Z) :
  valid p -> valid other ->
  valid (Polynomial.addOrSubtract p other)
  /\ polyOf (Polynomial.addOrSubtract p other) = (polyOf p + polyOf other)%R.
Proof. exact (PolyOps.addOrSubtract_spec p other). Qed.

(** The theorem at [3 x^2 + 5 x + 7] and [3 x^2 + 5 x + 9], whose sum is
    the constant 14: the leading zeros are dropped. *)
Lemma Polynomial_addOrSubtract_sum_witness :
  valid (3 :: 5 :: 7 :: nil) /\ valid (3 :: 5 :: 9 :: nil)
  /\ polyOf (14 :: nil)
     = (polyOf (3 :: 5 :: 7 :: nil)%Z + polyOf (3 :: 5 :: 9 :: nil)%Z)%R.
Proof.
  assert (Hp : valid (3 :: 5 :: 7 :: nil)) by (split; [bytes_tac | left; discriminate]).
  assert (Ho : valid (3 :: 5 :: 9 :: nil)) by (split; [bytes_tac | left; discriminate]).
  split; [exact Hp|]. split; [exact Ho|].
  exact (proj2 (Polynomial_addOrSubtract_sum _ _ Hp Ho)).
Defined.

(** X15.  [multiply] of two polynomials is their product. *)
Theorem Polynomial_multiply_product (p other : list Z) :
  valid p -> valid other ->
  valid (Polynomial.multiply QR_CODE_FIELD_256 p other)
  /\ polyOf (Polynomial.multiply QR_CODE_FIELD_256 p other)
     = (polyOf p * polyOf other)%R.
Proof. exact (PolyOps.multiply_spec p other). Qed.

(** The theorem at [3 x^2 + 5 x + 7] and [2 x + 1]. *)
Lemma Polynomial_multiply_product_witness :
  valid (3 :: 5 :: 7 :: nil) /\ valid (2 :: 1 :: nil)
  /\ polyOf (6 :: 9 :: 11 :: 7 :: nil)
     = (polyOf (3 :: 5 :: 7 :: nil)%Z * polyOf (2 :: 1 :: nil)%Z)%R.
Proof.
  assert (Hp : valid (3 :: 5 :: 7 :: nil)) by (split; [bytes_tac | left; discriminate]).
  assert (Ho : valid (2 :: 1 :: nil)) by (split; [bytes_tac | left; discriminate]).
  split; [exact Hp|]. split; [exact Ho|].
  exact (proj2 (Polynomial_multiply_product _ _ Hp Ho)).
Defined.

(** X16.  [divide] by a polynomial that is not zero ends and returns the
    quotient and the remainder of the Euclidean division: the dividend is
    [quotient * other + remainder], and the remainder is zero or of a
    degree below that of [other]. *)
Theorem Polynomial_divide_euclidean (p other : list Z) :
  valid p -> valid other -> other <> Polynomial.zero ->
  let result := Polynomial.divide QR_CODE_FIELD_256 p other in
  valid (fst result) /\ valid (snd result)
  /\ polyOf p = (polyOf (fst result) * polyOf other + polyOf (snd result))%R
  /\ (snd result = Polynomial.zero
      \/ Polynomial.getDegree (snd result) < Polynomial.getDegree other).
Proof.
  intros Hp Ho Hn result.
  assert (No : polyOf other != 0%R).
  { apply/eqP => E. apply: Hn. exact: (RSEncoderFacts.valid_zero_inv other Ho E). }
  destruct (PolyOps.divide_spec p other Hp Ho No) as [Hq [Hr [E Hsize]]].
  fold result in Hq, Hr, E, Hsize.
  split; [exact Hq|]. split; [exact Hr|]. split; [exact E|].
  case: (@eqP _ (polyOf (snd result)) 0%R) => [Hzero|/eqP Hnonzero].
  - left. exact (RSEncoderFacts.valid_zero_inv _ Hr Hzero).
  - right. unfold Polynomial.getDegree.
    rewrite (RSEncoderFacts.valid_len_size _ Hr Hnonzero).
    pose proof (size_polyOf other) as Hle. rewrite (len_size other).
    move/ltP: Hsize. move/leP: Hle. lia.
Qed.

(** The theorem at [6 x^3 + 9 x^2 + 11 x + 9] and [2 x + 1]: the quotient
    is [3 x^2 + 5 x + 7] and the remainder 14. *)
Lemma Polynomial_divide_euclidean_witness :
  valid (6 :: 9 :: 11 :: 9 :: nil) /\ valid (2 :: 1 :: nil)
  /\ Polynomial.divide QR_CODE_FIELD_256 (6 :: 9 :: 11 :: 9 :: nil) (2 :: 1 :: nil)
     = (3 :: 5 :: 7 :: nil, 14 :: nil)
  /\ polyOf (6 :: 9 :: 11 :: 9 :: nil)
     = (polyOf (3 :: 5 :: 7 :: nil)%Z * polyOf (2 :: 1 :: nil)%Z
        + polyOf (14 :: nil)%Z)%R.
Proof.
  assert (Hp : valid (6 :: 9 :: 11 :: 9 :: nil))
    by (split; [bytes_tac | left; discriminate]).
  assert (Ho : valid (2 :: 1 :: nil)) by (split; [bytes_tac | left; discriminate]).
  assert (Hn : 2 :: 1 :: nil <> Polynomial.zero) by discriminate.
  split; [exact Hp|]. split; [exact Ho|]. split; [vm_compute; reflexivity|].
  exact (proj1 (proj2 (proj2 (Polynomial_divide_euclidean _ _ Hp Ho Hn)))).
Defined.

(** X17.  [buildGenerator] of a fresh encoder returns, for a degree up to
    255, the generator polynomial of the code: the product of the factors
    [x + 2^i], [i] from 0 to [degree - 1], the powers of 2 taken in the
    field. *)
Theorem buildGenerator_product (degree : Z) :
  0 <= degree <= 255 ->
  let generator := snd (buildGenerator QR_CODE_FIELD_256 (Polynomial.one :: nil) degree) in
  valid generator
  /\ polyOf generator
     = (\prod_(0 <= i < Z.to_nat degree) ('X + (ofZ 2%Z ^+ i)%:P))%R.
Proof. exact (RSEncoderFacts.buildGenerator_spec degree). Qed.

(** The theorem at the degree 7, the generator of the version 1-L. *)
Lemma buildGenerator_product_witness :
  snd (buildGenerator QR_CODE_FIELD_256 (Polynomial.one :: nil) 7)
  = 1 :: 127 :: 122 :: 154 :: 164 :: 11 :: 68 :: 117 :: nil
  /\ polyOf (1 :: 127 :: 122 :: 154 :: 164 :: 11 :: 68 :: 117 :: nil)
     = (\prod_(0 <= i < 7) ('X + (ofZ 2%Z ^+ i)%:P))%R.
Proof.
  assert (H7 : 0 <= 7 <= 255) by lia.
  split; [vm_compute; reflexivity|].
  exact (proj2 (buildGenerator_product 7 H7)).
Defined.

(** X18.  [encode] of a buffer of bytes with room for [ecLength] check
    bytes, 1 to 255 of them after at least one byte of data, keeps the
    data and writes check bytes that make the whole buffer, read as a
    polynomial, a multiple of the generator polynomial. *)
Theorem RSEncoder_encode_codeword (received : list Z) (ecLength : Z) :
  bytes received -> 1 <= ecLength <= 255 -> ecLength < TypedArray.len received ->
  let dataBytes := Z.to_nat (TypedArray.len received - ecLength) in
  exists out,
    RSEncoder.encode QR_CODE_FIELD_256 received ecLength = Ok out
    /\ bytes out
    /\ TypedArray.len out = TypedArray.len received
    /\ List.firstn dataBytes out = List.firstn dataBytes received
    /\ (genPoly (Z.to_nat ecLength) %| polyOf out)%R.
Proof.
  intros Hb Ht Hlen dataBytes.
  destruct (RSEncoderFacts.encode_spec received ecLength Hb Ht Hlen)
    as [out [remainder [Hencode [Hout [Hv [Hr [_ Hdvd]]]]]]].
  fold dataBytes in Hout.
  exists out. split; [exact Hencode|].
  assert (Hdata : List.length (List.firstn dataBytes received) = dataBytes).
  { rewrite List.length_firstn. unfold TypedArray.len in Hlen. unfold dataBytes.
    unfold TypedArray.len. lia. }
  split.
  { rewrite Hout. apply PolyOps.bytes_cat; [by apply PolyOps.bytes_firstn|].
    apply PolyOps.bytes_cat; [apply PolyOps.bytes_make | by apply valid_bytes]. }
  split.
  { rewrite Hout. rewrite !RSEncoderFacts.len_app TypedArrayFacts.len_make.
    unfold dataBytes. rewrite -> PolyOps.len_firstn by lia. lia. }
  split; [|exact Hdvd].
  rewrite Hout List.firstn_app Hdata Nat.sub_diag. cbn [List.firstn].
  by rewrite List.app_nil_r List.firstn_firstn Nat.min_id.
Qed.

(** The theorem at four bytes of data followed by room for three check
    bytes. *)
Lemma RSEncoder_encode_codeword_witness :
  bytes (32 :: 91 :: 11 :: 120 :: 0 :: 0 :: 0 :: nil)
  /\ RSEncoder.encode QR_CODE_FIELD_256 (32 :: 91 :: 11 :: 120 :: 0 :: 0 :: 0 :: nil) 3
     = Ok (32 :: 91 :: 11 :: 120 :: 145 :: 166 :: 63 :: nil)
  /\ (genPoly 3 %| polyOf (32 :: 91 :: 11 :: 120 :: 145 :: 166 :: 63 :: nil)%Z)%R.
Proof.
  assert (Hb : bytes (32 :: 91 :: 11 :: 120 :: 0 :: 0 :: 0 :: nil)) by bytes_tac.
  split; [exact Hb|]. split; [vm_compute; reflexivity|].
  destruct (RSEncoder_encode_codeword (32 :: 91 :: 11 :: 120 :: 0 :: 0 :: 0 :: nil) 3 Hb)
    as [out [Hencode [_ [_ [_ Hdvd]]]]]; [lia | vm_compute; reflexivity |].
  assert (Hout : Ok out = Ok (32 :: 91 :: 11 :: 120 :: 145 :: 166 :: 63 :: nil))
    by (rewrite <- Hencode; vm_compute; reflexivity).
  injection Hout as <-. exact Hdvd.
Defined.



Close Scope Z_scope.
Close Scope list_scope.

(* ===================================================================== *)
(** ** More on bit arrays: appending an array, packing into bytes *)
(* ===================================================================== *)

Open Scope list_scope.
Open Scope Z_scope.

Module BitArrayMore.

Import BitArray BitArrayFacts.

(** What [append(value)] leaves for a bit array [value]: the old bits, then
    the bits of [value]. *)
Lemma appendBitArray_spec (b value : t) :
  wf b -> 0 <= length value -> length b + length value < 2 ^ 31 ->
  let b' := appendBitArray b value in
  wf b'
  /\ length b' = length b + length value
  /\ (forall j, 0 <= j < length b -> get b' j = get b j)
  /\ (forall k, 0 <= k < length value -> get b' (length b + k) = get value k).
Proof.
  intros [Hl0 [Hcap Hzero]] Hv Hlen b'. unfold b', appendBitArray.
  set (n := length value) in *.
  set (b0 := alloc b (length b + n)).
  assert (Hb0cap : length b + n <= 32 * TypedArray.len (bits b0))
    by (apply alloc_capacity; lia).
  assert (Hb0get : forall i, 0 <= i < 2 ^ 31 -> get b0 i = get b i)
    by (intros i Hi; apply alloc_get; lia).
  pose (I := fun (i : Z) (st : t * Z) =>
    snd st = length b + i
    /\ length (fst st) = length b + n
    /\ TypedArray.len (bits (fst st)) = TypedArray.len (bits b0)
    /\ (forall j, 0 <= j < length b -> get (fst st) j = get b j)
    /\ (forall k, 0 <= k < i -> get (fst st) (length b + k) = get value k)
    /\ (forall j, snd st <= j < 2 ^ 31 -> get (fst st) j = 0)).
  assert (HI : I n (for_range 0 n (fun i st =>
                 ((if negb (get value i =? 0) then set (fst st) (snd st) else fst st),
                  snd st + 1)) (b0, length b))).
  { apply for_range_ind.
    - lia.
    - unfold I. cbn [fst snd]. repeat split; try lia.
      + apply alloc_length.
      + intros j Hj. apply Hb0get. lia.
      + intros j Hj. rewrite -> Hb0get by lia. apply Hzero. lia.
    - intros i [bc idx] Hi [Hidx [Hblen [Hbcap [Hold [Hnew Hrest]]]]].
      cbn [fst snd] in *. subst idx. unfold I. cbn [fst snd].
      assert (Hset : forall j, 0 <= j < 2 ^ 31 ->
                get (set bc (length b + i)) j
                = if j =? length b + i then 1 else get bc j).
      { intros j Hj. apply array_get_set; lia. }
      destruct (array_get_bit value i ltac:(lia)) as [Hbit|Hbit]; rewrite Hbit;
        cbn [Z.eqb negb].
      + repeat split; try lia.
        * exact Hold.
        * intros k Hk. destruct (Z.eq_dec k i) as [->|E].
          -- rewrite Hbit. apply Hrest. lia.
          -- apply Hnew. lia.
        * intros j Hj. apply Hrest. lia.
      + repeat split; try lia.
        * by rewrite array_set_length.
        * by rewrite set_capacity.
        * intros j Hj. rewrite -> Hset by lia.
          destruct (Z.eqb_spec j (length b + i)); [lia|]. by apply Hold.
        * intros k Hk. rewrite -> Hset by lia.
          destruct (Z.eqb_spec (length b + k) (length b + i)) as [E|E].
          -- replace k with i by lia. by rewrite Hbit.
          -- apply Hnew. lia.
        * intros j Hj. rewrite -> Hset by lia.
          destruct (Z.eqb_spec j (length b + i)); [lia|]. apply Hrest. lia. }
  destruct HI as [Hidx [Hblen [Hbcap [Hold [Hnew Hrest]]]]].
  set (r := for_range _ _ _ _) in *.
  split; [|split; [exact Hblen | split; [exact Hold | exact Hnew]]].
  unfold wf. repeat split; try lia.
  intros i Hi. apply Hrest. lia.
Qed.

Lemma bitList_appendBitArray (b value : t) :
  wf b -> 0 <= length value -> length b + length value < 2 ^ 31 ->
  bitList (appendBitArray b value) = bitList b ++ bitList value.
Proof.
  intros Hwf Hv Hlen.
  destruct (appendBitArray_spec b value Hwf Hv Hlen) as [Hwf' [Hl [Hold Hnew]]].
  assert (Hl0 : 0 <= length b) by apply Hwf.
  unfold bitList. rewrite Hl.
  replace (Z.to_nat (length b + length value))
    with (Nat.add (Z.to_nat (length b)) (Z.to_nat (length value))) by lia.
  rewrite below_add List.map_app List.map_map.
  congr (_ ++ _)%list.
  - apply List.map_ext_in. intros j Hj.
    apply List.in_map_iff in Hj as [k [<- Hk]]. apply List.in_seq in Hk.
    apply Hold. lia.
  - apply List.map_ext_in. intros j Hj.
    apply List.in_map_iff in Hj as [k [<- Hk]]. apply List.in_seq in Hk.
    rewrite -> Z2Nat.id by lia. apply Hnew. lia.
Qed.

(** The number that eight bits make from the bit [p] on, the first bit
    being the most significant. *)
Definition byteAt (b : t) (p : Z) : Z :=
  bitsValue (List.map (fun j => get b (p + j)) (below 8)).

Lemma bitsValue_snoc (bits : list Z) (bit : Z) :
  bitsValue (bits ++ bit :: nil) = 2 * bitsValue bits + bit.
Proof. unfold bitsValue. by rewrite List.fold_left_app. Qed.

Lemma bitsValue_bound (bits : list Z) :
  List.Forall (fun bit => bit = 0 \/ bit = 1) bits ->
  0 <= bitsValue bits < 2 ^ Z.of_nat (List.length bits).
Proof.
  induction bits as [|bit bits IH] using List.rev_ind; intros H.
  - cbn. lia.
  - apply List.Forall_app in H as [H1 H2]. specialize (IH H1).
    inversion H2 as [|? ? Hb _]; subst.
    rewrite bitsValue_snoc List.length_app. cbn [List.length].
    replace (Z.of_nat (Nat.add (List.length bits) 1))
      with (Z.of_nat (List.length bits) + 1) by lia.
    rewrite -> Z.pow_add_r by lia. lia.
Qed.

(** Setting a bit that lies below all the bits set adds its weight. *)
Lemma lor_pow2 (a k : Z) :
  0 <= k -> 0 <= a -> a mod 2 ^ (k + 1) = 0 -> Z.lor a (2 ^ k) = a + 2 ^ k.
Proof.
  intros Hk Ha Hm.
  rewrite <- Z.lxor_lor; [rewrite <- Z.add_nocarry_lxor; [reflexivity|]|].
  all: apply Z.bits_inj'; intros n Hn; rewrite Z.land_spec Z.bits_0;
    rewrite -> Z.pow2_bits_eqb by lia;
    destruct (Z.eqb_spec k n) as [<-|Hne]; [|by rewrite andb_false_r];
    rewrite andb_true_r;
    rewrite <- (Z.mod_pow2_bits_low a (k + 1) k) by lia;
    by rewrite Hm Z.bits_0.
Qed.

(** The inner loop of [toUint8Array]: one byte from eight bits. *)
Lemma toUint8Array_byte (b : t) (p : Z) :
  0 <= p -> p + 8 < 2 ^ 31 ->
  for_range 0 8 (fun j st =>
    ((if negb (get b (snd st) =? 0)
      then js_or (fst st) (js_shl 1 (7 - j)) else fst st),
     snd st + 1)) (0, p)
  = (byteAt b p, p + 8).
Proof.
  intros Hp Hlen.
  pose (I := fun (j : Z) (st : Z * Z) =>
    snd st = p + j
    /\ fst st
       = bitsValue (List.map (fun i => get b (p + i)) (below (Z.to_nat j))) * 2 ^ (8 - j)
    /\ 0 <= bitsValue (List.map (fun i => get b (p + i)) (below (Z.to_nat j))) < 2 ^ j).
  assert (HI : I 8 (for_range 0 8 (fun j st =>
    ((if negb (get b (snd st) =? 0)
      then js_or (fst st) (js_shl 1 (7 - j)) else fst st),
     snd st + 1)) (0, p))).
  { apply for_range_ind.
    - lia.
    - unfold I. cbn. lia.
    - intros j [byte q] Hj [Hq [Hbyte Hrange]]. cbn [fst snd] in *. subst q.
      unfold I. cbn [fst snd].
      replace (Z.to_nat (j + 1)) with (Datatypes.S (Z.to_nat j)) by lia.
      rewrite below_S List.map_app. cbn [List.map]. rewrite bitsValue_snoc.
      rewrite -> Z2Nat.id by lia.
      set (v := bitsValue _) in *.
      replace (8 - (j + 1)) with (7 - j) by lia.
      assert (Hpow : 2 ^ (8 - j) = 2 * 2 ^ (7 - j)).
      { replace (8 - j) with (1 + (7 - j)) by lia.
        rewrite -> Z.pow_add_r by lia. reflexivity. }
      assert (Hq2 : 0 < 2 ^ (7 - j)) by (apply Z.pow_pos_nonneg; lia).
      assert (Hq7 : 2 ^ (7 - j) <= 2 ^ 7) by (apply Z.pow_le_mono_r; lia).
      assert (Hj2 : 2 ^ (j + 1) = 2 * 2 ^ j).
      { rewrite -> Z.pow_add_r by lia. lia. }
      assert (Hle : 2 ^ j * 2 ^ (8 - j) = 256).
      { rewrite <- Z.pow_add_r by lia. by replace (j + (8 - j)) with 8 by lia. }
      assert (Hs : js_shl 1 (7 - j) = 2 ^ (7 - j)).
      { unfold js_shl. rewrite -> (toInt32_small 1) by lia.
        rewrite -> (Z.mod_small (7 - j) 32) by lia.
        rewrite -> Z.shiftl_1_l. apply toInt32_small.
        change (2 ^ 7) with 128 in Hq7. lia. }
      assert (Hb256 : 0 <= byte < 256).
      { rewrite Hbyte. split; [apply Z.mul_nonneg_nonneg; lia|].
        rewrite <- Hle. apply Z.mul_lt_mono_pos_r; lia. }
      assert (Hor : js_or byte (js_shl 1 (7 - j)) = byte + 2 ^ (7 - j)).
      { rewrite Hs. change (2 ^ 7) with 128 in Hq7.
        rewrite -> js_or_small by lia.
        apply lor_pow2; [lia | lia |].
        replace (7 - j + 1) with (8 - j) by lia.
        rewrite Hbyte. apply Z_mod_mult. }
      rewrite Hor Hj2. clear Hs Hle Hj2 Hor.
      generalize dependent (2 ^ (8 - j)). generalize dependent (2 ^ (7 - j)).
      generalize dependent (2 ^ j).
      intros J HJ Q HQ0 HQ7 P Hbyte HP.
      split; [lia|].
      destruct (array_get_bit b (p + j) ltac:(lia)) as [Hbit|Hbit]; rewrite Hbit;
        cbn [Z.eqb negb].
      + split; [rewrite Hbyte HP; ring | lia].
      + split; [rewrite Hbyte HP; ring | lia]. }
  destruct HI as [Hq [Hbyte _]].
  apply injective_projections; cbn [fst snd]; [|exact Hq].
  rewrite Hbyte. unfold byteAt.
  change (Z.to_nat 8) with 8%nat. change (2 ^ (8 - 8)) with 1.
  apply Z.mul_1_r.
Qed.

Lemma byteAt_byte (b : t) (p : Z) : 0 <= p -> p + 8 < 2 ^ 31 -> 0 <= byteAt b p < 256.
Proof.
  intros Hp Hlen. unfold byteAt.
  apply (bitsValue_bound (List.map (fun j => get b (p + j)) (below 8))).
  apply List.Forall_forall. intros bit Hbit.
  apply List.in_map_iff in Hbit as [j [<- Hj]].
  apply List.in_map_iff in Hj as [k [<- Hk]]. apply List.in_seq in Hk.
  apply array_get_bit. lia.
Qed.

(** [toUint8Array] writes one byte for every group of eight bits and
    leaves the other cells of the array. *)
Lemma toUint8Array_spec (b : t) (bitOffset : Z) (array : list Z) (offset byteLength : Z) :
  0 <= bitOffset -> 0 <= byteLength -> bitOffset + 8 * byteLength < 2 ^ 31 ->
  0 <= offset -> offset + byteLength <= TypedArray.len array ->
  let array' := toUint8Array b bitOffset array offset byteLength in
  TypedArray.len array' = TypedArray.len array
  /\ (forall i, 0 <= i < byteLength ->
        TypedArray.get array' (offset + i) = byteAt b (bitOffset + 8 * i))
  /\ (forall k, k < offset \/ offset + byteLength <= k ->
        TypedArray.get array' k = TypedArray.get array k).
Proof.
  intros Hbo Hbl Hlen Ho Hfit array'. unfold array', toUint8Array.
  pose (I := fun (i : Z) (st : list Z * Z) =>
    snd st = bitOffset + 8 * i
    /\ TypedArray.len (fst st) = TypedArray.len array
    /\ (forall i', 0 <= i' < i ->
          TypedArray.get (fst st) (offset + i') = byteAt b (bitOffset + 8 * i'))
    /\ (forall k, k < offset \/ offset + i <= k ->
          TypedArray.get (fst st) k = TypedArray.get array k)).
  assert (HI : I byteLength (for_range 0 byteLength (fun i st =>
         let '(byte, bitOffset) :=
           for_range 0 8 (fun j st =>
             ((if negb (get b (snd st) =? 0)
               then js_or (fst st) (js_shl 1 (7 - j)) else fst st),
              snd st + 1))
             (0, snd st) in
         (TypedArray.set (fst st) (offset + i) (toUint8 byte), bitOffset))
       (array, bitOffset))).
  { apply for_range_ind.
    - lia.
    - unfold I. cbn [fst snd]. split; [lia|]. split; [reflexivity|].
      split; [intros i' Hi'; lia | intros k Hk; reflexivity].
    - intros i [arr q] Hi [Hq [Hl [Hdone Hrest]]]. cbn [fst snd] in *. subst q.
      rewrite -> toUint8Array_byte by lia.
      unfold I. cbn [fst snd].
      pose proof (byteAt_byte b (bitOffset + 8 * i) ltac:(lia) ltac:(lia)) as Hbyte.
      split; [lia|]. split; [by rewrite TypedArrayFacts.set_length|].
      split.
      + intros i' Hi'. rewrite TypedArrayFacts.get_set.
        destruct (Z.eqb_spec (offset + i') (offset + i)) as [E|E].
        * destruct (Z.leb_spec 0 (offset + i)); [|lia].
          destruct (Z.ltb_spec (offset + i) (TypedArray.len arr)); [|lia].
          cbn [andb]. replace i' with i by lia.
          unfold toUint8. apply Z.mod_small. lia.
        * cbn [andb]. apply Hdone. lia.
      + intros k Hk. rewrite TypedArrayFacts.get_set.
        destruct (Z.eqb_spec k (offset + i)); [lia|]. cbn [andb]. apply Hrest. lia. }
  destruct HI as [_ [Hl [Hdone Hrest]]].
  split; [exact Hl|]. split; [exact Hdone | exact Hrest].
Qed.

End BitArrayMore.

(** X1.  [append(value, length)] of a bit array, for a number [value] and
    [0 <= length <= 32]: the array grows by [length] bits, the old bits
    stay, and the new bits are the [length] lowest bits of [value], the most
    significant of them first.  For a bit array [value], [append(value)]
    appends its bits in their order. *)
Theorem BitArray_append_bits (b : BitArray.t) :
  BitArrayFacts.wf b ->
  (forall value n, 0 <= n <= 32 -> BitArray.length b + n < 2 ^ 31 ->
     BitArrayFacts.wf (BitArray.append b value n)
     /\ BitArray.length (BitArray.append b value n) = BitArray.length b + n
     /\ bitList (BitArray.append b value n)
        = bitList b
          ++ List.map (fun k => Z.b2z (Z.testbit value (n - 1 - k))) (below (Z.to_nat n)))
  /\ (forall other, BitArrayFacts.wf other ->
        BitArray.length b + BitArray.length other < 2 ^ 31 ->
        BitArrayFacts.wf (BitArray.appendBitArray b other)
        /\ BitArray.length (BitArray.appendBitArray b other)
           = BitArray.length b + BitArray.length other
        /\ bitList (BitArray.appendBitArray b other) = bitList b ++ bitList other).
Proof.
  intros Hwf. split.
  - intros value n Hn Hlen.
    split; [by apply BitArrayFacts.append_wf|].
    split; [by apply BitArrayFacts.append_length|].
    by apply BitArrayFacts.bitList_append.
  - intros other Hother Hlen.
    assert (Ho : 0 <= BitArray.length other) by apply Hother.
    destruct (BitArrayMore.appendBitArray_spec b other Hwf Ho Hlen) as [H1 [H2 _]].
    split; [exact H1|]. split; [exact H2|].
    by apply BitArrayMore.bitList_appendBitArray.
Qed.

(** The theorem at the empty array: the five lowest bits of 22 are 10110,
    and appending the array of these bits to itself doubles them. *)
Lemma BitArray_append_bits_witness :
  let b := BitArray.append (BitArray.make 0) 22 5 in
  BitArrayFacts.wf (BitArray.make 0)
  /\ bitList b = 1 :: 0 :: 1 :: 1 :: 0 :: nil
  /\ bitList (BitArray.appendBitArray b b)
     = 1 :: 0 :: 1 :: 1 :: 0 :: 1 :: 0 :: 1 :: 1 :: 0 :: nil.
Proof.
  intros b.
  pose proof BitArrayFacts.array_make_wf as Hwf0.
  destruct (BitArray_append_bits (BitArray.make 0) Hwf0) as [Hnumber _].
  destruct (Hnumber 22 5 ltac:(lia) ltac:(cbn; lia)) as [Hwf [_ Hbits]].
  fold b in Hwf, Hbits.
  split; [exact Hwf0|]. split; [exact Hbits|].
  destruct (BitArray_append_bits b Hwf) as [_ Harray].
  destruct (Harray b Hwf ltac:(vm_compute; reflexivity)) as [_ [_ Hbits2]].
  rewrite Hbits2 Hbits. reflexivity.
Defined.

(** X2.  [toUint8Array(bitOffset, array, offset, byteLength)] stores, for
    every [i] below [byteLength], the byte made of the eight bits from
    [bitOffset + 8 * i] on, the first bit being the most significant, at
    [array[offset + i]]; it leaves the other cells and the length of
    [array]. *)
Theorem BitArray_toUint8Array_bytes
  (b : BitArray.t) (bitOffset : Z) (array : list Z) (offset byteLength : Z) :
  0 <= bitOffset -> 0 <= byteLength -> bitOffset + 8 * byteLength < 2 ^ 31 ->
  0 <= offset -> offset + byteLength <= TypedArray.len array ->
  let array' := BitArray.toUint8Array b bitOffset array offset byteLength in
  TypedArray.len array' = TypedArray.len array
  /\ (forall i, 0 <= i < byteLength ->
        TypedArray.get array' (offset + i)
        = bitsValue (List.map (fun j => BitArray.get b (bitOffset + 8 * i + j)) (below 8))
        /\ 0 <= TypedArray.get array' (offset + i) < 256)
  /\ (forall k, k < offset \/ offset + byteLength <= k ->
        TypedArray.get array' k = TypedArray.get array k).
Proof.
  intros Hbo Hbl Hlen Ho Hfit array'.
  destruct (BitArrayMore.toUint8Array_spec b bitOffset array offset byteLength
              Hbo Hbl Hlen Ho Hfit) as [Hl [Hbytes Hrest]].
  fold array' in Hl, Hbytes, Hrest.
  split; [exact Hl|]. split; [|exact Hrest].
  intros i Hi. rewrite (Hbytes i Hi).
  split; [reflexivity|]. apply BitArrayMore.byteAt_byte; lia.
Qed.

(** The theorem at the 16 bits 0100 0001 1110 1100: the bytes 0x41 and
    0xEC go to the cells 1 and 2 of an array of four cells. *)
Lemma BitArray_toUint8Array_bytes_witness :
  let b := BitArray.append (BitArray.make 0) 0x41ec 16 in
  BitArray.toUint8Array b 0 (7 :: 7 :: 7 :: 7 :: nil) 1 2 = 7 :: 0x41 :: 0xec :: 7 :: nil.
Proof.
  intros b.
  destruct (BitArray_toUint8Array_bytes b 0 (7 :: 7 :: 7 :: 7 :: nil) 1 2
              ltac:(lia) ltac:(lia) ltac:(cbn; lia) ltac:(lia) ltac:(cbn; lia))
    as [Hl [Hbytes Hrest]].
  apply TypedArrayFacts.ext; [exact Hl|].
  intros i Hi. rewrite Hl in Hi. change (TypedArray.len _) with 4 in Hi.
  assert (Hcases : i = 0 \/ i = 1 \/ i = 2 \/ i = 3) by lia.
  destruct Hcases as [->|[->|[->| ->]]].
  - rewrite -> Hrest by lia. reflexivity.
  - destruct (Hbytes 0 ltac:(lia)) as [H _]. cbn [Z.add] in H. rewrite H.
    vm_compute. reflexivity.
  - destruct (Hbytes 1 ltac:(lia)) as [H _]. cbn [Z.add Pos.add] in H. rewrite H.
    vm_compute. reflexivity.
  - rewrite -> Hrest by lia. reflexivity.
Defined.

Close Scope Z_scope.
Close Scope list_scope.

(* ===================================================================== *)
(** ** More on bit matrices and on the parser *)
(* ===================================================================== *)

Open Scope list_scope.
Open Scope Z_scope.

Module BitMatrixMore.

Import BitMatrix BitMatrixFacts.

Lemma set_wf (m : t) (x y : Z) : wf m -> wf (set m x y).
Proof.
  intros [Hw [Hh [Hr Hl]]]. unfold wf, set, with_bits.
  cbn [width height rowSize bits].
  rewrite TypedArrayFacts.set_length. auto.
Qed.

(** [set] makes the cell 1 and leaves every other cell. *)
Lemma get_set_cell (m : t) (x y x' y' : Z) :
  wf m -> inside m x y -> inside m x' y' ->
  get (set m x y) x' y' = if (x' =? x) && (y' =? y) then 1 else get m x' y'.
Proof.
  intros Hwf Hin Hin'.
  destruct (offset_inside m x y Hwf Hin) as [Hq Ho].
  destruct (offset_inside m x' y' Hwf Hin') as [Hq' Ho'].
  destruct Hwf as [Hw _]. destruct Hin as [Hx Hy]. destruct Hin' as [Hx' Hy'].
  rewrite -> !matrix_get_testbit by lia.
  unfold set, with_bits, offset. cbn [bits rowSize].
  rewrite -> js_idiv_small by lia. rewrite js_and_31.
  rewrite TypedArrayFacts.get_set.
  pose proof (Z.div_mod x 32 ltac:(lia)) as Hd.
  pose proof (Z.mod_pos_bound x 32 ltac:(lia)) as Hm.
  pose proof (Z.div_mod x' 32 ltac:(lia)) as Hd'.
  pose proof (Z.mod_pos_bound x' 32 ltac:(lia)) as Hm'.
  destruct (Z.eqb_spec (y' * rowSize m + x' / 32) (y * rowSize m + x / 32)) as [Eo|No].
  - assert (Ey : y' = y) by nia.
    assert (Eq : x' / 32 = x / 32) by nia.
    destruct (Z.leb_spec 0 (y * rowSize m + x / 32)); [|lia].
    destruct (Z.ltb_spec (y * rowSize m + x / 32) (TypedArray.len (bits m))); [|lia].
    cbn [andb].
    rewrite -> word_set_bit by lia.
    rewrite Eo.
    destruct (Z.eqb_spec (x' mod 32) (x mod 32)) as [Em|Nm].
    + assert (Ex : x' = x) by lia.
      rewrite Ex Ey !Z.eqb_refl. cbn [andb]. by rewrite Bool.orb_true_r.
    + destruct (Z.eqb_spec x' x) as [Ex|_]; [subst; lia|].
      cbn [andb]. by rewrite Bool.orb_false_r.
  - cbn [andb].
    destruct (Z.eqb_spec x' x) as [Ex|_]; [|reflexivity].
    destruct (Z.eqb_spec y' y) as [Ey|_]; [|reflexivity].
    subst. lia.
Qed.

End BitMatrixMore.

(** X3.  In a bit matrix as its constructor makes it, and for cells inside
    it: [get] returns 0 or 1; a new matrix is blank; [set(x, y)] makes the
    cell 1 and [flip(x, y)] complements it, and both leave every other
    cell as it was. *)
Theorem BitMatrix_set_flip_get (m : BitMatrix.t) (x y x' y' : Z) :
  BitMatrixFacts.wf m -> BitMatrixFacts.inside m x y -> BitMatrixFacts.inside m x' y' ->
  (BitMatrix.get m x y = 0 \/ BitMatrix.get m x y = 1)
  /\ BitMatrix.get (BitMatrix.make (BitMatrix.width m) (BitMatrix.height m)) x y = 0
  /\ BitMatrix.get (BitMatrix.set m x y) x' y'
     = (if (x' =? x) && (y' =? y) then 1 else BitMatrix.get m x' y')
  /\ BitMatrix.get (BitMatrix.flip m x y) x' y'
     = (if (x' =? x) && (y' =? y) then 1 - BitMatrix.get m x' y'
        else BitMatrix.get m x' y')
  /\ BitMatrixFacts.wf (BitMatrix.set m x y)
  /\ BitMatrixFacts.wf (BitMatrix.flip m x y).
Proof.
  intros Hwf Hin Hin'.
  split.
  { apply BitMatrixFacts.matrix_get_bit. destruct Hwf as [Hw _]. destruct Hin. lia. }
  split; [apply BitMatrix_get_make|].
  split; [by apply BitMatrixMore.get_set_cell|].
  split; [by apply BitMatrixFacts.get_flip|].
  split; [by apply BitMatrixMore.set_wf | by apply BitMatrixFacts.flip_wf].
Qed.

(** The theorem at a matrix of 40 columns and 3 rows, with the cells
    (33, 1) and (34, 1). *)
Lemma BitMatrix_set_flip_get_witness :
  let m := BitMatrix.set (BitMatrix.make 40 3) 33 1 in
  BitMatrixFacts.wf m
  /\ BitMatrix.get (BitMatrix.set m 33 1) 34 1 = 0
  /\ BitMatrix.get (BitMatrix.flip m 33 1) 33 1 = 0.
Proof.
  intros m.
  assert (Hwf : BitMatrixFacts.wf m).
  { apply BitMatrixMore.set_wf. apply BitMatrixFacts.matrix_make_wf; lia. }
  assert (Hin : forall x, 0 <= x < 40 -> BitMatrixFacts.inside m x 1).
  { intros x Hx. unfold BitMatrixFacts.inside. cbn. lia. }
  split; [exact Hwf|].
  destruct (BitMatrix_set_flip_get m 33 1 34 1 Hwf (Hin 33 ltac:(lia)) (Hin 34 ltac:(lia)))
    as [_ [_ [Hset _]]].
  destruct (BitMatrix_set_flip_get m 33 1 33 1 Hwf (Hin 33 ltac:(lia)) (Hin 33 ltac:(lia)))
    as [_ [_ [_ [Hflip _]]]].
  split.
  - rewrite Hset. vm_compute. reflexivity.
  - rewrite Hflip. vm_compute. reflexivity.
Defined.

Close Scope Z_scope.
Close Scope list_scope.

(* ===================================================================== *)
(** ** Masks, unmasking and mirroring *)
(* ===================================================================== *)

Open Scope list_scope.
Open Scope Z_scope.

(** The eight mask conditions in ordinary arithmetic, by the number of the
    mask; [x] is the column and [y] the row. *)
Definition maskCondition (mask x y : Z) : bool :=
  match mask with
  | 0 => (y + x) mod 2 =? 0
  | 1 => y mod 2 =? 0
  | 2 => x mod 3 =? 0
  | 3 => (y + x) mod 3 =? 0
  | 4 => (y / 2 + x / 3) mod 2 =? 0
  | 5 => (y * x) mod 2 + (y * x) mod 3 =? 0
  | 6 => ((y * x) mod 2 + (y * x) mod 3) mod 2 =? 0
  | _ => ((y * x) mod 3 + (y + x) mod 2) mod 2 =? 0
  end.

Module MaskFacts.

Lemma isApplyMask_condition (mask x y : Z) :
  0 <= mask < 8 -> 0 <= x < 2 ^ 15 -> 0 <= y < 2 ^ 15 ->
  isApplyMask mask x y = Ok (maskCondition mask x y).
Proof.
  intros Hmask Hx Hy.
  assert (Hxy : 0 <= y * x) by nia.
  assert (Hcases : mask = 0 \/ mask = 1 \/ mask = 2 \/ mask = 3
                   \/ mask = 4 \/ mask = 5 \/ mask = 6 \/ mask = 7) by lia.
  destruct Hcases as [->|[->|[->|[->|[->|[->|[->| ->]]]]]]];
    unfold isApplyMask, maskCondition, bind, js_rem;
    rewrite ?js_and_1;
    rewrite -> ?Z.rem_mod_nonneg by lia;
    try reflexivity.
  rewrite -> !js_idiv_small by lia. reflexivity.
Qed.

Lemma isApplyMask_illegal (mask x y : Z) :
  mask < 0 \/ 8 <= mask -> exists e, isApplyMask mask x y = Throw e.
Proof.
  intros Hmask. unfold isApplyMask.
  destruct mask as [|m|m]; [lia| |by eexists].
  do 4 (destruct m as [m|m|]; try lia; try by eexists).
Qed.

Lemma applies_condition (mask x y : Z) :
  0 <= mask < 8 -> 0 <= x < 2 ^ 15 -> 0 <= y < 2 ^ 15 ->
  ParserFacts.applies mask x y = maskCondition mask x y.
Proof.
  intros Hmask Hx Hy. unfold ParserFacts.applies.
  by rewrite isApplyMask_condition.
Qed.

End MaskFacts.

(** X4.  For a mask number from 0 to 7 and a cell with coordinates below
    32768, [isApplyMask] returns the mask condition of that number:
    (y + x) mod 2 = 0, y mod 2 = 0, x mod 3 = 0, (y + x) mod 3 = 0,
    (y div 2 + x div 3) mod 2 = 0, yx mod 2 + yx mod 3 = 0,
    (yx mod 2 + yx mod 3) mod 2 = 0, (yx mod 3 + (y + x) mod 2) mod 2 = 0.
    For every other integer mask number it throws. *)
Theorem isApplyMask_conditions (mask x y : Z) :
  0 <= x < 2 ^ 15 -> 0 <= y < 2 ^ 15 ->
  (0 <= mask < 8 -> isApplyMask mask x y = Ok (maskCondition mask x y))
  /\ (mask < 0 \/ 8 <= mask -> exists e, isApplyMask mask x y = Throw e).
Proof.
  intros Hx Hy. split.
  - intros Hmask. by apply MaskFacts.isApplyMask_condition.
  - apply MaskFacts.isApplyMask_illegal.
Qed.

(** The theorem at the column 4 and the row 7. *)
Lemma isApplyMask_conditions_witness :
  isApplyMask 5 4 7 = Ok false /\ exists e, isApplyMask 8 4 7 = Throw e.
Proof.
  destruct (isApplyMask_conditions 5 4 7 ltac:(lia) ltac:(lia)) as [H5 _].
  destruct (isApplyMask_conditions 8 4 7 ltac:(lia) ltac:(lia)) as [_ H8].
  split; [exact (H5 ltac:(lia)) | exact (H8 ltac:(lia))].
Defined.

(** X5.  On a parser as its constructor makes it, [unmask] with a mask
    number from 0 to 7 throws nothing, keeps the side, and complements
    exactly the cells of the square that satisfy the mask condition;
    [remask] with the same number afterwards gives every cell of the
    square its first value. *)
Theorem unmask_remask_cells (p : BitMatrixParser.t) (mask : Z) :
  ParserFacts.wf p -> 0 <= mask < 8 -> BitMatrixParser.size p <= 2 ^ 15 ->
  let unmasked := BitMatrixParser.unmask p mask in
  let remasked := BitMatrixParser.remask (fst unmasked) mask in
  snd unmasked = None
  /\ snd remasked = None
  /\ BitMatrixParser.size (fst unmasked) = BitMatrixParser.size p
  /\ BitMatrixParser.size (fst remasked) = BitMatrixParser.size p
  /\ forall x y, 0 <= x < BitMatrixParser.size p -> 0 <= y < BitMatrixParser.size p ->
       BitMatrix.get (BitMatrixParser.matrix (fst unmasked)) x y
       = (if maskCondition mask x y
          then 1 - BitMatrix.get (BitMatrixParser.matrix p) x y
          else BitMatrix.get (BitMatrixParser.matrix p) x y)
       /\ BitMatrix.get (BitMatrixParser.matrix (fst remasked)) x y
          = BitMatrix.get (BitMatrixParser.matrix p) x y.
Proof.
  intros Hwf Hmask Hsize unmasked remasked.
  destruct (ParserFacts.unmask_flips p mask Hwf Hmask) as [He [Hwf1 [Hsize1 Hget1]]].
  destruct (ParserFacts.unmask_flips _ mask Hwf1 Hmask) as [He2 [_ [Hsize2 _]]].
  split; [exact He|]. split; [exact He2|]. split; [exact Hsize1|].
  split; [unfold remasked, BitMatrixParser.remask, unmasked; congruence|].
  intros x y Hx Hy. split.
  - unfold unmasked. rewrite -> Hget1 by lia.
    rewrite -> MaskFacts.applies_condition by lia. reflexivity.
  - by apply ParserFacts.remask_restores.
Qed.

(** The theorem at the parser of a blank matrix of 21 by 21 cells and the
    mask 3. *)
Lemma unmask_remask_cells_witness :
  let p := BitMatrixParser.make (BitMatrix.make 21 21) in
  BitMatrix.get (BitMatrixParser.matrix (fst (BitMatrixParser.unmask p 3))) 2 1 = 1
  /\ BitMatrix.get (BitMatrixParser.matrix
       (fst (BitMatrixParser.remask (fst (BitMatrixParser.unmask p 3)) 3))) 2 1 = 0.
Proof.
  intros p.
  assert (Hwf : ParserFacts.wf p).
  { apply ParserFacts.parser_make_wf. apply BitMatrixFacts.matrix_make_wf; lia. }
  assert (Hsize : BitMatrixParser.size p = 21) by reflexivity.
  destruct (unmask_remask_cells p 3 Hwf ltac:(lia) ltac:(rewrite Hsize; lia))
    as [_ [_ [_ [_ Hget]]]].
  destruct (Hget 2 1 ltac:(rewrite Hsize; lia) ltac:(rewrite Hsize; lia)) as [H1 H2].
  split.
  - etransitivity; [exact H1|]. vm_compute. reflexivity.
  - etransitivity; [exact H2|]. vm_compute. reflexivity.
Defined.

(** X6.  On a parser as its constructor makes it, [mirror] keeps the
    side and transposes the square: the cell (x, y) gets the value that
    the cell (y, x) had.  Mirroring twice gives every cell of the square
    its first value. *)
Theorem mirror_transposes_square (p : BitMatrixParser.t) :
  ParserFacts.wf p ->
  BitMatrixParser.size (BitMatrixParser.mirror p) = BitMatrixParser.size p
  /\ forall x y, 0 <= x < BitMatrixParser.size p -> 0 <= y < BitMatrixParser.size p ->
       BitMatrix.get (BitMatrixParser.matrix (BitMatrixParser.mirror p)) x y
       = BitMatrix.get (BitMatrixParser.matrix p) y x
       /\ BitMatrix.get (BitMatrixParser.matrix
            (BitMatrixParser.mirror (BitMatrixParser.mirror p))) x y
          = BitMatrix.get (BitMatrixParser.matrix p) x y.
Proof.
  intros Hwf.
  destruct (ParserFacts.mirror_transposes p Hwf) as [Hwf1 [Hsize1 Hget1]].
  destruct (ParserFacts.mirror_transposes _ Hwf1) as [_ [_ Hget2]].
  split; [exact Hsize1|].
  intros x y Hx Hy. split.
  - by apply Hget1.
  - rewrite -> Hget2 by lia. by apply Hget1.
Qed.

(** The theorem at the parser of a matrix of 21 by 21 cells whose only
    dark cell is (5, 2). *)
Lemma mirror_transposes_square_witness :
  let p := BitMatrixParser.make (BitMatrix.set (BitMatrix.make 21 21) 5 2) in
  BitMatrix.get (BitMatrixParser.matrix (BitMatrixParser.mirror p)) 2 5 = 1
  /\ BitMatrix.get (BitMatrixParser.matrix (BitMatrixParser.mirror p)) 5 2 = 0.
Proof.
  intros p.
  assert (Hwf : ParserFacts.wf p).
  { apply ParserFacts.parser_make_wf. apply BitMatrixMore.set_wf.
    apply BitMatrixFacts.matrix_make_wf; lia. }
  assert (Hsize : BitMatrixParser.size p = 21) by reflexivity.
  destruct (mirror_transposes_square p Hwf) as [_ Hget].
  destruct (Hget 2 5 ltac:(rewrite Hsize; lia) ltac:(rewrite Hsize; lia)) as [H1 _].
  destruct (Hget 5 2 ltac:(rewrite Hsize; lia) ltac:(rewrite Hsize; lia)) as [H2 _].
  split.
  - etransitivity; [exact H1|]. vm_compute. reflexivity.
  - etransitivity; [exact H2|]. vm_compute. reflexivity.
Defined.

Close Scope Z_scope.
Close Scope list_scope.

(* ===================================================================== *)
(** ** Reading bits from a byte source *)
(* ===================================================================== *)

Open Scope list_scope.
Open Scope Z_scope.

(** The bit of a byte array at a position counted in bits, the first bit
    of a byte being its most significant one. *)
Definition bitAt (bytes : list Z) (i : Z) : Z :=
  Z.b2z (Z.testbit (TypedArray.get bytes (i / 8)) (7 - i mod 8)).

(** The [n] bits that follow the position [p]. *)
Definition bitsAt (bytes : list Z) (p n : Z) : list Z :=
  List.map (fun j => bitAt bytes (p + j)) (below (Z.to_nat n)).

Module BitSourceMore.

Import BitSource BitSourceFacts.

Lemma bitsValue_app (a b : list Z) :
  bitsValue (a ++ b)%list = bitsValue a * 2 ^ Z.of_nat (List.length b) + bitsValue b.
Proof.
  induction b as [|bit b IH] using List.rev_ind.
  - rewrite List.app_nil_r. cbn. lia.
  - rewrite List.app_assoc !BitArrayMore.bitsValue_snoc IH.
    rewrite List.length_app. cbn [List.length].
    rewrite Nat2Z.inj_add. change (Z.of_nat 1) with 1.
    rewrite -> Z.pow_add_r by lia. lia.
Qed.

Lemma below_length (n : nat) : List.length (below n) = n.
Proof. unfold below. by rewrite List.length_map List.length_seq. Qed.

Lemma bitsAt_length (bytes : list Z) (p n : Z) :
  0 <= n -> Z.of_nat (List.length (bitsAt bytes p n)) = n.
Proof. intros Hn. unfold bitsAt. rewrite List.length_map below_length. lia. Qed.

Lemma bitsAt_add (bytes : list Z) (p n m : Z) :
  0 <= n -> 0 <= m ->
  bitsAt bytes p (n + m) = bitsAt bytes p n ++ bitsAt bytes (p + n) m.
Proof.
  intros Hn Hm. unfold bitsAt.
  rewrite -> Z2Nat.inj_add by lia.
  rewrite BitArrayFacts.below_add List.map_app. f_equal.
  rewrite List.map_map. apply List.map_ext. intros j. f_equal. lia.
Qed.

(** The number that the [n] bits after [p] spell. *)
Definition valueAt (bytes : list Z) (p n : Z) : Z := bitsValue (bitsAt bytes p n).

Lemma valueAt_add (bytes : list Z) (p n m : Z) :
  0 <= n -> 0 <= m ->
  valueAt bytes p (n + m) = valueAt bytes p n * 2 ^ m + valueAt bytes (p + n) m.
Proof.
  intros Hn Hm. unfold valueAt.
  rewrite -> bitsAt_add by lia. rewrite bitsValue_app.
  by rewrite -> bitsAt_length by lia.
Qed.

Lemma valueAt_0 (bytes : list Z) (p : Z) : valueAt bytes p 0 = 0.
Proof. reflexivity. Qed.

Lemma valueAt_1 (bytes : list Z) (p : Z) : valueAt bytes p 1 = bitAt bytes p.
Proof.
  unfold valueAt, bitsAt. change (Z.to_nat 1) with 1%nat. cbn.
  rewrite Z.add_0_r. unfold bitAt. by destruct (Z.testbit _ _).
Qed.

Lemma valueAt_bound (bytes : list Z) (p n : Z) :
  0 <= n -> 0 <= valueAt bytes p n < 2 ^ n.
Proof.
  intros Hn. unfold valueAt.
  pose proof (BitArrayMore.bitsValue_bound (bitsAt bytes p n)) as H.
  rewrite -> bitsAt_length in H by exact Hn. apply H.
  apply List.Forall_forall. intros bit Hbit.
  apply List.in_map_iff in Hbit as [j [<- _]].
  unfold bitAt. destruct (Z.testbit _ _); cbn; lia.
Qed.

(** The bits of one byte. *)
Lemma valueAt_in_byte (bytes : list Z) (q o : Z) (n : nat) :
  0 <= o -> o + Z.of_nat n <= 8 ->
  valueAt bytes (8 * q + o) (Z.of_nat n)
  = (TypedArray.get bytes q / 2 ^ (8 - o - Z.of_nat n)) mod 2 ^ Z.of_nat n.
Proof.
  intros Ho. induction n as [|n IH]; intros Hn.
  - cbn. by rewrite Z.mod_1_r.
  - rewrite Nat2Z.inj_succ. unfold Z.succ.
    rewrite -> valueAt_add by lia. rewrite -> IH by lia.
    rewrite valueAt_1. unfold bitAt.
    replace ((8 * q + o + Z.of_nat n) / 8) with q
      by (apply (Z.div_unique _ 8 q (o + Z.of_nat n)); lia).
    replace ((8 * q + o + Z.of_nat n) mod 8) with (o + Z.of_nat n)
      by (apply (Z.mod_unique _ 8 q (o + Z.of_nat n)); lia).
    set (x := TypedArray.get bytes q).
    set (k := 8 - o - (Z.of_nat n + 1)).
    replace (7 - (o + Z.of_nat n)) with k by (unfold k; lia).
    replace (8 - o - Z.of_nat n) with (k + 1) by (unfold k; lia).
    assert (Hk : 0 <= k) by (unfold k; lia).
    rewrite -> Z.testbit_spec' by lia.
    rewrite -> (Z.pow_add_r 2 k 1) by lia.
    rewrite <- Z.div_div by (try apply Z.pow_pos_nonneg; lia).
    set (y := x / 2 ^ k).
    rewrite -> (Z.pow_add_r 2 (Z.of_nat n) 1) by lia.
    change (2 ^ 1) with 2.
    rewrite (Z.mul_comm (2 ^ Z.of_nat n) 2).
    rewrite -> (Z.rem_mul_r y 2 (2 ^ Z.of_nat n)) by (try apply Z.pow_pos_nonneg; lia).
    lia.
Qed.

Lemma valueAt_byte (bytes : list Z) (q : Z) :
  List.Forall (fun b => 0 <= b < 256) bytes ->
  valueAt bytes (8 * q) 8 = TypedArray.get bytes q.
Proof.
  intros Hbytes.
  pose proof (valueAt_in_byte bytes q 0 8 ltac:(lia) ltac:(lia)) as H.
  rewrite Z.add_0_r in H. change (Z.of_nat 8) with 8 in H. rewrite H.
  change (8 - 0 - 8) with 0. rewrite Z.div_1_r.
  apply Z.mod_small. exact (get_byte bytes q Hbytes).
Qed.

(** The field that [read] takes out of a byte: [t] bits that end [k]
    bits above the end of the byte. *)
Lemma field_value (x t k : Z) :
  0 <= x < 256 -> 0 < t -> 0 <= k -> t + k <= 8 ->
  js_shr (js_and x (js_shl (js_shr 0xff (8 - t)) k)) k = (x / 2 ^ k) mod 2 ^ t.
Proof.
  intros Hx Ht Hk Htk.
  assert (Hmask : js_shl (js_shr 0xff (8 - t)) k = Z.shiftl (Z.ones t) k).
  { assert (Ct : t = 1 \/ t = 2 \/ t = 3 \/ t = 4 \/ t = 5 \/ t = 6 \/ t = 7 \/ t = 8)
      by lia.
    assert (Ck : k = 0 \/ k = 1 \/ k = 2 \/ k = 3 \/ k = 4 \/ k = 5 \/ k = 6 \/ k = 7)
      by lia.
    destruct Ct as [->|[->|[->|[->|[->|[->|[->| ->]]]]]]];
      destruct Ck as [->|[->|[->|[->|[->|[->|[->| ->]]]]]]];
      try lia; vm_compute; reflexivity. }
  rewrite Hmask.
  assert (Hp : 0 < 2 ^ k) by (apply Z.pow_pos_nonneg; lia).
  assert (Hm : 0 <= Z.shiftl (Z.ones t) k < 256).
  { rewrite -> Z.shiftl_mul_pow2 by lia. rewrite Z.ones_equiv.
    assert (Hpt : 2 ^ t * 2 ^ k <= 2 ^ 8).
    { rewrite <- Z.pow_add_r by lia. apply Z.pow_le_mono_r; lia. }
    assert (0 < 2 ^ t) by (apply Z.pow_pos_nonneg; lia).
    change (2 ^ 8) with 256 in Hpt. nia. }
  rewrite -> js_and_small by lia.
  assert (H0 : 0 <= Z.land x (Z.shiftl (Z.ones t) k)) by (apply Z.land_nonneg; lia).
  pose proof (land_le x (Z.shiftl (Z.ones t) k) ltac:(lia)) as H1.
  unfold js_shr. rewrite -> toInt32_small by lia.
  rewrite -> (Z.mod_small k 32) by lia.
  rewrite Z.shiftr_land. rewrite -> Z.shiftr_shiftl_l by lia.
  rewrite Z.sub_diag Z.shiftl_0_r.
  rewrite -> Z.land_ones by lia.
  by rewrite -> Z.shiftr_div_pow2 by lia.
Qed.

(** The whole bytes that [read] takes. *)
Lemma read_bytes (bytes : list Z) (c : nat) (i r q : Z) :
  List.Forall (fun b => 0 <= b < 256) bytes ->
  0 <= r -> (r + 1) * 2 ^ (8 * Z.of_nat c) <= 2 ^ 31 ->
  for_loop c i (fun _ st =>
      (js_or (js_shl (fst st) 8) (js_and (TypedArray.get bytes (snd st)) 0xff),
       snd st + 1)) (r, q)
  = (r * 2 ^ (8 * Z.of_nat c) + valueAt bytes (8 * q) (8 * Z.of_nat c), q + Z.of_nat c).
Proof.
  intros Hbytes. revert i r q. induction c as [|c IH]; intros i r q Hr Hlt.
  - cbn [for_loop]. rewrite valueAt_0. cbn. f_equal; lia.
  - cbn [for_loop fst snd].
    pose proof (get_byte bytes q Hbytes) as Hx.
    rewrite -> js_and_byte by exact Hx.
    assert (Hp : 0 < 2 ^ (8 * Z.of_nat c)) by (apply Z.pow_pos_nonneg; lia).
    assert (He : 2 ^ (8 * Z.of_nat (S c)) = 256 * 2 ^ (8 * Z.of_nat c)).
    { rewrite Nat2Z.inj_succ. unfold Z.succ.
      replace (8 * (Z.of_nat c + 1)) with (8 + 8 * Z.of_nat c) by lia.
      by rewrite -> Z.pow_add_r by lia. }
    rewrite He in Hlt.
    rewrite -> js_or_shl by (change (2 ^ 8) with 256; nia).
    change (2 ^ 8) with 256.
    rewrite -> IH by nia.
    replace (8 * Z.of_nat (S c)) with (8 + 8 * Z.of_nat c) by lia.
    rewrite -> (valueAt_add bytes (8 * q) 8) by lia.
    rewrite -> valueAt_byte by exact Hbytes.
    rewrite -> (Z.pow_add_r 2 8 (8 * Z.of_nat c)) by lia. change (2 ^ 8) with 256.
    f_equal; [|lia].
    replace (8 * (q + 1)) with (8 * q + 8) by lia. lia.
Qed.

(** The second and the third step of [read]: whole bytes, then a part
    of a byte. *)
Definition readTail (bytes : list Z) (result length bitOffset byteOffset : Z) : Z * t :=
  if length >? 0 then
    let '(result, byteOffset) :=
      for_loop (Z.to_nat (length / 8)) 0 (fun _ st =>
        (js_or (js_shl (fst st) 8) (js_and (TypedArray.get bytes (snd st)) 0xff),
         snd st + 1))
        (result, byteOffset) in
    let length := length mod 8 in
    if length >? 0 then
      let bitsToNotRead := 8 - length in
      let mask := js_shl (js_shr 0xff bitsToNotRead) bitsToNotRead in
      (js_or (js_shl result length)
             (js_shr (js_and (TypedArray.get bytes byteOffset) mask) bitsToNotRead),
       Build bytes (bitOffset + length) byteOffset)
    else (result, Build bytes bitOffset byteOffset)
  else (result, Build bytes bitOffset byteOffset).

Lemma readTail_spec (bytes : list Z) (r n q : Z) :
  List.Forall (fun b => 0 <= b < 256) bytes ->
  0 <= r -> 0 <= n -> (r + 1) * 2 ^ n <= 2 ^ 31 ->
  readTail bytes r n 0 q
  = (r * 2 ^ n + valueAt bytes (8 * q) n, Build bytes (n mod 8) (q + n / 8)).
Proof.
  intros Hbytes Hr Hn Hlt. unfold readTail.
  destruct (Z.gtb_spec n 0) as [Hpos|Hzero].
  2:{ assert (n = 0) by lia. subst n. rewrite valueAt_0. cbn. f_equal; [lia|].
      f_equal. lia. }
  pose proof (Z.div_mod n 8 ltac:(lia)) as Hd.
  pose proof (Z.mod_pos_bound n 8 ltac:(lia)) as Hm.
  assert (Hc : 0 <= n / 8) by (apply Z.div_pos; lia).
  set (c := n / 8) in *. set (l := n mod 8) in *.
  assert (Hpl : 0 < 2 ^ l) by (apply Z.pow_pos_nonneg; lia).
  assert (Hpc : 0 < 2 ^ (8 * c)) by (apply Z.pow_pos_nonneg; lia).
  assert (Hpn : 2 ^ n = 2 ^ (8 * c) * 2 ^ l).
  { rewrite Hd. by rewrite -> Z.pow_add_r by lia. }
  rewrite -> (read_bytes bytes (Z.to_nat c) 0 r q Hbytes Hr)
    by (rewrite -> Z2Nat.id by lia; nia).
  rewrite -> Z2Nat.id by lia.
  pose proof (valueAt_bound bytes (8 * q) (8 * c) ltac:(lia)) as Hv.
  destruct (Z.gtb_spec l 0) as [Hl|Hl].
  - cbv zeta.
    pose proof (get_byte bytes (q + c) Hbytes) as Hx.
    rewrite -> (field_value _ l (8 - l)) by lia.
    pose proof (valueAt_in_byte bytes (q + c) 0 (Z.to_nat l) ltac:(lia)
                  ltac:(rewrite -> Z2Nat.id by lia; lia)) as Hf.
    rewrite -> Z2Nat.id in Hf by lia.
    rewrite Z.add_0_r Z.sub_0_r in Hf. rewrite <- Hf.
    pose proof (valueAt_bound bytes (8 * (q + c)) l ltac:(lia)) as Hvl.
    rewrite -> js_or_shl by (try lia; nia).
    f_equal.
    replace (valueAt bytes (8 * q) n) with (valueAt bytes (8 * q) (8 * c + l))
      by (f_equal; lia).
    rewrite -> (valueAt_add bytes (8 * q) (8 * c) l) by lia.
    rewrite Hpn.
    replace (8 * q + 8 * c) with (8 * (q + c)) by lia. lia.
  - assert (l = 0) by lia.
    f_equal.
    replace n with (8 * c) by lia. lia.
    f_equal. lia.
Qed.

(** The first step apart, [read] is [readTail]. *)
Lemma read_unfold (bytes : list Z) (o q n : Z) :
  read (Build bytes o q) n
  = let '(result, length, bitOffset, byteOffset) :=
      if o >? 0 then
        let bitsLeft := 8 - o in
        let toRead := Z.min n bitsLeft in
        let bitsToNotRead := bitsLeft - toRead in
        let mask := js_shl (js_shr 0xff (8 - toRead)) bitsToNotRead in
        let length := n - toRead in
        let bitOffset := o + toRead in
        let result := js_shr (js_and (TypedArray.get bytes q) mask) bitsToNotRead in
        if bitOffset =? 8 then (result, length, 0, q + 1)
        else (result, length, bitOffset, q)
      else (0, n, o, q) in
    readTail bytes result length bitOffset byteOffset.
Proof. reflexivity. Qed.

(** [read] returns the number that the next [length] bits spell and moves
    the cursor past them. *)
Lemma read_spec (s : t) (n : Z) :
  wf s -> 0 <= n <= 31 ->
  read s n
  = (valueAt (bytes s) (position s) n,
     Build (bytes s) ((bitOffset s + n) mod 8) (byteOffset s + (bitOffset s + n) / 8)).
Proof.
  destruct s as [bytes o q]. intros [Ho Hbytes] Hn.
  cbn [bitOffset byteOffset BitSource.bytes] in *. unfold position.
  cbn [bitOffset byteOffset BitSource.bytes].
  rewrite read_unfold.
  assert (Hpn : 2 ^ n <= 2 ^ 31) by (apply Z.pow_le_mono_r; lia).
  destruct (Z.gtb_spec o 0) as [Hpos|Hzero].
  - cbv zeta.
    destruct (Z.eq_dec n 0) as [->|Hn0].
    + rewrite -> Z.min_l by lia.
      change (js_shr 255 (8 - 0)) with 0.
      assert (Hz : forall k, js_shl 0 k = 0).
      { intros k. unfold js_shl. rewrite -> (toInt32_small 0) by lia.
        rewrite Z.shiftl_0_l. by rewrite -> toInt32_small by lia. }
      rewrite Hz.
      assert (Hand : forall x, js_and x 0 = 0).
      { intros x. unfold js_and. rewrite -> (toInt32_small 0) by lia. apply Z.land_0_r. }
      rewrite Hand.
      assert (Hshr : forall k, js_shr 0 k = 0).
      { intros k. unfold js_shr. rewrite -> (toInt32_small 0) by lia.
        apply Z.shiftr_0_l. }
      rewrite Hshr.
      destruct (Z.eqb_spec (o + 0) 8) as [E|_]; [lia|].
      unfold readTail. change (0 - 0) with 0. cbn [Z.gtb Z.compare].
      rewrite ?valueAt_0 ?Z.add_0_r.
      rewrite -> Z.mod_small by lia. rewrite -> Z.div_small by lia.
      by rewrite Z.add_0_r.
    + set (t := Z.min n (8 - o)).
      assert (Ht : 0 < t <= 8 - o) by (unfold t; lia).
      pose proof (get_byte bytes q Hbytes) as Hx.
      rewrite -> (field_value _ t (8 - o - t)) by lia.
      pose proof (valueAt_in_byte bytes q o (Z.to_nat t) ltac:(lia)
                    ltac:(rewrite -> Z2Nat.id by lia; lia)) as Hf.
      rewrite -> Z2Nat.id in Hf by lia. rewrite <- Hf.
      pose proof (valueAt_bound bytes (8 * q + o) t ltac:(lia)) as Hv.
      destruct (Z.le_gt_cases n (8 - o)) as [Hle|Hgt].
      * assert (Et : t = n) by (unfold t; lia). rewrite Et. rewrite Et in Hv.
        rewrite Z.sub_diag.
        destruct (Z.eqb_spec (o + n) 8) as [E|N].
        -- unfold readTail. cbn [Z.gtb Z.compare].
           rewrite E. change (8 mod 8) with 0. change (8 / 8) with 1. reflexivity.
        -- unfold readTail. cbn [Z.gtb Z.compare].
           rewrite -> Z.mod_small by lia. rewrite -> Z.div_small by lia.
           by rewrite Z.add_0_r.
      * assert (Et : t = 8 - o) by (unfold t; lia).
        rewrite Et. rewrite Et in Hv.
        replace (o + (8 - o)) with 8 by lia. rewrite Z.eqb_refl.
        assert (Hp1 : 0 < 2 ^ (n - (8 - o))) by (apply Z.pow_pos_nonneg; lia).
        assert (Hsplit : 2 ^ n = 2 ^ (8 - o) * 2 ^ (n - (8 - o))).
        { rewrite <- Z.pow_add_r by lia. f_equal. lia. }
        rewrite -> readTail_spec by (try assumption; try lia; nia).
        f_equal.
        -- replace n with ((8 - o) + (n - (8 - o))) at 3 by lia.
           rewrite -> (valueAt_add bytes (8 * q + o) (8 - o) (n - (8 - o))) by lia.
           replace (8 * q + o + (8 - o)) with (8 * (q + 1)) by lia. reflexivity.
        -- replace (o + n) with ((n - (8 - o)) + 1 * 8) by lia.
           rewrite -> Z.mod_add by lia. rewrite -> Z.div_add by lia.
           f_equal. lia.
  - assert (o = 0) by lia. subst o.
    rewrite -> readTail_spec by (try assumption; lia).
    rewrite !Z.add_0_l Z.add_0_r. reflexivity.
Qed.

End BitSourceMore.

(** X7.  On a source over bytes, with its bit offset within a byte,
    [read(length)] for a length from 0 to 31 returns the number that the
    next [length] bits spell, the first bit of a byte being its most
    significant one and bits past the end of the bytes being read as 0.
    It moves the cursor by [length] bits and lowers [available()] by
    [length]; the bytes stay as they are. *)
Theorem BitSource_read_bits (s : BitSource.t) (n : Z) :
  BitSourceFacts.wf s -> 0 <= n <= 31 ->
  let value := fst (BitSource.read s n) in
  let s' := snd (BitSource.read s n) in
  value = bitsValue (bitsAt (BitSource.bytes s) (BitSourceFacts.position s) n)
  /\ 0 <= value < 2 ^ n
  /\ BitSourceFacts.wf s'
  /\ BitSource.bytes s' = BitSource.bytes s
  /\ BitSourceFacts.position s' = BitSourceFacts.position s + n
  /\ BitSource.available s' = BitSource.available s - n.
Proof.
  intros Hwf Hn value s'. unfold value, s'.
  rewrite -> BitSourceMore.read_spec by assumption. cbn [fst snd].
  destruct Hwf as [Ho Hbytes].
  pose proof (Z.div_mod (BitSource.bitOffset s + n) 8 ltac:(lia)) as Hd.
  pose proof (Z.mod_pos_bound (BitSource.bitOffset s + n) 8 ltac:(lia)) as Hm.
  split; [reflexivity|].
  split; [apply BitSourceMore.valueAt_bound; lia|].
  split; [split; [exact Hm | exact Hbytes]|].
  split; [reflexivity|].
  unfold BitSourceFacts.position, BitSource.available.
  cbn [BitSource.bitOffset BitSource.byteOffset BitSource.bytes].
  split; lia.
Qed.

(** The theorem at the bytes 0xA5 0x3C 0xFF, for a read of 3 bits and
    then of 11 bits. *)
Lemma BitSource_read_bits_witness :
  let s := BitSource.make (0xa5 :: 0x3c :: 0xff :: nil) in
  BitSourceFacts.wf s
  /\ fst (BitSource.read s 3) = 5
  /\ fst (BitSource.read (snd (BitSource.read s 3)) 11) = 0x14f
  /\ BitSource.available (snd (BitSource.read (snd (BitSource.read s 3)) 11)) = 10.
Proof.
  intros s.
  assert (Hwf : BitSourceFacts.wf s).
  { apply BitSourceFacts.source_make_wf. repeat constructor; lia. }
  destruct (BitSource_read_bits s 3 Hwf ltac:(lia)) as [H1 [_ [Hwf1 _]]].
  destruct (BitSource_read_bits _ 11 Hwf1 ltac:(lia)) as [H2 [_ [_ [_ [_ H3]]]]].
  split; [exact Hwf|].
  split; [etransitivity; [exact H1|]; vm_compute; reflexivity|].
  split; [etransitivity; [exact H2|]; vm_compute; reflexivity|].
  etransitivity; [exact H3|]. vm_compute. reflexivity.
Defined.


Close Scope Z_scope.
Close Scope list_scope.

(* ===================================================================== *)
(** ** Bits packed into bytes and read back *)
(* ===================================================================== *)

Open Scope list_scope.
Open Scope Z_scope.

Module PackedBits.

Import BitSourceMore.

(** The bit [k] places before the last one of a list of bits read as a
    number. *)
Lemma bitsValue_testbit (bits : list Z) (k : nat) :
  List.Forall (fun bit => bit = 0 \/ bit = 1) bits ->
  (k < List.length bits)%coq_nat ->
  Z.b2z (Z.testbit (bitsValue bits) (Z.of_nat k))
  = List.nth (Nat.sub (Nat.sub (List.length bits) 1) k) bits 0.
Proof.
  revert k. induction bits as [|bit bits IH] using List.rev_ind; intros k Hbits Hk.
  - cbn in Hk. lia.
  - apply List.Forall_app in Hbits as [Hbits Hbit].
    apply List.Forall_inv in Hbit.
    rewrite BitArrayMore.bitsValue_snoc.
    rewrite List.length_app in Hk |- *. cbn [List.length] in Hk |- *.
    destruct k as [|k].
    + replace (Nat.sub (Nat.sub (List.length bits + 1)%coq_nat 1) 0)
        with (List.length bits) by lia.
      rewrite List.nth_middle. change (Z.of_nat 0) with 0.
      destruct Hbit as [-> | ->].
      * rewrite Z.add_0_r. by rewrite Z.testbit_even_0.
      * by rewrite Z.testbit_odd_0.
    + rewrite Nat2Z.inj_succ.
      replace (Nat.sub (Nat.sub (List.length bits + 1)%coq_nat 1) (S k))
        with (Nat.sub (Nat.sub (List.length bits) 1) k) by lia.
      rewrite -> List.app_nth1 by lia.
      rewrite <- IH by (try assumption; lia).
      f_equal.
      destruct Hbit as [-> | ->].
      * rewrite Z.add_0_r. apply Z.testbit_even_succ. lia.
      * apply Z.testbit_odd_succ. lia.
Qed.

(** The bits of the bytes that [toUint8Array] writes are the bits of the
    bit array. *)
Lemma bitAt_toUint8Array (b : BitArray.t) (bitOffset : Z) (array : list Z)
  (offset byteLength i : Z) :
  0 <= bitOffset -> 0 <= byteLength -> bitOffset + 8 * byteLength < 2 ^ 31 ->
  0 <= offset -> offset + byteLength <= TypedArray.len array ->
  0 <= i < 8 * byteLength ->
  bitAt (BitArray.toUint8Array b bitOffset array offset byteLength) (8 * offset + i)
  = BitArray.get b (bitOffset + i).
Proof.
  intros Hb Hl Hlt Ho Hlen Hi.
  destruct (BitArrayMore.toUint8Array_spec b bitOffset array offset byteLength
              Hb Hl Hlt Ho Hlen) as [_ [Hget _]].
  cbv zeta in Hget.
  pose proof (Z.div_mod i 8 ltac:(lia)) as Hd.
  pose proof (Z.mod_pos_bound i 8 ltac:(lia)) as Hm.
  unfold bitAt.
  replace ((8 * offset + i) / 8) with (offset + i / 8)
    by (apply (Z.div_unique _ 8 _ (i mod 8)); lia).
  replace ((8 * offset + i) mod 8) with (i mod 8)
    by (apply (Z.mod_unique _ 8 (offset + i / 8)); lia).
  rewrite -> Hget by lia.
  unfold BitArrayMore.byteAt.
  set (bits := List.map (fun j => BitArray.get b (bitOffset + 8 * (i / 8) + j)) (below 8)).
  assert (Hbits : List.Forall (fun bit => bit = 0 \/ bit = 1) bits).
  { apply List.Forall_forall. intros bit Hbit.
    apply List.in_map_iff in Hbit as [j [<- Hj]].
    apply List.in_map_iff in Hj as [k [<- Hk]]. apply List.in_seq in Hk.
    apply BitArrayFacts.array_get_bit. lia. }
  assert (Hlen8 : List.length bits = 8%nat) by reflexivity.
  pose proof (bitsValue_testbit bits (Z.to_nat (7 - i mod 8)) Hbits
                ltac:(rewrite Hlen8; lia)) as Ht.
  rewrite -> Z2Nat.id in Ht by lia. rewrite Ht Hlen8.
  replace (Nat.sub (Nat.sub 8 1) (Z.to_nat (7 - i mod 8))) with (Z.to_nat (i mod 8))
    by lia.
  unfold bits.
  assert (Hnth : forall k, (k < 8)%coq_nat ->
            List.nth k (List.map (fun j => BitArray.get b (bitOffset + 8 * (i / 8) + j))
                          (below 8)) 0
            = BitArray.get b (bitOffset + 8 * (i / 8) + Z.of_nat k)).
  { intros k Hk. do 8 (destruct k as [|k]; [reflexivity|]). lia. }
  rewrite -> Hnth by lia. f_equal. lia.
Qed.

End PackedBits.

(** X8.  Bits packed by [BitArray.toUint8Array] from the bit array's start
    into a new byte array are read back by [BitSource.read]: with the
    cursor at the bit position [p], a read of [n] bits (0 to 31) within
    the packed bytes returns the number that the bits [p .. p + n - 1] of
    the bit array spell, the first being the most significant one. *)
Theorem toUint8Array_then_read (b : BitArray.t) (byteLength p n : Z) :
  0 <= byteLength -> 8 * byteLength < 2 ^ 31 ->
  0 <= p -> 0 <= n <= 31 -> p + n <= 8 * byteLength ->
  let bytes := BitArray.toUint8Array b 0 (TypedArray.make byteLength) 0 byteLength in
  fst (BitSource.read (BitSource.Build bytes (p mod 8) (p / 8)) n)
  = bitsValue (List.map (fun j => BitArray.get b (p + j)) (below (Z.to_nat n))).
Proof.
  intros Hl Hlt Hp Hn Hpn bytes.
  assert (Hlen : 0 + byteLength <= TypedArray.len (TypedArray.make byteLength)).
  { rewrite TypedArrayFacts.len_make. lia. }
  destruct (BitArrayMore.toUint8Array_spec b 0 (TypedArray.make byteLength) 0 byteLength
              ltac:(lia) Hl ltac:(lia) ltac:(lia) Hlen) as [Hlen' [Hget Hother]].
  fold bytes in Hlen', Hget, Hother. cbv zeta in Hget, Hother.
  assert (Hbytes : List.Forall (fun x => 0 <= x < 256) bytes).
  { apply List.Forall_forall. intros x Hx.
    apply List.In_nth with (d := 0) in Hx as [k [Hk <-]].
    assert (Hk' : Z.of_nat k < byteLength).
    { rewrite TypedArrayFacts.len_make in Hlen'. unfold TypedArray.len in Hlen'. lia. }
    pose proof (Hget (Z.of_nat k) ltac:(lia)) as Hg.
    rewrite Z.add_0_l in Hg. unfold TypedArray.get in Hg.
    destruct (Z.ltb_spec (Z.of_nat k) 0) as [|_]; [lia|].
    rewrite Nat2Z.id in Hg. rewrite Hg.
    apply BitArrayMore.byteAt_byte; lia. }
  pose proof (Z.div_mod p 8 ltac:(lia)) as Hd.
  pose proof (Z.mod_pos_bound p 8 ltac:(lia)) as Hm.
  rewrite -> BitSourceMore.read_spec by first [lia | split; [exact Hm | exact Hbytes]].
  cbn [fst BitSource.bytes]. unfold BitSourceFacts.position.
  cbn [BitSource.bitOffset BitSource.byteOffset].
  unfold BitSourceMore.valueAt, bitsAt. f_equal.
  apply List.map_ext_in. intros j Hj.
  apply List.in_map_iff in Hj as [k [<- Hk]]. apply List.in_seq in Hk.
  replace (8 * (p / 8) + p mod 8 + Z.of_nat k) with (8 * 0 + (p + Z.of_nat k)) by lia.
  rewrite -> (PackedBits.bitAt_toUint8Array b 0 (TypedArray.make byteLength) 0 byteLength)
    by lia.
  reflexivity.
Qed.

(** The theorem at the sixteen bits of 0x41EC, read as 4 bits and then
    as 12 bits. *)
Lemma toUint8Array_then_read_witness :
  let b := BitArray.append (BitArray.make 0) 0x41ec 16 in
  let bytes := BitArray.toUint8Array b 0 (TypedArray.make 2) 0 2 in
  fst (BitSource.read (BitSource.Build bytes 0 0) 4) = 4
  /\ fst (BitSource.read (BitSource.Build bytes 4 0) 12) = 0x1ec.
Proof.
  intros b bytes.
  pose proof (toUint8Array_then_read b 2 0 4 ltac:(lia) ltac:(lia) ltac:(lia) ltac:(lia)
                ltac:(lia)) as H1.
  pose proof (toUint8Array_then_read b 2 4 12 ltac:(lia) ltac:(lia) ltac:(lia) ltac:(lia)
                ltac:(lia)) as H2.
  cbv zeta in H1, H2.
  split.
  - etransitivity; [exact H1|]. vm_compute. reflexivity.
  - etransitivity; [exact H2|]. vm_compute. reflexivity.
Defined.

Close Scope Z_scope.
Close Scope list_scope.

(* ===================================================================== *)
(** ** Hamming weights and distances *)
(* ===================================================================== *)

Open Scope list_scope.
Open Scope Z_scope.

(** The number of ones in the binary numeral of a number. *)
Fixpoint popcount_pos (p : positive) : Z :=
  match p with
  | xH => 1
  | xO q => popcount_pos q
  | xI q => 1 + popcount_pos q
  end.

Definition popcount (value : Z) : Z :=
  match value with
  | Zpos p => popcount_pos p
  | _ => 0
  end.

(** The number of bits in which two numbers differ. *)
Definition bitsDiffering (a b : Z) : Z := popcount (Z.lxor a b).

(** A test on all the numbers from [from] on, [count] of them. *)
Fixpoint forall_from (count : nat) (from : Z) (test : Z -> bool) : bool :=
  match count with
  | O => true
  | S count' => test from && forall_from count' (from + 1) test
  end.

Module Hamming.

Lemma forall_from_spec (count : nat) (from : Z) (test : Z -> bool) :
  forall_from count from test = true ->
  forall z, from <= z < from + Z.of_nat count -> test z = true.
Proof.
  revert from. induction count as [|count IH]; intros from H z Hz.
  - cbn in Hz. lia.
  - cbn [forall_from] in H. apply andb_prop in H as [H0 H1].
    destruct (Z.eq_dec z from) as [->|Hne]; [exact H0|].
    apply (IH (from + 1) H1). lia.
Qed.

Lemma popcount_pos_positive (p : positive) : 0 < popcount_pos p.
Proof. induction p; cbn [popcount_pos]; lia. Qed.

Lemma popcount_nonneg (value : Z) : 0 <= popcount value.
Proof. destruct value; cbn; try lia. pose proof (popcount_pos_positive p). lia. Qed.

Lemma popcount_zero (value : Z) : 0 <= value -> popcount value = 0 -> value = 0.
Proof.
  intros Hv H. destruct value as [|p|p]; [reflexivity| |lia].
  cbn in H. pose proof (popcount_pos_positive p). lia.
Qed.

Lemma popcount_double (b : bool) (a : Z) :
  0 <= a -> popcount (2 * a + Z.b2z b) = popcount a + Z.b2z b.
Proof.
  intros Ha. destruct a as [|p|p]; [by destruct b| |lia].
  destruct b.
  - change (2 * Z.pos p + Z.b2z true) with (Z.pos p~1). unfold popcount, Z.b2z.
    cbn [popcount_pos]. lia.
  - change (2 * Z.pos p + Z.b2z false) with (Z.pos p~0). unfold popcount, Z.b2z.
    cbn [popcount_pos]. lia.
Qed.

(** A number is twice its half and its last bit. *)
Lemma halve (a : Z) : a = 2 * Z.div2 a + Z.b2z (Z.odd a).
Proof. apply Z.div2_odd. Qed.

Lemma lxor_halve (a b : Z) :
  Z.lxor a b = 2 * Z.lxor (Z.div2 a) (Z.div2 b) + Z.b2z (xorb (Z.odd a) (Z.odd b)).
Proof.
  rewrite {1}(halve (Z.lxor a b)). f_equal.
  - f_equal. rewrite !Z.div2_spec. apply Z.shiftr_lxor.
  - f_equal. rewrite <- !Z.bit0_odd. apply Z.lxor_spec.
Qed.

(** The weight of an exclusive or is at most the sum of the weights. *)
Lemma popcount_lxor_le (n : nat) (a b : Z) :
  0 <= a < 2 ^ Z.of_nat n -> 0 <= b < 2 ^ Z.of_nat n ->
  popcount (Z.lxor a b) <= popcount a + popcount b.
Proof.
  revert a b. induction n as [|n IH]; intros a b Ha Hb.
  - change (2 ^ Z.of_nat 0) with 1 in *.
    assert (a = 0) by lia. assert (b = 0) by lia. subst. cbn. lia.
  - rewrite Nat2Z.inj_succ in Ha, Hb. rewrite -> Z.pow_succ_r in Ha, Hb by lia.
    pose proof (halve a) as Ea. pose proof (halve b) as Eb.
    assert (Ha2 : 0 <= Z.div2 a < 2 ^ Z.of_nat n)
      by (destruct (Z.odd a); cbn [Z.b2z] in Ea; lia).
    assert (Hb2 : 0 <= Z.div2 b < 2 ^ Z.of_nat n)
      by (destruct (Z.odd b); cbn [Z.b2z] in Eb; lia).
    specialize (IH _ _ Ha2 Hb2).
    rewrite lxor_halve.
    rewrite -> popcount_double by (apply Z.lxor_nonneg; lia).
    assert (Pa : popcount a = popcount (Z.div2 a) + Z.b2z (Z.odd a)).
    { rewrite {1}Ea. apply popcount_double. lia. }
    assert (Pb : popcount b = popcount (Z.div2 b) + Z.b2z (Z.odd b)).
    { rewrite {1}Eb. apply popcount_double. lia. }
    rewrite Pa Pb.
    destruct (Z.odd a), (Z.odd b); cbn [xorb Z.b2z]; lia.
Qed.

Lemma lxor_bound (n : Z) (a b : Z) :
  0 <= n -> 0 <= a < 2 ^ n -> 0 <= b < 2 ^ n -> 0 <= Z.lxor a b < 2 ^ n.
Proof.
  intros Hn Ha Hb.
  assert (H0 : 0 <= Z.lxor a b) by (apply Z.lxor_nonneg; lia).
  split; [exact H0|].
  destruct (Z.eq_dec (Z.lxor a b) 0) as [->|Hne]; [apply Z.pow_pos_nonneg; lia|].
  apply Z.log2_lt_pow2; [lia|].
  apply Z.le_lt_trans with (Z.max (Z.log2 a) (Z.log2 b)).
  - apply Z.log2_lxor; lia.
  - destruct (Z.eq_dec a 0) as [->|Ha0]; destruct (Z.eq_dec b 0) as [->|Hb0].
    + by rewrite Z.lxor_0_l in Hne.
    + change (Z.log2 0) with 0. rewrite -> Z.max_r by apply Z.log2_nonneg.
      apply Z.log2_lt_pow2; lia.
    + change (Z.log2 0) with 0. rewrite -> Z.max_l by apply Z.log2_nonneg.
      apply Z.log2_lt_pow2; lia.
    + apply Z.max_lub_lt; apply Z.log2_lt_pow2; lia.
Qed.

(** The triangle inequality of the Hamming distance. *)
Lemma bitsDiffering_triangle (n : nat) (a b c : Z) :
  0 <= a < 2 ^ Z.of_nat n -> 0 <= b < 2 ^ Z.of_nat n -> 0 <= c < 2 ^ Z.of_nat n ->
  bitsDiffering a c <= bitsDiffering a b + bitsDiffering b c.
Proof.
  intros Ha Hb Hc. unfold bitsDiffering.
  replace (Z.lxor a c) with (Z.lxor (Z.lxor a b) (Z.lxor b c)).
  - apply (popcount_lxor_le n); apply lxor_bound; lia.
  - rewrite Z.lxor_assoc. rewrite <- (Z.lxor_assoc b b c).
    by rewrite Z.lxor_nilpotent Z.lxor_0_l.
Qed.

Lemma bitsDiffering_comm (a b : Z) : bitsDiffering a b = bitsDiffering b a.
Proof. unfold bitsDiffering. by rewrite Z.lxor_comm. Qed.

Lemma bitsDiffering_same (a : Z) : bitsDiffering a a = 0.
Proof. unfold bitsDiffering. by rewrite Z.lxor_nilpotent. Qed.

Lemma bitsDiffering_zero (n : Z) (a b : Z) :
  0 <= n -> 0 <= a < 2 ^ n -> 0 <= b < 2 ^ n -> bitsDiffering a b = 0 -> a = b.
Proof.
  intros Hn Ha Hb H. apply Z.lxor_eq.
  apply popcount_zero; [|exact H]. apply Z.lxor_nonneg. lia.
Qed.

(** The product of which [hammingWeight] returns the fourth byte, without
    the conversions to 32 bits that change nothing. *)
Definition weightProduct (value : Z) : Z :=
  let value := value - Z.land (Z.shiftr value 1) 0x55555555 in
  let value := Z.land value 0x33333333 + Z.land (Z.shiftr value 2) 0x33333333 in
  Z.land (value + Z.shiftr value 4) 0xf0f0f0f * 0x1010101.

Lemma land_le_l (a b : Z) : 0 <= a -> Z.land a b <= a.
Proof. intros Ha. rewrite Z.land_comm. by apply BitSourceFacts.land_le. Qed.

Lemma shiftr_le (a k : Z) : 0 <= a -> 0 <= k -> 0 <= Z.shiftr a k <= a.
Proof.
  intros Ha Hk. rewrite -> Z.shiftr_div_pow2 by lia.
  assert (Hp : 0 < 2 ^ k) by (apply Z.pow_pos_nonneg; lia).
  split; [apply Z.div_pos; lia|].
  apply Z.div_le_upper_bound; [lia|]. nia.
Qed.

Lemma js_shr_small (a k : Z) :
  0 <= a < 2 ^ 31 -> 0 <= k < 32 -> js_shr a k = Z.shiftr a k.
Proof.
  intros Ha Hk. unfold js_shr.
  rewrite -> toInt32_small by lia. by rewrite -> Z.mod_small by lia.
Qed.

Lemma hammingWeight_product (value : Z) :
  0 <= value < 2 ^ 31 ->
  0 <= weightProduct value
  /\ hammingWeight value = Z.shiftr (toInt32 (weightProduct value)) 24.
Proof.
  intros Hv. unfold hammingWeight, weightProduct.
  change (2 ^ 31) with 2147483648 in Hv.
  assert (H31 : 2 ^ 31 = 2147483648) by reflexivity.
  rewrite -> (js_shr_small value 1) by (rewrite ?H31; lia).
  pose proof (shiftr_le value 1 ltac:(lia) ltac:(lia)) as Hs1.
  assert (Ha1 : 0 <= Z.land (Z.shiftr value 1) 0x55555555 <= Z.shiftr value 1).
  { split; [apply Z.land_nonneg; lia | apply land_le_l; lia]. }
  rewrite -> (js_and_small (Z.shiftr value 1)) by (rewrite ?H31; lia).
  set (v1 := value - Z.land (Z.shiftr value 1) 0x55555555) in *.
  assert (Hv1 : 0 <= v1 < 2147483648) by (unfold v1; lia).
  rewrite -> (js_shr_small v1 2) by (rewrite ?H31; lia).
  pose proof (shiftr_le v1 2 ltac:(lia) ltac:(lia)) as Hs2.
  rewrite -> (js_and_small v1) by (rewrite ?H31; lia).
  rewrite -> (js_and_small (Z.shiftr v1 2)) by (rewrite ?H31; lia).
  assert (Hb1 : 0 <= Z.land v1 0x33333333 <= 0x33333333).
  { split; [apply Z.land_nonneg; lia | apply BitSourceFacts.land_le; lia]. }
  assert (Hb2 : 0 <= Z.land (Z.shiftr v1 2) 0x33333333 <= 0x33333333).
  { split; [apply Z.land_nonneg; lia | apply BitSourceFacts.land_le; lia]. }
  set (v2 := Z.land v1 0x33333333 + Z.land (Z.shiftr v1 2) 0x33333333) in *.
  assert (Hv2 : 0 <= v2 <= 0x66666666) by (unfold v2; lia).
  rewrite -> (js_shr_small v2 4) by (rewrite ?H31; lia).
  assert (Hs4 : 0 <= Z.shiftr v2 4 <= 0x6666666).
  { rewrite -> Z.shiftr_div_pow2 by lia. change (2 ^ 4) with 16.
    split; [apply Z.div_pos; lia|].
    pose proof (Z.div_le_mono v2 0x66666666 16 ltac:(lia) ltac:(lia)) as Hd.
    change (0x66666666 / 16) with 0x6666666 in Hd. exact Hd. }
  rewrite -> js_and_small by (rewrite ?H31; lia).
  assert (Hc : 0 <= Z.land (v2 + Z.shiftr v2 4) 0xf0f0f0f)
    by (apply Z.land_nonneg; lia).
  split; [lia|].
  unfold js_shr. by change (24 mod 32) with 24.
Qed.

(** A number whose low 32 bits are below 2^31 is converted to those. *)
Lemma toInt32_low (p : Z) :
  Z.land p 0xffffffff < 2147483648 -> toInt32 p = Z.land p 0xffffffff.
Proof.
  change 0xffffffff with (Z.ones 32). rewrite -> Z.land_ones by lia.
  intros Hlow. unfold toInt32.
  change (2 ^ 31) with 2147483648. change (2 ^ 32) with 4294967296 in *.
  pose proof (Z.mod_pos_bound p 4294967296 ltac:(lia)) as Hr.
  pose proof (Z.div_mod p 4294967296 ltac:(lia)) as Hd.
  rewrite <- (Z.mod_unique (p + 2147483648) 4294967296 (p / 4294967296)
                (p mod 4294967296 + 2147483648)); lia.
Qed.

Definition checkWeight (value : Z) : bool :=
  let low := Z.land (weightProduct value) 0xffffffff in
  (low <? 2147483648) && (Z.shiftr low 24 =? popcount value).

Lemma checkWeight_all : forall_from (Z.to_nat (2 ^ 18)) 0 checkWeight = true.
Proof. vm_compute. reflexivity. Qed.

(** [hammingWeight] counts the ones of a number of up to 18 bits. *)
Lemma hammingWeight_popcount (value : Z) :
  0 <= value < 2 ^ 18 -> hammingWeight value = popcount value.
Proof.
  intros Hv.
  assert (Hv' : 0 <= value < 2 ^ 31).
  { change (2 ^ 18) with 262144 in Hv. change (2 ^ 31) with 2147483648. lia. }
  destruct (hammingWeight_product value Hv') as [_ ->].
  pose proof (forall_from_spec _ _ checkWeight checkWeight_all value) as Hc.
  rewrite -> Z2Nat.id in Hc by lia. specialize (Hc ltac:(lia)).
  unfold checkWeight in Hc. cbv zeta in Hc.
  apply andb_prop in Hc as [Hlow Hw].
  apply Z.ltb_lt in Hlow. apply Z.eqb_eq in Hw.
  by rewrite -> toInt32_low by exact Hlow.
Qed.

(** The Hamming distance as the decoder computes it. *)
Lemma hammingWeight_xor (a b : Z) :
  0 <= a < 2 ^ 18 -> 0 <= b < 2 ^ 18 ->
  hammingWeight (js_xor a b) = bitsDiffering a b.
Proof.
  intros Ha Hb.
  change (2 ^ 18) with 262144 in *.
  rewrite -> js_xor_small by (change (2 ^ 31) with 2147483648; lia).
  apply hammingWeight_popcount. apply (lxor_bound 18); lia.
Qed.

End Hamming.

(** X11.  [hammingWeight] of a number of up to 18 bits, the width of the
    version information, is the number of ones in its binary numeral; of
    the XOR of two such numbers it is the number of bits in which they
    differ. *)
Theorem hammingWeight_counts_ones (a b : Z) :
  0 <= a < 2 ^ 18 -> 0 <= b < 2 ^ 18 ->
  hammingWeight a = popcount a
  /\ hammingWeight (js_xor a b) = bitsDiffering a b.
Proof.
  intros Ha Hb. split.
  - exact (Hamming.hammingWeight_popcount a Ha).
  - exact (Hamming.hammingWeight_xor a b Ha Hb).
Qed.

(** The theorem at 0x2A5B7, which has 11 ones, and 0x2A5B0, which differs
    from it in 3 bits. *)
Lemma hammingWeight_counts_ones_witness :
  hammingWeight 0x2a5b7 = 11 /\ hammingWeight (js_xor 0x2a5b7 0x2a5b0) = 3.
Proof.
  assert (Ha : 0 <= 0x2a5b7 < 2 ^ 18) by (split; [discriminate | reflexivity]).
  assert (Hb : 0 <= 0x2a5b0 < 2 ^ 18) by (split; [discriminate | reflexivity]).
  destruct (hammingWeight_counts_ones 0x2a5b7 0x2a5b0 Ha Hb) as [Hweight Hdiffer].
  split; [rewrite Hweight | rewrite Hdiffer]; reflexivity.
Defined.

Close Scope Z_scope.
Close Scope list_scope.

(* ===================================================================== *)
(** ** Damaged format and version information *)
(* ===================================================================== *)

Open Scope list_scope.
Open Scope Z_scope.

(** No number occurs twice in a list. *)
Fixpoint distinct (values : list Z) : bool :=
  match values with
  | nil => true
  | value :: rest => negb (List.existsb (Z.eqb value) rest) && distinct rest
  end.

(** Any two different code words of a list differ in at least [distance]
    bits. *)
Definition separated (distance : Z) (words : list Z) : bool :=
  List.forallb (fun a =>
    List.forallb (fun b => (a =? b) || (distance <=? bitsDiffering a b)) words) words.

Module CodeWords.

Import Hamming.

Lemma distinct_NoDup (values : list Z) : distinct values = true -> List.NoDup values.
Proof.
  induction values as [|value rest IH]; intros H; [constructor|].
  cbn [distinct] in H. apply andb_prop in H as [H0 H1].
  constructor; [|by apply IH].
  intros Hin. apply negb_true_iff in H0.
  assert (Hex : List.existsb (Z.eqb value) rest = true).
  { apply List.existsb_exists. exists value. split; [exact Hin | apply Z.eqb_refl]. }
  congruence.
Qed.

Lemma separated_spec (distance : Z) (words : list Z) (a b : Z) :
  separated distance words = true -> List.In a words -> List.In b words -> a <> b ->
  distance <= bitsDiffering a b.
Proof.
  intros H Ha Hb Hne. unfold separated in H.
  rewrite -> List.forallb_forall in H. specialize (H a Ha).
  rewrite -> List.forallb_forall in H. specialize (H b Hb).
  apply orb_prop in H as [H|H]; [apply Z.eqb_eq in H; contradiction|].
  by apply Z.leb_le.
Qed.

(** A word within 3 bits of a code word is at least 4 bits from every
    other code word of a list of distance 7 or more. *)
Lemma far_from_others (n : nat) (words before after : list Z) (word value other : Z) :
  (forall w, List.In w words -> 0 <= w < 2 ^ Z.of_nat n) ->
  distinct words = true -> separated 7 words = true ->
  words = (before ++ word :: after)%list ->
  0 <= value < 2 ^ Z.of_nat n -> bitsDiffering value word <= 3 ->
  List.In other (before ++ after)%list -> 4 <= bitsDiffering value other.
Proof.
  intros Hrange Hdistinct Hsep Hsplit Hvalue Hnear Hother.
  assert (Hin : List.In word words).
  { rewrite Hsplit. apply List.in_or_app. right. by left. }
  assert (Hin' : List.In other words).
  { rewrite Hsplit. apply List.in_or_app.
    apply List.in_app_or in Hother as [H|H]; [by left | right; by right]. }
  assert (Hne : word <> other).
  { intros ->. apply distinct_NoDup in Hdistinct. rewrite Hsplit in Hdistinct.
    by apply List.NoDup_remove_2 in Hdistinct. }
  pose proof (separated_spec 7 words word other Hsep Hin Hin' Hne) as H7.
  pose proof (bitsDiffering_triangle n word value other (Hrange _ Hin) Hvalue
                (Hrange _ Hin')) as Ht.
  rewrite (bitsDiffering_comm word value) in Ht. lia.
Qed.

Lemma differs (value word : Z) : 1 <= bitsDiffering value word -> (value =? word) = false.
Proof.
  intros H. apply Z.eqb_neq. intros ->. rewrite bitsDiffering_same in H. lia.
Qed.

End CodeWords.

Module FormatInfoFacts.

Import Hamming CodeWords.

Definition words : list Z := List.map fst FORMAT_INFO_DECODE_TABLE.

Lemma words_range (w : Z) : List.In w words -> 0 <= w < 2 ^ Z.of_nat 15.
Proof.
  intros H. change (2 ^ Z.of_nat 15) with 32768.
  assert (Hall : List.forallb (fun w => (0 <=? w) && (w <? 32768)) words = true)
    by (vm_compute; reflexivity).
  rewrite -> List.forallb_forall in Hall. specialize (Hall w H). lia.
Qed.

Lemma words_distinct : distinct words = true.
Proof. vm_compute. reflexivity. Qed.

Lemma words_separated : separated 7 words = true.
Proof. vm_compute. reflexivity. Qed.

(** The rows of the table from which both readings are 4 bits or more
    away. *)
Definition farRows (formatInfo1 formatInfo2 : Z) (rows : list (Z * Z)) : Prop :=
  forall row, List.In row rows ->
    0 <= fst row < 2 ^ 15
    /\ 4 <= bitsDiffering formatInfo1 (fst row)
    /\ 4 <= bitsDiffering formatInfo2 (fst row).

Lemma weight (a b : Z) :
  0 <= a < 2 ^ 15 -> 0 <= b < 2 ^ 15 -> hammingWeight (js_xor a b) = bitsDiffering a b.
Proof.
  intros Ha Hb. change (2 ^ 15) with 32768 in *.
  apply hammingWeight_xor; change (2 ^ 18) with 262144; lia.
Qed.

(** A row that is far from both readings leaves a best difference of 3
    or less as it is, and one of 4 or more at 4 or more. *)
Lemma scan_far_row (masked formatInfo : Z) (rest : list (Z * Z))
  (formatInfo1 formatInfo2 bestDiff bestFormatInfo : Z) :
  0 <= formatInfo1 < 2 ^ 15 -> 0 <= formatInfo2 < 2 ^ 15 -> 0 <= masked < 2 ^ 15 ->
  4 <= bitsDiffering formatInfo1 masked -> 4 <= bitsDiffering formatInfo2 masked ->
  exists bestDiff' bestFormatInfo',
    decodeFormatInfo_scan ((masked, formatInfo) :: rest) formatInfo1 formatInfo2
      bestDiff bestFormatInfo
    = decodeFormatInfo_scan rest formatInfo1 formatInfo2 bestDiff' bestFormatInfo'
    /\ (bestDiff <= 3 -> bestDiff' = bestDiff /\ bestFormatInfo' = bestFormatInfo)
    /\ (4 <= bestDiff -> 4 <= bestDiff').
Proof.
  intros H1 H2 Hm Hd1 Hd2. cbn [decodeFormatInfo_scan].
  rewrite -> (differs formatInfo1 masked) by lia.
  rewrite -> (differs formatInfo2 masked) by lia.
  cbn [orb].
  rewrite -> !weight by assumption.
  destruct (Z.ltb_spec (bitsDiffering formatInfo1 masked) bestDiff) as [Hlt1|Hge1];
    destruct (negb (formatInfo1 =? formatInfo2));
    try match goal with
    | |- context [bitsDiffering formatInfo2 masked <? ?b] =>
        destruct (Z.ltb_spec (bitsDiffering formatInfo2 masked) b)
    end;
    eexists; eexists; (split; [reflexivity|]); split; intros; try split; lia.
Qed.

Lemma scan_far (rows : list (Z * Z)) (formatInfo1 formatInfo2 bestDiff bestFormatInfo : Z) :
  0 <= formatInfo1 < 2 ^ 15 -> 0 <= formatInfo2 < 2 ^ 15 ->
  farRows formatInfo1 formatInfo2 rows ->
  exists bestDiff',
    (bestDiff <= 3 -> bestDiff' = bestDiff) /\ (4 <= bestDiff -> 4 <= bestDiff')
    /\ decodeFormatInfo_scan rows formatInfo1 formatInfo2 bestDiff bestFormatInfo
       = if bestDiff' <=? 3 then newFormatInfo bestFormatInfo
         else Throw (Error "unable to decode format information").
Proof.
  intros H1 H2. revert bestDiff bestFormatInfo.
  induction rows as [|[masked formatInfo] rest IH]; intros bestDiff bestFormatInfo Hfar.
  - exists bestDiff. split; [auto|]. split; [auto|]. reflexivity.
  - destruct (Hfar (masked, formatInfo) ltac:(by left)) as [Hm [Hd1 Hd2]].
    cbn [fst] in Hm, Hd1, Hd2.
    destruct (scan_far_row masked formatInfo rest formatInfo1 formatInfo2 bestDiff
                bestFormatInfo H1 H2 Hm Hd1 Hd2) as [bd [bi [Hstep [Hkeep Hhigh]]]].
    assert (Hrest : farRows formatInfo1 formatInfo2 rest).
    { intros row Hrow. apply Hfar. by right. }
    destruct (IH bd bi Hrest) as [bd' [Hkeep' [Hhigh' Hscan]]].
    exists bd'. rewrite Hstep Hscan.
    destruct (Z.le_gt_cases bestDiff 3) as [Hle|Hgt].
    + destruct (Hkeep Hle) as [-> ->].
      split; [auto|]. split; [lia|]. reflexivity.
    + specialize (Hhigh ltac:(lia)). specialize (Hhigh' Hhigh).
      split; [lia|]. split; [auto|].
      destruct (Z.leb_spec bd' 3); [lia | reflexivity].
Qed.

(** The scan of rows among which one is within 3 bits of both readings
    and the others are far from them. *)
Lemma scan_near (before after : list (Z * Z)) (masked formatInfo : Z)
  (formatInfo1 formatInfo2 bestDiff bestFormatInfo : Z) :
  0 <= formatInfo1 < 2 ^ 15 -> 0 <= formatInfo2 < 2 ^ 15 -> 0 <= masked < 2 ^ 15 ->
  farRows formatInfo1 formatInfo2 before -> farRows formatInfo1 formatInfo2 after ->
  bitsDiffering formatInfo1 masked <= 3 -> bitsDiffering formatInfo2 masked <= 3 ->
  4 <= bestDiff ->
  decodeFormatInfo_scan (before ++ (masked, formatInfo) :: after)%list formatInfo1 formatInfo2
    bestDiff bestFormatInfo
  = newFormatInfo formatInfo.
Proof.
  intros H1 H2 Hm Hbefore Hafter Hd1 Hd2. revert bestDiff bestFormatInfo.
  induction before as [|[masked' formatInfo'] before IH];
    intros bestDiff bestFormatInfo Hbest.
  - cbn [List.app decodeFormatInfo_scan].
    destruct ((formatInfo1 =? masked) || (formatInfo2 =? masked)); [reflexivity|].
    rewrite -> !weight by assumption.
    pose proof (popcount_nonneg (Z.lxor formatInfo1 masked)) as Hn1.
    pose proof (popcount_nonneg (Z.lxor formatInfo2 masked)) as Hn2.
    fold (bitsDiffering formatInfo1 masked) in Hn1.
    fold (bitsDiffering formatInfo2 masked) in Hn2.
    destruct (Z.ltb_spec (bitsDiffering formatInfo1 masked) bestDiff) as [_|Hge]; [|lia].
    assert (Hscan : forall bd, bd <= 3 ->
              decodeFormatInfo_scan after formatInfo1 formatInfo2 bd formatInfo
              = newFormatInfo formatInfo).
    { intros bd Hbd.
      destruct (scan_far after formatInfo1 formatInfo2 bd formatInfo H1 H2 Hafter)
        as [bd' [Hkeep [_ ->]]].
      rewrite (Hkeep Hbd). by destruct (Z.leb_spec bd 3); [|lia]. }
    destruct (negb (formatInfo1 =? formatInfo2)); [|by apply Hscan].
    destruct (Z.ltb_spec (bitsDiffering formatInfo2 masked)
                (bitsDiffering formatInfo1 masked)); by apply Hscan.
  - cbn [List.app].
    destruct (Hbefore (masked', formatInfo') ltac:(by left)) as [Hm' [Hd1' Hd2']].
    cbn [fst] in Hm', Hd1', Hd2'.
    destruct (scan_far_row masked' formatInfo' (before ++ (masked, formatInfo) :: after)%list
                formatInfo1 formatInfo2 bestDiff bestFormatInfo H1 H2 Hm' Hd1' Hd2')
      as [bd [bi [-> [_ Hhigh]]]].
    apply IH; [|by apply Hhigh].
    intros row Hrow. apply Hbefore. by right.
Qed.

(** The rows on the two sides of a row of the table are far from a
    reading that is within 3 bits of that row. *)
Lemma others_far (before after : list (Z * Z)) (masked formatInfo : Z)
  (formatInfo1 formatInfo2 : Z) :
  FORMAT_INFO_DECODE_TABLE = (before ++ (masked, formatInfo) :: after)%list ->
  0 <= formatInfo1 < 2 ^ 15 -> 0 <= formatInfo2 < 2 ^ 15 ->
  bitsDiffering formatInfo1 masked <= 3 -> bitsDiffering formatInfo2 masked <= 3 ->
  farRows formatInfo1 formatInfo2 before /\ farRows formatInfo1 formatInfo2 after.
Proof.
  intros Hsplit H1 H2 Hd1 Hd2.
  assert (Hwords : words = (List.map fst before ++ masked :: List.map fst after)%list).
  { unfold words. rewrite Hsplit List.map_app. reflexivity. }
  assert (Hfar : forall row, List.In row (before ++ after)%list ->
            0 <= fst row < 2 ^ 15
            /\ 4 <= bitsDiffering formatInfo1 (fst row)
            /\ 4 <= bitsDiffering formatInfo2 (fst row)).
  { intros row Hrow.
    assert (Hin : List.In (fst row) (List.map fst before ++ List.map fst after)%list).
    { rewrite <- List.map_app. by apply List.in_map. }
    assert (Hin' : List.In (fst row) words).
    { rewrite Hwords. apply List.in_or_app.
      apply List.in_app_or in Hin as [H|H]; [by left | right; by right]. }
    split; [exact (words_range _ Hin')|].
    split.
    - exact (far_from_others 15 words _ _ masked formatInfo1 (fst row) words_range
               words_distinct words_separated Hwords H1 Hd1 Hin).
    - exact (far_from_others 15 words _ _ masked formatInfo2 (fst row) words_range
               words_distinct words_separated Hwords H2 Hd2 Hin). }
  split; intros row Hrow; apply Hfar; apply List.in_or_app; [by left | by right].
Qed.

(** Every value of the table makes a format information. *)
Definition checkRow (row : Z * Z) : bool :=
  match newFormatInfo (snd row) with
  | Ok info =>
      (FormatInfo_mask info =? snd row mod 8)
      && (ECLevel_bits (FormatInfo_level info) =? snd row / 8)
  | Throw _ => false
  end.

Lemma checkRow_all : List.forallb checkRow FORMAT_INFO_DECODE_TABLE = true.
Proof. vm_compute. reflexivity. Qed.

End FormatInfoFacts.

(** X9.  [decodeFormatInfo] corrects up to 3 wrong bits in each reading:
    when both 15-bit readings differ from the same code word of
    [FORMAT_INFO_DECODE_TABLE] in at most 3 bits each, it returns the format
    information of that code word, whose mask is the low 3 bits and whose
    level has the next 2 bits.  When both readings differ from every
    code word of the table in 4 bits or more, it throws. *)
Theorem decodeFormatInfo_corrects (formatInfo1 formatInfo2 : Z) :
  0 <= formatInfo1 < 2 ^ 15 -> 0 <= formatInfo2 < 2 ^ 15 ->
  (forall maskedFormatInfo formatInfo,
     List.In (maskedFormatInfo, formatInfo) FORMAT_INFO_DECODE_TABLE ->
     bitsDiffering formatInfo1 maskedFormatInfo <= 3 ->
     bitsDiffering formatInfo2 maskedFormatInfo <= 3 ->
     exists level,
       decodeFormatInfo formatInfo1 formatInfo2
       = Ok {| FormatInfo_mask := formatInfo mod 8; FormatInfo_level := level |}
       /\ ECLevel_bits level = formatInfo / 8)
  /\ ((forall maskedFormatInfo formatInfo,
         List.In (maskedFormatInfo, formatInfo) FORMAT_INFO_DECODE_TABLE ->
         4 <= bitsDiffering formatInfo1 maskedFormatInfo
         /\ 4 <= bitsDiffering formatInfo2 maskedFormatInfo) ->
      exists e, decodeFormatInfo formatInfo1 formatInfo2 = Throw e).
Proof.
  intros H1 H2. split.
  - intros masked formatInfo Hin Hd1 Hd2.
    destruct (List.in_split _ _ Hin) as [before [after Hsplit]].
    destruct (FormatInfoFacts.others_far before after masked formatInfo formatInfo1
                formatInfo2 Hsplit H1 H2 Hd1 Hd2) as [Hbefore Hafter].
    assert (Hm : 0 <= masked < 2 ^ 15).
    { apply FormatInfoFacts.words_range. apply (List.in_map fst) in Hin. exact Hin. }
    unfold decodeFormatInfo. rewrite Hsplit.
    rewrite -> (FormatInfoFacts.scan_near before after masked formatInfo formatInfo1
                  formatInfo2 32 0) by (try assumption; lia).
    pose proof FormatInfoFacts.checkRow_all as Hrows.
    rewrite -> List.forallb_forall in Hrows. specialize (Hrows _ Hin).
    unfold FormatInfoFacts.checkRow in Hrows. cbn [snd] in Hrows.
    destruct (newFormatInfo formatInfo) as [[mask level]|e]; [|discriminate].
    cbn [FormatInfo_mask FormatInfo_level] in Hrows.
    apply andb_prop in Hrows as [Hmask Hlevel].
    apply Z.eqb_eq in Hmask. apply Z.eqb_eq in Hlevel.
    exists level. by rewrite Hmask.
  - intros Hfar.
    assert (Hrows : FormatInfoFacts.farRows formatInfo1 formatInfo2
                      FORMAT_INFO_DECODE_TABLE).
    { intros [masked formatInfo] Hin. cbn [fst].
      split; [|by apply (Hfar masked formatInfo)].
      apply FormatInfoFacts.words_range. apply (List.in_map fst) in Hin. exact Hin. }
    destruct (FormatInfoFacts.scan_far FORMAT_INFO_DECODE_TABLE formatInfo1 formatInfo2
                32 0 H1 H2 Hrows) as [bd [_ [Hhigh Hscan]]].
    unfold decodeFormatInfo. rewrite Hscan.
    specialize (Hhigh ltac:(lia)).
    destruct (Z.leb_spec bd 3); [lia|]. by eexists.
Qed.

(** The theorem at the code word 0x40CE of the level M and the mask 5,
    read once with its bits 0, 7 and 14 wrong and once with its bits 3
    and 4 wrong; and at the readings 0 and 0x7FFF. *)
Lemma decodeFormatInfo_corrects_witness :
  decodeFormatInfo 0x004f 0x40d6 = Ok {| FormatInfo_mask := 5; FormatInfo_level := M |}
  /\ exists e, decodeFormatInfo 0 0x7fff = Throw e.
Proof.
  split.
  - destruct (decodeFormatInfo_corrects 0x004f 0x40d6 ltac:(lia) ltac:(lia)) as [Hnear _].
    destruct (Hnear 0x40ce 0x05) as [level [Hdecode Hlevel]].
    + vm_compute. tauto.
    + vm_compute. discriminate.
    + vm_compute. discriminate.
    + change (5 / 8) with 0 in Hlevel. change (5 mod 8) with 5 in Hdecode.
      clear Hnear.
      destruct level; try discriminate Hlevel. exact Hdecode.
  - destruct (decodeFormatInfo_corrects 0 0x7fff ltac:(lia) ltac:(lia)) as [_ Hfar].
    apply Hfar. intros masked formatInfo Hin.
    vm_compute in Hin.
    repeat (destruct Hin as [Hin|Hin];
            [injection Hin as <- <-; split; vm_compute; discriminate|]).
    contradiction.
Defined.

Module VersionInfoFacts.

Import Hamming CodeWords.

Lemma version_words_range (w : Z) : List.In w VERSION_DECODE_TABLE -> 0 <= w < 2 ^ Z.of_nat 18.
Proof.
  intros H. change (2 ^ Z.of_nat 18) with 262144.
  assert (Hall : List.forallb (fun w => (0 <=? w) && (w <? 262144)) VERSION_DECODE_TABLE
                 = true) by (vm_compute; reflexivity).
  rewrite -> List.forallb_forall in Hall. specialize (Hall w H). lia.
Qed.

Lemma version_words_distinct : distinct VERSION_DECODE_TABLE = true.
Proof. vm_compute. reflexivity. Qed.

Lemma version_words_separated : separated 7 VERSION_DECODE_TABLE = true.
Proof. vm_compute. reflexivity. Qed.

Definition farRows (version1 version2 : Z) (rows : list Z) : Prop :=
  forall masked, List.In masked rows ->
    0 <= masked < 2 ^ 18
    /\ 4 <= bitsDiffering version1 masked
    /\ 4 <= bitsDiffering version2 masked.

Definition unable : result Version := Throw (Error "unable to decode version").

Lemma version_scan_far_row (masked : Z) (rest : list Z) (i version1 version2 bestDiff bestVersion : Z) :
  0 <= version1 < 2 ^ 18 -> 0 <= version2 < 2 ^ 18 -> 0 <= masked < 2 ^ 18 ->
  4 <= bitsDiffering version1 masked -> 4 <= bitsDiffering version2 masked ->
  exists bestDiff' bestVersion',
    decodeVersion_scan (masked :: rest) i version1 version2 bestDiff bestVersion
    = decodeVersion_scan rest (i + 1) version1 version2 bestDiff' bestVersion'
    /\ (bestDiff <= 3 -> bestDiff' = bestDiff /\ bestVersion' = bestVersion)
    /\ (4 <= bestDiff -> 4 <= bestDiff').
Proof.
  intros H1 H2 Hm Hd1 Hd2. cbn [decodeVersion_scan].
  rewrite -> (differs version1 masked) by lia.
  rewrite -> (differs version2 masked) by lia.
  cbn [orb].
  rewrite -> !hammingWeight_xor by assumption.
  destruct (Z.ltb_spec (bitsDiffering version1 masked) bestDiff) as [Hlt1|Hge1];
    destruct (negb (version1 =? version2));
    try match goal with
    | |- context [bitsDiffering version2 masked <? ?b] =>
        destruct (Z.ltb_spec (bitsDiffering version2 masked) b)
    end;
    eexists; eexists; (split; [reflexivity|]); split; intros; try split; lia.
Qed.

Lemma version_scan_far (rows : list Z) (i version1 version2 bestDiff bestVersion : Z) :
  0 <= version1 < 2 ^ 18 -> 0 <= version2 < 2 ^ 18 ->
  farRows version1 version2 rows ->
  exists bestDiff' bestVersion',
    (bestDiff <= 3 -> bestDiff' = bestDiff /\ bestVersion' = bestVersion)
    /\ (4 <= bestDiff -> 4 <= bestDiff')
    /\ decodeVersion_scan rows i version1 version2 bestDiff bestVersion
       = if (bestDiff' <=? 3) && (bestVersion' >=? 7) then VERSIONS_at (bestVersion' - 1)
         else unable.
Proof.
  intros H1 H2. revert i bestDiff bestVersion.
  induction rows as [|masked rest IH]; intros i bestDiff bestVersion Hfar.
  - exists bestDiff, bestVersion. split; [auto|]. split; [auto|]. reflexivity.
  - destruct (Hfar masked ltac:(by left)) as [Hm [Hd1 Hd2]].
    destruct (version_scan_far_row masked rest i version1 version2 bestDiff bestVersion
                H1 H2 Hm Hd1 Hd2) as [bd [bv [Hstep [Hkeep Hhigh]]]].
    assert (Hrest : farRows version1 version2 rest).
    { intros row Hrow. apply Hfar. by right. }
    destruct (IH (i + 1) bd bv Hrest) as [bd' [bv' [Hkeep' [Hhigh' Hscan]]]].
    exists bd', bv'. rewrite Hstep Hscan.
    split; [|split; [|reflexivity]].
    + intros Hle. destruct (Hkeep Hle) as [-> ->]. by apply Hkeep'.
    + intros Hge. apply Hhigh'. by apply Hhigh.
Qed.

Lemma version_scan_near (before after : list Z) (masked : Z)
  (i version1 version2 bestDiff bestVersion : Z) :
  0 <= version1 < 2 ^ 18 -> 0 <= version2 < 2 ^ 18 -> 0 <= masked < 2 ^ 18 ->
  farRows version1 version2 before -> farRows version1 version2 after ->
  bitsDiffering version1 masked <= 3 -> bitsDiffering version2 masked <= 3 ->
  0 <= i -> 4 <= bestDiff ->
  decodeVersion_scan (before ++ masked :: after)%list i version1 version2
    bestDiff bestVersion
  = VERSIONS_at (i + Z.of_nat (List.length before) + 6).
Proof.
  intros H1 H2 Hm Hbefore Hafter Hd1 Hd2. revert i bestDiff bestVersion.
  induction before as [|masked' before IH]; intros i bestDiff bestVersion Hi Hbest.
  - cbn [List.app decodeVersion_scan List.length]. change (Z.of_nat 0) with 0.
    rewrite Z.add_0_r.
    destruct ((version1 =? masked) || (version2 =? masked)); [reflexivity|].
    rewrite -> !hammingWeight_xor by assumption.
    pose proof (popcount_nonneg (Z.lxor version1 masked)) as Hn1.
    pose proof (popcount_nonneg (Z.lxor version2 masked)) as Hn2.
    fold (bitsDiffering version1 masked) in Hn1.
    fold (bitsDiffering version2 masked) in Hn2.
    destruct (Z.ltb_spec (bitsDiffering version1 masked) bestDiff) as [_|Hge]; [|lia].
    assert (Hscan : forall bd, bd <= 3 ->
              decodeVersion_scan after (i + 1) version1 version2 bd (i + 7)
              = VERSIONS_at (i + 6)).
    { intros bd Hbd.
      destruct (version_scan_far after (i + 1) version1 version2 bd (i + 7) H1 H2 Hafter)
        as [bd' [bv' [Hkeep [_ ->]]]].
      destruct (Hkeep Hbd) as [-> ->].
      destruct (Z.leb_spec bd 3); [|lia].
      destruct (Z.geb_spec (i + 7) 7); [|lia].
      cbn [andb]. f_equal. lia. }
    destruct (negb (version1 =? version2)); [|by apply Hscan].
    destruct (Z.ltb_spec (bitsDiffering version2 masked)
                (bitsDiffering version1 masked)); by apply Hscan.
  - cbn [List.app].
    destruct (Hbefore masked' ltac:(by left)) as [Hm' [Hd1' Hd2']].
    destruct (version_scan_far_row masked' (before ++ masked :: after)%list i version1 version2
                bestDiff bestVersion H1 H2 Hm' Hd1' Hd2')
      as [bd [bv [-> [_ Hhigh]]]].
    rewrite -> IH.
    + f_equal. cbn [List.length]. lia.
    + intros row Hrow. apply Hbefore. by right.
    + lia.
    + by apply Hhigh.
Qed.

Lemma version_others_far (before after : list Z) (masked version1 version2 : Z) :
  VERSION_DECODE_TABLE = (before ++ masked :: after)%list ->
  0 <= version1 < 2 ^ 18 -> 0 <= version2 < 2 ^ 18 ->
  bitsDiffering version1 masked <= 3 -> bitsDiffering version2 masked <= 3 ->
  farRows version1 version2 before /\ farRows version1 version2 after.
Proof.
  intros Hsplit H1 H2 Hd1 Hd2.
  assert (Hfar : forall row, List.In row (before ++ after)%list ->
            0 <= row < 2 ^ 18
            /\ 4 <= bitsDiffering version1 row /\ 4 <= bitsDiffering version2 row).
  { intros row Hrow.
    assert (Hin' : List.In row VERSION_DECODE_TABLE).
    { rewrite Hsplit. apply List.in_or_app.
      apply List.in_app_or in Hrow as [H|H]; [by left | right; by right]. }
    split; [exact (version_words_range _ Hin')|].
    split.
    - exact (far_from_others 18 VERSION_DECODE_TABLE _ _ masked version1 row version_words_range
               version_words_distinct version_words_separated Hsplit H1 Hd1 Hrow).
    - exact (far_from_others 18 VERSION_DECODE_TABLE _ _ masked version2 row version_words_range
               version_words_distinct version_words_separated Hsplit H2 Hd2 Hrow). }
  split; intros row Hrow; apply Hfar; apply List.in_or_app; [by left | by right].
Qed.

(** The version that the row [i] of the table stands for. *)
Definition checkRow (i : Z) : bool :=
  match VERSIONS_at (i + 6) with
  | Ok version =>
      (Version_version version =? i + 7) && (Version_size version =? 17 + 4 * (i + 7))
  | Throw _ => false
  end.

Lemma version_checkRow_all : List.forallb checkRow (below 34) = true.
Proof. vm_compute. reflexivity. Qed.

End VersionInfoFacts.

(** X10.  [decodeVersion] corrects up to 3 wrong bits in each reading:
    when both 18-bit readings differ from the code word at the index [i]
    of [VERSION_DECODE_TABLE] in at most 3 bits each, it returns the
    version [i + 7], of the size 17 + 4 (i + 7).  When both readings differ
    from every code word of the table in 4 bits or more, it throws. *)
Theorem decodeVersion_corrects (version1 version2 : Z) :
  0 <= version1 < 2 ^ 18 -> 0 <= version2 < 2 ^ 18 ->
  (forall i maskedVersion,
     List.nth_error VERSION_DECODE_TABLE i = Some maskedVersion ->
     bitsDiffering version1 maskedVersion <= 3 ->
     bitsDiffering version2 maskedVersion <= 3 ->
     exists version,
       decodeVersion version1 version2 = Ok version
       /\ Version_version version = Z.of_nat i + 7
       /\ Version_size version = 17 + 4 * (Z.of_nat i + 7))
  /\ ((forall maskedVersion, List.In maskedVersion VERSION_DECODE_TABLE ->
         4 <= bitsDiffering version1 maskedVersion
         /\ 4 <= bitsDiffering version2 maskedVersion) ->
      exists e, decodeVersion version1 version2 = Throw e).
Proof.
  intros H1 H2. split.
  - intros i masked Hnth Hd1 Hd2.
    assert (Hi : (i < 34)%coq_nat).
    { change 34%nat with (List.length VERSION_DECODE_TABLE).
      apply List.nth_error_Some. congruence. }
    assert (Hin : List.In masked VERSION_DECODE_TABLE) by exact (List.nth_error_In _ _ Hnth).
    destruct (List.nth_error_split _ _ Hnth) as [before [after [Hsplit Hlen]]].
    destruct (VersionInfoFacts.version_others_far before after masked version1 version2
                Hsplit H1 H2 Hd1 Hd2) as [Hbefore Hafter].
    unfold decodeVersion. rewrite Hsplit.
    rewrite -> (VersionInfoFacts.version_scan_near before after masked 0 version1 version2 32 0)
      by (try assumption; try lia; exact (VersionInfoFacts.version_words_range _ Hin)).
    rewrite Hlen Z.add_0_l.
    pose proof VersionInfoFacts.version_checkRow_all as Hrows.
    rewrite -> List.forallb_forall in Hrows.
    specialize (Hrows (Z.of_nat i) (In_below 34 (Z.of_nat i) ltac:(lia))).
    unfold VersionInfoFacts.checkRow in Hrows.
    destruct (VERSIONS_at (Z.of_nat i + 6)) as [version|e]; [|discriminate].
    apply andb_prop in Hrows as [Hnumber Hsize].
    apply Z.eqb_eq in Hnumber. apply Z.eqb_eq in Hsize.
    by exists version.
  - intros Hfar.
    assert (Hrows : VersionInfoFacts.farRows version1 version2 VERSION_DECODE_TABLE).
    { intros masked Hin. split; [|by apply Hfar].
      exact (VersionInfoFacts.version_words_range _ Hin). }
    destruct (VersionInfoFacts.version_scan_far VERSION_DECODE_TABLE 0 version1 version2
                32 0 H1 H2 Hrows) as [bd [bv [_ [Hhigh Hscan]]]].
    unfold decodeVersion. rewrite Hscan.
    specialize (Hhigh ltac:(lia)).
    destruct (Z.leb_spec bd 3); [lia|]. by eexists.
Qed.

(** The theorem at the code word 0x07C94 of the version 7, read once
    with its bits 0, 1 and 17 wrong and once with its bit 9 wrong. *)
Lemma decodeVersion_corrects_witness :
  exists version,
    decodeVersion 0x27c97 0x07e94 = Ok version
    /\ Version_version version = 7 /\ Version_size version = 45.
Proof.
  destruct (decodeVersion_corrects 0x27c97 0x07e94 ltac:(lia) ltac:(lia)) as [Hnear _].
  destruct (Hnear 0%nat 0x07c94) as [version [Hdecode [Hnumber Hsize]]].
  - reflexivity.
  - vm_compute. discriminate.
  - vm_compute. discriminate.
  - exists version. split; [exact Hdecode|]. split; [exact Hnumber | exact Hsize].
Defined.

Close Scope Z_scope.
Close Scope list_scope.
